(** * ezBIND: the reactive binding engine of ezWeb

    A shallow embedding of the binding module (ezBIND.js): the path
    model, the deep reactive proxy, the binding registries and the
    change hook, the rebuild scheduler, the ezFor repeater, the select
    model renderer and the event-handler resolver.

    JavaScript strings are modelled as [string]: sequences of code units
    below 256.  Numbers that the engine handles as keys are natural
    numbers ([N]); they stand for JavaScript numbers as long as they are
    safe integers (below 2^53). *)

From Stdlib Require Import Ascii String List NArith ZArith Bool Lia.
From Stdlib Require Import DecimalString DecimalN.
From stdpp Require Import base option list gmap strings.

Local Open Scope string_scope.

#[local] Arguments String.append !_ _ : simpl nomatch.

(** ** Path utilities *)

Module Path.

(** A path is an array of keys; a key is a string or (after parsing a
    bracketed index) a number. *)
Inductive key :=
| KStr (s : string)
| KNum (n : N).

Abbreviation path := (list key).

Definition key_eqb (a b : key) : bool :=
  match a, b with
  | KStr s, KStr t => String.eqb s t
  | KNum n, KNum m => N.eqb n m
  | _, _ => false
  end.

Global Instance key_eq_dec : EqDecision key.
Proof. solve_decision. Defined.

(** *** Character classes of the regular expressions *)

Definition code (c : ascii) : nat := nat_of_ascii c.

Definition between (lo hi : nat) (c : ascii) : bool :=
  Nat.leb lo (code c) && Nat.leb (code c) hi.

(** [/[0-9]/] *)
Definition isDigit (c : ascii) : bool := between 48 57 c.

(** [/[A-Za-z_$]/] *)
Definition isIdentStart (c : ascii) : bool :=
  between 65 90 c || between 97 122 c || Nat.eqb (code c) 95 || Nat.eqb (code c) 36.

(** [/[A-Za-z0-9_$]/] *)
Definition isIdentChar (c : ascii) : bool :=
  isIdentStart c || isDigit c.

(** [/\s/] on code units below 256: TAB, LF, VT, FF, CR, SPACE, NBSP. *)
Definition isSpace (c : ascii) : bool :=
  between 9 13 c || Nat.eqb (code c) 32 || Nat.eqb (code c) 160.

Definition dquote : ascii := ascii_of_nat 34.
Definition squote : ascii := ascii_of_nat 39.
Definition backslash : ascii := ascii_of_nat 92.

Definition ascii_eqb (a b : ascii) : bool := Ascii.eqb a b.

(** *** Scanning helpers: each inner [while] loop of the parsers *)

(** [while (i < s.length && /\s/.test(s[i])) i++] *)
Fixpoint skip_ws (s : string) : string :=
  match s with
  | String c r => if isSpace c then skip_ws r else s
  | EmptyString => s
  end.

(** [while (i < s.length && p(s[i])) acc += s[i++]] *)
Fixpoint span (p : ascii -> bool) (s : string) : string * string :=
  match s with
  | String c r =>
      if p c then let '(a, rest) := span p r in (String c a, rest)
      else (EmptyString, s)
  | EmptyString => (EmptyString, EmptyString)
  end.

(** [if (s[i] === c) i++] *)
Definition eat (c : ascii) (s : string) : string :=
  match s with
  | String d r => if ascii_eqb d c then r else s
  | EmptyString => s
  end.

(** The quoted-key loop: copies characters up to the closing quote [q];
    a backslash that is not the last character copies the character
    after it. Returns the buffer and the text from the closing quote on. *)
Fixpoint read_quoted (q : ascii) (s : string) : string * string :=
  match s with
  | EmptyString => (EmptyString, EmptyString)
  | String c r =>
      if ascii_eqb c q then (EmptyString, s)
      else if ascii_eqb c backslash then
        match r with
        | String d r' =>
            let '(buf, rest) := read_quoted q r' in (String d buf, rest)
        | EmptyString => (String c EmptyString, EmptyString)
        end
      else let '(buf, rest) := read_quoted q r in (String c buf, rest)
  end.

(** [String.prototype.trim] *)
Fixpoint trim_end (s : string) : string :=
  match s with
  | EmptyString => EmptyString
  | String c r =>
      let r' := trim_end r in
      if isSpace c && String.eqb r' EmptyString then EmptyString else String c r'
  end.

Definition trim (s : string) : string := trim_end (skip_ws s).

(** [parseInt(num, 10)] on a run of decimal digits. *)
Definition parseInt (num : string) : N :=
  match NilEmpty.uint_of_string num with
  | Some d => N.of_uint d
  | None => 0%N
  end.

(** [String(n)] for a number that is a safe integer. *)
Definition numToString (n : N) : string :=
  NilEmpty.string_of_uint (N.to_uint n).

(** *** _parsePath *)

(** One turn of the outer [while (i < s.length)] loop: the keys pushed
    (at most one) and the text left. *)
Definition parse_step (s : string) : option key * string :=
  match s with
  | EmptyString => (None, EmptyString)
  | String ch r =>
      if ascii_eqb ch "." then (None, r)
      else if ascii_eqb ch "[" then
        let r1 := skip_ws r in
        match r1 with
        | String q r2 =>
            if ascii_eqb q dquote || ascii_eqb q squote then
              let '(buf, r3) := read_quoted q r2 in
              (Some (KStr buf), eat "]" (skip_ws (eat q r3)))
            else
              let '(num, r3) := span isDigit r1 in
              (if String.eqb num EmptyString then None else Some (KNum (parseInt num)),
               eat "]" (skip_ws r3))
        | EmptyString => (None, EmptyString)
        end
      else if isIdentStart ch then
        let '(name, r1) := span isIdentChar s in
        (Some (KStr name), r1)
      else (None, r)
  end.

Fixpoint parse_loop (fuel : nat) (s : string) : path :=
  match fuel with
  | O => []
  | S fuel' =>
      match s with
      | EmptyString => []
      | _ =>
          let '(k, rest) := parse_step s in
          match k with
          | Some k => k :: parse_loop fuel' rest
          | None => parse_loop fuel' rest
          end
      end
  end.

Definition _parsePath (pathString : string) : path :=
  let s := trim pathString in
  parse_loop (String.length s) s.

(** *** _pathToString *)

(** [/^\d+$/] *)
Fixpoint allDigits (s : string) : bool :=
  match s with
  | EmptyString => true
  | String c r => isDigit c && allDigits r
  end.

Definition isDigits (s : string) : bool :=
  negb (String.eqb s EmptyString) && allDigits s.

(** [/^[A-Za-z_$][A-Za-z0-9_$]*$/] *)
Fixpoint allIdentChars (s : string) : bool :=
  match s with
  | EmptyString => true
  | String c r => isIdentChar c && allIdentChars r
  end.

Definition isIdent (s : string) : bool :=
  match s with
  | String c r => isIdentStart c && allIdentChars r
  | EmptyString => false
  end.

Definition hexDigit (n : nat) : ascii :=
  ascii_of_nat (if Nat.ltb n 10 then 48 + n else 87 + n).

(** [JSON.stringify] of one code unit inside a string literal. *)
Definition jsonEscape (c : ascii) : string :=
  let n := code c in
  if Nat.eqb n 34 then String backslash (String dquote EmptyString)
  else if Nat.eqb n 92 then String backslash (String backslash EmptyString)
  else if Nat.eqb n 8 then String backslash "b"
  else if Nat.eqb n 9 then String backslash "t"
  else if Nat.eqb n 10 then String backslash "n"
  else if Nat.eqb n 12 then String backslash "f"
  else if Nat.eqb n 13 then String backslash "r"
  else if Nat.ltb n 32 then
    String backslash ("u00" ++ String (hexDigit (n / 16)) (String (hexDigit (n mod 16)) EmptyString))
  else String c EmptyString.

Fixpoint jsonBody (s : string) : string :=
  match s with
  | EmptyString => EmptyString
  | String c r => jsonEscape c ++ jsonBody r
  end.

(** [JSON.stringify(ks)] for a string. *)
Definition jsonStringify (s : string) : string :=
  String dquote (jsonBody s ++ String dquote EmptyString).

(** [String(k)] *)
Definition keyString (k : key) : string :=
  match k with
  | KStr s => s
  | KNum n => numToString n
  end.

(** The body of the [for] loop: the text that [s += ...] appends for
    key [k]; [first] says whether [s] is still empty. *)
Definition segment (first : bool) (k : key) : string :=
  let ks := keyString k in
  match k with
  | KNum _ => "[" ++ ks ++ "]"
  | KStr _ =>
      if isDigits ks then "[" ++ ks ++ "]"
      else if isIdent ks then (if first then EmptyString else ".") ++ ks
      else "[" ++ jsonStringify ks ++ "]"
  end.

Definition appendKey (s : string) (k : key) : string :=
  s ++ segment (String.eqb s EmptyString) k.

Definition _pathToString (pathArr : path) : string :=
  fold_left appendKey pathArr EmptyString.

(** *** _isPathPrefix *)

Fixpoint stripPrefix (p s : string) : option string :=
  match p with
  | EmptyString => Some s
  | String c p' =>
      match s with
      | String d s' => if ascii_eqb c d then stripPrefix p' s' else None
      | EmptyString => None
      end
  end.

Definition startsWith (s p : string) : bool :=
  match stripPrefix p s with Some _ => true | None => false end.

Definition _isPathPrefix (prefix full : string) : bool :=
  if String.eqb prefix EmptyString || String.eqb full EmptyString then false
  else if String.eqb full prefix then true
  else
    match stripPrefix prefix full with
    | None => false
    | Some rest =>
        match rest with
        | String ch _ => ascii_eqb ch "." || ascii_eqb ch "["
        | EmptyString => false
        end
    end.


(** *** Facts about the scanning helpers *)

Lemma skip_ws_length s : String.length (skip_ws s) <= String.length s.
Proof. induction s as [|c r IH]; simpl; [lia|]. destruct (isSpace c); simpl; lia. Qed.

Lemma span_length p s : String.length (snd (span p s)) <= String.length s.
Proof.
  induction s as [|c r IH]; simpl; [lia|].
  destruct (p c); simpl; [|lia]. destruct (span p r); simpl in *; lia.
Qed.

Lemma eat_length c s : String.length (eat c s) <= String.length s.
Proof. destruct s as [|d r]; simpl; [lia|]. destruct (ascii_eqb d c); simpl; lia. Qed.

Lemma read_quoted_length q s : String.length (snd (read_quoted q s)) <= String.length s.
Proof.
  remember (String.length s) as n eqn:Hn.
  revert s Hn. induction n as [n IH] using lt_wf_ind. intros s ->.
  destruct s as [|c r]; simpl; [lia|].
  destruct (ascii_eqb c q); simpl; [lia|].
  destruct (ascii_eqb c backslash).
  - destruct r as [|d r']; simpl; [lia|].
    specialize (IH (String.length r') ltac:(simpl; lia) r' eq_refl).
    destruct (read_quoted q r'); simpl in *; lia.
  - specialize (IH (String.length r) ltac:(simpl; lia) r eq_refl).
    destruct (read_quoted q r); simpl in *; lia.
Qed.

(** Every turn of the outer loop consumes at least one character. *)
Lemma parse_step_length s :
  s <> EmptyString -> String.length (snd (parse_step s)) < String.length s.
Proof.
  destruct s as [|ch r]; [congruence|]. intros _. unfold parse_step.
  destruct (ascii_eqb ch "."); [simpl; lia|].
  destruct (ascii_eqb ch "[").
  - pose proof (skip_ws_length r) as Hws.
    destruct (skip_ws r) as [|q r2] eqn:Hr1; [simpl; lia|].
    destruct (ascii_eqb q dquote || ascii_eqb q squote).
    + pose proof (read_quoted_length q r2) as Hq.
      destruct (read_quoted q r2) as [buf r3]. simpl in Hq |- *.
      pose proof (eat_length "]" (skip_ws (eat q r3))).
      pose proof (skip_ws_length (eat q r3)). pose proof (eat_length q r3).
      simpl in Hws. lia.
    + pose proof (span_length isDigit (String q r2)) as Hsp.
      destruct (span isDigit (String q r2)) as [num r3]. simpl in Hsp |- *.
      pose proof (eat_length "]" (skip_ws r3)). pose proof (skip_ws_length r3).
      simpl in Hws. lia.
  - destruct (isIdentStart ch) eqn:Hid; [|simpl; lia].
    simpl. unfold isIdentChar. rewrite Hid. simpl.
    pose proof (span_length (fun c => isIdentStart c || isDigit c) r) as Hsp.
    destruct (span (fun c => isIdentStart c || isDigit c) r); simpl in *; lia.
Qed.

(** The loop needs no more fuel than there are characters. *)
Lemma parse_loop_fuel : forall fuel s,
  String.length s <= fuel -> parse_loop fuel s = parse_loop (String.length s) s.
Proof.
  intros fuel s. remember (String.length s) as n eqn:Hn.
  revert fuel s Hn. induction n as [n IH] using lt_wf_ind. intros fuel s -> Hle.
  destruct s as [|ch r]; [destruct fuel; reflexivity|].
  destruct fuel as [|fuel]; [simpl in Hle; lia|].
  pose proof (parse_step_length (String ch r) ltac:(congruence)) as Hlt.
  cbn [String.length parse_loop] in *.
  destruct (parse_step (String ch r)) as [k rest]. simpl in Hlt.
  rewrite (IH (String.length rest) ltac:(lia) fuel rest eq_refl ltac:(lia)).
  rewrite (IH (String.length rest) ltac:(lia) (String.length r) rest eq_refl ltac:(lia)).
  reflexivity.
Qed.


(** *** Canonical strings re-parse to the keys they were made from *)

(** A key survives the trip through its canonical text when its string
    form has no control character (which [JSON.stringify] would write
    as an escape the parser does not undo) and, if it is a digit
    string, it is the decimal form of a safe integer. *)
Fixpoint noControl (s : string) : bool :=
  match s with
  | EmptyString => true
  | String c r => Nat.leb 32 (code c) && noControl r
  end.

Definition safeInt (n : N) : bool := (n <? 2 ^ 53)%N.

Definition stableKey (k : key) : bool :=
  match k with
  | KNum n => safeInt n
  | KStr s =>
      noControl s &&
      (if isDigits s then String.eqb (numToString (parseInt s)) s && safeInt (parseInt s)
       else true)
  end.

(** Digit strings are indices: the parser reads them back as numbers. *)
Definition normKey (k : key) : key :=
  match k with
  | KStr s => if isDigits s then KNum (parseInt s) else k
  | KNum _ => k
  end.

Fixpoint render (first : bool) (ks : path) : string :=
  match ks with
  | [] => EmptyString
  | k :: r => segment first k ++ render false r
  end.

Lemma app_nil_r_s (s : string) : s ++ EmptyString = s.
Proof. induction s; simpl; congruence. Qed.

Lemma app_assoc_s (a b c : string) : (a ++ b) ++ c = a ++ (b ++ c).
Proof. induction a; simpl; congruence. Qed.

Lemma app_length_s (a b : string) :
  String.length (a ++ b) = String.length a + String.length b.
Proof. induction a; simpl; congruence. Qed.

Lemma app_empty_s (a b : string) : a ++ b = EmptyString -> a = EmptyString /\ b = EmptyString.
Proof. destruct a; simpl; [auto|discriminate]. Qed.

Lemma segment_ne first k : segment first k <> EmptyString.
Proof.
  unfold segment. destruct k as [t|n]; simpl; [|discriminate].
  destruct (isDigits t); [discriminate|].
  destruct (isIdent t) eqn:Hi; [|discriminate].
  destruct t; [discriminate|]. destruct first; discriminate.
Qed.

Lemma fold_appendKey ks : forall s,
  fold_left appendKey ks s = s ++ render (String.eqb s EmptyString) ks.
Proof.
  induction ks as [|k r IH]; intros s; simpl; [now rewrite app_nil_r_s|].
  rewrite IH. unfold appendKey. rewrite app_assoc_s. f_equal. f_equal.
  destruct (String.eqb_spec (s ++ segment (String.eqb s EmptyString) k) EmptyString) as [E|E];
    [|reflexivity].
  apply app_empty_s in E. destruct E as [_ E]. now apply segment_ne in E.
Qed.

Lemma pathToString_render ks : _pathToString ks = render true ks.
Proof. unfold _pathToString. now rewrite fold_appendKey. Qed.


Ltac all_ascii c :=
  destruct c as [[] [] [] [] [] [] [] []]; try discriminate; try (vm_compute; tauto).

Lemma digit_not_space c : isDigit c = true -> isSpace c = false.
Proof. all_ascii c. Qed.

Lemma digit_not_quote c :
  isDigit c = true -> ascii_eqb c dquote || ascii_eqb c squote = false.
Proof. all_ascii c. Qed.

Lemma identStart_plain c :
  isIdentStart c = true -> ascii_eqb c "." = false /\ ascii_eqb c "[" = false.
Proof. all_ascii c. Qed.

(** What may follow a key in a canonical string: nothing, or the [.] or
    [[] that opens the next key. *)
Definition boundary (s : string) : bool :=
  match s with
  | EmptyString => true
  | String c _ => ascii_eqb c "." || ascii_eqb c "["
  end.

Lemma boundary_stops p rest :
  (forall c, ascii_eqb c "." || ascii_eqb c "[" = true -> p c = false) ->
  boundary rest = true -> span p rest = (EmptyString, rest).
Proof.
  intros Hp Hb. destruct rest as [|c r]; [reflexivity|]. simpl in *. now rewrite Hp.
Qed.

Lemma sep_not_digit c : ascii_eqb c "." || ascii_eqb c "[" = true -> isDigit c = false.
Proof. all_ascii c. Qed.

Lemma sep_not_identChar c : ascii_eqb c "." || ascii_eqb c "[" = true -> isIdentChar c = false.
Proof. all_ascii c. Qed.

Lemma span_all_digits ds tail :
  allDigits ds = true -> span isDigit (ds ++ String "]" tail) = (ds, String "]" tail).
Proof.
  induction ds as [|c r IH]; simpl; intros H; [reflexivity|].
  apply andb_prop in H. destruct H as [Hc Hr]. rewrite Hc, (IH Hr). reflexivity.
Qed.

Lemma span_all_ident t rest :
  allIdentChars t = true -> boundary rest = true ->
  span isIdentChar (t ++ rest) = (t, rest).
Proof.
  intros Ht Hb. induction t as [|c r IH]; simpl in *.
  - apply boundary_stops; [apply sep_not_identChar|assumption].
  - apply andb_prop in Ht. destruct Ht as [Hc Hr]. rewrite Hc, (IH Hr). reflexivity.
Qed.

Lemma parse_step_dot x : parse_step (String "." x) = (None, x).
Proof. reflexivity. Qed.

Lemma parse_step_index d ds rest :
  isDigit d = true -> allDigits ds = true ->
  parse_step ("[" ++ String d ds ++ "]" ++ rest)
  = (Some (KNum (parseInt (String d ds))), rest).
Proof.
  intros Hd Hds. cbn [String.append parse_step].
  change (ascii_eqb "[" ".") with false. change (ascii_eqb "[" "[") with true. cbv iota.
  cbn [skip_ws]. rewrite (digit_not_space _ Hd). rewrite (digit_not_quote _ Hd).
  change (String d (ds ++ String "]" rest)) with (String d ds ++ String "]" rest).
  rewrite span_all_digits by (simpl; now rewrite Hd, Hds).
  reflexivity.
Qed.

Lemma parse_step_ident t rest :
  isIdent t = true -> boundary rest = true ->
  parse_step (t ++ rest) = (Some (KStr t), rest).
Proof.
  intros Ht Hb. destruct t as [|c r]; [discriminate|].
  simpl in Ht. apply andb_prop in Ht. destruct Ht as [Hc Hr].
  destruct (identStart_plain _ Hc) as [H1 H2].
  cbn [String.append parse_step]. rewrite H1, H2, Hc.
  change (String c (r ++ rest)) with (String c r ++ rest).
  rewrite span_all_ident; [reflexivity| |assumption].
  simpl. unfold isIdentChar at 1. now rewrite Hc, Hr.
Qed.

(** The quoted-key loop undoes [JSON.stringify] as long as no control
    character was escaped. *)
Lemma read_quoted_json t tail :
  noControl t = true ->
  read_quoted dquote (jsonBody t ++ String dquote tail) = (t, String dquote tail).
Proof.
  induction t as [|c r IH]; intros H.
  - simpl. change (ascii_eqb dquote dquote) with true. reflexivity.
  - cbn [noControl] in H. apply andb_prop in H. destruct H as [Hc Hr].
    specialize (IH Hr). cbn [jsonBody]. rewrite app_assoc_s. revert IH.
    generalize (jsonBody r ++ String dquote tail). intros body IH.
    assert (Hcases :
      (jsonEscape c = String backslash (String c EmptyString)
       /\ (ascii_eqb c dquote = true \/ ascii_eqb c backslash = true))
      \/ (jsonEscape c = String c EmptyString
          /\ ascii_eqb c dquote = false /\ ascii_eqb c backslash = false)).
    { clear -Hc. all_ascii c. }
    destruct Hcases as [[-> _]|[-> [Hq Hb]]]; cbn [String.append read_quoted].
    + change (ascii_eqb backslash dquote) with false.
      change (ascii_eqb backslash backslash) with true. cbv iota.
      now rewrite IH.
    + now rewrite Hq, Hb, IH.
Qed.

Lemma parse_step_quoted t rest :
  noControl t = true ->
  parse_step ("[" ++ jsonStringify t ++ "]" ++ rest) = (Some (KStr t), rest).
Proof.
  intros Ht. unfold jsonStringify. cbn [String.append parse_step].
  change (ascii_eqb "[" ".") with false. change (ascii_eqb "[" "[") with true. cbv iota.
  cbn [skip_ws]. change (isSpace dquote) with false. cbv iota.
  change (ascii_eqb dquote dquote) with true. cbn [orb].
  rewrite app_assoc_s. cbn [String.append].
  rewrite read_quoted_json by assumption.
  cbn [eat]. change (ascii_eqb dquote dquote) with true. cbv iota.
  reflexivity.
Qed.


Lemma string_of_uint_digits d : allDigits (NilEmpty.string_of_uint d) = true.
Proof. induction d; simpl; auto. Qed.

Lemma numToString_digits n : isDigits (numToString n) = true.
Proof.
  unfold isDigits, numToString. rewrite string_of_uint_digits, andb_true_r.
  destruct (String.eqb_spec (NilEmpty.string_of_uint (N.to_uint n)) EmptyString) as [E|E];
    [|reflexivity].
  pose proof (NilEmpty.usu (N.to_uint n)) as H. rewrite E in H. simpl in H.
  injection H as H. pose proof (DecimalN.Unsigned.of_to n) as Hn.
  rewrite <- H in Hn. simpl in Hn. subst n. discriminate.
Qed.

Lemma parseInt_numToString n : parseInt (numToString n) = n.
Proof.
  unfold parseInt, numToString. rewrite NilEmpty.usu. apply DecimalN.Unsigned.of_to.
Qed.

Lemma isDigits_cons t :
  isDigits t = true -> exists d ds, t = String d ds /\ isDigit d = true /\ allDigits ds = true.
Proof.
  unfold isDigits. destruct t as [|d ds]; [discriminate|]. simpl.
  intros H. apply andb_prop in H. destruct H. eauto.
Qed.

Lemma isDigits_not_ident t : isDigits t = true -> isIdent t = false.
Proof.
  intros H. destruct (isDigits_cons _ H) as (d & ds & -> & Hd & _). simpl.
  assert (isIdentStart d = false) as -> by (clear -Hd; all_ascii d). reflexivity.
Qed.

Lemma parse_loop_S fuel s :
  s <> EmptyString ->
  parse_loop (S fuel) s =
  match parse_step s with
  | (Some k, rest) => k :: parse_loop fuel rest
  | (None, rest) => parse_loop fuel rest
  end.
Proof. destruct s; [congruence|]. intros _. cbn [parse_loop]. now destruct (parse_step _) as [[k|] rest]. Qed.

Lemma segment_boundary k : boundary (segment false k) = true.
Proof.
  unfold segment. destruct k as [t|n]; simpl; [|reflexivity].
  destruct (isDigits t); [reflexivity|]. destruct (isIdent t); reflexivity.
Qed.

Lemma boundary_app a b : a <> EmptyString -> boundary a = true -> boundary (a ++ b) = true.
Proof. destruct a; [congruence|]. auto. Qed.

Lemma render_boundary ks : boundary (render false ks) = true.
Proof.
  destruct ks as [|k r]; [reflexivity|]. simpl.
  apply boundary_app; [apply segment_ne|apply segment_boundary].
Qed.

(** Parsing a canonical string gives back the keys, digit strings read
    as indices. *)
Lemma parse_render ks : forall first fuel,
  forallb stableKey ks = true ->
  String.length (render first ks) <= fuel ->
  parse_loop fuel (render first ks) = map normKey ks.
Proof.
  induction ks as [|k r IH]; intros first fuel Hst Hlen.
  - destruct fuel; reflexivity.
  - cbn [forallb] in Hst. apply andb_prop in Hst. destruct Hst as [Hk Hr].
    cbn [render map] in *. rewrite app_length_s in Hlen.
    pose proof (render_boundary r) as Hb.
    assert (Hne : forall x, segment first k ++ x <> EmptyString).
    { intros x E. apply app_empty_s in E. destruct E as [E _]. now apply segment_ne in E. }
    destruct fuel as [|fuel].
    { exfalso. pose proof (segment_ne first k). destruct (segment first k); simpl in *; [congruence|lia]. }
    rewrite parse_loop_S by apply Hne.
    unfold segment in *. destruct k as [t|n]; cbn [keyString normKey] in *.
    + destruct (isDigits t) eqn:Hd.
      * destruct (isDigits_cons _ Hd) as (d & ds & -> & Hd1 & Hd2).
        rewrite !app_assoc_s. rewrite parse_step_index by assumption.
        f_equal. apply IH; [assumption|]. rewrite !app_length_s in Hlen. simpl in Hlen. lia.
      * destruct (isIdent t) eqn:Hi.
        -- destruct first.
           ++ cbn [String.append]. rewrite parse_step_ident by assumption.
              f_equal. apply IH; [assumption|].
              destruct t; [discriminate|]. simpl in Hlen. lia.
           ++ rewrite app_assoc_s. cbn [String.append]. rewrite parse_step_dot.
              rewrite !app_length_s in Hlen. cbn [String.length] in Hlen.
              destruct fuel as [|fuel]; [destruct t; [discriminate|simpl in Hlen; lia]|].
              rewrite parse_loop_S
                by (intros E; apply app_empty_s in E; destruct E as [-> _]; discriminate).
              rewrite parse_step_ident by assumption.
              f_equal. apply IH; [assumption|].
              destruct t; [discriminate|]. simpl in Hlen. lia.
        -- cbn [stableKey] in Hk. apply andb_prop in Hk. destruct Hk as [Hc _].
           rewrite !app_assoc_s. rewrite parse_step_quoted by assumption.
           f_equal. apply IH; [assumption|]. rewrite !app_length_s in Hlen. simpl in Hlen. lia.
    + pose proof (numToString_digits n) as Hd.
      destruct (isDigits_cons _ Hd) as (d & ds & E & Hd1 & Hd2).
      pose proof (parseInt_numToString n) as Hp. rewrite E in *.
      rewrite !app_assoc_s. rewrite parse_step_index by assumption.
      rewrite Hp. f_equal. apply IH; [assumption|].
      rewrite !app_length_s in Hlen. simpl in Hlen. lia.
Qed.


(** [trim] leaves a canonical string alone: it starts with [[] or an
    identifier character and ends with []] or an identifier character. *)
Fixpoint lastNonSpace (s : string) : bool :=
  match s with
  | EmptyString => true
  | String c r =>
      match r with
      | EmptyString => negb (isSpace c)
      | _ => lastNonSpace r
      end
  end.

Lemma trim_end_id s : lastNonSpace s = true -> trim_end s = s.
Proof.
  induction s as [|c r IH]; [reflexivity|]. cbn [lastNonSpace trim_end].
  destruct r as [|d r'].
  - intros H. apply negb_true_iff in H. simpl. now rewrite H.
  - intros H. rewrite (IH H). now rewrite andb_false_r.
Qed.

Lemma lastNonSpace_app a b :
  b <> EmptyString -> lastNonSpace (a ++ b) = lastNonSpace b.
Proof.
  intros Hb. induction a as [|c r IH]; [reflexivity|].
  cbn [String.append lastNonSpace]. rewrite IH.
  destruct (r ++ b) eqn:E; [|reflexivity].
  apply app_empty_s in E. destruct E. congruence.
Qed.

Lemma identChar_not_space c : isIdentChar c = true -> isSpace c = false.
Proof. all_ascii c. Qed.

Lemma ident_lastNonSpace t :
  t <> EmptyString -> allIdentChars t = true -> lastNonSpace t = true.
Proof.
  induction t as [|c r IH]; [congruence|]. intros _ H.
  cbn [allIdentChars] in H. apply andb_prop in H. destruct H as [Hc Hr].
  cbn [lastNonSpace]. destruct r as [|d r'].
  - now rewrite (identChar_not_space _ Hc).
  - apply IH; [discriminate|assumption].
Qed.

Lemma segment_lastNonSpace first k : lastNonSpace (segment first k) = true.
Proof.
  assert (Hbr : forall x, lastNonSpace ("[" ++ x ++ "]") = true).
  { intros x. rewrite <- app_assoc_s. now rewrite lastNonSpace_app by discriminate. }
  unfold segment. destruct k as [t|n]; cbn [keyString]; [|apply Hbr].
  destruct (isDigits t); [apply Hbr|].
  destruct (isIdent t) eqn:Hi; [|apply Hbr].
  destruct t as [|c r]; [discriminate|].
  rewrite lastNonSpace_app by discriminate.
  simpl in Hi. apply andb_prop in Hi. destruct Hi as [Hc Hr].
  apply ident_lastNonSpace; [discriminate|]. cbn [allIdentChars].
  unfold isIdentChar at 1. now rewrite Hc, Hr.
Qed.

Lemma render_lastNonSpace ks : forall first, lastNonSpace (render first ks) = true.
Proof.
  induction ks as [|k r IH]; intros first; [reflexivity|]. cbn [render].
  destruct (render false r) eqn:E.
  - rewrite app_nil_r_s. apply segment_lastNonSpace.
  - rewrite lastNonSpace_app by discriminate. rewrite <- E. apply IH.
Qed.

Lemma render_skip_ws ks : skip_ws (render true ks) = render true ks.
Proof.
  destruct ks as [|k r]; [reflexivity|]. cbn [render].
  assert (H : exists c x, segment true k = String c x /\ isSpace c = false).
  { unfold segment. destruct k as [t|n]; cbn [keyString]; [|now eexists _, _].
    destruct (isDigits t); [now eexists _, _|].
    destruct (isIdent t) eqn:Hi; [|now eexists _, _].
    destruct t as [|c x]; [discriminate|]. exists c, x. split; [reflexivity|].
    simpl in Hi. apply andb_prop in Hi. destruct Hi as [Hc _].
    apply identChar_not_space. unfold isIdentChar. now rewrite Hc. }
  destruct H as (c & x & -> & Hc). simpl. now rewrite Hc.
Qed.

Lemma trim_render ks : trim (render true ks) = render true ks.
Proof. unfold trim. rewrite render_skip_ws. apply trim_end_id, render_lastNonSpace. Qed.

Lemma parse_canonical ks :
  forallb stableKey ks = true ->
  _parsePath (_pathToString ks) = map normKey ks.
Proof.
  intros H. unfold _parsePath. rewrite pathToString_render, trim_render.
  now apply parse_render.
Qed.

Lemma segment_normKey first k :
  stableKey k = true -> segment first (normKey k) = segment first k.
Proof.
  destruct k as [t|n]; [|reflexivity]. cbn [stableKey normKey].
  destruct (isDigits t) eqn:Hd; [|reflexivity].
  intros H. apply andb_prop in H. destruct H as [_ H].
  apply andb_prop in H. destruct H as [H _]. apply String.eqb_eq in H.
  unfold segment. cbn [keyString]. now rewrite Hd, H.
Qed.

Lemma render_normKey ks : forall first,
  forallb stableKey ks = true -> render first (map normKey ks) = render first ks.
Proof.
  induction ks as [|k r IH]; intros first H; [reflexivity|].
  cbn [forallb] in H. apply andb_prop in H. destruct H as [Hk Hr].
  cbn [map render]. now rewrite segment_normKey, IH.
Qed.

Lemma pathToString_normKey ks :
  forallb stableKey ks = true -> _pathToString (map normKey ks) = _pathToString ks.
Proof. intros H. rewrite !pathToString_render. now apply render_normKey. Qed.

(** A key that is not a digit string is read back unchanged. *)
Definition plainKey (k : key) : bool :=
  match k with
  | KStr s => negb (isDigits s)
  | KNum _ => true
  end.

Lemma normKey_plain ks : forallb plainKey ks = true -> map normKey ks = ks.
Proof.
  induction ks as [|k r IH]; [reflexivity|]. cbn [forallb map].
  intros H. apply andb_prop in H. destruct H as [Hk Hr]. rewrite (IH Hr). f_equal.
  destruct k as [t|n]; [|reflexivity]. simpl in *. apply negb_true_iff in Hk. now rewrite Hk.
Qed.

End Path.

(** ** The reactive data core and the binding engine *)

Module Engine.
Import Path.

Local Open Scope list_scope.

(** *** Values and raw objects *)

Abbreviation loc := nat.   (* identity of a raw object or array *)
Abbreviation pid := nat.   (* identity of a Proxy *)
Abbreviation node := nat.  (* identity of a DOM node; the document is node 0 *)

(** Function values: the built-in constructors ([Object], [Array],
    [Function], ...) and prototype methods that values inherit, the
    change hook the bind module installs, and functions of the
    application. *)
Inductive fn :=
| FCtor (name : string)
| FProto (name : string)
| FBindHook
| FUser (id : nat).

Inductive value :=
| VUndef
| VNull
| VBool (b : bool)
| VNum (z : Z)
| VNaN
| VStr (s : string)
| VFun (f : fn)
| VObj (l : loc)
| VProxy (p : pid).

Global Instance fn_eq_dec : EqDecision fn.
Proof. solve_decision. Defined.

Global Instance value_eq_dec : EqDecision value.
Proof. solve_decision. Defined.

(** One own property of a raw object: a data property with its value
    and its [writable], [enumerable] and [configurable] attributes, or
    the [__proto__] accessor that [Object.prototype] carries, with the
    two attributes an accessor has. Accessors made by the application
    are not part of the model. *)
Inductive prop :=
| PData (v : value) (writable enumerable configurable : bool)
| PProto (enumerable configurable : bool).

(** A raw object: whether it is an array, whether properties can be
    added to it, its prototype (null, a raw object or a function) and
    its own properties. *)
Record obj := MkObj {
  o_array : bool;
  o_extensible : bool;
  o_proto : value;
  o_own : gmap string prop;
}.

Global Instance prop_eq_dec : EqDecision prop.
Proof. solve_decision. Defined.

Global Instance obj_eq_dec : EqDecision obj.
Proof. solve_decision. Defined.

(** The prototype objects every realm starts with live in the heap, at
    these places. *)
Definition objectProto : loc := 100.
Definition arrayProto : loc := 101.
Definition functionProto : loc := 102.
Definition stringProto : loc := 103.
Definition numberProto : loc := 104.
Definition booleanProto : loc := 105.

Definition propValue (p : prop) : option value :=
  match p with
  | PData v _ _ _ => Some v
  | PProto _ _ => None
  end.

(** The values of the own data properties. *)
Definition o_props (o : obj) : gmap string value := omap propValue (o_own o).

(** What an object or array literal makes: [{...}] or [[...]] with
    these own properties, and with [frozen] what [Object.freeze] turns
    it into. The [length] of an array cannot be deleted. *)
Definition Obj (arr frozen : bool) (props : gmap string value) : obj :=
  MkObj arr (negb frozen) (VObj (if arr then arrayProto else objectProto))
    (map_imap
       (fun k v =>
          Some (PData v (negb frozen) (negb (arr && String.eqb k "length"))
                  (negb frozen && negb (arr && String.eqb k "length"))))
       props).

(** [a === b] *)
Definition strict_eq (a b : value) : bool :=
  match a, b with
  | VNaN, _ | _, VNaN => false
  | _, _ => bool_decide (a = b)
  end.

(** [!!v] *)
Definition truthy (v : value) : bool :=
  match v with
  | VUndef | VNull | VNaN => false
  | VBool b => b
  | VNum z => negb (Z.eqb z 0)
  | VStr s => negb (String.eqb s EmptyString)
  | VFun _ | VObj _ | VProxy _ => true
  end.

(** [v == null] *)
Definition nullish (v : value) : bool :=
  match v with
  | VUndef | VNull => true
  | _ => false
  end.

(** [typeof v === "object"] with [v] not null. *)
Definition isObjectValue (v : value) : bool :=
  match v with
  | VObj _ | VProxy _ => true
  | _ => false
  end.

(** The function-valued members of the built-in prototypes. *)
Definition objectProtoMethods : list string :=
  ["hasOwnProperty"; "isPrototypeOf"; "propertyIsEnumerable"; "toLocaleString";
   "toString"; "valueOf"; "__defineGetter__"; "__defineSetter__";
   "__lookupGetter__"; "__lookupSetter__"].

Definition arrayProtoMethods : list string :=
  ["at"; "concat"; "copyWithin"; "entries"; "every"; "fill"; "filter"; "find";
   "findIndex"; "findLast"; "findLastIndex"; "flat"; "flatMap"; "forEach";
   "includes"; "indexOf"; "join"; "keys"; "lastIndexOf"; "map"; "pop"; "push";
   "reduce"; "reduceRight"; "reverse"; "shift"; "slice"; "some"; "sort";
   "splice"; "toLocaleString"; "toReversed"; "toSorted"; "toSpliced";
   "toString"; "unshift"; "values"; "with"].

Definition functionProtoMethods : list string := ["apply"; "bind"; "call"; "toString"].

Definition stringProtoMethods : list string :=
  ["anchor"; "at"; "big"; "blink"; "bold"; "charAt"; "charCodeAt"; "codePointAt";
   "concat"; "endsWith"; "fixed"; "fontcolor"; "fontsize"; "includes"; "indexOf";
   "isWellFormed"; "italics"; "lastIndexOf"; "link"; "localeCompare"; "match";
   "matchAll"; "normalize"; "padEnd"; "padStart"; "repeat"; "replace";
   "replaceAll"; "search"; "slice"; "small"; "split"; "startsWith"; "strike";
   "sub"; "substr"; "substring"; "sup"; "toLocaleLowerCase"; "toLocaleUpperCase";
   "toLowerCase"; "toString"; "toUpperCase"; "toWellFormed"; "trim"; "trimEnd";
   "trimLeft"; "trimRight"; "trimStart"; "valueOf"].

Definition numberProtoMethods : list string :=
  ["toExponential"; "toFixed"; "toLocaleString"; "toPrecision"; "toString"; "valueOf"].

Definition booleanProtoMethods : list string := ["toString"; "valueOf"].

(** The own properties of a built-in prototype: its constructor and its
    methods, each a function of its own. *)
Definition members (ctor : string) (names : list string) : gmap string prop :=
  <["constructor" := PData (VFun (FCtor ctor)) true false true]>
    (list_to_map
       (map (fun n => (n, PData (VFun (FProto (ctor +:+ ".prototype." +:+ n))) true false true))
            names)).

(** The prototype objects of a realm nothing has been added to. *)
Definition stdProtos : gmap loc obj :=
  {[ objectProto :=
       MkObj false true VNull
         (<["__proto__" := PProto false true]> (members "Object" objectProtoMethods));
     arrayProto :=
       MkObj true true (VObj objectProto)
         (<["length" := PData (VNum 0) true false false]> (members "Array" arrayProtoMethods));
     functionProto :=
       MkObj false true (VObj objectProto)
         (<["length" := PData (VNum 0) false false true]>
            (<["name" := PData (VStr EmptyString) false false true]>
               (members "Function" functionProtoMethods)));
     stringProto :=
       MkObj false true (VObj objectProto)
         (<["length" := PData (VNum 0) false false false]>
            (members "String" stringProtoMethods));
     numberProto := MkObj false true (VObj objectProto) (members "Number" numberProtoMethods);
     booleanProto := MkObj false true (VObj objectProto) (members "Boolean" booleanProtoMethods) ]}.

(** The heap of a fresh realm that holds the objects [objs]. *)
Definition realm (objs : gmap loc obj) : gmap loc obj := objs ∪ stdProtos.

(** Names the deep proxy reserves. *)
Definition K_isProxy : string := "__isEzDeepProxy".
Definition K_onChange : string := "__onChange".
Definition K_raw : string := "__raw".

Definition _isInternalKey (k : string) : bool :=
  String.eqb k K_isProxy || String.eqb k K_onChange || String.eqb k K_raw.

(** One change event. [c_target] is the raw owner of the property. *)
Inductive ctype := CSet | CAdd | CDelete | CDefine.

Record change := Change {
  c_type : ctype;
  c_path : path;
  c_pathString : string;
  c_target : loc;
  c_prop : string;
  c_value : value;
  c_oldValue : value;
}.

Global Instance ctype_eq_dec : EqDecision ctype.
Proof. solve_decision. Defined.

(** *** Binding records *)

(** An ezFor record; its [rendered] list is kept in the world. *)
Record ForRec := {
  fr_id : nat;
  fr_dataKey : string;
  fr_pathArr : path;
  fr_pathString : string;
  fr_anchor : node;
  fr_template : node;
}.

(** A leaf or backtick record: the identity of its closure and the node
    it is bound to. *)
Record BindRec := {
  b_id : nat;
  b_el : node;
}.

(** A deep (subtree) record, with the path it was added under. *)
Record DeepRec := {
  dr_id : nat;
  dr_el : node;
  dr_pathString : string;
}.

(** A callback handed to [queueMicrotask]. *)
Inductive task :=
| TFor (r : ForRec)
| TSelect (el : node) (getModel : nat).

Inductive nodeKind := Element | TextNode | CommentNode.

Global Instance nodeKind_eq_dec : EqDecision nodeKind.
Proof. solve_decision. Defined.

(** *** The world: data graph, proxy bookkeeping, DOM and scheduler *)

(** The state of the deep proxy. *)
Record Wrapper := {
  heap : gmap loc obj;
  (* rawPaths: raw object -> Map(pathString -> pathArr), in insertion order *)
  rawPaths : gmap loc (list (string * path));
  (* proxyCache: raw object -> Map(pathKey -> proxy) *)
  proxyCache : gmap loc (gmap string pid);
  (* every Proxy made so far: its target and the pathArr of its handler *)
  proxies : list (loc * path);
  (* onChangeHook *)
  hook : option fn;
  (* system.data: the wrapped root *)
  sysData : value;
}.

(** The part of the document the engine looks at. *)
Record DomState := {
  d_kind : gmap node nodeKind;
  d_parent : gmap node node;
  d_children : gmap node (list node);
  d_attrs : gmap node (gmap string string);
  d_nextNode : node;
  d_updating : gset node;               (* el.__ezUpdating === true *)
  d_rendered : gmap nat (list node);    (* rec.rendered, by record *)
}.

(** The two pending tables and the microtask queue. *)
Record Sched := {
  pendingFor : list nat;
  pendingSelect : list node;
  microtasks : list task;
}.

Record World := {
  wr : Wrapper;
  domSt : DomState;
  sched : Sched;
}.

Definition with_wr (w : World) (x : Wrapper) : World :=
  {| wr := x; domSt := domSt w; sched := sched w |}.
Definition with_dom (w : World) (x : DomState) : World :=
  {| wr := wr w; domSt := x; sched := sched w |}.
Definition with_sched (w : World) (x : Sched) : World :=
  {| wr := wr w; domSt := domSt w; sched := x |}.

(** *** Reading raw objects *)

(** The own property [k] of a raw object. *)
Definition ownProp (h : gmap loc obj) (l : loc) (k : string) : option prop :=
  match h !! l with
  | Some o => o_own o !! k
  | None => None
  end.

(** [Object.prototype.hasOwnProperty.call(target, k)] *)
Definition hasOwn (h : gmap loc obj) (l : loc) (k : string) : bool :=
  bool_decide (is_Some (ownProp h l k)).

(** The prototype of a value; a primitive has the one of its wrapper
    object. *)
Definition protoOf (h : gmap loc obj) (v : value) : value :=
  match v with
  | VObj l =>
      match h !! l with
      | Some o => o_proto o
      | None => VNull
      end
  | VFun _ => VObj functionProto
  | VStr _ => VObj stringProto
  | VNum _ | VNaN => VObj numberProto
  | VBool _ => VObj booleanProto
  | VUndef | VNull | VProxy _ => VNull
  end.

(** The property [k] that [cur] or the first object on its prototype
    chain holds. A function on the chain stands for its prototype: the
    own properties of functions are not kept. *)
Fixpoint lookupFrom (fuel : nat) (h : gmap loc obj) (cur : value) (k : string)
  : option prop :=
  match fuel with
  | O => None
  | S fuel' =>
      match cur with
      | VObj l =>
          match h !! l with
          | Some o =>
              match o_own o !! k with
              | Some p => Some p
              | None => lookupFrom fuel' h (o_proto o) k
              end
          | None => None
          end
      | VFun _ => lookupFrom fuel' h (VObj functionProto) k
      | _ => None
      end
  end.

(** A chain has no object twice, so this many steps reach its end. *)
Definition chainFuel (h : gmap loc obj) : nat := S (S (size h)).

Definition findProp (h : gmap loc obj) (cur : value) (k : string) : option prop :=
  lookupFrom (chainFuel h) h cur k.

(** What a property that was found gives to [receiver]: a data property
    its value, the [__proto__] getter the prototype of the receiver. *)
Definition readProp (h : gmap loc obj) (receiver : value) (p : option prop) : value :=
  match p with
  | Some (PData v _ _ _) => v
  | Some (PProto _ _) => protoOf h receiver
  | None => VUndef
  end.

(** [target[k]] on a raw object: an own property, else what the
    prototype chain gives. *)
Definition rawGet (h : gmap loc obj) (l : loc) (k : string) : value :=
  readProp h (VObj l) (findProp h (VObj l) k).

Definition isArrayLoc (h : gmap loc obj) (l : loc) : bool :=
  match h !! l with
  | Some o => o_array o
  | None => false
  end.

(** The list of alias paths recorded for a raw object. *)
Definition aliases (x : Wrapper) (l : loc) : list (string * path) :=
  default [] (rawPaths x !! l).

Definition hasKey {A} (ps : string) (m : list (string * A)) : bool :=
  existsb (fun e => String.eqb (fst e) ps) m.

(** [_registerRawPath(raw, pathArr)] for a raw object or array. *)
Definition _registerRawPath (raw : loc) (pathArr : path) (x : Wrapper) : Wrapper :=
  let ps := _pathToString pathArr in
  let map := aliases x raw in
  let map' := if hasKey ps map then map else map ++ [(ps, pathArr)] in
  {| heap := heap x; rawPaths := <[raw := map']> (rawPaths x);
     proxyCache := proxyCache x; proxies := proxies x; hook := hook x;
     sysData := sysData x |}.

(** [value[INTERNAL.isProxy] === true] *)
Definition flaggedProxy (x : Wrapper) (v : value) : bool :=
  match v with
  | VProxy _ => true
  | VObj l => strict_eq (rawGet (heap x) l K_isProxy) (VBool true)
  | _ => false
  end.

(** [_wrap(value, pathArr)] *)
Definition _wrap (v : value) (pathArr : path) (x : Wrapper) : value * Wrapper :=
  match v with
  | VObj l =>
      if flaggedProxy x v then (v, x)
      else
        let x1 := _registerRawPath l pathArr x in
        let pathKey := _pathToString pathArr in
        let map := default ∅ (proxyCache x1 !! l) in
        match map !! pathKey with
        | Some cached => (VProxy cached, x1)
        | None =>
            let p := length (proxies x1) in
            (VProxy p,
             {| heap := heap x1; rawPaths := rawPaths x1;
                proxyCache := <[l := <[pathKey := p]> map]> (proxyCache x1);
                proxies := proxies x1 ++ [(l, pathArr)]; hook := hook x1;
                sysData := sysData x1 |})
        end
  | _ => (v, x)
  end.

(** The [get] trap of the proxy [p]. *)
Definition proxyGet (p : pid) (prop : string) (x : Wrapper) : value * Wrapper :=
  match proxies x !! p with
  | None => (VUndef, x)
  | Some (target, pathArr) =>
      if String.eqb prop K_isProxy then (VBool true, x)
      else if String.eqb prop K_raw then (VObj target, x)
      else if String.eqb prop K_onChange then
        (match hook x with Some f => VFun f | None => VNull end, x)
      else
        let out := rawGet (heap x) target prop in
        if isObjectValue out then _wrap out (pathArr ++ [KStr prop]) x
        else (out, x)
  end.

(** [String(n)] for an integer. *)
Definition zToString (z : Z) : string :=
  match z with
  | Zneg p => ("-" ++ numToString (Npos p))%string
  | _ => numToString (Z.to_N z)
  end.

(** [cur[k]] for any value. A string has its length and characters of
    its own; everything else a primitive or a function gives comes from
    its prototype. Reading a property of [undefined] or [null] throws;
    the callers test for them first. *)
Definition jsGet (cur : value) (k : string) (x : Wrapper) : value * Wrapper :=
  match cur with
  | VProxy p => proxyGet p k x
  | VObj l => (rawGet (heap x) l k, x)
  | VStr s =>
      if String.eqb k "length" then (VNum (Z.of_nat (String.length s)), x)
      else if isDigits k && String.eqb (numToString (parseInt k)) k then
        (match String.get (N.to_nat (parseInt k)) s with
         | Some c => VStr (String c EmptyString)
         | None => readProp (heap x) cur (findProp (heap x) (VObj stringProto) k)
         end, x)
      else (readProp (heap x) cur (findProp (heap x) (VObj stringProto) k), x)
  | VNum _ | VNaN | VBool _ | VFun _ =>
      (readProp (heap x) cur (findProp (heap x) (protoOf (heap x) cur) k), x)
  | VUndef | VNull => (VUndef, x)
  end.

(** [_getAtPath(root, pathArr)] *)
Fixpoint _getAtPath (cur : value) (pathArr : path) (x : Wrapper) : value * Wrapper :=
  match pathArr with
  | [] => (cur, x)
  | k :: rest =>
      if nullish cur then (VUndef, x)
      else
        let '(next, x1) := jsGet cur (keyString k) x in
        _getAtPath next rest x1
  end.


(** *** DOM queries *)

Fixpoint reachesDocument (fuel : nat) (d : DomState) (n : node) : bool :=
  if Nat.eqb n 0 then true
  else
    match fuel with
    | O => false
    | S fuel' =>
        match d_parent d !! n with
        | Some p => reachesDocument fuel' d p
        | None => false
        end
    end.

(** [n.isConnected] *)
Definition isConnected (d : DomState) (n : node) : bool :=
  reachesDocument (S (size (d_parent d))) d n.

(** [n.nodeType === 1] *)
Definition isElement (d : DomState) (n : node) : bool :=
  bool_decide (d_kind d !! n = Some Element).

(** [n.parentNode] is not null. *)
Definition hasParent (d : DomState) (n : node) : bool :=
  bool_decide (is_Some (d_parent d !! n)).

(** *** Registries and the trace of what the hook does *)

Record Registries := {
  _bindings : list (string * list BindRec);
  _deepBindings : list DeepRec;
  _btBindings : list (string * list BindRec);
  _forBindings : list (string * list ForRec);
}.

(** [registry[pathString]], empty when the key is absent. *)
Fixpoint regGet {A} (reg : list (string * list A)) (k : string) : list A :=
  match reg with
  | [] => []
  | (k', l) :: rest => if String.eqb k' k then l else regGet rest k
  end.

(** [registry[pathString].push(rec)], creating the list when needed. *)
Fixpoint regAdd {A} (reg : list (string * list A)) (k : string) (r : A) : list (string * list A) :=
  match reg with
  | [] => [(k, [r])]
  | (k', l) :: rest =>
      if String.eqb k' k then (k', l ++ [r]) :: rest else (k', l) :: regAdd rest k r
  end.

Inductive visit :=
| LeafApplied (key : string) (b : BindRec)
| LeafSkipped (key : string) (b : BindRec)
| BtApplied (key : string) (b : BindRec)
| DeepApplied (r : DeepRec) (changed : string)
| DeepSkipped (r : DeepRec)
| ForRequested (key : string) (r : ForRec)
| ForSkipped (key : string) (r : ForRec).

(** The engine of one mounted application: the world, the registries,
    and two logs: every change handed to [_emitChange] and everything
    the change hook did to a binding record. *)
Record Engine := {
  world : World;
  regs : Registries;
  events : list change;
  visits : list visit;
}.

Definition with_world (e : Engine) (w : World) : Engine :=
  {| world := w; regs := regs e; events := events e; visits := visits e |}.
Definition log_visit (e : Engine) (v : visit) : Engine :=
  {| world := world e; regs := regs e; events := events e; visits := visits e ++ [v] |}.
Definition log_event (e : Engine) (c : change) : Engine :=
  {| world := world e; regs := regs e; events := events e ++ [c]; visits := visits e |}.

(** *** The rebuild scheduler *)

(** [_scheduleForRebuild(rec)]; records made by [_bindFor] always carry
    an anchor. *)
Definition _scheduleForRebuild (rec : ForRec) (s : Sched) : Sched :=
  if bool_decide (fr_id rec ∈ pendingFor s) then s
  else {| pendingFor := fr_id rec :: pendingFor s;
          pendingSelect := pendingSelect s;
          microtasks := microtasks s ++ [TFor rec] |}.

(** [_scheduleSelectRebuild(el, getModelFn)] *)
Definition _scheduleSelectRebuild (el : node) (getModel : nat) (w : World) : World :=
  if negb (isElement (domSt w) el) then w
  else if bool_decide (el ∈ pendingSelect (sched w)) then w
  else with_sched w
         {| pendingFor := pendingFor (sched w);
            pendingSelect := el :: pendingSelect (sched w);
            microtasks := microtasks (sched w) ++ [TSelect el getModel] |}.


(** *** Change propagation *)

(** [Array.isArray(v)] *)
Definition isArrayValue (x : Wrapper) (v : value) : bool :=
  match v with
  | VObj l => isArrayLoc (heap x) l
  | VProxy p =>
      match proxies x !! p with
      | Some (target, _) => isArrayLoc (heap x) target
      | None => false
      end
  | _ => false
  end.

(** The number of turns of [for (i = 0; i < v.length; i++)]. *)
Definition lengthOf (v : value) : nat :=
  match v with
  | VNum z => Z.to_nat z
  | _ => 0
  end.

(** The loop of [_modelContainsTarget] over the option tuples. *)
Fixpoint anyOptionIs (opts : value) (tgt : loc) (idx : list nat) (x : Wrapper)
  : bool * Wrapper :=
  match idx with
  | [] => (false, x)
  | i :: rest =>
      let '(oi, x1) := jsGet opts (numToString (N.of_nat i)) x in
      if strict_eq oi (VObj tgt) then (true, x1) else anyOptionIs opts tgt rest x1
  end.

(** [_modelContainsTarget(modelRaw, targetRaw)] *)
Definition _modelContainsTarget (modelRaw : value) (tgt : loc) (x : Wrapper)
  : bool * Wrapper :=
  if negb (truthy modelRaw) then (false, x)
  else if strict_eq modelRaw (VObj tgt) then (true, x)
  else
    let '(o1, x1) := jsGet modelRaw "options" x in
    let '(o2, x2) := if truthy o1 then jsGet modelRaw "options" x1 else (o1, x1) in
    if truthy o1 && strict_eq o2 (VObj tgt) then (true, x2)
    else
      let '(opts, x3) := jsGet modelRaw "options" x2 in
      if isArrayValue x3 opts then
        let '(len, x4) := jsGet opts "length" x3 in
        anyOptionIs opts tgt (seq 0 (lengthOf len)) x4
      else (false, x3).

Section Hook.

(** The closures stored in the binding records, by record identity.
    They are created by the compile pass ([_bindData], [_bindTicks]);
    the hook only calls them. *)
Variable apply_leaf : nat -> World -> World.
Variable apply_bt : nat -> string -> World -> World.
Variable apply_deep : nat -> string -> World -> World.
Variable getRootRaw : nat -> World -> value * World.

(** The dead-element guard: [el.nodeType === 1 && !el.isConnected]. *)
Definition deadElement (w : World) (el : node) : bool :=
  isElement (domSt w) el && negb (isConnected (domSt w) el).

(** [_notifyBindings(pathString)] *)
Definition notifyLeaf (key : string) (e : Engine) (b : BindRec) : Engine :=
  if deadElement (world e) (b_el b) then log_visit e (LeafSkipped key b)
  else
    let e1 := log_visit e (LeafApplied key b) in
    with_world e1 (apply_leaf (b_id b) (world e1)).

Definition _notifyBindings (pathString : string) (e : Engine) : Engine :=
  fold_left (notifyLeaf pathString) (regGet (_bindings (regs e)) pathString) e.

(** [_notifyBackTicks(pathString)]; these records guard inside [apply]. *)
Definition notifyBt (key : string) (e : Engine) (b : BindRec) : Engine :=
  let e1 := log_visit e (BtApplied key b) in
  with_world e1 (apply_bt (b_id b) key (world e1)).

Definition _notifyBackTicks (pathString : string) (e : Engine) : Engine :=
  fold_left (notifyBt pathString) (regGet (_btBindings (regs e)) pathString) e.

(** [_notifyFor(changedPathString)] *)
Definition notifyForRec (key : string) (e : Engine) (r : ForRec) : Engine :=
  if negb (hasParent (domSt (world e)) (fr_anchor r)) then log_visit e (ForSkipped key r)
  else
    let e1 := log_visit e (ForRequested key r) in
    with_world e1 (with_sched (world e1) (_scheduleForRebuild r (sched (world e1)))).

Definition notifyForKey (changed : string) (e : Engine) (entry : string * list ForRec) : Engine :=
  if _isPathPrefix (fst entry) changed
  then fold_left (notifyForRec (fst entry)) (snd entry) e
  else e.

Definition _notifyFor (changed : string) (e : Engine) : Engine :=
  fold_left (notifyForKey changed) (_forBindings (regs e)) e.

(** [_notifyDeepBindings(change)] *)
Definition applyDeep (r : DeepRec) (p : string) (e : Engine) : Engine :=
  let e1 := log_visit e (DeepApplied r p) in
  with_world e1 (apply_deep (dr_id r) p (world e1)).

Definition notifyDeep (c : change) (e : Engine) (r : DeepRec) : Engine :=
  let p := c_pathString c in
  if deadElement (world e) (dr_el r) then log_visit e (DeepSkipped r)
  else if _isPathPrefix (dr_pathString r) p then applyDeep r p e
  else
    let '(rootRaw, w1) := getRootRaw (dr_id r) (world e) in
    let '(hit, x2) := _modelContainsTarget rootRaw (c_target c) (wr w1) in
    let e2 := with_world e (with_wr w1 x2) in
    if hit then applyDeep r p e2 else e2.

Definition _notifyDeepBindings (c : change) (e : Engine) : Engine :=
  if String.eqb (c_pathString c) EmptyString then e
  else fold_left (notifyDeep c) (_deepBindings (regs e)) e.

(** [_notifyDescendants(prefixPathString)] *)
Definition isDescendantKey (prefix k : string) : bool :=
  negb (String.eqb k prefix)
  && (startsWith k (prefix +:+ ".") || startsWith k (prefix +:+ "[")).

Definition _notifyDescendants (prefix : string) (e : Engine) : Engine :=
  if String.eqb prefix EmptyString then e
  else
    let e1 := fold_left (fun e k => if isDescendantKey prefix k then _notifyBindings k e else e)
                        (map fst (_bindings (regs e))) e in
    let e2 := fold_left (fun e k => if isDescendantKey prefix k then _notifyBackTicks k e else e)
                        (map fst (_btBindings (regs e1))) e1 in
    _notifyFor prefix e2.

(** Step 2 of the hook, for one path string. *)
Definition notifyExact (p : string) (e : Engine) : Engine :=
  _notifyFor p (_notifyBackTicks p (_notifyBindings p e)).

(** The parent walk: [while (arr.length > 0) { arr.pop(); ... }]. *)
Fixpoint notifyParents (turns : nat) (arr : path) (e : Engine) : Engine :=
  match turns with
  | O => e
  | S turns' =>
      let arr' := removelast arr in
      match arr' with
      | [] => e
      | _ => notifyParents turns' arr' (notifyExact (_pathToString arr') e)
      end
  end.

Definition isObjReplace (c : change) : bool :=
  match c_type c with
  | CSet | CAdd | CDefine => isObjectValue (c_value c)
  | CDelete => false
  end.

(** The function [_installDataChangeHook] stores in [__onChange]. *)
Definition onChange (c : change) (e : Engine) : Engine :=
  let p := c_pathString c in
  if String.eqb p EmptyString then e
  else
    let e1 := _notifyDeepBindings c e in
    let e2 := notifyExact p e1 in
    let e3 := if isObjReplace c then _notifyDescendants p e2 else e2 in
    let arr := _parsePath p in
    notifyParents (length arr) arr e3.

(** *** The proxy traps that write *)

(** A canonical array index. *)
Definition arrayIndex (k : string) : option N :=
  if isDigits k && String.eqb (numToString (parseInt k)) k then Some (parseInt k) else None.

(** A property descriptor with data fields; each field may be absent. *)
Record desc := Desc {
  ds_value : option value;
  ds_writable : option bool;
  ds_enumerable : option bool;
  ds_configurable : option bool;
}.

(** [{value: v}], the descriptor an assignment to an existing property
    makes, and the one [CreateDataProperty] makes for a new one. *)
Definition valueDesc (v : value) : desc := Desc (Some v) None None None.
Definition dataDesc (v : value) : desc := Desc (Some v) (Some true) (Some true) (Some true).

(** What a change to the heap ends in: the new heap, a refusal (the
    operation returns false), an exception, or a case the model does not
    follow. *)
Inductive stored :=
| Stored (h : gmap loc obj)
| Refused
| Thrown
| Beyond.

(** [SameValue(a, b)] *)
Definition sameValue (a b : value) : bool := bool_decide (a = b).

(** An absent field asks for nothing. *)
Definition agrees (d : option bool) (b : bool) : bool :=
  match d with
  | Some b' => Bool.eqb b' b
  | None => true
  end.

Definition isDataDesc (d : desc) : bool :=
  bool_decide (is_Some (ds_value d)) || bool_decide (is_Some (ds_writable d)).

(** [ValidateAndApplyPropertyDescriptor]: the property that defining
    [d] over [cur] leaves, or nothing when the definition is refused. *)
Definition applyDesc (cur : option prop) (extensible : bool) (d : desc) : option prop :=
  match cur with
  | None =>
      if extensible then
        Some (PData (default VUndef (ds_value d)) (default false (ds_writable d))
                (default false (ds_enumerable d)) (default false (ds_configurable d)))
      else None
  | Some (PData v w en c) =>
      if c then
        Some (PData (default v (ds_value d)) (default w (ds_writable d))
                (default en (ds_enumerable d)) (default c (ds_configurable d)))
      else if negb (agrees (ds_configurable d) false) then None
      else if negb (agrees (ds_enumerable d) en) then None
      else if w then Some (PData (default v (ds_value d)) (default w (ds_writable d)) en false)
      else if negb (agrees (ds_writable d) false) then None
      else
        match ds_value d with
        | Some v' => if sameValue v' v then Some (PData v w en c) else None
        | None => Some (PData v w en c)
        end
  | Some (PProto en c) =>
      if c then
        if isDataDesc d then
          Some (PData (default VUndef (ds_value d)) (default false (ds_writable d))
                  (default en (ds_enumerable d)) (default c (ds_configurable d)))
        else Some (PProto (default en (ds_enumerable d)) (default c (ds_configurable d)))
      else if negb (agrees (ds_configurable d) false) then None
      else if negb (agrees (ds_enumerable d) en) then None
      else if isDataDesc d then None
      else Some (PProto en c)
  end.

Definition with_own (o : obj) (own : gmap string prop) : obj :=
  MkObj (o_array o) (o_extensible o) (o_proto o) own.

(** [OrdinaryDefineOwnProperty] *)
Definition ordinaryDefine (l : loc) (o : obj) (k : string) (d : desc) (h : gmap loc obj)
  : stored :=
  match applyDesc (o_own o !! k) (o_extensible o) d with
  | Some p => Stored (<[l := with_own o (<[k := p]> (o_own o))]> h)
  | None => Refused
  end.

(** The [length] of an array and whether it can be written. *)
Definition arrayLength (o : obj) : option (Z * bool) :=
  match o_own o !! "length" with
  | Some (PData (VNum n) w _ _) => Some (n, w)
  | _ => None
  end.

(** The number a value written to [length] stands for: a length, a
    [RangeError], or a conversion the model does not follow (strings
    other than canonical integers, and objects, whose conversion runs
    code of theirs). *)
Inductive newLength :=
| Len (n : Z)
| LenRange
| LenBeyond.

Definition toLength (v : value) : newLength :=
  match v with
  | VNum z => if Z.leb 0 z && Z.ltb z (2 ^ 32) then Len z else LenRange
  | VNaN | VUndef => LenRange
  | VNull => Len 0
  | VBool b => Len (if b then 1 else 0)
  | VStr s =>
      match arrayIndex s with
      | Some i => if N.ltb i (2 ^ 32) then Len (Z.of_N i) else LenBeyond
      | None => LenBeyond
      end
  | VFun _ | VObj _ | VProxy _ => LenBeyond
  end.

Definition isConfigurable (p : prop) : bool :=
  match p with
  | PData _ _ _ c => c
  | PProto _ c => c
  end.

Definition keepsBelow (n : Z) (kp : string * prop) : bool :=
  match arrayIndex (fst kp) with
  | Some i => Z.ltb (Z.of_N i) n
  | None => true
  end.

(** An element at or past [n] that cannot be deleted. *)
Definition stuckAt (n : Z) (kp : string * prop) : bool :=
  negb (keepsBelow n kp) && negb (isConfigurable (snd kp)).

(** The [[DefineOwnProperty]] of an array: an index at or past the end
    moves [length]; a smaller [length] drops the elements past it. The
    model does not follow a shrinking that meets an element which cannot
    be deleted. *)
Definition arrayDefine (l : loc) (o : obj) (k : string) (d : desc) (h : gmap loc obj)
  : stored :=
  match arrayLength o with
  | None => ordinaryDefine l o k d h
  | Some (oldLen, lenWritable) =>
      if String.eqb k "length" then
        match ds_value d with
        | None => ordinaryDefine l o k d h
        | Some v =>
            match toLength v with
            | LenBeyond => Beyond
            | LenRange => Thrown
            | Len n =>
                let d' := Desc (Some (VNum n)) (ds_writable d) (ds_enumerable d)
                            (ds_configurable d) in
                if Z.leb oldLen n then ordinaryDefine l o k d' h
                else if negb lenWritable then Refused
                else if existsb (stuckAt n) (map_to_list (o_own o)) then Beyond
                else
                  ordinaryDefine l
                    (with_own o (filter (fun kp => Is_true (keepsBelow n kp)) (o_own o)))
                    k d' h
            end
        end
      else
        match arrayIndex k with
        | Some i =>
            if negb (N.ltb i (2 ^ 32 - 1)) then ordinaryDefine l o k d h
            else if Z.leb oldLen (Z.of_N i) && negb lenWritable then Refused
            else
              match applyDesc (o_own o !! k) (o_extensible o) d with
              | None => Refused
              | Some p =>
                  let own := <[k := p]> (o_own o) in
                  Stored
                    (<[l := with_own o
                              (if Z.leb oldLen (Z.of_N i)
                               then <["length" := PData (VNum (Z.of_N i + 1)) lenWritable false false]> own
                               else own)]> h)
              end
        | None => ordinaryDefine l o k d h
        end
  end.

(** [Reflect.defineProperty(target, k, d)] on a raw object. *)
Definition defineOwn (l : loc) (k : string) (d : desc) (h : gmap loc obj) : stored :=
  match h !! l with
  | Some o => if o_array o then arrayDefine l o k d h else ordinaryDefine l o k d h
  | None => Refused
  end.

(** [target] holds [k] as a property of its own that can be deleted. *)
Definition canDelete (h : gmap loc obj) (l : loc) (k : string) : bool :=
  match ownProp h l k with
  | Some p => isConfigurable p
  | None => false
  end.

(** The heap after a [Reflect.deleteProperty(target, k)] that goes through. *)
Definition rawDelete (l : loc) (k : string) (h : gmap loc obj) : gmap loc obj :=
  match h !! l with
  | Some o => <[l := with_own o (delete k (o_own o))]> h
  | None => h
  end.

(** [l] is on the prototype chain that starts at [cur]. *)
Fixpoint onChain (fuel : nat) (h : gmap loc obj) (cur : value) (l : loc) : bool :=
  match fuel with
  | O => false
  | S fuel' =>
      match cur with
      | VObj l' =>
          if Nat.eqb l' l then true
          else
            match h !! l' with
            | Some o => onChain fuel' h (o_proto o) l
            | None => false
            end
      | VFun _ => onChain fuel' h (VObj functionProto) l
      | _ => false
      end
  end.

(** [target.[[SetPrototypeOf]](v)] for [v] null or an object: nothing
    when it is refused. [Object.prototype] keeps its prototype; no other
    object takes a prototype that has it on its own chain. *)
Definition setPrototypeOf (l : loc) (v : value) (h : gmap loc obj) : option (gmap loc obj) :=
  match h !! l with
  | None => None
  | Some o =>
      if bool_decide (o_proto o = v) then Some h
      else if Nat.eqb l objectProto then None
      else if negb (o_extensible o) then None
      else if onChain (chainFuel h) h v l then None
      else Some (<[l := MkObj (o_array o) (o_extensible o) v (o_own o)]> h)
  end.

(** The [__proto__] setter called on behalf of the object [l]: a value
    that is neither an object nor null is passed over; a refused change
    of prototype throws. *)
Definition protoSetter (l : loc) (v : value) (h : gmap loc obj) : stored :=
  match v with
  | VObj _ | VFun _ | VNull =>
      match setPrototypeOf l v h with
      | Some h' => Stored h'
      | None => Thrown
      end
  | VProxy _ => Beyond
  | _ => Stored h
  end.

Definition with_heap (e : Engine) (h : gmap loc obj) : Engine :=
  let x := wr (world e) in
  with_world e (with_wr (world e)
    {| heap := h; rawPaths := rawPaths x; proxyCache := proxyCache x;
       proxies := proxies x; hook := hook x; sysData := sysData x |}).

Definition with_hook (e : Engine) (f : option fn) : Engine :=
  let x := wr (world e) in
  with_world e (with_wr (world e)
    {| heap := heap x; rawPaths := rawPaths x; proxyCache := proxyCache x;
       proxies := proxies x; hook := f; sysData := sysData x |}).

(** [_emitChange(change)]: the change goes to the installed hook. A hook
    other than the bind module's own is a function of the application
    and is not run here. *)
Definition _emitChange (c : change) (e : Engine) : Engine :=
  let e1 := log_event e c in
  match hook (wr (world e1)) with
  | Some FBindHook => onChange c e1
  | _ => e1
  end.

(** [map.forEach(...)] of [_emitAllAliases]. A Map visits the entries
    that are added while it is being walked, so each turn reads the
    alias list again; [gas] bounds the number of turns. *)
Fixpoint emitAliasesFrom (gas : nat) (i : nat) (target : loc)
    (changeFactory : path -> change) (e : Engine) : Engine :=
  match gas with
  | O => e
  | S gas' =>
      match aliases (wr (world e)) target !! i with
      | None => e
      | Some (_, aliasPathArr) =>
          emitAliasesFrom gas' (S i) target changeFactory
            (_emitChange (changeFactory aliasPathArr) e)
      end
  end.

(** [_emitAllAliases(targetRaw, primaryPathArr, changeFactory)] *)
Definition _emitAllAliases (gas : nat) (target : loc) (primaryPathArr : path)
    (changeFactory : path -> change) (e : Engine) : Engine :=
  match aliases (wr (world e)) target with
  | [] => _emitChange (changeFactory primaryPathArr) e
  | _ => emitAliasesFrom gas 0 target changeFactory e
  end.

(** Where an assignment [o[k] = v] ends, by the ordinary [[Set]] of the
    object: a data property that is found, own or inherited, must be
    writable; then the receiver's own property is redefined with
    [{value}], or a new one is made with a full descriptor. When the key
    finds the [__proto__] accessor its setter is called. *)
Inductive route :=
| ViaDefine (d : desc)
| ViaSetter
| NotWritable.

Definition setRoute (h : gmap loc obj) (l : loc) (k : string) (v : value) : route :=
  match findProp h (VObj l) k with
  | Some (PProto _ _) => ViaSetter
  | Some (PData _ w _ _) =>
      if negb w then NotWritable
      else if hasOwn h l k then ViaDefine (valueDesc v)
      else ViaDefine (dataDesc v)
  | None => ViaDefine (dataDesc v)
  end.

(** [Reflect.set(o, k, v)] on a raw object. *)
Definition rawSet (l : loc) (k : string) (v : value) (h : gmap loc obj) : stored :=
  match setRoute h l k v with
  | ViaDefine d => defineOwn l k d h
  | ViaSetter => protoSetter l v h
  | NotWritable => Refused
  end.

(** The heap after the assignment [o[k] = v], left as it is when the
    assignment does not go through. *)
Definition rawAssign (l : loc) (k : string) (v : value) (h : gmap loc obj) : gmap loc obj :=
  match rawSet l k v h with
  | Stored h' => h'
  | _ => h
  end.

(** What a trap does: it returns true or false, throws, or meets a case
    the model does not follow. *)
Inductive reply := Ok | No | Throws | Unknown.

Global Instance reply_eq_dec : EqDecision reply.
Proof. solve_decision. Defined.

(** The [defineProperty] trap. *)
Definition definePropertyTrap (target : loc) (pathArr : path) (prop : string) (d : desc)
    (e : Engine) : reply * Engine :=
  let h := heap (wr (world e)) in
  if _isInternalKey prop then
    match defineOwn target prop d h with
    | Stored h' => (Ok, with_heap e h')
    | Refused => (No, e)
    | Thrown => (Throws, e)
    | Beyond => (Unknown, e)
    end
  else
    let had := hasOwn h target prop in
    let oldValue := rawGet h target prop in
    match defineOwn target prop d h with
    | Stored h' =>
        let fullPath := pathArr ++ [KStr prop] in
        (Ok,
         _emitChange
           {| c_type := if had then CDefine else CAdd;
              c_path := fullPath;
              c_pathString := _pathToString fullPath;
              c_target := target;
              c_prop := prop;
              c_value := rawGet h' target prop;
              c_oldValue := oldValue |}
           (with_heap e h'))
    | Refused => (No, e)
    | Thrown => (Throws, e)
    | Beyond => (Unknown, e)
    end.

(** [Reflect.set(target, prop, newValue, receiver)] with the proxy of
    [target] as receiver: the receiver's [[DefineOwnProperty]] is the
    proxy's [defineProperty] trap, and the [__proto__] setter, called
    for the proxy, changes the prototype of the target. *)
Definition reflectSet (target : loc) (pathArr : path) (prop : string) (newValue : value)
    (e : Engine) : reply * Engine :=
  let h := heap (wr (world e)) in
  match setRoute h target prop newValue with
  | ViaDefine d => definePropertyTrap target pathArr prop d e
  | ViaSetter =>
      match protoSetter target newValue h with
      | Stored h' => (Ok, with_heap e h')
      | Refused => (No, e)
      | Thrown => (Throws, e)
      | Beyond => (Unknown, e)
      end
  | NotWritable => (No, e)
  end.

(** The raw value behind a wrapped one:
    [(value && value[isProxy] === true && value[raw]) ? value[raw] : value] *)
Definition unwrapValue (x : Wrapper) (v : value) : value :=
  match v with
  | VProxy q =>
      match proxies x !! q with
      | Some (t, _) => VObj t
      | None => v
      end
  | VObj l =>
      if strict_eq (rawGet (heap x) l K_isProxy) (VBool true) && truthy (rawGet (heap x) l K_raw)
      then rawGet (heap x) l K_raw
      else v
  | _ => v
  end.

(** The change a [set] makes known under one alias path. *)
Definition setChange (had : bool) (target : loc) (prop : string) (newValue oldValue : value)
    (aliasPathArr : path) : change :=
  let aliasFullPath := aliasPathArr ++ [KStr prop] in
  {| c_type := if had then CSet else CAdd;
     c_path := aliasFullPath;
     c_pathString := _pathToString aliasFullPath;
     c_target := target;
     c_prop := prop;
     c_value := newValue;
     c_oldValue := oldValue |}.

(** The [set] trap of the proxy [p]. *)
Definition proxySet (gas : nat) (p : pid) (prop : string) (v : value) (e : Engine)
  : reply * Engine :=
  match proxies (wr (world e)) !! p with
  | None => (No, e)
  | Some (target, pathArr) =>
      if String.eqb prop K_onChange then
        (Ok, with_hook e (match v with VFun f => Some f | _ => None end))
      else if _isInternalKey prop then (Ok, e)
      else
        let h := heap (wr (world e)) in
        let had := hasOwn h target prop in
        let oldValue := rawGet h target prop in
        let newValue := unwrapValue (wr (world e)) v in
        if had && strict_eq oldValue newValue then (Ok, e)
        else
          match reflectSet target pathArr prop newValue e with
          | (Ok, e1) =>
              (Ok,
               _emitAllAliases gas target pathArr
                 (setChange had target prop newValue oldValue) e1)
          | r => r
          end
  end.

(** The [deleteProperty] trap of the proxy [p]. *)
Definition proxyDelete (p : pid) (prop : string) (e : Engine) : bool * Engine :=
  match proxies (wr (world e)) !! p with
  | None => (false, e)
  | Some (target, pathArr) =>
      if _isInternalKey prop then (true, e)
      else
        let h := heap (wr (world e)) in
        if negb (hasOwn h target prop) then (true, e)
        else
          let oldValue := rawGet h target prop in
          if negb (canDelete h target prop) then (false, e)
          else
            let fullPath := pathArr ++ [KStr prop] in
            (true,
             _emitChange
               {| c_type := CDelete;
                  c_path := fullPath;
                  c_pathString := _pathToString fullPath;
                  c_target := target;
                  c_prop := prop;
                  c_value := VUndef;
                  c_oldValue := oldValue |}
               (with_heap e (rawDelete target prop h)))
  end.

End Hook.


(** *** DOM updates *)

Definition removeFrom (n : node) (l : list node) : list node :=
  filter (fun m => m <> n) l.

(** [parent.removeChild(n)] *)
Definition removeChild (d : DomState) (parent n : node) : DomState :=
  {| d_kind := d_kind d;
     d_parent := delete n (d_parent d);
     d_children := <[parent := removeFrom n (default [] (d_children d !! parent))]> (d_children d);
     d_attrs := d_attrs d; d_nextNode := d_nextNode d;
     d_updating := d_updating d; d_rendered := d_rendered d |}.

(** [if (n.parentNode) n.parentNode.removeChild(n)] *)
Definition detach (d : DomState) (n : node) : DomState :=
  match d_parent d !! n with
  | Some parent => removeChild d parent n
  | None => d
  end.

(** The node after [n] in a child list. *)
Fixpoint nodeAfter (n : node) (l : list node) : option node :=
  match l with
  | [] => None
  | m :: rest => if Nat.eqb m n then head rest else nodeAfter n rest
  end.

(** [n.nextSibling] *)
Definition nextSibling (d : DomState) (n : node) : option node :=
  match d_parent d !! n with
  | Some parent => nodeAfter n (default [] (d_children d !! parent))
  | None => None
  end.

(** A child list after [insertBefore(item, ref)]; a null [ref] appends. *)
Fixpoint insertAt (ref : option node) (item : node) (l : list node) : list node :=
  match ref with
  | None => l ++ [item]
  | Some r =>
      match l with
      | [] => [item]
      | m :: rest => if Nat.eqb m r then item :: l else m :: insertAt ref item rest
      end
  end.

(** [parent.insertBefore(item, ref)] *)
Definition insertBefore (d : DomState) (parent item : node) (ref : option node) : DomState :=
  let d1 := detach d item in
  {| d_kind := d_kind d1;
     d_parent := <[item := parent]> (d_parent d1);
     d_children := <[parent := insertAt ref item (default [] (d_children d1 !! parent))]> (d_children d1);
     d_attrs := d_attrs d1; d_nextNode := d_nextNode d1;
     d_updating := d_updating d1; d_rendered := d_rendered d1 |}.

(** [template.cloneNode(true)] followed by [removeAttribute("ezFor")],
    [setAttribute("ezForChild", prefix)] and [setAttribute("ezForIndex", i)].
    Only the root of the clone is kept track of. *)
Definition cloneItem (d : DomState) (template : node) (prefix : string) (i : nat)
  : node * DomState :=
  let item := d_nextNode d in
  let attrs := default ∅ (d_attrs d !! template) in
  let attrs' :=
    <["ezForIndex" := numToString (N.of_nat i)]>
      (<["ezForChild" := prefix]> (delete "ezFor" attrs)) in
  (item,
   {| d_kind := <[item := Element]> (d_kind d);
      d_parent := d_parent d;
      d_children := d_children d;
      d_attrs := <[item := attrs']> (d_attrs d);
      d_nextNode := S item;
      d_updating := d_updating d; d_rendered := d_rendered d |}).

Definition setRendered (d : DomState) (rec : nat) (l : list node) : DomState :=
  {| d_kind := d_kind d; d_parent := d_parent d; d_children := d_children d;
     d_attrs := d_attrs d; d_nextNode := d_nextNode d;
     d_updating := d_updating d; d_rendered := <[rec := l]> (d_rendered d) |}.

Definition setUpdating (d : DomState) (u : gset node) : DomState :=
  {| d_kind := d_kind d; d_parent := d_parent d; d_children := d_children d;
     d_attrs := d_attrs d; d_nextNode := d_nextNode d;
     d_updating := u; d_rendered := d_rendered d |}.

(** *** The ezFor repeater and the microtasks *)

Section Repeat.

(** What happens inside a clone: [_prefixTemplateKeysInTree(item, prefix)]
    before it is inserted, and [dom(item).show()] with [compile(item)]
    after. *)
Variable prefixKeys : node -> string -> World -> World.
Variable compile : node -> World -> World.

(** The closures of a select binding: the model getter handed to the
    scheduler and the rebuild of the option list. *)
Variable getModel : nat -> World -> value * World.
Variable rebuildSelect : node -> value -> World -> World.

(** One turn of [for (let i = arr.length - 1; i >= 0; i--)], and
    whether it went through: with an anchor that has no parent,
    [rec.anchor.parentNode.insertBefore] throws once the clone is made
    and prefixed. *)
Definition renderItem (rec : ForRec) (w : World) (i : nat) : World * bool :=
  let prefix := (fr_dataKey rec +:+ "[" +:+ numToString (N.of_nat i) +:+ "]")%string in
  let '(item, d1) := cloneItem (domSt w) (fr_template rec) prefix i in
  let w1 := prefixKeys item prefix (with_dom w d1) in
  match d_parent (domSt w1) !! fr_anchor rec with
  | None => (w1, false)
  | Some parent =>
      let d2 := insertBefore (domSt w1) parent item (nextSibling (domSt w1) (fr_anchor rec)) in
      let d3 := setRendered d2 (fr_id rec) (default [] (d_rendered d2 !! fr_id rec) ++ [item]) in
      (compile item (with_dom w1 d3), true)
  end.

(** The loop over the indices; the turn that throws ends it. *)
Fixpoint renderItems (rec : ForRec) (idx : list nat) (w : World) : World :=
  match idx with
  | [] => w
  | i :: rest =>
      let '(w', went) := renderItem rec w i in
      if went then renderItems rec rest w' else w'
  end.

(** [_renderForRecord(rec)] *)
Definition _renderForRecord (rec : ForRec) (w : World) : World :=
  let '(arr, x1) := _getAtPath (sysData (wr w)) (fr_pathArr rec) (wr w) in
  let d1 := fold_left detach (default [] (d_rendered (domSt w) !! fr_id rec)) (domSt w) in
  let w1 := with_dom (with_wr w x1) (setRendered d1 (fr_id rec) []) in
  if negb (isArrayValue x1 arr) then w1
  else
    let '(len, x2) := jsGet arr "length" x1 in
    renderItems rec (rev (seq 0 (lengthOf len))) (with_wr w1 x2).

Definition clearPendingFor (rec : nat) (s : Sched) : Sched :=
  {| pendingFor := filter (fun r => r <> rec) (pendingFor s);
     pendingSelect := pendingSelect s; microtasks := microtasks s |}.

Definition clearPendingSelect (el : node) (s : Sched) : Sched :=
  {| pendingFor := pendingFor s;
     pendingSelect := filter (fun n => n <> el) (pendingSelect s);
     microtasks := microtasks s |}.

(** [_isEzSelectModel(v)] *)
Definition _isEzSelectModel (v : value) (x : Wrapper) : bool * Wrapper :=
  if negb (isObjectValue v) then (false, x)
  else
    let '(sv, x1) := jsGet v "selectedValue" x in
    match sv with
    | VUndef => (false, x1)
    | _ =>
        let '(opts, x2) := jsGet v "options" x1 in
        (isArrayValue x2 opts, x2)
    end.

(** The callback [_scheduleForRebuild] queues. *)
Definition runForTask (rec : ForRec) (w : World) : World :=
  let w1 := with_sched w (clearPendingFor (fr_id rec) (sched w)) in
  if negb (hasParent (domSt w1) (fr_anchor rec)) then w1
  else _renderForRecord rec w1.

(** The callback [_scheduleSelectRebuild] queues. *)
Definition runSelectTask (el : node) (gm : nat) (w : World) : World :=
  let w1 := with_sched w (clearPendingSelect el (sched w)) in
  if negb (isConnected (domSt w1) el) then w1
  else
    let '(model, w2) := getModel gm w1 in
    let '(isModel, x3) := _isEzSelectModel model (wr w2) in
    let w3 := with_wr w2 x3 in
    if negb isModel then w3
    else if bool_decide (el ∈ d_updating (domSt w3)) then w3
    else
      let w4 := with_dom w3 (setUpdating (domSt w3) ({[el]} ∪ d_updating (domSt w3))) in
      let w5 := rebuildSelect el model w4 in
      with_dom w5 (setUpdating (domSt w5) (d_updating (domSt w5) ∖ {[el]})).

Definition runTask (t : task) (w : World) : World :=
  match t with
  | TFor rec => runForTask rec w
  | TSelect el gm => runSelectTask el gm w
  end.

(** The microtask checkpoint: callbacks run in the order they were
    queued, and those queued meanwhile run after them. *)
Fixpoint drain (gas : nat) (w : World) : World :=
  match gas with
  | O => w
  | S gas' =>
      match microtasks (sched w) with
      | [] => w
      | t :: rest =>
          let w1 := with_sched w
            {| pendingFor := pendingFor (sched w);
               pendingSelect := pendingSelect (sched w);
               microtasks := rest |} in
          drain gas' (runTask t w1)
      end
  end.

End Repeat.

End Engine.

(** ** Event handlers named in markup *)

Module Handler.
Import Path Engine.

Local Open Scope list_scope.

(** [s.replace(/\(\)\s*;?\s*$/, "")]: the text is cut at the first [()]
    that only blanks and at most one semicolon follow. *)
Definition isCallTail (rest : string) : bool :=
  String.eqb (skip_ws (eat ";" (skip_ws rest))) EmptyString.

Fixpoint stripCall (s : string) : string :=
  match s with
  | EmptyString => EmptyString
  | String c r =>
      match r with
      | String d r' =>
          if ascii_eqb c "(" && ascii_eqb d ")" && isCallTail r' then EmptyString
          else String c (stripCall r)
      | EmptyString => s
      end
  end.

(** [if (s.indexOf("system.data.") === 0) s = s.substring(12)] *)
Definition stripSystemData (s : string) : string :=
  match stripPrefix "system.data." s with
  | Some rest => rest
  | None => s
  end.

(** One turn of the loop of [_parsePathLoose]: as [_parsePath], and a
    bare identifier is accepted between brackets. *)
Definition parse_step_loose (s : string) : option key * string :=
  match s with
  | EmptyString => (None, EmptyString)
  | String ch r =>
      if ascii_eqb ch "." then (None, r)
      else if ascii_eqb ch "[" then
        let r1 := skip_ws r in
        match r1 with
        | String q r2 =>
            if ascii_eqb q dquote || ascii_eqb q squote then
              let '(buf, r3) := read_quoted q r2 in
              (Some (KStr buf), eat "]" (skip_ws (eat q r3)))
            else
              let '(num, rj) := span isDigit r1 in
              if String.eqb num EmptyString && isIdentStart q then
                let '(name, r3) := span isIdentChar r1 in
                (Some (KStr name), eat "]" (skip_ws r3))
              else
                (if String.eqb num EmptyString then None else Some (KNum (parseInt num)),
                 eat "]" (skip_ws rj))
        | EmptyString => (None, EmptyString)
        end
      else if isIdentStart ch then
        let '(name, r1) := span isIdentChar s in
        (Some (KStr name), r1)
      else (None, r)
  end.

Fixpoint parse_loop_loose (fuel : nat) (s : string) : path :=
  match fuel with
  | O => []
  | S fuel' =>
      match s with
      | EmptyString => []
      | _ =>
          let '(k, rest) := parse_step_loose s in
          match k with
          | Some k => k :: parse_loop_loose fuel' rest
          | None => parse_loop_loose fuel' rest
          end
      end
  end.

Definition _parsePathLoose (pathString : string) : path :=
  let s := trim pathString in
  let s := stripCall (stripSystemData s) in
  parse_loop_loose (String.length s) s.

Definition forbiddenKey (k : key) : bool :=
  match k with
  | KStr s => String.eqb s "__proto__" || String.eqb s "prototype" || String.eqb s "constructor"
  | KNum _ => false
  end.

(** [_getAtPathSafe(root, pathArr)] *)
Fixpoint _getAtPathSafe (cur : value) (pathArr : path) (x : Wrapper) : value * Wrapper :=
  match pathArr with
  | [] => (cur, x)
  | k :: rest =>
      if nullish cur then (VUndef, x)
      else if forbiddenKey k then (VUndef, x)
      else
        let '(next, x1) := jsGet cur (keyString k) x in
        _getAtPathSafe next rest x1
  end.

(** What [_executeCodeString] ends in: nothing, or the call
    [fn.call(parent, system, context, meta)]. *)
Inductive outcome :=
| NoCall
| Called (f : fn) (this : value).

(** [_executeCodeString(codeString, context, meta)] *)
Definition _executeCodeString (codeString : string) (x : Wrapper) : outcome * Wrapper :=
  let raw := trim codeString in
  if String.eqb raw EmptyString then (NoCall, x)
  else
    let pathArr := _parsePathLoose raw in
    match last pathArr with
    | None => (NoCall, x)
    | Some fnKey =>
        let parentPath := removelast pathArr in
        let '(parent, x1) :=
          match parentPath with
          | [] => (sysData x, x)
          | _ => _getAtPathSafe (sysData x) parentPath x
          end in
        let '(fnv, x2) :=
          if nullish parent then (VUndef, x1) else jsGet parent (keyString fnKey) x1 in
        match fnv with
        | VFun f => (Called f parent, x2)
        | _ => (NoCall, x2)
        end
    end.

End Handler.

(** ** The select model renderer *)

Module Select.
Import Path.

Local Open Scope list_scope.

(** The plain data a select model is made of, as the renderer reads it
    (reads through the proxy return the same data); of an object that
    is not an array only its being one matters. *)
#[local] Set Warnings "-register-all".
Inductive jv :=
| JUndef
| JNull
| JBool (b : bool)
| JNum (z : Z)
| JStr (s : string)
| JArr (items : list jv)
| JObj.

(** [String(v)] *)
Fixpoint jsString (v : jv) : string :=
  match v with
  | JUndef => "undefined"
  | JNull => "null"
  | JBool true => "true"
  | JBool false => "false"
  | JNum z => Engine.zToString z
  | JStr s => s
  | JArr items =>
      (fix join (l : list jv) : string :=
         match l with
         | [] => EmptyString
         | a :: rest =>
             let ea := match a with JUndef | JNull => EmptyString | _ => jsString a end in
             match rest with
             | [] => ea
             | _ => (ea +:+ "," +:+ join rest)%string
             end
         end) items
  | JObj => "[object Object]"
  end.

Record optionEl := {
  opt_value : string;
  opt_text : string;
  opt_disabled : bool;
}.

(** A select element that takes one value: its options in tree order
    and the index of the selected one ([None] is selectedIndex -1). *)
Record selectEl := {
  sel_options : list optionEl;
  sel_selected : option nat;
}.

(** The index of the first option that satisfies [p]. *)
Fixpoint findIndex (p : optionEl -> bool) (l : list optionEl) : option nat :=
  match l with
  | [] => None
  | o :: rest => if p o then Some 0 else option_map S (findIndex p rest)
  end.

(** [sel.appendChild(opt)]: when nothing is selected, the first option
    that is not disabled becomes selected. *)
Definition appendOption (sel : selectEl) (o : optionEl) : selectEl :=
  let opts := sel_options sel ++ [o] in
  {| sel_options := opts;
     sel_selected :=
       match sel_selected sel with
       | Some i => Some i
       | None => findIndex (fun o => negb (opt_disabled o)) opts
       end |}.

(** [sel.value = v]: the first option whose value is [v] is selected,
    whether it is disabled or not; without one, nothing is selected. *)
Definition setValue (sel : selectEl) (v : string) : selectEl :=
  {| sel_options := sel_options sel;
     sel_selected := findIndex (fun o => String.eqb (opt_value o) v) (sel_options sel) |}.

(** [sel.value] *)
Definition getValue (sel : selectEl) : string :=
  match sel_selected sel with
  | Some i =>
      match sel_options sel !! i with
      | Some o => opt_value o
      | None => EmptyString
      end
  | None => EmptyString
  end.

Inductive diagnostic :=
| InvalidTuple (entry : jv)
| InvalidSelected (selectedValue : string).

(** A well-formed option tuple: [Array.isArray(entry) && entry.length >= 2]. *)
Definition tupleOf (entry : jv) : option (jv * jv) :=
  match entry with
  | JArr (a :: b :: _) => Some (a, b)
  | _ => None
  end.

(** The body of the loop over [model.options]. *)
Definition addEntry (debug : bool) (st : selectEl * list diagnostic) (entry : jv)
  : selectEl * list diagnostic :=
  let '(sel, log) := st in
  match tupleOf entry with
  | None => (sel, if debug then log ++ [InvalidTuple entry] else log)
  | Some (v, en) =>
      let value := jsString v in
      let enabled := match en with JBool true => true | _ => false end in
      (appendOption sel {| opt_value := value; opt_text := value; opt_disabled := negb enabled |},
       log)
  end.

(** [_rebuildSelectFromModel(sel, model)], where [model.options] is
    [opts] and [model.selectedValue] is [sv]; [debug] is [options.debug]. *)
Definition _rebuildSelectFromModel (debug : bool) (sel : selectEl) (opts : list jv) (sv : jv)
  : selectEl * list diagnostic :=
  let selectedValue := match sv with JUndef | JNull => EmptyString | _ => jsString sv end in
  let emptied := {| sel_options := []; sel_selected := None |} in
  let '(sel1, log1) := fold_left (addEntry debug) opts (emptied, []) in
  let sel2 := setValue sel1 selectedValue in
  if negb (String.eqb selectedValue EmptyString)
     && negb (String.eqb (getValue sel2) selectedValue)
  then ({| sel_options := sel_options sel2; sel_selected := None |},
        if debug then log1 ++ [InvalidSelected selectedValue] else log1)
  else (sel2, log1).

End Select.

(** * Properties *)

Import Path.

(** ** The path model *)

(** The text of a bracket-quoted key, as markup writes it. *)
Definition quotedKey (s : string) : string :=
  "[" ++ String dquote (s ++ String dquote "]").

Example parse_dotted : _parsePath "a.b[0]" = [KStr "a"; KStr "b"; KNum 0].
Proof. reflexivity. Qed.

Example parse_quoted :
  _parsePath ("a" ++ quotedKey "weird key") = [KStr "a"; KStr "weird key"].
Proof. reflexivity. Qed.

Example canonical_mixed :
  _pathToString [KStr "a"; KStr "0"; KStr "x y"; KNum 3]
  = "a[0]" ++ quotedKey "x y" ++ "[3]".
Proof. reflexivity. Qed.

(** C3, as stated, fails: a bracket-quoted digit key is a string after
    the first parse and a number after the second. *)
Lemma path_roundtrip_counterexample :
  _parsePath (quotedKey "7") = [KStr "7"]
  /\ _pathToString (_parsePath (quotedKey "7")) = "[7]"
  /\ _parsePath (_pathToString (_parsePath (quotedKey "7"))) = [KNum 7].
Proof. repeat split; reflexivity. Qed.

(** C3 (amended): when the keys parsed from [s] are stable (no control
    character in a quoted key, digit keys in the decimal form of a safe
    integer), re-parsing the canonical string of [parse s] gives
    [parse s] with every digit-string key read as the index it denotes,
    re-stringifying reproduces the canonical string, and when [s] has no
    quoted digit key the key sequence itself is reproduced. *)
Theorem path_roundtrip_stable (s : string) :
  forallb stableKey (_parsePath s) = true ->
  _parsePath (_pathToString (_parsePath s)) = map normKey (_parsePath s)
  /\ _pathToString (_parsePath (_pathToString (_parsePath s))) = _pathToString (_parsePath s)
  /\ (forallb plainKey (_parsePath s) = true ->
      _parsePath (_pathToString (_parsePath s)) = _parsePath s).
Proof.
  intros Hst. pose proof (parse_canonical _ Hst) as Hp. split; [exact Hp|]. split.
  - rewrite Hp. now apply pathToString_normKey.
  - intros Hplain. rewrite Hp. now apply normKey_plain.
Qed.

Lemma path_roundtrip_stable_witness :
  forallb stableKey (_parsePath ("a.b[0]" ++ quotedKey "weird key")) = true
  /\ _parsePath (_pathToString (_parsePath ("a.b[0]" ++ quotedKey "weird key")))
     = _parsePath ("a.b[0]" ++ quotedKey "weird key").
Proof.
  split; [reflexivity|].
  apply (path_roundtrip_stable ("a.b[0]" ++ quotedKey "weird key")); reflexivity.
Defined.

(** Outside the stable keys the trip is lossy: a leading zero is dropped
    and an escaped control character comes back as a letter. *)
Example leading_zero_key_changes :
  _pathToString (_parsePath (quotedKey "007")) = "[007]"
  /\ _pathToString (_parsePath (_pathToString (_parsePath (quotedKey "007")))) = "[7]".
Proof. split; reflexivity. Qed.

Example control_character_key_changes :
  _parsePath (_pathToString [KStr (String (ascii_of_nat 10) "b")]) = [KStr "nb"].
Proof. reflexivity. Qed.

(** ** Event handlers *)

Import Engine Handler.

Local Open Scope list_scope.

(** A freshly wrapped, empty data root: [system.data = _wrap({}, [])]. *)
Definition emptyRoot : Wrapper :=
  {| heap := realm {[ 0 := Obj false false ∅ ]};
     rawPaths := {[ 0 := [(EmptyString, [])] ]};
     proxyCache := {[ 0 := {[ EmptyString := 0 ]} ]};
     proxies := [(0, [])];
     hook := None;
     sysData := VProxy 0 |}.

(** The guard of [_getAtPathSafe]: a forbidden key anywhere in the path
    it walks makes it return undefined. *)
Lemma getAtPathSafe_forbidden pathArr : forall cur x,
  existsb forbiddenKey pathArr = true ->
  fst (_getAtPathSafe cur pathArr x) = VUndef.
Proof.
  induction pathArr as [|k rest IH]; intros cur x H; [discriminate|].
  cbn [_getAtPathSafe existsb] in *.
  destruct (nullish cur); [reflexivity|].
  destruct (forbiddenKey k); [reflexivity|]. simpl in H.
  destruct (jsGet cur (keyString k) x) as [next x1]. now apply IH.
Qed.

(** C10: the guard covers the parent path only. The last segment is
    read with a plain [parent[fnKey]], so [ezClick="constructor"] on an
    empty data root resolves to the inherited [Object] constructor and
    calls it with the data root as [this]. *)
Lemma handler_reaches_constructor :
  _parsePathLoose "constructor" = [KStr "constructor"]
  /\ fst (_executeCodeString "constructor" emptyRoot)
     = Called (FCtor "Object") (VProxy 0).
Proof. split; reflexivity. Qed.

(** The same through a nested object: [a.constructor] with [a] an array. *)
Example handler_reaches_nested_constructor :
  let x := {| heap := realm {[ 0 := Obj false false {[ "a" := VObj 1 ]};
                                1 := Obj true false ∅ ]};
              rawPaths := ∅; proxyCache := ∅; proxies := [(0, [])];
              hook := None; sysData := VProxy 0 |} in
  fst (_executeCodeString "a.constructor()" x) = Called (FCtor "Array") (VProxy 1).
Proof. reflexivity. Qed.

Lemma getAtPathSafe_forbidden_witness :
  fst (_getAtPathSafe (sysData emptyRoot) [KStr "constructor"; KStr "name"] emptyRoot) = VUndef.
Proof.
  exact (getAtPathSafe_forbidden [KStr "constructor"; KStr "name"] (sysData emptyRoot)
           emptyRoot eq_refl).
Defined.

(** ** The select model renderer *)

Import Select.

(** The option a well-formed tuple becomes. *)
Definition optionOfEntry (entry : jv) : option optionEl :=
  match tupleOf entry with
  | Some (v, en) =>
      Some {| opt_value := jsString v; opt_text := jsString v;
              opt_disabled := negb (match en with JBool true => true | _ => false end) |}
  | None => None
  end.

Definition isTupleDiagnostic (d : diagnostic) : bool :=
  match d with
  | InvalidTuple _ => true
  | InvalidSelected _ => false
  end.

(** [String(model.selectedValue)], empty for null and undefined. *)
Definition selectedString (sv : jv) : string :=
  match sv with
  | JUndef | JNull => EmptyString
  | _ => jsString sv
  end.

Lemma fold_addEntry debug opts : forall sel log,
  sel_options (fst (fold_left (addEntry debug) opts (sel, log)))
  = sel_options sel ++ omap optionOfEntry opts
  /\ (forallb isTupleDiagnostic log = true ->
      forallb isTupleDiagnostic (snd (fold_left (addEntry debug) opts (sel, log))) = true)
  /\ (debug = false -> snd (fold_left (addEntry debug) opts (sel, log)) = log).
Proof.
  induction opts as [|entry rest IH]; intros sel log.
  - simpl. rewrite app_nil_r. auto.
  - cbn [fold_left].
    change (omap optionOfEntry (entry :: rest))
      with (match optionOfEntry entry with
            | Some y => y :: omap optionOfEntry rest
            | None => omap optionOfEntry rest
            end).
    unfold addEntry at 2 4 6. unfold optionOfEntry at 1.
    destruct (tupleOf entry) as [[v en]|].
    + destruct (IH (appendOption sel
        {| opt_value := jsString v; opt_text := jsString v;
           opt_disabled := negb (match en with JBool true => true | _ => false end) |}) log)
        as (H1 & H2 & H3).
      split; [|split]; [|exact H2|exact H3].
      rewrite H1. cbn [appendOption sel_options]. now rewrite <- app_assoc.
    + destruct (IH sel (if debug then log ++ [InvalidTuple entry] else log)) as (H1 & H2 & H3).
      split; [exact H1|]. split.
      * intros Hl. apply H2. destruct debug; [|exact Hl].
        rewrite forallb_app, Hl. reflexivity.
      * intros ->. now apply H3.
Qed.

Lemma findIndex_value s l i :
  findIndex (fun o => String.eqb (opt_value o) s) l = Some i ->
  exists o, l !! i = Some o /\ opt_value o = s.
Proof.
  revert i. induction l as [|o rest IH]; intros i H; [discriminate|].
  cbn [findIndex] in H. destruct (String.eqb_spec (opt_value o) s) as [E|E].
  - injection H as <-. exists o. auto.
  - destruct (findIndex _ rest) as [j|] eqn:Hj; [|discriminate].
    injection H as <-. destruct (IH j eq_refl) as (o' & Ho & Hv). exists o'. auto.
Qed.

(** C8, as stated, fails: with [options.debug] off (the default) an
    absent selected value clears the selection without any diagnostic,
    and an empty selected value is never reported. *)
Lemma select_rebuild_counterexample :
  _rebuildSelectFromModel false {| sel_options := []; sel_selected := None |}
    [JArr [JStr "a"; JBool true]] (JStr "z")
  = ({| sel_options := [{| opt_value := "a"; opt_text := "a"; opt_disabled := false |}];
        sel_selected := None |}, [])
  /\ snd (_rebuildSelectFromModel true {| sel_options := []; sel_selected := None |}
            [JArr [JStr "a"; JBool true]] (JStr EmptyString)) = [].
Proof. split; reflexivity. Qed.

(** C8 (amended): the rebuild replaces the option list by one option
    per well-formed tuple (disabled unless the second entry is true) and
    sets the value; a non-empty selected value that no option carries
    clears the selection, with a diagnostic exactly when [options.debug]
    is on; a selected value carried by an option whose first carrier is
    enabled selects that option without a diagnostic. *)
Theorem select_rebuild_from_model (debug : bool) (sel : selectEl) (opts : list jv) (sv : jv) :
  let s := selectedString sv in
  let r := _rebuildSelectFromModel debug sel opts sv in
  let found := findIndex (fun o => String.eqb (opt_value o) s) (omap optionOfEntry opts) in
  sel_options (fst r) = omap optionOfEntry opts
  /\ (s <> EmptyString -> found = None ->
      sel_selected (fst r) = None
      /\ existsb (fun d => negb (isTupleDiagnostic d)) (snd r) = debug)
  /\ (forall i o, found = Some i -> omap optionOfEntry opts !! i = Some o ->
      opt_disabled o = false ->
      sel_selected (fst r) = Some i
      /\ existsb (fun d => negb (isTupleDiagnostic d)) (snd r) = false).
Proof.
  intros s r found. subst r. unfold _rebuildSelectFromModel.
  fold (selectedString sv). fold s.
  destruct (fold_addEntry debug opts {| sel_options := []; sel_selected := None |} [])
    as (Hopts & Hlog & Hoff).
  destruct (fold_left (addEntry debug) opts _) as [sel1 log1].
  cbn [fst snd sel_options app] in Hopts, Hlog, Hoff. specialize (Hlog eq_refl).
  assert (Hnone : existsb (fun d => negb (isTupleDiagnostic d)) log1 = false).
  { clear -Hlog. induction log1 as [|d l IH]; [reflexivity|].
    cbn [forallb existsb] in *. apply andb_prop in Hlog. destruct Hlog as [Hd Hl].
    now rewrite Hd, IH. }
  unfold setValue, getValue. cbn [sel_options sel_selected]. rewrite Hopts. fold found.
  destruct found as [i|] eqn:Hfound.
  - destruct (findIndex_value _ _ _ Hfound) as (o & Ho & Hv). rewrite Ho, Hv.
    rewrite String.eqb_refl, andb_false_r. cbn [fst snd sel_options sel_selected].
    split; [reflexivity|]. split; [discriminate|].
    intros j o' Hj _ _. injection Hj as <-. auto.
  - destruct (String.eqb_spec s EmptyString) as [E|E].
    + cbn [negb andb fst snd sel_options sel_selected].
      split; [reflexivity|]. split; [contradiction|discriminate].
    + assert (String.eqb EmptyString s = false) as ->.
      { apply String.eqb_neq. congruence. }
      cbn [negb andb fst snd sel_options sel_selected].
      split; [reflexivity|]. split; [|discriminate].
      intros _ _. split; [reflexivity|].
      destruct debug; [|exact Hnone].
      rewrite existsb_app, Hnone. reflexivity.
Qed.

(** The model of the specification: three options, the third disabled,
    the second selected. *)
Example select_model_rendered :
  fst (_rebuildSelectFromModel false {| sel_options := []; sel_selected := None |}
         [JArr [JStr "a"; JBool true]; JArr [JStr "b"; JBool true]; JArr [JStr "c"; JBool false]]
         (JStr "b"))
  = {| sel_options := [{| opt_value := "a"; opt_text := "a"; opt_disabled := false |};
                       {| opt_value := "b"; opt_text := "b"; opt_disabled := false |};
                       {| opt_value := "c"; opt_text := "c"; opt_disabled := true |}];
       sel_selected := Some 1 |}.
Proof. reflexivity. Qed.

(** A selected value that names a disabled option: the value setter of
    a select element takes it, so the check that follows sees nothing
    to clear or report. *)
Example select_disabled_value_kept :
  _rebuildSelectFromModel true {| sel_options := []; sel_selected := None |}
    [JArr [JStr "a"; JBool true]; JArr [JStr "c"; JBool false]] (JStr "c")
  = ({| sel_options := [{| opt_value := "a"; opt_text := "a"; opt_disabled := false |};
                        {| opt_value := "c"; opt_text := "c"; opt_disabled := true |}];
        sel_selected := Some 1 |}, []).
Proof. reflexivity. Qed.

(** ** The reactive wrapper: reads *)

Definition cacheGet (x : Wrapper) (l : loc) (k : string) : option pid :=
  default ∅ (proxyCache x !! l) !! k.

(** What reading through the wrapper may do to its state: the data is
    left alone; proxies, cache entries and alias paths are only added. *)
Record extends (x x' : Wrapper) : Prop := {
  ext_heap : heap x' = heap x;
  ext_hook : hook x' = hook x;
  ext_sysData : sysData x' = sysData x;
  ext_proxies : proxies x `prefix_of` proxies x';
  ext_cache : forall l k q, cacheGet x l k = Some q -> cacheGet x' l k = Some q;
  ext_aliases : forall l, aliases x l `prefix_of` aliases x' l;
}.

Lemma extends_refl x : extends x x.
Proof. split; auto; reflexivity. Qed.

Lemma extends_trans x y z : extends x y -> extends y z -> extends x z.
Proof.
  intros [] []. split; try congruence; auto.
  - etransitivity; eassumption.
  - intros l. etransitivity; eauto.
Qed.

Lemma aliases_insert x raw m h c ps hk sd l :
  aliases {| heap := h; rawPaths := <[raw := m]> (rawPaths x); proxyCache := c;
             proxies := ps; hook := hk; sysData := sd |} l
  = if decide (raw = l) then m else aliases x l.
Proof.
  unfold aliases. cbn [rawPaths]. destruct (decide (raw = l)) as [->|Hne].
  - now rewrite lookup_insert_eq.
  - now rewrite lookup_insert_ne.
Qed.

Lemma registerRawPath_extends raw pathArr x : extends x (_registerRawPath raw pathArr x).
Proof.
  unfold _registerRawPath. split; cbn [heap hook sysData proxies]; auto; try reflexivity.
  intros l. rewrite aliases_insert. destruct (decide (raw = l)) as [->|]; [|reflexivity].
  destruct (hasKey _ _); [reflexivity|]. now apply prefix_app_r.
Qed.

Lemma lookup_proxy_prefix (ps ps' : list (loc * path)) p e :
  ps `prefix_of` ps' -> ps !! p = Some e -> ps' !! p = Some e.
Proof. intros [k ->] H. now apply lookup_app_l_Some. Qed.

Lemma flaggedProxy_extends x x' v : heap x' = heap x -> flaggedProxy x' v = flaggedProxy x v.
Proof. intros H. destruct v; simpl; try reflexivity. now rewrite H. Qed.

Lemma cacheGet_insert x l m k p rp ps' l' k' :
  cacheGet {| heap := heap x; rawPaths := rp;
              proxyCache := <[l := <[k := p]> m]> (proxyCache x);
              proxies := ps'; hook := hook x; sysData := sysData x |} l' k'
  = if decide (l = l') then (if decide (k = k') then Some p else m !! k')
    else cacheGet x l' k'.
Proof.
  unfold cacheGet. cbn [proxyCache]. destruct (decide (l = l')) as [->|Hne].
  - rewrite lookup_insert_eq. unfold default, from_option, id. destruct (decide (k = k')) as [->|Hk].
    + now rewrite lookup_insert_eq.
    + now rewrite lookup_insert_ne.
  - now rewrite lookup_insert_ne.
Qed.

Lemma wrap_extends v pathArr x : extends x (snd (_wrap v pathArr x)).
Proof.
  destruct v; try apply extends_refl. unfold _wrap.
  destruct (flaggedProxy x (VObj l)); [apply extends_refl|].
  pose proof (registerRawPath_extends l pathArr x) as Hreg.
  set (x1 := _registerRawPath l pathArr x) in *.
  destruct (default ∅ (proxyCache x1 !! l) !! _pathToString pathArr) as [cached|] eqn:Hc;
    cbn [snd]; [exact Hreg|].
  eapply extends_trans; [exact Hreg|].
  split; cbn [heap hook sysData proxies]; auto; try reflexivity.
  - now apply prefix_app_r.
  - intros l' k q Hq. rewrite cacheGet_insert.
    destruct (decide (l = l')) as [<-|]; [|exact Hq].
    destruct (decide (_pathToString pathArr = k)) as [<-|]; [|exact Hq].
    unfold cacheGet in Hq. congruence.
Qed.

Lemma proxyGet_extends p prop x : extends x (snd (proxyGet p prop x)).
Proof.
  unfold proxyGet. destruct (proxies x !! p) as [[target pathArr]|]; [|apply extends_refl].
  destruct (String.eqb prop K_isProxy); [apply extends_refl|].
  destruct (String.eqb prop K_raw); [apply extends_refl|].
  destruct (String.eqb prop K_onChange); [apply extends_refl|].
  destruct (isObjectValue _); [apply wrap_extends|apply extends_refl].
Qed.

Lemma jsGet_extends cur k x : extends x (snd (jsGet cur k x)).
Proof.
  destruct cur; cbn [jsGet]; try apply extends_refl.
  - destruct (String.eqb k "length"); [apply extends_refl|].
    destruct (_ && _); [apply extends_refl|].
    destruct (String.eqb k "constructor"); apply extends_refl.
  - apply proxyGet_extends.
Qed.

Lemma getAtPath_extends pathArr : forall cur x, extends x (snd (_getAtPath cur pathArr x)).
Proof.
  induction pathArr as [|k rest IH]; intros cur x; cbn [_getAtPath]; [apply extends_refl|].
  destruct (nullish cur); [apply extends_refl|].
  pose proof (jsGet_extends cur (keyString k) x) as H.
  destruct (jsGet cur (keyString k) x) as [next x1]. cbn [snd] in H.
  eapply extends_trans; [exact H|apply IH].
Qed.

(** A value that is already in the cache is what [_wrap] returns. *)
Lemma wrap_cached l pathArr x q :
  flaggedProxy x (VObj l) = false ->
  cacheGet x l (_pathToString pathArr) = Some q ->
  fst (_wrap (VObj l) pathArr x) = VProxy q.
Proof.
  intros Hf Hc. unfold _wrap. rewrite Hf.
  pose proof (registerRawPath_extends l pathArr x) as Hreg.
  apply (ext_cache _ _ Hreg) in Hc. unfold cacheGet in Hc. now rewrite Hc.
Qed.

(** What [_wrap] returns for a raw object is in the cache afterwards. *)
Lemma wrap_caches l pathArr x :
  flaggedProxy x (VObj l) = false ->
  exists q, fst (_wrap (VObj l) pathArr x) = VProxy q
            /\ cacheGet (snd (_wrap (VObj l) pathArr x)) l (_pathToString pathArr) = Some q.
Proof.
  intros Hf. unfold _wrap. rewrite Hf.
  set (x1 := _registerRawPath l pathArr x).
  destruct (default ∅ (proxyCache x1 !! l) !! _pathToString pathArr) as [cached|] eqn:Hc.
  - exists cached. split; [reflexivity|exact Hc].
  - eexists. split; [reflexivity|]. cbn [snd]. rewrite cacheGet_insert.
    now rewrite !decide_True by reflexivity.
Qed.

(** A run of reads through proxies, results dropped. *)
Definition readAll (reads : list (pid * string)) (x : Wrapper) : Wrapper :=
  fold_left (fun x r => snd (proxyGet (fst r) (snd r) x)) reads x.

Lemma readAll_extends reads : forall x, extends x (readAll reads x).
Proof.
  induction reads as [|r rest IH]; intros x; [apply extends_refl|].
  cbn [readAll fold_left]. eapply extends_trans; [apply proxyGet_extends|apply IH].
Qed.

Lemma wrap_again v pathArr x x2 :
  extends (snd (_wrap v pathArr x)) x2 ->
  fst (_wrap v pathArr x2) = fst (_wrap v pathArr x).
Proof.
  intros H2. pose proof (extends_trans _ _ _ (wrap_extends v pathArr x) H2) as H12.
  destruct v as [| |b|z| |s|f|l|q]; try reflexivity.
  destruct (flaggedProxy x (VObj l)) eqn:Hf.
  - unfold _wrap. rewrite (flaggedProxy_extends x x2) by apply (ext_heap _ _ H12).
    now rewrite Hf.
  - destruct (wrap_caches l pathArr x Hf) as (q & Hq & Hc).
    rewrite Hq. apply wrap_cached.
    + rewrite (flaggedProxy_extends x x2) by apply (ext_heap _ _ H12). exact Hf.
    + now apply (ext_cache _ _ H2).
Qed.

Lemma proxyGet_again x x2 p prop :
  is_Some (proxies x !! p) ->
  extends (snd (proxyGet p prop x)) x2 ->
  fst (proxyGet p prop x2) = fst (proxyGet p prop x).
Proof.
  intros [[target pathArr] Hp] H2.
  pose proof (extends_trans _ _ _ (proxyGet_extends p prop x) H2) as H12.
  assert (Hp2 : proxies x2 !! p = Some (target, pathArr)).
  { eapply lookup_proxy_prefix; [apply (ext_proxies _ _ H12)|exact Hp]. }
  unfold proxyGet in *. rewrite Hp in H2. rewrite Hp, Hp2.
  destruct (String.eqb prop K_isProxy); [reflexivity|].
  destruct (String.eqb prop K_raw); [reflexivity|].
  destruct (String.eqb prop K_onChange).
  { cbn [fst]. now rewrite (ext_hook _ _ H12). }
  rewrite (ext_heap _ _ H12).
  destruct (isObjectValue (rawGet (heap x) target prop)); [|reflexivity].
  now apply wrap_again.
Qed.

(** The property is an own data property that can be neither written
    nor redefined. A Proxy must report such a property of its target as
    it is: when the [get] trap returns a wrapper for the object it
    holds, the read throws. *)
Definition pinned (h : gmap loc obj) (l : loc) (k : string) : bool :=
  match ownProp h l k with
  | Some (PData _ w _ c) => negb w && negb c
  | _ => false
  end.


(** A data root with one nested object, wrapped and not yet read. *)
Definition nestedRoot : Wrapper :=
  {| heap := realm {[ 0 := Obj false false {[ "a" := VObj 1 ]};
                1 := Obj false false {[ "k" := VNum 1 ]} ]};
     rawPaths := {[ 0 := [(EmptyString, [])] ]};
     proxyCache := {[ 0 := {[ EmptyString := 0 ]} ]};
     proxies := [(0, [])];
     hook := None;
     sysData := VProxy 0 |}.


Example nested_read_is_wrapped : fst (proxyGet 0 "a" nestedRoot) = VProxy 1.
Proof. reflexivity. Qed.

(** ** The change hook: what it leaves alone *)

Section HookFrame.

Variable apply_leaf : nat -> World -> World.
Variable apply_bt : nat -> string -> World -> World.
Variable apply_deep : nat -> string -> World -> World.
Variable getRootRaw : nat -> World -> value * World.

Local Abbreviation onChange' := (onChange apply_leaf apply_bt apply_deep getRootRaw).
Local Abbreviation emitChange' := (_emitChange apply_leaf apply_bt apply_deep getRootRaw).

(** The hook only moves the world and adds to the log of visits. *)
Definition sameBooks (e e' : Engine) : Prop :=
  regs e' = regs e /\ events e' = events e /\ exists vs, visits e' = visits e ++ vs.

Lemma sameBooks_refl e : sameBooks e e.
Proof. repeat split. exists []. now rewrite app_nil_r. Qed.

Lemma sameBooks_trans e1 e2 e3 : sameBooks e1 e2 -> sameBooks e2 e3 -> sameBooks e1 e3.
Proof.
  intros (R1 & E1 & vs1 & V1) (R2 & E2 & vs2 & V2). repeat split; try congruence.
  exists (vs1 ++ vs2). rewrite V2, V1. now rewrite app_assoc.
Qed.

Lemma sameBooks_world e w : sameBooks e (with_world e w).
Proof. repeat split. exists []. simpl. now rewrite app_nil_r. Qed.

Lemma sameBooks_visit e v : sameBooks e (log_visit e v).
Proof. repeat split. now exists [v]. Qed.

Lemma sameBooks_fold {A} (f : Engine -> A -> Engine) (l : list A) :
  (forall e a, sameBooks e (f e a)) -> forall e, sameBooks e (fold_left f l e).
Proof.
  intros Hf. induction l as [|a l IH]; intros e; [apply sameBooks_refl|].
  simpl. eapply sameBooks_trans; [apply Hf|apply IH].
Qed.

Ltac books :=
  repeat first
    [ apply sameBooks_refl
    | apply sameBooks_world
    | apply sameBooks_visit
    | eapply sameBooks_trans; [apply sameBooks_visit|apply sameBooks_world] ].

Lemma notifyLeaf_books key e b : sameBooks e (notifyLeaf apply_leaf key e b).
Proof. unfold notifyLeaf. destruct (deadElement _ _); books. Qed.

Lemma notifyBindings_books k e : sameBooks e (_notifyBindings apply_leaf k e).
Proof. unfold _notifyBindings. apply sameBooks_fold. intros. apply notifyLeaf_books. Qed.

Lemma notifyBt_books key e b : sameBooks e (notifyBt apply_bt key e b).
Proof. unfold notifyBt. books. Qed.

Lemma notifyBackTicks_books k e : sameBooks e (_notifyBackTicks apply_bt k e).
Proof. unfold _notifyBackTicks. apply sameBooks_fold. intros. apply notifyBt_books. Qed.

Lemma notifyForRec_books key e r : sameBooks e (notifyForRec key e r).
Proof. unfold notifyForRec. destruct (negb _); books. Qed.

Lemma notifyFor_books k e : sameBooks e (_notifyFor k e).
Proof.
  unfold _notifyFor. apply sameBooks_fold. intros e' [k' l]. unfold notifyForKey.
  destruct (_isPathPrefix _ _); [|apply sameBooks_refl].
  apply sameBooks_fold. intros. apply notifyForRec_books.
Qed.

Lemma applyDeep_books r p e : sameBooks e (applyDeep apply_deep r p e).
Proof. unfold applyDeep. books. Qed.

Lemma notifyDeep_books c e r : sameBooks e (notifyDeep apply_deep getRootRaw c e r).
Proof.
  unfold notifyDeep. destruct (deadElement _ _); [books|].
  destruct (_isPathPrefix _ _); [apply applyDeep_books|].
  destruct (getRootRaw _ _) as [rootRaw w1].
  destruct (_modelContainsTarget _ _ _) as [hit x2].
  destruct hit; [|books].
  eapply sameBooks_trans; [apply sameBooks_world|apply applyDeep_books].
Qed.

Lemma notifyDeepBindings_books c e :
  sameBooks e (_notifyDeepBindings apply_deep getRootRaw c e).
Proof.
  unfold _notifyDeepBindings. destruct (String.eqb _ _); [apply sameBooks_refl|].
  apply sameBooks_fold. intros. apply notifyDeep_books.
Qed.

Lemma notifyExact_books p e : sameBooks e (notifyExact apply_leaf apply_bt p e).
Proof.
  unfold notifyExact.
  eapply sameBooks_trans; [apply notifyBindings_books|].
  eapply sameBooks_trans; [apply notifyBackTicks_books|apply notifyFor_books].
Qed.

Lemma notifyDescendants_books p e :
  sameBooks e (_notifyDescendants apply_leaf apply_bt p e).
Proof.
  unfold _notifyDescendants. destruct (String.eqb _ _); [apply sameBooks_refl|].
  cbv zeta. eapply sameBooks_trans; [|apply notifyFor_books].
  eapply sameBooks_trans; [|apply sameBooks_fold].
  - apply sameBooks_fold. intros e' k. destruct (isDescendantKey _ _);
      [apply notifyBindings_books|apply sameBooks_refl].
  - intros e' k. destruct (isDescendantKey _ _);
      [apply notifyBackTicks_books|apply sameBooks_refl].
Qed.

Lemma notifyParents_books n : forall arr e,
  sameBooks e (notifyParents apply_leaf apply_bt n arr e).
Proof.
  induction n as [|n IH]; intros arr e; [apply sameBooks_refl|]. cbn [notifyParents].
  destruct (removelast arr); [apply sameBooks_refl|].
  eapply sameBooks_trans; [apply notifyExact_books|apply IH].
Qed.

Lemma onChange_books c e : sameBooks e (onChange' c e).
Proof.
  unfold onChange. destruct (String.eqb _ _); [apply sameBooks_refl|].
  eapply sameBooks_trans; [apply notifyDeepBindings_books|].
  eapply sameBooks_trans; [apply notifyExact_books|].
  eapply sameBooks_trans; [|apply notifyParents_books].
  destruct (isObjReplace c); [apply notifyDescendants_books|apply sameBooks_refl].
Qed.

Lemma emitChange_events c e : events (emitChange' c e) = events e ++ [c].
Proof.
  unfold _emitChange. destruct (hook _) as [[]|]; try reflexivity.
  destruct (onChange_books c (log_event e c)) as (_ & E & _). exact E.
Qed.

Lemma emitChange_regs c e : regs (emitChange' c e) = regs e.
Proof.
  unfold _emitChange. destruct (hook _) as [[]|]; try reflexivity.
  destruct (onChange_books c (log_event e c)) as (R & _ & _). exact R.
Qed.

End HookFrame.

(** ** Raw objects: what an assignment does *)

(** What the prototype chain of [o] holds under [k]. *)
Definition inheritedProp (h : gmap loc obj) (o : obj) (k : string) : option prop :=
  lookupFrom (S (size h)) h (o_proto o) k.

Lemma findProp_own h l k p : ownProp h l k = Some p -> findProp h (VObj l) k = Some p.
Proof.
  unfold ownProp, findProp, chainFuel. cbn [lookupFrom].
  destruct (h !! l) as [o|]; [|discriminate]. now intros ->.
Qed.

Lemma findProp_inherited h l o k :
  h !! l = Some o -> o_own o !! k = None -> findProp h (VObj l) k = inheritedProp h o k.
Proof. intros Ho Hk. unfold findProp, chainFuel. cbn [lookupFrom]. now rewrite Ho, Hk. Qed.

Lemma hasOwn_true h l k : hasOwn h l k = true <-> is_Some (ownProp h l k).
Proof. unfold hasOwn. apply bool_decide_eq_true. Qed.

Lemma hasOwn_false h l k : hasOwn h l k = false <-> ownProp h l k = None.
Proof.
  unfold hasOwn. rewrite bool_decide_eq_false. destruct (ownProp h l k); split; intros H.
  - destruct H. eauto.
  - discriminate.
  - reflexivity.
  - now intros [? ?].
Qed.

Lemma rawGet_own h l k v w en c :
  ownProp h l k = Some (PData v w en c) -> rawGet h l k = v.
Proof. intros H. unfold rawGet. now rewrite (findProp_own _ _ _ _ H). Qed.

(** An assignment to [k] of [l] goes through as a data write: [k] is an
    own writable data property; or it is no own property, the object is
    extensible, and the prototype chain holds nothing under [k] or a
    writable data property. On an array, [k] is not [length] and
    [length] can be written. *)
Definition accepts (h : gmap loc obj) (l : loc) (k : string) : bool :=
  match h !! l with
  | None => false
  | Some o =>
      match o_own o !! k with
      | Some (PData _ w _ _) => w
      | Some (PProto _ _) => false
      | None =>
          o_extensible o
          && match inheritedProp h o k with
             | Some (PData _ w _ _) => w
             | Some (PProto _ _) => false
             | None => true
             end
      end
      && (negb (o_array o)
          || negb (String.eqb k "length")
             && match arrayLength o with
                | Some (_, w) => w
                | None => true
                end)
  end.

(** An assignment to [k] of [l] is refused: [k] is an own data property
    that cannot be written; or it is no own property and the object is
    not extensible or inherits a data property that cannot be written. *)
Definition refuses (h : gmap loc obj) (l : loc) (k : string) : bool :=
  match h !! l with
  | None => false
  | Some o =>
      match o_own o !! k with
      | Some (PData _ w _ _) => negb w
      | Some (PProto _ _) => false
      | None =>
          match inheritedProp h o k with
          | Some (PData _ w _ _) => negb w || negb (o_extensible o)
          | Some (PProto _ _) => false
          | None => negb (o_extensible o)
          end
      end
  end.

(** The descriptor the assignment hands to [[DefineOwnProperty]]. *)
Definition assignDesc (h : gmap loc obj) (l : loc) (k : string) (v : value) : desc :=
  if hasOwn h l k then valueDesc v else dataDesc v.

Lemma arrayLength_own o n w :
  arrayLength o = Some (n, w) -> exists en c, o_own o !! "length" = Some (PData (VNum n) w en c).
Proof.
  unfold arrayLength. destruct (o_own o !! "length") as [[v w' en c|]|]; try discriminate.
  destruct v; try discriminate. intros [= -> ->]. eauto.
Qed.

Lemma arrayIndex_not_length k i : arrayIndex k = Some i -> k <> "length"%string.
Proof. intros H ->. discriminate. Qed.

(** An accepted assignment stores the value as an own data property of
    the object and leaves its other properties as they are. *)
Lemma accepts_stored h l k v :
  accepts h l k = true ->
  exists o own' en c,
    h !! l = Some o
    /\ setRoute h l k v = ViaDefine (assignDesc h l k v)
    /\ defineOwn l k (assignDesc h l k v) h = Stored (<[l := with_own o own']> h)
    /\ own' !! k = Some (PData v true en c)
    /\ (forall k', k' <> k -> o_array o = false \/ k' <> "length"%string ->
          own' !! k' = o_own o !! k')
    /\ (forall k' p, own' !! k' = Some p ->
          p = PData v true en c \/ o_own o !! k' = Some p
          \/ exists n w, p = PData (VNum n) w false false).
Proof.
  unfold accepts. destruct (h !! l) as [o|] eqn:Ho; [|discriminate].
  intros H. apply andb_prop in H. destruct H as [Hfit Harr]. exists o.
  assert (Hroute : setRoute h l k v = ViaDefine (assignDesc h l k v)
                   /\ exists en c,
                        applyDesc (o_own o !! k) (o_extensible o) (assignDesc h l k v)
                        = Some (PData v true en c)).
  { unfold setRoute, assignDesc.
    destruct (o_own o !! k) as [[v0 w en c|en c]|] eqn:Hk; try discriminate.
    - assert (Hown : ownProp h l k = Some (PData v0 w en c)) by (unfold ownProp; now rewrite Ho).
      rewrite (findProp_own _ _ _ _ Hown). subst w. cbn [negb].
      assert (hasOwn h l k = true) as -> by (apply hasOwn_true; rewrite Hown; eauto).
      split; [reflexivity|]. cbn. destruct c; cbn; eauto.
    - assert (Hown : ownProp h l k = None) by (unfold ownProp; now rewrite Ho).
      rewrite (findProp_inherited _ _ _ _ Ho Hk).
      assert (hasOwn h l k = false) as -> by now apply hasOwn_false.
      apply andb_prop in Hfit. destruct Hfit as [-> Hinh].
      split; [|cbn; eauto].
      destruct (inheritedProp h o k) as [[v0 w en c|en c]|]; try discriminate; [|reflexivity].
      now subst w. }
  destruct Hroute as [Hroute (en & c & Happ)].
  set (p := PData v true en c) in *.
  assert (Hord : ordinaryDefine l o k (assignDesc h l k v) h
                 = Stored (<[l := with_own o (<[k := p]> (o_own o))]> h)).
  { unfold ordinaryDefine. now rewrite Happ. }
  assert (Hplain : forall k', k' <> k -> <[k := p]> (o_own o) !! k' = o_own o !! k').
  { intros k' Hne. now rewrite lookup_insert_ne by congruence. }
  assert (Hin : forall k' p', <[k := p]> (o_own o) !! k' = Some p' ->
                  p' = p \/ o_own o !! k' = Some p'
                  \/ exists n w, p' = PData (VNum n) w false false).
  { intros k' p' H. destruct (decide (k' = k)) as [->|Hne].
    - rewrite lookup_insert_eq in H. left. congruence.
    - rewrite lookup_insert_ne in H by congruence. right. now left. }
  assert (Hdef : defineOwn l k (assignDesc h l k v) h
                 = Stored (<[l := with_own o (<[k := p]> (o_own o))]> h)
                 \/ exists i,
                      arrayIndex k = Some i /\ o_array o = true
                      /\ defineOwn l k (assignDesc h l k v) h
                         = Stored (<[l := with_own o
                                     (<["length" := PData (VNum (Z.of_N i + 1)) true false false]>
                                        (<[k := p]> (o_own o)))]> h)).
  { unfold defineOwn. rewrite Ho. destruct (o_array o) eqn:Harray; [|now left].
    cbn [negb orb] in Harr. apply andb_prop in Harr. destruct Harr as [Hlen Hw].
    apply negb_true_iff in Hlen. unfold arrayDefine.
    destruct (arrayLength o) as [[oldLen lw]|] eqn:HL; [|now left].
    subst lw. rewrite Hlen.
    destruct (arrayIndex k) as [i|] eqn:Hi; [|now left].
    destruct (N.ltb i (2 ^ 32 - 1)); cbn [negb]; [|now left].
    rewrite andb_false_r, Happ.
    destruct (Z.leb oldLen (Z.of_N i)); [|now left].
    right. exists i. repeat split. }
  destruct Hdef as [Hdef|(i & Hi & Harray & Hdef)].
  - exists (<[k := p]> (o_own o)), en, c.
    split; [reflexivity|]. split; [exact Hroute|]. split; [exact Hdef|].
    split; [apply lookup_insert_eq|]. split; [intros k' Hne _; now apply Hplain|exact Hin].
  - eexists _, en, c.
    split; [reflexivity|]. split; [exact Hroute|]. split; [exact Hdef|].
    split; [|split].
    + rewrite lookup_insert_ne by (apply not_eq_sym; eapply arrayIndex_not_length; eauto).
      apply lookup_insert_eq.
    + intros k' Hne [Hf|Hl]; [congruence|].
      rewrite lookup_insert_ne by congruence. now apply Hplain.
    + intros k' p' H. destruct (decide (k' = "length"%string)) as [->|Hne].
      * rewrite lookup_insert_eq in H. right. right. injection H as <-. eauto.
      * rewrite lookup_insert_ne in H by congruence. now apply Hin.
Qed.

(** A refused assignment: [Reflect.set] returns false and nothing is
    defined. *)
Lemma refuses_route h l k v :
  refuses h l k = true ->
  setRoute h l k v = NotWritable
  \/ setRoute h l k v = ViaDefine (dataDesc v) /\ defineOwn l k (dataDesc v) h = Refused.
Proof.
  unfold refuses. destruct (h !! l) as [o|] eqn:Ho; [|discriminate].
  unfold setRoute.
  destruct (o_own o !! k) as [[v0 w en c|en c]|] eqn:Hk; try discriminate.
  - intros Hw. left.
    assert (Hown : ownProp h l k = Some (PData v0 w en c)) by (unfold ownProp; now rewrite Ho).
    now rewrite (findProp_own _ _ _ _ Hown), Hw.
  - rewrite (findProp_inherited _ _ _ _ Ho Hk).
    assert (Hown : ownProp h l k = None) by (unfold ownProp; now rewrite Ho).
    assert (hasOwn h l k = false) as -> by now apply hasOwn_false.
    assert (Hnew : o_extensible o = false -> defineOwn l k (dataDesc v) h = Refused).
    { intros Hext. unfold defineOwn. rewrite Ho.
      assert (Hord : ordinaryDefine l o k (dataDesc v) h = Refused).
      { unfold ordinaryDefine. now rewrite Hk, Hext. }
      destruct (o_array o); [|exact Hord]. unfold arrayDefine.
      destruct (arrayLength o) as [[oldLen lw]|] eqn:HL; [|exact Hord].
      destruct (String.eqb_spec k "length") as [->|_].
      { apply arrayLength_own in HL. destruct HL as (? & ? & HL). congruence. }
      destruct (arrayIndex k); [|exact Hord].
      destruct (negb _); [exact Hord|]. destruct (_ && _); [reflexivity|].
      now rewrite Hk, Hext. }
    destruct (inheritedProp h o k) as [[v0 w en c|en c]|]; try discriminate.
    + intros H. destruct w; cbn [negb orb] in *; [|now left].
      right. split; [reflexivity|]. apply Hnew. now apply negb_true_iff.
    + intros H. right. split; [reflexivity|]. apply Hnew. now apply negb_true_iff.
Qed.

(** ** The reactive wrapper: writes *)

Section Writes.

Variable apply_leaf : nat -> World -> World.
Variable apply_bt : nat -> string -> World -> World.
Variable apply_deep : nat -> string -> World -> World.
Variable getRootRaw : nat -> World -> value * World.

Local Abbreviation emitChange' := (_emitChange apply_leaf apply_bt apply_deep getRootRaw).
Local Abbreviation emitAliasesFrom' :=
  (emitAliasesFrom apply_leaf apply_bt apply_deep getRootRaw).
Local Abbreviation emitAllAliases' :=
  (_emitAllAliases apply_leaf apply_bt apply_deep getRootRaw).
Local Abbreviation proxySet' := (proxySet apply_leaf apply_bt apply_deep getRootRaw).
Local Abbreviation proxyDelete' := (proxyDelete apply_leaf apply_bt apply_deep getRootRaw).

Lemma emitAliasesFrom_events gas : forall i target factory e,
  exists rest, events (emitAliasesFrom' gas i target factory e) = events e ++ rest.
Proof.
  induction gas as [|gas IH]; intros i target factory e; cbn [emitAliasesFrom].
  - exists []. now rewrite app_nil_r.
  - destruct (aliases _ _ !! i) as [[ps pa]|]; [|exists []; now rewrite app_nil_r].
    destruct (IH (S i) target factory (emitChange' (factory pa) e)) as [rest Hrest].
    rewrite Hrest, emitChange_events. exists (factory pa :: rest). now rewrite <- app_assoc.
Qed.

Lemma emitAllAliases_events gas target primary factory e :
  exists rest, events (emitAllAliases' gas target primary factory e) = events e ++ rest.
Proof.
  unfold _emitAllAliases. destruct (aliases _ _).
  - rewrite emitChange_events. now eexists.
  - apply emitAliasesFrom_events.
Qed.

(** The change the [defineProperty] trap reports for an assignment. *)
Definition defineChange (h : gmap loc obj) (target : loc) (pathArr : path) (prop : string)
    (newValue : value) : change :=
  {| c_type := if hasOwn h target prop then CDefine else CAdd;
     c_path := pathArr ++ [KStr prop];
     c_pathString := _pathToString (pathArr ++ [KStr prop]);
     c_target := target;
     c_prop := prop;
     c_value := newValue;
     c_oldValue := rawGet h target prop |}.

Lemma internal_not_hook prop : _isInternalKey prop = false -> String.eqb prop K_onChange = false.
Proof.
  unfold _isInternalKey. intros H. apply orb_false_elim in H. destruct H as [H _].
  apply orb_false_elim in H. now destruct H.
Qed.

(** What an accepted assignment through a proxy does first: the
    [defineProperty] trap stores the value and reports it. *)
Lemma accepted_define target pathArr prop newValue e :
  let h := heap (wr (world e)) in
  _isInternalKey prop = false ->
  accepts h target prop = true ->
  reflectSet apply_leaf apply_bt apply_deep getRootRaw target pathArr prop newValue e
  = (Ok, emitChange' (defineChange h target pathArr prop newValue)
           (with_heap e (rawAssign target prop newValue h))).
Proof.
  intros h Hint Hacc.
  destruct (accepts_stored h target prop newValue Hacc)
    as (o & own' & en & c & Ho & Hroute & Hdef & Hk & _).
  unfold reflectSet. fold h. rewrite Hroute. unfold definePropertyTrap. fold h.
  rewrite Hint, Hdef. unfold rawAssign, rawSet. rewrite Hroute, Hdef.
  unfold defineChange. do 3 f_equal.
  apply (rawGet_own _ _ _ _ true en c). unfold ownProp. now rewrite lookup_insert_eq.
Qed.


(** C5: deleting an absent key is a no-op; deleting a present key that
    the object lets go of (a configurable property) emits exactly one
    change, for the path of the proxy deleted through, however many
    alias paths the object is known under. *)
Lemma delete_emits_one_change (p : pid) (prop : string) (e : Engine)
    (target : loc) (pathArr : path) :
  proxies (wr (world e)) !! p = Some (target, pathArr) ->
  let h := heap (wr (world e)) in
  (hasOwn h target prop = false -> proxyDelete' p prop e = (true, e))
  /\ (hasOwn h target prop = true -> _isInternalKey prop = false ->
      canDelete h target prop = true ->
      fst (proxyDelete' p prop e) = true
      /\ events (snd (proxyDelete' p prop e))
         = events e ++
           [{| c_type := CDelete;
               c_path := pathArr ++ [KStr prop];
               c_pathString := _pathToString (pathArr ++ [KStr prop]);
               c_target := target;
               c_prop := prop;
               c_value := VUndef;
               c_oldValue := rawGet h target prop |}]).
Proof.
  intros Hp h. unfold proxyDelete. rewrite Hp. fold h. split.
  - intros ->. now destruct (_isInternalKey prop).
  - intros -> -> ->. cbn [negb fst snd]. split; [reflexivity|].
    now rewrite emitChange_events.
Qed.

End Writes.

(** ** A concrete application with an aliased object *)

(** The data [{x: o, y: o}] with [o = {k: 5}], wrapped, with [x] and [y]
    both read once, and one live leaf binding on each of [x.k] and [y.k]. *)
Definition aliasedData : Wrapper :=
  {| heap := realm {[ 0 := Obj false false {[ "x" := VObj 1; "y" := VObj 1 ]};
                1 := Obj false false {[ "k" := VNum 5 ]} ]};
     rawPaths := {[ 0 := [(EmptyString, [])] ]};
     proxyCache := {[ 0 := {[ EmptyString := 0 ]} ]};
     proxies := [(0, [])];
     hook := Some FBindHook;
     sysData := VProxy 0 |}.

Definition twoElements : DomState :=
  {| d_kind := {[ 1 := Element; 2 := Element ]};
     d_parent := {[ 1 := 0; 2 := 0 ]};
     d_children := {[ 0 := [1; 2] ]};
     d_attrs := ∅;
     d_nextNode := 3;
     d_updating := ∅;
     d_rendered := ∅ |}.

Definition idle : Sched := {| pendingFor := []; pendingSelect := []; microtasks := [] |}.

Definition leafX : BindRec := {| b_id := 1; b_el := 1 |}.
Definition leafY : BindRec := {| b_id := 2; b_el := 2 |}.

Definition aliasedEngine : Engine :=
  {| world := {| wr := readAll [(0, "x"); (0, "y")] aliasedData;
                 domSt := twoElements; sched := idle |};
     regs := {| _bindings := [("x.k", [leafX]); ("y.k", [leafY])];
                _deepBindings := []; _btBindings := []; _forBindings := [] |};
     events := [];
     visits := [] |}.

(** The closures of the two leaf bindings: each reads its path again. *)
Definition readsLeaf (id : nat) (w : World) : World :=
  let pathArr := if Nat.eqb id 1 then [KStr "x"; KStr "k"] else [KStr "y"; KStr "k"] in
  with_wr w (snd (_getAtPath (sysData (wr w)) pathArr (wr w))).

Definition noTemplate (_ : nat) (_ : string) (w : World) : World := w.
Definition noRoot (_ : nat) (w : World) : value * World := (VUndef, w).

Example aliased_object_has_two_paths :
  aliases (wr (world aliasedEngine)) 1 = [("x", [KStr "x"]); ("y", [KStr "y"])]
  /\ proxies (wr (world aliasedEngine)) = [(0, []); (1, [KStr "x"]); (1, [KStr "y"])].
Proof. split; reflexivity. Qed.

(** The raw data root after [_makeDeepProxy] and
    [_installDataChangeHook] have put their marks on it: each is defined
    with [Object.defineProperty] and cannot be written or deleted. *)
Definition markedRoot (root : obj) : obj :=
  with_own root
    (<["__ezBindHookInstalled" := PData (VBool true) false false false]>
       (<[K_isProxy := PData (VBool true) false false false]> (o_own root))).



(** *** The raw root stored in the data *)

(** An application whose data root is the empty object, wrapped. *)
Definition rootEngine : Engine :=
  {| world := {| wr := emptyRoot; domSt := twoElements; sched := idle |};
     regs := {| _bindings := []; _deepBindings := []; _btBindings := []; _forBindings := [] |};
     events := [];
     visits := [] |}.

(** The last step of [_makeDeepProxy]:
    [Object.defineProperty(system.data, "__isEzDeepProxy", {value: true, enumerable: false})],
    which goes through the [defineProperty] trap to the raw root. *)
Definition markRoot (e : Engine) : Engine :=
  snd (definePropertyTrap readsLeaf noTemplate noTemplate noRoot 0 [] K_isProxy
         (Desc (Some (VBool true)) None (Some false) None) e).

(** [data.self = data] after that. *)
Definition selfStored : Engine :=
  snd (proxySet readsLeaf noTemplate noTemplate noRoot 8 0 "self" (VProxy 0)
         (markRoot rootEngine)).

(** C9, as stated, fails: the raw data root carries the proxy mark, so
    the property that holds it is read back as the raw object, not as a
    wrapped view, and no view is cached for it. *)
Lemma wrapper_identity_counterexample :
  ownProp (heap (wr (world (markRoot rootEngine)))) 0 K_isProxy
  = Some (PData (VBool true) false false false)
  /\ rawGet (heap (wr (world selfStored))) 0 "self" = VObj 0
  /\ proxyGet 0 "self" (wr (world selfStored)) = (VObj 0, wr (world selfStored))
  /\ cacheGet (wr (world selfStored)) 0 "self" = None.
Proof. repeat split; vm_compute; reflexivity. Qed.

(** The delete trap reports the path of the proxy it was reached
    through and no other alias. With [o] known under [x] and [y],
    deleting [x.k] emits one change, for [x.k], and refreshes only the
    binding on [x.k]; a write to the same key emits one change for
    each of [x.k] and [y.k] (after the one of the defineProperty trap). *)
Lemma delete_skips_aliases :
  map c_pathString
    (events (snd (proxyDelete readsLeaf noTemplate noTemplate noRoot 1 "k" aliasedEngine)))
  = ["x.k"]
  /\ visits (snd (proxyDelete readsLeaf noTemplate noTemplate noRoot 1 "k" aliasedEngine))
     = [LeafApplied "x.k" leafX]
  /\ map (fun c => (c_type c, c_pathString c))
       (events (snd (proxySet readsLeaf noTemplate noTemplate noRoot 8 1 "k" (VNum 6)
                       aliasedEngine)))
     = [(CDefine, "x.k"); (CSet, "x.k"); (CSet, "y.k")].
Proof. repeat split; vm_compute; reflexivity. Qed.

Lemma delete_emits_one_change_witness :
  aliases (wr (world aliasedEngine)) 1 = [("x", [KStr "x"]); ("y", [KStr "y"])]
  /\ fst (proxyDelete readsLeaf noTemplate noTemplate noRoot 1 "k" aliasedEngine) = true
  /\ events (snd (proxyDelete readsLeaf noTemplate noTemplate noRoot 1 "k" aliasedEngine))
     = [{| c_type := CDelete; c_path := [KStr "x"; KStr "k"]; c_pathString := "x.k";
           c_target := 1; c_prop := "k"; c_value := VUndef; c_oldValue := VNum 5 |}].
Proof.
  split; [reflexivity|].
  pose proof (proj2 (delete_emits_one_change readsLeaf noTemplate noTemplate noRoot 1 "k"
                       aliasedEngine 1 [KStr "x"] eq_refl) eq_refl eq_refl eq_refl) as H.
  split; [exact (proj1 H)|]. rewrite (proj2 H). vm_compute. reflexivity.
Defined.

(** ** The ezFor repeater *)

Definition kids (d : DomState) (parent : node) : list node :=
  default [] (d_children d !! parent).

Definition attrOf (d : DomState) (n : node) (a : string) : option string :=
  default ∅ (d_attrs d !! n) !! a.

(** The child lists and the parent pointers of a document agree. *)
Definition domOK (d : DomState) : Prop :=
  forall parent n, n ∈ kids d parent <-> d_parent d !! n = Some parent.

Lemma nodeAfter_found a pre rest :
  a ∉ pre -> nodeAfter a (pre ++ a :: rest) = head rest.
Proof.
  induction pre as [|m pre IH]; intros Hin; cbn [app nodeAfter].
  - now rewrite Nat.eqb_refl.
  - apply not_elem_of_cons in Hin. destruct Hin as [Hne Hin].
    destruct (Nat.eqb_spec m a) as [E|_]; [congruence|]. now apply IH.
Qed.

Lemma insertAt_after item a pre rest :
  NoDup (pre ++ a :: rest) ->
  insertAt (head rest) item (pre ++ a :: rest) = pre ++ a :: item :: rest.
Proof.
  intros Hnd. destruct rest as [|r rest]; cbn [head].
  - destruct (pre ++ [a]) eqn:E; cbn [insertAt].
    + destruct pre; discriminate.
    + rewrite <- E. now rewrite <- app_assoc.
  - assert (Hr : r ∉ pre ++ [a]).
    { rewrite (cons_middle a), app_assoc in Hnd. apply NoDup_app in Hnd.
      destruct Hnd as (_ & Hd & _). intros Hin. apply (Hd r Hin). left. }
    clear Hnd. change (a :: item :: r :: rest) with ([a] ++ item :: r :: rest).
    change (a :: r :: rest) with ([a] ++ r :: rest). rewrite !app_assoc.
    induction (pre ++ [a]) as [|m l IH]; cbn [app insertAt].
    + now rewrite Nat.eqb_refl.
    + apply not_elem_of_cons in Hr. destruct Hr as [Hne Hr].
      destruct (Nat.eqb_spec m r) as [E|_]; [congruence|]. now rewrite IH.
Qed.

Lemma removeFrom_notin n l : n ∉ l -> removeFrom n l = l.
Proof.
  unfold removeFrom. induction l as [|m l IH]; intros Hin; [reflexivity|].
  apply not_elem_of_cons in Hin. destruct Hin as [Hne Hin].
  rewrite filter_cons_True by congruence. now rewrite IH.
Qed.

Lemma kids_removeChild d parent n q :
  kids (removeChild d parent n) q
  = if decide (parent = q) then removeFrom n (kids d parent) else kids d q.
Proof.
  unfold kids, removeChild. cbn [d_children].
  destruct (decide (parent = q)) as [->|Hne].
  - now rewrite lookup_insert_eq.
  - now rewrite lookup_insert_ne.
Qed.

(** Detaching a node removes it from the child list it is in. *)
Lemma kids_detach d n q : domOK d -> kids (detach d n) q = removeFrom n (kids d q).
Proof.
  intros Hok. unfold detach. destruct (d_parent d !! n) as [parent|] eqn:Hp.
  - rewrite kids_removeChild. destruct (decide (parent = q)) as [->|Hne]; [reflexivity|].
    symmetry. apply removeFrom_notin. rewrite (Hok q n). congruence.
  - symmetry. apply removeFrom_notin. rewrite (Hok q n). congruence.
Qed.

Lemma detach_domOK d n : domOK d -> domOK (detach d n).
Proof.
  intros Hok q m. rewrite kids_detach by assumption.
  unfold removeFrom. rewrite list_elem_of_filter, (Hok q m).
  unfold detach. destruct (d_parent d !! n) as [parent|] eqn:Hp.
  - cbn [removeChild d_parent]. destruct (decide (n = m)) as [->|Hne].
    + rewrite lookup_delete_eq. split; [intros [? _]; congruence|discriminate].
    + rewrite lookup_delete_ne by assumption. split; [tauto|]. intros H. split; [congruence|auto].
  - split; [tauto|]. intros H. split; [congruence|auto].
Qed.

Lemma detach_other d n m : m <> n -> d_parent (detach d n) !! m = d_parent d !! m.
Proof.
  intros Hne. unfold detach. destruct (d_parent d !! n); [|reflexivity].
  cbn [removeChild d_parent]. now rewrite lookup_delete_ne by congruence.
Qed.

Lemma detach_frame d n :
  d_attrs (detach d n) = d_attrs d /\ d_nextNode (detach d n) = d_nextNode d
  /\ d_rendered (detach d n) = d_rendered d.
Proof. unfold detach. now destruct (d_parent d !! n). Qed.

(** Clearing the previously rendered nodes. *)
Lemma clear_rendered old : forall d q a,
  domOK d -> a ∉ old ->
  let d' := fold_left detach old d in
  domOK d'
  /\ kids d' q = filter (fun m => m ∉ old) (kids d q)
  /\ d_parent d' !! a = d_parent d !! a
  /\ d_attrs d' = d_attrs d /\ d_nextNode d' = d_nextNode d /\ d_rendered d' = d_rendered d.
Proof.
  induction old as [|n old IH]; intros d q a Hok Ha; cbn [fold_left].
  - repeat split; try assumption; try apply Hok.
    symmetry. induction (kids d q) as [|m l IHl]; [reflexivity|].
    rewrite filter_cons_True by apply not_elem_of_nil. now rewrite IHl.
  - apply not_elem_of_cons in Ha. destruct Ha as [Hne Ha].
    destruct (IH (detach d n) q a (detach_domOK d n Hok) Ha) as (H1 & H2 & H3 & H4 & H5 & H6).
    destruct (detach_frame d n) as (F1 & F2 & F3).
    split; [exact H1|]. split; [|split; [|split; [|split]]]; try congruence.
    + rewrite H2, kids_detach by assumption. unfold removeFrom.
      rewrite list_filter_filter. apply list_filter_iff. intros m.
      rewrite not_elem_of_cons. tauto.
    + rewrite H3. now apply detach_other.
Qed.

Section RepeatOrder.

Variable prefixKeys : node -> string -> World -> World.
Variable compile : node -> World -> World.

Local Abbreviation renderItem' := (renderItem prefixKeys compile).
Local Abbreviation _renderForRecord' := (_renderForRecord prefixKeys compile).

(** What the work inside a clone leaves alone: the child list of the
    anchor's parent, the anchor itself, the record's rendered list, the
    nodes that exist (the counter does not go back) and their
    [ezForIndex] attribute, and the scheduler. *)
Record quiet (parent anchor : node) (rid : nat) (w w' : World) : Prop := {
  q_kids : kids (domSt w') parent = kids (domSt w) parent;
  q_anchor : d_parent (domSt w') !! anchor = d_parent (domSt w) !! anchor;
  q_rendered : d_rendered (domSt w') !! rid = d_rendered (domSt w) !! rid;
  q_next : d_nextNode (domSt w) <= d_nextNode (domSt w');
  q_index : forall m, m < d_nextNode (domSt w) ->
            attrOf (domSt w') m "ezForIndex" = attrOf (domSt w) m "ezForIndex";
}.

Variable parent : node.
Variable rec : ForRec.

Hypothesis prefixKeys_quiet :
  forall item prefix w, quiet parent (fr_anchor rec) (fr_id rec) w (prefixKeys item prefix w).
Hypothesis compile_quiet :
  forall item w, quiet parent (fr_anchor rec) (fr_id rec) w (compile item w).

(** The state of the loop when the items of the indices [idx] are in place. *)
Record renderInv (base : node) (pre post : list node) (w : World)
    (items : list node) (idx : list nat) : Prop := {
  ri_base : base <= d_nextNode (domSt w);
  ri_new : forall m, m ∈ items -> base <= m;
  ri_kids : kids (domSt w) parent = pre ++ fr_anchor rec :: items ++ post;
  ri_nodup : NoDup (pre ++ fr_anchor rec :: items ++ post);
  ri_fresh : forall m, m ∈ pre ++ fr_anchor rec :: items ++ post -> m < d_nextNode (domSt w);
  ri_parent : d_parent (domSt w) !! fr_anchor rec = Some parent;
  ri_rendered : default [] (d_rendered (domSt w) !! fr_id rec) = rev items;
  ri_index : map (fun m => attrOf (domSt w) m "ezForIndex") items
             = map (fun i => Some (numToString (N.of_nat i))) idx;
}.

Lemma renderItem_step base pre post w items idx i :
  renderInv base pre post w items idx ->
  snd (renderItem' rec w i) = true
  /\ exists item,
       renderInv base pre post (fst (renderItem' rec w i)) (item :: items) (i :: idx).
Proof.
  intros [Hb Hnew Hk Hnd Hfr Hp Hr Hi]. unfold renderItem.
  set (prefix := (fr_dataKey rec +:+ "[" +:+ numToString (N.of_nat i) +:+ "]")%string).
  unfold cloneItem. set (item := d_nextNode (domSt w)).
  set (d1 := {| d_kind := <[item:=Element]> (d_kind (domSt w));
                d_parent := d_parent (domSt w); d_children := d_children (domSt w);
                d_attrs := _; d_nextNode := S item;
                d_updating := d_updating (domSt w); d_rendered := d_rendered (domSt w) |}).
  pose proof (prefixKeys_quiet item prefix (with_dom w d1)) as Q1.
  set (w1 := prefixKeys item prefix (with_dom w d1)) in *.
  destruct Q1 as [Q1k Q1a Q1r Q1n Q1i]. cbn [with_dom domSt] in Q1k, Q1a, Q1r, Q1n, Q1i.
  assert (Hk1 : kids (domSt w1) parent = pre ++ fr_anchor rec :: items ++ post).
  { rewrite Q1k. exact Hk. }
  assert (Hp1 : d_parent (domSt w1) !! fr_anchor rec = Some parent).
  { rewrite Q1a. exact Hp. }
  rewrite Hp1. cbn [fst snd]. split; [reflexivity|].
  assert (Hitem : item ∉ pre ++ fr_anchor rec :: items ++ post).
  { intros Hin. apply Hfr in Hin. unfold item in Hin. lia. }
  assert (Hanchor : fr_anchor rec <> item).
  { intros E. apply Hitem. rewrite <- E. apply elem_of_app. right. left. }
  assert (Hpre : fr_anchor rec ∉ pre).
  { apply NoDup_app in Hnd. destruct Hnd as (_ & Hd & _). intros Hin.
    apply (Hd _ Hin). left. }
  set (d2 := insertBefore (domSt w1) parent item (nextSibling (domSt w1) (fr_anchor rec))).
  assert (Hk2 : kids d2 parent = pre ++ fr_anchor rec :: item :: items ++ post).
  { unfold d2, insertBefore, kids at 1. cbn [d_children]. rewrite lookup_insert_eq.
    cbn [default from_option id].
    assert (Hkd : default [] (d_children (detach (domSt w1) item) !! parent)
                  = pre ++ fr_anchor rec :: items ++ post).
    { change (kids (detach (domSt w1) item) parent = pre ++ fr_anchor rec :: items ++ post).
      unfold detach. destruct (d_parent (domSt w1) !! item) as [q|]; [|exact Hk1].
      rewrite kids_removeChild. destruct (decide (q = parent)) as [->|]; [|exact Hk1].
      rewrite Hk1. now apply removeFrom_notin. }
    rewrite Hkd. unfold nextSibling. rewrite Hp1. fold (kids (domSt w1) parent).
    rewrite Hk1, nodeAfter_found by assumption. now apply insertAt_after. }
  assert (Hp2 : d_parent d2 !! fr_anchor rec = Some parent).
  { unfold d2, insertBefore. cbn [d_parent].
    rewrite lookup_insert_ne by congruence. now rewrite detach_other. }
  assert (Hf2 : d_attrs d2 = d_attrs (domSt w1) /\ d_nextNode d2 = d_nextNode (domSt w1)
                /\ d_rendered d2 = d_rendered (domSt w1)).
  { unfold d2, insertBefore. cbn [d_attrs d_nextNode d_rendered]. apply detach_frame. }
  destruct Hf2 as (Ha2 & Hn2 & Hr2).
  set (d3 := setRendered d2 (fr_id rec) (default [] (d_rendered d2 !! fr_id rec) ++ [item])).
  pose proof (compile_quiet item (with_dom w1 d3)) as Q3.
  set (w3 := compile item (with_dom w1 d3)) in *.
  destruct Q3 as [Q3k Q3a Q3r Q3n Q3i]. cbn [with_dom domSt] in Q3k, Q3a, Q3r, Q3n, Q3i.
  assert (Hn1 : S item <= d_nextNode (domSt w1)) by exact Q1n.
  assert (Hn3 : d_nextNode (domSt w1) <= d_nextNode (domSt w3)).
  { rewrite <- Hn2. exact Q3n. }
  assert (Hattr1 : forall m, m < S item ->
            attrOf (domSt w3) m "ezForIndex" = attrOf d1 m "ezForIndex").
  { intros m Hm. rewrite Q3i.
    - unfold attrOf, d3, setRendered. cbn [d_attrs]. rewrite Ha2.
      now apply Q1i.
    - unfold d3, setRendered. cbn [d_nextNode]. rewrite Hn2. lia. }
  exists item. split.
  - unfold item in Hn1. lia.
  - intros m Hm. apply elem_of_cons in Hm. destruct Hm as [->|Hm]; [exact Hb|auto].
  - rewrite Q3k. exact Hk2.
  - change (pre ++ fr_anchor rec :: (item :: items) ++ post)
      with (pre ++ fr_anchor rec :: item :: items ++ post).
    apply NoDup_app in Hnd. destruct Hnd as (N1 & N2 & N3).
    apply NoDup_app. split; [exact N1|]. split.
    + intros m Hm Hin. apply elem_of_cons in Hin. destruct Hin as [->|Hin].
      * apply (N2 _ Hm). left.
      * apply elem_of_cons in Hin. destruct Hin as [->|Hin].
        -- apply Hitem. apply elem_of_app. now left.
        -- apply (N2 _ Hm). now right.
    + apply NoDup_cons in N3. destruct N3 as [N3 N4].
      apply NoDup_cons. split.
      * intros Hin. apply elem_of_cons in Hin. destruct Hin as [E|Hin]; [congruence|auto].
      * apply NoDup_cons. split; [|exact N4].
        intros Hin. apply Hitem. apply elem_of_app. right. now right.
  - intros m Hm.
    assert (Hlt : S item <= d_nextNode (domSt w3)) by lia.
    change (pre ++ fr_anchor rec :: (item :: items) ++ post)
      with (pre ++ fr_anchor rec :: item :: items ++ post) in Hm.
    apply elem_of_app in Hm. destruct Hm as [Hm|Hm].
    + assert (m < item) by (apply Hfr, elem_of_app; now left). lia.
    + apply elem_of_cons in Hm. destruct Hm as [->|Hm].
      * assert (fr_anchor rec < item) by (apply Hfr, elem_of_app; right; left). lia.
      * apply elem_of_cons in Hm. destruct Hm as [->|Hm]; [lia|].
        assert (m < item) by (apply Hfr, elem_of_app; right; now right). lia.
  - rewrite Q3a. unfold d3, setRendered. cbn [d_parent]. exact Hp2.
  - rewrite Q3r. unfold d3, setRendered. cbn [d_rendered]. rewrite lookup_insert_eq.
    cbn [default from_option id]. rewrite Hr2, Q1r.
    change (d_rendered d1) with (d_rendered (domSt w)). now rewrite Hr.
  - cbn [map]. f_equal.
    + rewrite Hattr1 by lia. unfold attrOf, d1. cbn [d_attrs].
      rewrite lookup_insert_eq. cbn [default from_option id]. now rewrite lookup_insert_eq.
    + rewrite <- Hi. apply map_ext_in. intros m Hm.
      assert (m < item).
      { apply Hfr. apply elem_of_app. right. right. apply elem_of_app. left.
        now apply list_elem_of_In. }
      rewrite Hattr1 by lia. unfold attrOf, d1. cbn [d_attrs].
      now rewrite lookup_insert_ne by lia.
Qed.

Lemma render_loop base pre post : forall k w items m,
  renderInv base pre post w items (seq k m) ->
  exists items',
    renderInv base pre post (renderItems prefixKeys compile rec (rev (seq 0 k)) w) items'
      (seq 0 (k + m)).
Proof.
  induction k as [|k IH]; intros w items m Hinv.
  - exists items. exact Hinv.
  - rewrite seq_S, rev_app_distr. cbn [rev app renderItems Nat.add].
    destruct (renderItem_step base pre post w items (seq (S k) m) k Hinv)
      as [Hwent [item Hstep]].
    destruct (renderItem' rec w k) as [w' went]. cbn [fst snd] in Hwent, Hstep. subst went.
    change (k :: seq (S k) m) with (seq k (S m)) in Hstep.
    destruct (IH _ _ _ Hstep) as [items' H']. exists items'.
    now replace (S (k + m)) with (k + S m) by lia.
Qed.

(** C6. A rebuild of a repeat record whose path holds an array of
    length [n] leaves, right after the anchor and in this order, [n] new
    clones whose [ezForIndex] attributes read 0, 1, ..., n-1: the
    instances stand in the order of the array elements, index 0 first,
    although the loop runs from n-1 down to 0 and [rec.rendered] lists
    them in the order they were made. The siblings before and after
    are those that were there, less the instances of the last rebuild. *)
Theorem repeat_order w arr x1 len x2 pre post :
  _getAtPath (sysData (wr w)) (fr_pathArr rec) (wr w) = (arr, x1) ->
  isArrayValue x1 arr = true ->
  jsGet arr "length" x1 = (len, x2) ->
  domOK (domSt w) ->
  kids (domSt w) parent = pre ++ fr_anchor rec :: post ->
  NoDup (kids (domSt w) parent) ->
  (forall m, m ∈ kids (domSt w) parent -> m < d_nextNode (domSt w)) ->
  fr_anchor rec ∉ default [] (d_rendered (domSt w) !! fr_id rec) ->
  let old := default [] (d_rendered (domSt w) !! fr_id rec) in
  let w' := _renderForRecord' rec w in
  exists items,
    kids (domSt w') parent
      = filter (fun m => m ∉ old) pre ++ fr_anchor rec :: items
        ++ filter (fun m => m ∉ old) post
    /\ length items = lengthOf len
    /\ map (fun m => attrOf (domSt w') m "ezForIndex") items
       = map (fun i => Some (numToString (N.of_nat i))) (seq 0 (lengthOf len))
    /\ (forall m, m ∈ items -> m ∉ kids (domSt w) parent)
    /\ default [] (d_rendered (domSt w') !! fr_id rec) = rev items.
Proof.
  intros Harr Hisarr Hlen Hdom Hkids Hnd Hfresh Hanchor old w'.
  subst w'. unfold _renderForRecord. rewrite Harr, Hisarr. cbn [negb]. rewrite Hlen.
  fold old.
  destruct (clear_rendered old (domSt w) parent (fr_anchor rec) Hdom Hanchor)
    as (Hdom' & Hk' & Hp' & Ha' & Hn' & Hr').
  set (d1 := fold_left detach old (domSt w)) in *.
  set (w0 := with_wr (with_dom (with_wr w x1) (setRendered d1 (fr_id rec) [])) x2).
  assert (Hin : fr_anchor rec ∈ kids (domSt w) parent).
  { rewrite Hkids. apply elem_of_app. right. left. }
  assert (Hinv : renderInv (d_nextNode (domSt w))
                   (filter (fun m => m ∉ old) pre) (filter (fun m => m ∉ old) post)
                   w0 [] (seq (lengthOf len) 0)).
  { assert (Hk0 : kids (domSt w0) parent
                  = filter (fun m => m ∉ old) pre ++ fr_anchor rec
                    :: [] ++ filter (fun m => m ∉ old) post).
    { change (kids (domSt w0) parent) with (kids d1 parent).
      rewrite Hk', Hkids, filter_app, filter_cons_True by exact Hanchor. reflexivity. }
    split.
    - change (d_nextNode (domSt w0)) with (d_nextNode d1). now rewrite Hn'.
    - intros m Hm. now apply elem_of_nil in Hm.
    - exact Hk0.
    - rewrite <- Hk0. change (kids (domSt w0) parent) with (kids d1 parent).
      rewrite Hk'. now apply NoDup_filter.
    - intros m Hm. rewrite <- Hk0 in Hm.
      change (kids (domSt w0) parent) with (kids d1 parent) in Hm.
      change (d_nextNode (domSt w0)) with (d_nextNode d1).
      rewrite Hk' in Hm. apply list_elem_of_filter in Hm. rewrite Hn'.
      apply Hfresh, Hm.
    - change (d_parent (domSt w0)) with (d_parent d1). rewrite Hp'.
      now apply Hdom.
    - change (d_rendered (domSt w0)) with (<[fr_id rec := []]> (d_rendered d1)).
      now rewrite lookup_insert_eq.
    - reflexivity. }
  destruct (render_loop _ _ _ _ _ _ _ Hinv) as [items [Hb Hnew Hk Hnd' Hfr Hp Hr Hi]].
  rewrite Nat.add_0_r in Hi.
  exists items. split; [exact Hk|]. split.
  { apply (f_equal (@length _)) in Hi. now rewrite !length_map, length_seq in Hi. }
  split; [exact Hi|]. split; [|exact Hr].
  intros m Hm Hold. apply Hnew in Hm. apply Hfresh in Hold. lia.
Qed.

End RepeatOrder.

(** *** A list of three *)

(** The data [{items: ["x", "y", "z"]}] and a page whose body (node 0)
    holds a heading (1), the anchor comment of the repeat (2) and a footer
    (3); the template (4) was taken out of the page by [_bindFor]. *)
Definition listData : Wrapper :=
  {| heap := realm {[ 0 := Obj false false {[ "items" := VObj 1 ]};
                1 := Obj true false {[ "0" := VStr "x"; "1" := VStr "y"; "2" := VStr "z";
                                       "length" := VNum 3 ]} ]};
     rawPaths := {[ 0 := [(EmptyString, [])] ]};
     proxyCache := {[ 0 := {[ EmptyString := 0 ]} ]};
     proxies := [(0, [])];
     hook := Some FBindHook;
     sysData := VProxy 0 |}.

Definition listPage : DomState :=
  {| d_kind := {[ 0 := Element; 1 := Element; 2 := CommentNode; 3 := Element; 4 := Element ]};
     d_parent := {[ 1 := 0; 2 := 0; 3 := 0 ]};
     d_children := {[ 0 := [1; 2; 3] ]};
     d_attrs := {[ 4 := {[ "ezFor" := "items"; "class" := "row" ]} ]};
     d_nextNode := 5;
     d_updating := ∅;
     d_rendered := ∅ |}.

Definition listRec : ForRec :=
  {| fr_id := 0; fr_dataKey := "items"; fr_pathArr := [KStr "items"];
     fr_pathString := "items"; fr_anchor := 2; fr_template := 4 |}.

Definition listWorld : World := {| wr := listData; domSt := listPage; sched := idle |}.

(** Clones with nothing to prefix and nothing to compile. *)
Definition plainPrefix (_ : node) (_ : string) (w : World) : World := w.
Definition plainCompile (_ : node) (w : World) : World := w.

Lemma quiet_refl parent anchor rid w : quiet parent anchor rid w w.
Proof. split; auto. Qed.

Lemma listPage_ok : domOK listPage.
Proof.
  intros p n. unfold kids, listPage. cbn [d_children d_parent]. split.
  - intros Hin. destruct (decide (p = 0)) as [->|Hp].
    + rewrite lookup_singleton_eq in Hin. cbn in Hin.
      repeat (apply elem_of_cons in Hin; destruct Hin as [->|Hin]; [reflexivity|]).
      now apply elem_of_nil in Hin.
    + rewrite lookup_singleton_ne in Hin by congruence. now apply elem_of_nil in Hin.
  - intros Hpar.
    repeat (apply lookup_insert_Some in Hpar; destruct Hpar as [[<- <-]|[_ Hpar]];
            [rewrite lookup_singleton_eq; cbn; set_solver|]).
    apply lookup_singleton_Some in Hpar. destruct Hpar as [<- <-].
    rewrite lookup_singleton_eq. cbn. set_solver.
Qed.

Lemma repeat_order_witness :
  exists items,
    kids (domSt (_renderForRecord plainPrefix plainCompile listRec listWorld)) 0
      = [1] ++ 2 :: items ++ [3]
    /\ length items = 3
    /\ map (fun m => attrOf (domSt (_renderForRecord plainPrefix plainCompile listRec listWorld))
                       m "ezForIndex") items
       = [Some "0"; Some "1"; Some "2"]
    /\ (forall m, m ∈ items -> m ∉ [1; 2; 3])
    /\ default [] (d_rendered (domSt (_renderForRecord plainPrefix plainCompile listRec
                                        listWorld)) !! 0)
       = rev items.
Proof.
  refine (repeat_order plainPrefix plainCompile 0 listRec
            (fun _ _ w => quiet_refl _ _ _ w) (fun _ w => quiet_refl _ _ _ w)
            listWorld (VProxy 1) _ (VNum 3) _ [1] [3]
            eq_refl eq_refl eq_refl listPage_ok eq_refl _ _ _).
  - apply (bool_decide_unpack _). vm_compute. exact I.
  - intros m Hm. vm_compute in Hm. vm_compute.
    repeat (apply elem_of_cons in Hm; destruct Hm as [->|Hm]; [lia|]).
    now apply elem_of_nil in Hm.
  - vm_compute. apply not_elem_of_nil.
Defined.

(** The same rebuild, evaluated: the clones 7, 6, 5 were made for the
    indices 0, 1, 2 in the order 2, 1, 0, and stand as 7, 6, 5 between
    the heading and the footer; each carries the key of its element. *)
Example list_of_three_in_order :
  let w' := _renderForRecord plainPrefix plainCompile listRec listWorld in
  kids (domSt w') 0 = [1; 2; 7; 6; 5; 3]
  /\ map (fun m => attrOf (domSt w') m "ezForChild") [7; 6; 5]
     = [Some "items[0]"; Some "items[1]"; Some "items[2]"]
  /\ map (fun m => fst (_getAtPath (sysData (wr w'))
                          (_parsePath (default EmptyString (attrOf (domSt w') m "ezForChild")))
                          (wr w'))) [7; 6; 5]
     = [VStr "x"; VStr "y"; VStr "z"]
  /\ d_rendered (domSt w') !! 0 = Some [5; 6; 7].
Proof. vm_compute. repeat split; reflexivity. Qed.

(** A second rebuild takes the first instances out before it makes new ones. *)
Example list_of_three_rebuilt :
  let w' := _renderForRecord plainPrefix plainCompile listRec listWorld in
  let w'' := _renderForRecord plainPrefix plainCompile listRec w' in
  kids (domSt w'') 0 = [1; 2; 10; 9; 8; 3]
  /\ map (fun m => attrOf (domSt w'') m "ezForIndex") [10; 9; 8]
     = [Some "0"; Some "1"; Some "2"].
Proof. vm_compute. repeat split; reflexivity. Qed.

(** ** The rebuild scheduler *)

(** The keys of the rebuilds waiting in the microtask queue. *)
Definition forKeys (q : list task) : list nat :=
  omap (fun t => match t with TFor r => Some (fr_id r) | TSelect _ _ => None end) q.

Definition selectKeys (q : list task) : list node :=
  omap (fun t => match t with TSelect el _ => Some el | TFor _ => None end) q.

(** No key waits twice, and every key that waits is flagged pending. *)
Record schedOK (s : Sched) : Prop := {
  so_for : NoDup (forKeys (microtasks s));
  so_select : NoDup (selectKeys (microtasks s));
  so_forPending : forall k, k ∈ forKeys (microtasks s) -> k ∈ pendingFor s;
  so_selectPending : forall n, n ∈ selectKeys (microtasks s) -> n ∈ pendingSelect s;
}.

(** What the queue and the flags look like when a callback starts: its
    task has been taken off the queue and it has cleared its own flag. *)
Definition started (t : task) (s : Sched) : Sched :=
  let s' := {| pendingFor := pendingFor s; pendingSelect := pendingSelect s;
               microtasks := tail (microtasks s) |} in
  match t with
  | TFor r => clearPendingFor (fr_id r) s'
  | TSelect el _ => clearPendingSelect el s'
  end.

Lemma forKeys_app q q' : forKeys (q ++ q') = forKeys q ++ forKeys q'.
Proof. apply omap_app. Qed.

Lemma selectKeys_app q q' : selectKeys (q ++ q') = selectKeys q ++ selectKeys q'.
Proof. apply omap_app. Qed.

Lemma scheduleFor_pending rec s :
  fr_id rec ∈ pendingFor s -> _scheduleForRebuild rec s = s.
Proof. intros H. unfold _scheduleForRebuild. now rewrite bool_decide_eq_true_2. Qed.

Lemma scheduleSelect_pending el gm w :
  el ∈ pendingSelect (sched w) -> _scheduleSelectRebuild el gm w = w.
Proof.
  intros H. unfold _scheduleSelectRebuild.
  destruct (negb (isElement (domSt w) el)); [reflexivity|].
  now rewrite bool_decide_eq_true_2.
Qed.

Lemma scheduleFor_fresh rec s :
  fr_id rec ∉ pendingFor s ->
  _scheduleForRebuild rec s
  = {| pendingFor := fr_id rec :: pendingFor s; pendingSelect := pendingSelect s;
       microtasks := microtasks s ++ [TFor rec] |}.
Proof. intros H. unfold _scheduleForRebuild. now rewrite bool_decide_eq_false_2. Qed.

Lemma scheduleFor_ok rec s : schedOK s -> schedOK (_scheduleForRebuild rec s).
Proof.
  intros [H1 H2 H3 H4]. unfold _scheduleForRebuild.
  destruct (bool_decide_reflect (fr_id rec ∈ pendingFor s)) as [Hin|Hin]; [now split|].
  split; cbn [microtasks pendingFor pendingSelect].
  - rewrite forKeys_app. cbn. apply NoDup_app. split; [exact H1|]. split.
    + intros k Hk Hk'. apply list_elem_of_singleton in Hk'. subst k. auto.
    + apply NoDup_singleton.
  - rewrite selectKeys_app. cbn. now rewrite app_nil_r.
  - intros k Hk. rewrite forKeys_app in Hk. cbn in Hk. apply elem_of_app in Hk.
    destruct Hk as [Hk|Hk].
    + right. auto.
    + apply list_elem_of_singleton in Hk. subst k. left.
  - intros n Hn. rewrite selectKeys_app in Hn. cbn in Hn. rewrite app_nil_r in Hn. auto.
Qed.

Lemma scheduleSelect_ok el gm w :
  schedOK (sched w) -> schedOK (sched (_scheduleSelectRebuild el gm w)).
Proof.
  intros [H1 H2 H3 H4]. unfold _scheduleSelectRebuild.
  destruct (negb (isElement (domSt w) el)); [now split|].
  destruct (bool_decide_reflect (el ∈ pendingSelect (sched w))) as [Hin|Hin]; [now split|].
  destruct w as [x d s]. cbn [with_sched sched] in *.
  split; cbn [microtasks pendingFor pendingSelect].
  - rewrite forKeys_app. cbn. now rewrite app_nil_r.
  - rewrite selectKeys_app. cbn. apply NoDup_app. split; [exact H2|]. split.
    + intros k Hk Hk'. apply list_elem_of_singleton in Hk'. subst k. auto.
    + apply NoDup_singleton.
  - intros k Hk. rewrite forKeys_app in Hk. cbn in Hk. rewrite app_nil_r in Hk. auto.
  - intros n Hn. rewrite selectKeys_app in Hn. cbn in Hn. apply elem_of_app in Hn.
    destruct Hn as [Hn|Hn].
    + right. auto.
    + apply list_elem_of_singleton in Hn. subst n. left.
Qed.

Lemma started_ok t rest s :
  microtasks s = t :: rest -> schedOK s -> schedOK (started t s).
Proof.
  intros Hq [H1 H2 H3 H4]. rewrite Hq in H1, H2, H3, H4.
  unfold started. rewrite Hq. cbn [tail].
  destruct t as [r|el gm]; cbn in H1, H2, H3, H4;
    unfold clearPendingFor, clearPendingSelect;
    split; cbn [microtasks pendingFor pendingSelect].
  - now apply NoDup_cons in H1.
  - exact H2.
  - intros k Hk. apply NoDup_cons in H1. destruct H1 as [Hnot _].
    apply list_elem_of_filter. split; [intros ->; exact (Hnot Hk)|].
    apply H3. now right.
  - exact H4.
  - exact H1.
  - now apply NoDup_cons in H2.
  - exact H3.
  - intros n Hn. apply NoDup_cons in H2. destruct H2 as [Hnot _].
    apply list_elem_of_filter. split; [intros ->; exact (Hnot Hn)|].
    apply H4. now right.
Qed.

(** What [_notifyFor] does for a live record: it asks for a rebuild. *)
Definition requestFor (rec : ForRec) (w : World) : World :=
  with_sched w (_scheduleForRebuild rec (sched w)).

Section Coalescing.

Variable prefixKeys : node -> string -> World -> World.
Variable compile : node -> World -> World.
Variable getModel : nat -> World -> value * World.
Variable rebuildSelect : node -> value -> World -> World.

Local Abbreviation drain' := (drain prefixKeys compile getModel rebuildSelect).
Local Abbreviation runTask' := (runTask prefixKeys compile getModel rebuildSelect).

(** One turn of the microtask checkpoint: the callback at the head of
    the queue starts from [started] and, if its node is no longer in
    place, does nothing more. *)
Lemma drain_for gas w rec rest :
  microtasks (sched w) = TFor rec :: rest ->
  let w1 := with_sched w (started (TFor rec) (sched w)) in
  drain' (S gas) w
  = drain' gas (if hasParent (domSt w) (fr_anchor rec)
                then _renderForRecord prefixKeys compile rec w1 else w1).
Proof.
  intros Hq w1. cbn [drain]. rewrite Hq. cbn [runTask]. unfold runForTask.
  destruct w as [x d s]. cbn [with_sched sched domSt wr] in *.
  subst w1. unfold started. rewrite Hq. cbn [tail].
  now destruct (hasParent d (fr_anchor rec)).
Qed.

Lemma drain_select gas w el gm rest :
  microtasks (sched w) = TSelect el gm :: rest ->
  isConnected (domSt w) el = false ->
  drain' (S gas) w = drain' gas (with_sched w (started (TSelect el gm) (sched w))).
Proof.
  intros Hq Hdead. cbn [drain]. rewrite Hq. cbn [runTask]. unfold runSelectTask.
  destruct w as [x d s]. cbn [with_sched sched domSt wr] in *.
  rewrite Hdead. cbn [negb]. unfold started. now rewrite Hq.
Qed.

(** What the deferred rebuild of a select element owes it once the
    element is known to be in the document: the model is fetched; when
    it is a select model and the element is not being updated, the
    option list is rebuilt once, with the element marked as updating
    meanwhile and the mark taken off afterwards; else nothing is done. *)
Definition selectRebuild (el : node) (gm : nat) (w : World) : World :=
  let '(model, w2) := getModel gm w in
  let '(isModel, x3) := _isEzSelectModel model (wr w2) in
  let w3 := with_wr w2 x3 in
  if isModel && negb (bool_decide (el ∈ d_updating (domSt w3))) then
    let w5 := rebuildSelect el model
                (with_dom w3 (setUpdating (domSt w3) ({[el]} ∪ d_updating (domSt w3)))) in
    with_dom w5 (setUpdating (domSt w5) (d_updating (domSt w5) ∖ {[el]}))
  else w3.

Lemma drain_select_run gas w el gm rest :
  microtasks (sched w) = TSelect el gm :: rest ->
  let w1 := with_sched w (started (TSelect el gm) (sched w)) in
  drain' (S gas) w
  = drain' gas (if isConnected (domSt w) el then selectRebuild el gm w1 else w1).
Proof.
  intros Hq w1. cbn [drain]. rewrite Hq. cbn [runTask]. unfold runSelectTask.
  destruct w as [x d s]. cbn [with_sched sched domSt wr] in *.
  subst w1. unfold started. rewrite Hq. cbn [tail].
  destruct (isConnected d el); cbn [negb]; [|reflexivity].
  unfold selectRebuild.
  destruct (getModel gm _) as [model w2].
  destruct (_isEzSelectModel model (wr w2)) as [isModel x3].
  destruct isModel; cbn [negb andb]; [|reflexivity].
  now destruct (bool_decide _).
Qed.

Lemma scheduleSelect_fresh el gm w :
  isElement (domSt w) el = true ->
  el ∉ pendingSelect (sched w) ->
  _scheduleSelectRebuild el gm w
  = with_sched w {| pendingFor := pendingFor (sched w);
                    pendingSelect := el :: pendingSelect (sched w);
                    microtasks := microtasks (sched w) ++ [TSelect el gm] |}.
Proof.
  intros He Hp. unfold _scheduleSelectRebuild. rewrite He. cbn [negb].
  now rewrite bool_decide_eq_false_2.
Qed.

(** C7. A request for a key that is already pending changes nothing,
    for a repeat record and for a select element; requests, and the
    start of a queued callback, keep the queue free of a second rebuild
    for the same key. So when two mutations of one synchronous turn
    each ask for a rebuild of the same record, the queue holds one
    rebuild; the checkpoint runs it once, on the world left by the
    second mutation, after it has cleared the flag and only if the
    anchor still has a parent. The same for a select element: the
    first request flags it and queues one rebuild, the second changes
    nothing, and the checkpoint clears the flag and then, only if the
    element is still in the document, rebuilds it once from the model
    its getter returns at that time. A request for a node that is not
    an element is dropped. *)
Theorem rebuild_coalescing rec (w : World) (m1 m2 : World -> World) gas :
  microtasks (sched w) = [] ->
  fr_id rec ∉ pendingFor (sched w) ->
  (forall v, sched (m1 v) = sched v) ->
  (forall v, sched (m2 v) = sched v) ->
  let w1 := requestFor rec (m1 w) in
  let w2 := requestFor rec (m2 w1) in
  let final := with_sched w2 (started (TFor rec) (sched w2)) in
  (forall s, fr_id rec ∈ pendingFor s -> _scheduleForRebuild rec s = s)
  /\ (forall el gm v, el ∈ pendingSelect (sched v) -> _scheduleSelectRebuild el gm v = v)
  /\ (forall r s, schedOK s -> schedOK (_scheduleForRebuild r s))
  /\ (forall el gm v, schedOK (sched v) -> schedOK (sched (_scheduleSelectRebuild el gm v)))
  /\ (forall t rest s, microtasks s = t :: rest -> schedOK s -> schedOK (started t s))
  /\ w2 = m2 w1
  /\ microtasks (sched w2) = [TFor rec]
  /\ microtasks (sched final) = []
  /\ (fr_id rec ∉ pendingFor (sched final))
  /\ drain' (S gas) w2
     = drain' gas (if hasParent (domSt (m2 w1)) (fr_anchor rec)
                   then _renderForRecord prefixKeys compile rec final else final)
  /\ (forall el gm v, isElement (domSt v) el = false -> _scheduleSelectRebuild el gm v = v)
  /\ (forall el gm gm' (v : World) (n1 n2 : World -> World),
        microtasks (sched v) = [] ->
        (el ∉ pendingSelect (sched v)) ->
        (forall u, sched (n1 u) = sched u) ->
        (forall u, sched (n2 u) = sched u) ->
        isElement (domSt (n1 v)) el = true ->
        let s1 := _scheduleSelectRebuild el gm (n1 v) in
        let s2 := _scheduleSelectRebuild el gm' (n2 s1) in
        let fin := with_sched s2 (started (TSelect el gm) (sched s2)) in
        microtasks (sched s1) = [TSelect el gm]
        /\ pendingSelect (sched s1) = el :: pendingSelect (sched v)
        /\ s2 = n2 s1
        /\ microtasks (sched fin) = []
        /\ (el ∉ pendingSelect (sched fin))
        /\ drain' (S gas) s2
           = drain' gas (if isConnected (domSt (n2 s1)) el
                         then selectRebuild el gm fin else fin)).
Proof.
  intros Hq Hfresh Hm1 Hm2 w1 w2 final.
  split; [apply scheduleFor_pending|]. split; [apply scheduleSelect_pending|].
  split; [apply scheduleFor_ok|]. split; [apply scheduleSelect_ok|].
  split; [apply started_ok|].
  assert (Hs1 : sched w1 = {| pendingFor := fr_id rec :: pendingFor (sched w);
                              pendingSelect := pendingSelect (sched w);
                              microtasks := [TFor rec] |}).
  { subst w1. unfold requestFor. destruct (m1 w) as [x d s] eqn:E.
    cbn [with_sched sched]. replace s with (sched (m1 w)) by now rewrite E.
    rewrite Hm1, scheduleFor_fresh by exact Hfresh. now rewrite Hq. }
  assert (Hw2 : w2 = m2 w1).
  { subst w2. unfold requestFor. rewrite scheduleFor_pending.
    - now destruct (m2 w1).
    - rewrite Hm2, Hs1. left. }
  assert (Hs2 : sched w2 = sched w1) by now rewrite Hw2, Hm2.
  split; [exact Hw2|]. split; [now rewrite Hs2, Hs1|].
  assert (Hfinal : sched final = {| pendingFor := filter (fun r => r <> fr_id rec)
                                                   (fr_id rec :: pendingFor (sched w));
                                    pendingSelect := pendingSelect (sched w);
                                    microtasks := [] |}).
  { subst final. destruct w2 as [x d s]. cbn [with_sched sched] in *. now rewrite Hs2, Hs1. }
  split; [now rewrite Hfinal|]. split.
  { rewrite Hfinal. cbn [pendingFor]. intros Hin. apply list_elem_of_filter in Hin.
    now destruct Hin. }
  split.
  { rewrite <- Hw2. apply (drain_for gas w2 rec []). now rewrite Hs2, Hs1. }
  split.
  { intros el gm v He. unfold _scheduleSelectRebuild. now rewrite He. }
  intros el gm gm' v n1 n2 Hqv Hfv Hn1 Hn2 Hel s1 s2 fin.
  assert (Ht1 : sched s1 = {| pendingFor := pendingFor (sched v);
                              pendingSelect := el :: pendingSelect (sched v);
                              microtasks := [TSelect el gm] |}).
  { subst s1. rewrite scheduleSelect_fresh by (try exact Hel; now rewrite Hn1).
    destruct (n1 v) as [x d s] eqn:E. cbn [with_sched sched].
    replace s with (sched (n1 v)) by now rewrite E. now rewrite Hn1, Hqv. }
  assert (Hv2 : s2 = n2 s1).
  { subst s2. apply scheduleSelect_pending. rewrite Hn2, Ht1. left. }
  assert (Ht2 : sched s2 = sched s1) by now rewrite Hv2, Hn2.
  assert (Hfin : sched fin = {| pendingFor := pendingFor (sched v);
                                pendingSelect := filter (fun n => n <> el)
                                                   (el :: pendingSelect (sched v));
                                microtasks := [] |}).
  { subst fin. destruct s2 as [x d s]. cbn [with_sched sched] in *. now rewrite Ht2, Ht1. }
  split; [now rewrite Ht1|]. split; [now rewrite Ht1|]. split; [exact Hv2|].
  split; [now rewrite Hfin|]. split.
  { rewrite Hfin. cbn [pendingSelect]. intros Hin. apply list_elem_of_filter in Hin.
    now destruct Hin. }
  rewrite <- Hv2. apply (drain_select_run gas s2 el gm []). now rewrite Ht2, Ht1.
Qed.

End Coalescing.

(** *** Two writes to the list of three *)

(** The raw effect of [items[k] = v] on the array of [listData]. *)
Definition storeItem (k : string) (v : value) (w : World) : World :=
  let x := wr w in
  with_wr w {| heap := rawAssign 1 k v (heap x); rawPaths := rawPaths x;
               proxyCache := proxyCache x; proxies := proxies x;
               hook := hook x; sysData := sysData x |}.

Definition noSelect (_ : node) (_ : value) (w : World) : World := w.

Definition twoWrites : World :=
  requestFor listRec
    (storeItem "0" (VStr "a") (requestFor listRec (storeItem "3" (VStr "w") listWorld))).

Lemma rebuild_coalescing_witness :
  microtasks (sched twoWrites) = [TFor listRec]
  /\ drain plainPrefix plainCompile noRoot noSelect 1 twoWrites
     = _renderForRecord plainPrefix plainCompile listRec
         (with_sched twoWrites (started (TFor listRec) (sched twoWrites))).
Proof.
  pose proof (rebuild_coalescing plainPrefix plainCompile noRoot noSelect listRec listWorld
                (storeItem "3" (VStr "w")) (storeItem "0" (VStr "a")) 0
                eq_refl (@not_elem_of_nil _ _) (fun _ => eq_refl) (fun _ => eq_refl)) as H.
  cbv zeta in H. destruct H as (_ & _ & _ & _ & _ & _ & Hq & _ & _ & Hrun & _).
  split; [exact Hq|].
  assert (Hp : hasParent
                 (domSt (storeItem "0" (VStr "a")
                           (requestFor listRec (storeItem "3" (VStr "w") listWorld))))
                 (fr_anchor listRec) = true) by (vm_compute; reflexivity).
  rewrite Hp in Hrun. exact Hrun.
Defined.

(** The same through the proxy and the hook: the repeat record is
    registered on [items]; [items[3] = "w"] and then [items[0] = "a"] go
    through the set trap of the array's proxy. Each of the four change
    events asks for a rebuild twice (at the changed path and at its
    parent [items]), one rebuild is queued, and the checkpoint renders
    the four elements of the final array. *)
Definition listEngine : Engine :=
  {| world := {| wr := readAll [(0, "items")] listData; domSt := listPage; sched := idle |};
     regs := {| _bindings := []; _deepBindings := []; _btBindings := [];
                _forBindings := [("items", [listRec])] |};
     events := [];
     visits := [] |}.

Definition afterTwoWrites : Engine :=
  snd (proxySet readsLeaf noTemplate noTemplate noRoot 8 1 "0" (VStr "a")
         (snd (proxySet readsLeaf noTemplate noTemplate noRoot 8 1 "3" (VStr "w") listEngine))).

Example two_writes_one_rebuild :
  let w' := drain plainPrefix plainCompile noRoot noSelect 8 (world afterTwoWrites) in
  map c_pathString (events afterTwoWrites) = ["items[3]"; "items[3]"; "items[0]"; "items[0]"]
  /\ visits afterTwoWrites = repeat (ForRequested "items" listRec) 8
  /\ microtasks (sched (world afterTwoWrites)) = [TFor listRec]
  /\ kids (domSt w') 0 = [1; 2; 8; 7; 6; 5; 3]
  /\ map (fun m => fst (_getAtPath (sysData (wr w'))
                          (_parsePath (default EmptyString (attrOf (domSt w') m "ezForChild")))
                          (wr w'))) [8; 7; 6; 5]
     = [VStr "a"; VStr "y"; VStr "z"; VStr "w"]
  /\ sched w' = idle.
Proof. vm_compute. repeat split; reflexivity. Qed.

(** ** The change hook: which bindings it reaches *)

(** A binding record the hook got to, under the registry key it was
    found at: it was applied (or asked for a rebuild), or passed over
    because its element or anchor has left the document. *)
Inductive touch :=
  | OnLeaf (key : string) (b : BindRec)
  | OnTemplate (key : string) (b : BindRec)
  | OnRepeat (key : string) (r : ForRec).

Definition touchOf (v : visit) : option touch :=
  match v with
  | LeafApplied k b | LeafSkipped k b => Some (OnLeaf k b)
  | BtApplied k b => Some (OnTemplate k b)
  | ForRequested k r | ForSkipped k r => Some (OnRepeat k r)
  | DeepApplied _ _ | DeepSkipped _ => None
  end.

Definition deepOf (v : visit) : option DeepRec :=
  match v with
  | DeepApplied r _ | DeepSkipped r => Some r
  | _ => None
  end.

Definition touches (vs : list visit) : list touch := omap touchOf vs.
Definition deeps (vs : list visit) : list DeepRec := omap deepOf vs.

(** The records registered for one path string: the leaf and template
    bindings under that very key, and the repeat records under every key
    that [_isPathPrefix] takes for a prefix of it. *)
Definition leafT (R : Registries) (q : string) : list touch :=
  map (OnLeaf q) (regGet (_bindings R) q).

Definition btT (R : Registries) (q : string) : list touch :=
  map (OnTemplate q) (regGet (_btBindings R) q).

Definition forT (R : Registries) (q : string) : list touch :=
  flat_map (fun entry => if _isPathPrefix (fst entry) q
                         then map (OnRepeat (fst entry)) (snd entry) else [])
           (_forBindings R).

Definition exactT (R : Registries) (q : string) : list touch :=
  leafT R q ++ btT R q ++ forT R q.

(** The proper ancestors of a path, the nearest first: the path without
    its last segment, without its last two, ... down to its first segment. *)
Definition ancestors (ks : path) : list path :=
  map (fun n => take n ks) (rev (seq 1 (length ks - 1))).

(** The hook went from [e] to [e']: the registries are the same and the
    visits added reach [ts] and the deep records [ds]. *)
Record moved (e e' : Engine) (ts : list touch) (ds : list DeepRec) : Prop := {
  mv_regs : regs e' = regs e;
  mv_visits : exists vs, visits e' = visits e ++ vs /\ touches vs = ts /\ deeps vs = ds;
}.

Lemma moved_refl e : moved e e [] [].
Proof. split; [reflexivity|]. exists []. now rewrite app_nil_r. Qed.

Lemma moved_trans e1 e2 e3 t1 t2 d1 d2 :
  moved e1 e2 t1 d1 -> moved e2 e3 t2 d2 -> moved e1 e3 (t1 ++ t2) (d1 ++ d2).
Proof.
  intros [R1 (v1 & V1 & T1 & D1)] [R2 (v2 & V2 & T2 & D2)]. split; [congruence|].
  exists (v1 ++ v2). rewrite V2, V1, app_assoc. unfold touches, deeps in *.
  rewrite !omap_app. now subst.
Qed.

Lemma moved_world e w : moved e (with_world e w) [] [].
Proof. split; [reflexivity|]. exists []. cbn. now rewrite app_nil_r. Qed.

Lemma moved_visit e v : moved e (log_visit e v) (touches [v]) (deeps [v]).
Proof. split; [reflexivity|]. now exists [v]. Qed.

Lemma moved_eq e e' ts ts' ds ds' :
  moved e e' ts ds -> ts = ts' -> ds = ds' -> moved e e' ts' ds'.
Proof. now intros H <- <-. Qed.

(** A loop whose turns reach records that depend on the registries only. *)
Lemma moved_fold {A} (f : Engine -> A -> Engine) (g : Registries -> A -> list touch)
    (l : list A) :
  (forall e a, moved e (f e a) (g (regs e) a) []) ->
  forall e, moved e (fold_left f l e) (flat_map (g (regs e)) l) [].
Proof.
  intros Hf. induction l as [|a l IH]; intros e; [apply moved_refl|].
  cbn [fold_left flat_map].
  eapply moved_eq; [eapply moved_trans; [apply Hf|apply IH]| |reflexivity].
  now rewrite (mv_regs _ _ _ _ (Hf e a)).
Qed.

Lemma ancestors_short ks : length ks <= 1 -> ancestors ks = [].
Proof. intros H. unfold ancestors. now replace (length ks - 1) with 0 by lia. Qed.

Lemma ancestors_snoc ks k :
  ks <> [] -> ancestors (ks ++ [k]) = ks :: ancestors ks.
Proof.
  intros Hne. unfold ancestors. rewrite length_app. cbn [length].
  replace (length ks + 1 - 1) with (S (length ks - 1))
    by (destruct ks; [congruence|cbn; lia]).
  rewrite seq_S, rev_app_distr. cbn [rev app map].
  replace (1 + (length ks - 1)) with (length ks) by (destruct ks; [congruence|cbn; lia]).
  rewrite take_app_length. f_equal.
  apply map_ext_in. intros n Hn. apply in_rev, in_seq in Hn.
  rewrite take_app_le by lia. reflexivity.
Qed.

Lemma ancestors_spec ks q :
  q ∈ ancestors ks <-> q <> [] /\ q <> ks /\ q `prefix_of` ks.
Proof.
  unfold ancestors. rewrite list_elem_of_fmap. split.
  - intros (n & -> & Hn). apply list_elem_of_In, in_rev, in_seq in Hn.
    split; [|split].
    + intros E. apply (f_equal (@length _)) in E. rewrite length_take in E. cbn in E. lia.
    + intros E. apply (f_equal (@length _)) in E. rewrite length_take in E. lia.
    + apply prefix_take.
  - intros (Hne & Hneq & [rest ->]). exists (length q). split.
    + now rewrite take_app_length.
    + apply list_elem_of_In, (proj1 (in_rev _ _)), in_seq. rewrite length_app.
      destruct q; [congruence|]. destruct rest; [now rewrite app_nil_r in Hneq|].
      cbn. lia.
Qed.

Lemma map_as_flat_map {A B} (f : A -> B) (l : list A) :
  map f l = flat_map (fun a => [f a]) l.
Proof. induction l as [|a l IH]; [reflexivity|]. cbn. now rewrite IH. Qed.

(** A visit is logged and the record's closure runs. *)
Ltac visited v :=
  eapply moved_eq;
    [eapply moved_trans; [apply (moved_visit _ v)|apply moved_world]
    |reflexivity|reflexivity].

Section FanOut.

Variable apply_leaf : nat -> World -> World.
Variable apply_bt : nat -> string -> World -> World.
Variable apply_deep : nat -> string -> World -> World.
Variable getRootRaw : nat -> World -> value * World.

Local Abbreviation onChange' := (onChange apply_leaf apply_bt apply_deep getRootRaw).

Lemma notifyBindings_moved q e :
  moved e (_notifyBindings apply_leaf q e) (leafT (regs e) q) [].
Proof.
  unfold _notifyBindings, leafT. rewrite map_as_flat_map.
  apply (moved_fold _ (fun _ b => [OnLeaf q b])).
  intros e' b. unfold notifyLeaf. destruct (deadElement _ _).
  - apply (moved_visit e' (LeafSkipped q b)).
  - visited (LeafApplied q b).
Qed.

Lemma notifyBackTicks_moved q e :
  moved e (_notifyBackTicks apply_bt q e) (btT (regs e) q) [].
Proof.
  unfold _notifyBackTicks, btT. rewrite map_as_flat_map.
  apply (moved_fold _ (fun _ b => [OnTemplate q b])).
  intros e' b. unfold notifyBt.
  visited (BtApplied q b).
Qed.

Lemma notifyFor_moved q e : moved e (_notifyFor q e) (forT (regs e) q) [].
Proof.
  unfold _notifyFor, forT.
  apply (moved_fold _ (fun _ entry => if _isPathPrefix (fst entry) q
                                      then map (OnRepeat (fst entry)) (snd entry) else [])).
  intros e' [k l]. unfold notifyForKey. cbn [fst snd].
  destruct (_isPathPrefix k q); [|apply moved_refl].
  rewrite map_as_flat_map.
  apply (moved_fold _ (fun _ r => [OnRepeat k r])).
  intros e'' r. unfold notifyForRec. destruct (negb _).
  - apply (moved_visit e'' (ForSkipped k r)).
  - visited (ForRequested k r).
Qed.

Lemma notifyExact_moved q e :
  moved e (notifyExact apply_leaf apply_bt q e) (exactT (regs e) q) [].
Proof.
  unfold notifyExact, exactT.
  pose proof (notifyBindings_moved q e) as H1.
  pose proof (notifyBackTicks_moved q (_notifyBindings apply_leaf q e)) as H2.
  pose proof (notifyFor_moved q (_notifyBackTicks apply_bt q (_notifyBindings apply_leaf q e)))
    as H3.
  rewrite (mv_regs _ _ _ _ H2), (mv_regs _ _ _ _ H1) in H3.
  rewrite (mv_regs _ _ _ _ H1) in H2.
  apply (moved_trans _ _ _ _ _ [] [] H1). apply (moved_trans _ _ _ _ _ [] [] H2 H3).
Qed.

(** The parent walk reaches the records of every proper ancestor. *)
Lemma notifyParents_moved n : forall arr e,
  length arr <= n ->
  moved e (notifyParents apply_leaf apply_bt n arr e)
    (flat_map (exactT (regs e)) (map _pathToString (ancestors arr))) [].
Proof.
  induction n as [|n IH]; intros arr e Hlen.
  - destruct arr; [|cbn in Hlen; lia]. apply moved_refl.
  - cbn [notifyParents].
    induction arr as [|k0 arr0 _] using rev_ind; [apply moved_refl|].
    rewrite removelast_last. destruct arr0 as [|k1 arr1]; [apply moved_refl|].
    rewrite ancestors_snoc by discriminate.
    cbn [map flat_map]. rewrite length_app in Hlen. cbn [length] in Hlen.
    pose proof (notifyExact_moved (_pathToString (k1 :: arr1)) e) as H1.
    pose proof (IH (k1 :: arr1) (notifyExact apply_leaf apply_bt (_pathToString (k1 :: arr1)) e))
      as H2.
    rewrite (mv_regs _ _ _ _ H1) in H2.
    apply (moved_trans _ _ _ _ _ [] [] H1). apply H2. cbn [length]. lia.
Qed.

(** One deep record: visited when its path is a prefix of the changed
    path (or its element is gone), and otherwise only when its model
    holds the object that was changed. *)
Lemma notifyDeep_moved c e r :
  exists ds,
    moved e (notifyDeep apply_deep getRootRaw c e r) [] ds
    /\ (ds = [r] \/ ds = [] /\ _isPathPrefix (dr_pathString r) (c_pathString c) = false).
Proof.
  unfold notifyDeep. destruct (deadElement _ _).
  { exists [r]. split; [apply (moved_visit e (DeepSkipped r))|now left]. }
  assert (Happly : forall e0, moved e0 (applyDeep apply_deep r (c_pathString c) e0) [] [r]).
  { intros e0. unfold applyDeep.
    visited (DeepApplied r (c_pathString c)). }
  destruct (_isPathPrefix _ _) eqn:Hpre.
  { exists [r]. split; [apply Happly|now left]. }
  destruct (getRootRaw _ _) as [rootRaw w1].
  destruct (_modelContainsTarget _ _ _) as [hit x2].
  destruct hit.
  - exists [r]. split; [|now left].
    eapply moved_eq; [eapply moved_trans; [apply moved_world|apply Happly]|reflexivity..].
  - exists []. split; [apply moved_world|now right].
Qed.

Lemma notifyDeepBindings_moved c e :
  exists ds,
    moved e (_notifyDeepBindings apply_deep getRootRaw c e) [] ds
    /\ sublist ds (_deepBindings (regs e))
    /\ sublist (filter (fun r => _isPathPrefix (dr_pathString r) (c_pathString c) = true)
                       (_deepBindings (regs e))) ds.
Proof.
  unfold _notifyDeepBindings. destruct (String.eqb_spec (c_pathString c) EmptyString) as [E|E].
  { exists []. split; [apply moved_refl|]. split; [apply sublist_nil_l|].
    rewrite E. induction (_deepBindings (regs e)) as [|r rs IH]; [constructor|].
    rewrite filter_cons_False; [exact IH|].
    unfold _isPathPrefix. rewrite orb_true_r. discriminate. }
  generalize (_deepBindings (regs e)) as rs. intros rs. revert e.
  induction rs as [|r rs IH]; intros e.
  { exists []. split; [apply moved_refl|]. split; constructor. }
  cbn [fold_left].
  destruct (notifyDeep_moved c e r) as (d1 & M1 & Hd1).
  destruct (IH (notifyDeep apply_deep getRootRaw c e r)) as (d2 & M2 & S1 & S2).
  exists (d1 ++ d2). split; [apply (moved_trans _ _ _ [] [] _ _ M1 M2)|].
  destruct Hd1 as [->|[-> Hpre]]; cbn [app].
  - split; [now apply sublist_skip|].
    destruct (_isPathPrefix (dr_pathString r) (c_pathString c)) eqn:Hpre.
    + rewrite filter_cons_True by exact Hpre. now apply sublist_skip.
    + rewrite filter_cons_False by congruence. now apply sublist_cons.
  - split; [now apply sublist_cons|].
    rewrite filter_cons_False by congruence. exact S2.
Qed.

End FanOut.

(** The records [_notifyDescendants] gets to: the leaf and the template
    bindings under every registered key that continues the path string
    with [.] or [[], and the repeat records of the path itself. *)
Definition descT (R : Registries) (p : string) : list touch :=
  flat_map (fun k => if isDescendantKey p k then leafT R k else []) (map fst (_bindings R))
  ++ flat_map (fun k => if isDescendantKey p k then btT R k else []) (map fst (_btBindings R))
  ++ forT R p.

(** *** What the hook does, record by record *)

Lemma fold_left_fmap {A B C} (f : A -> B -> A) (g : C -> B) (l : list C) : forall a,
  fold_left f (map g l) a = fold_left (fun a c => f a (g c)) l a.
Proof. induction l as [|c l IH]; intros a; [reflexivity|]. cbn. apply IH. Qed.

Lemma fold_left_flat_map {A B C} (f : A -> B -> A) (g : C -> list B) (l : list C) : forall a,
  fold_left f (flat_map g l) a = fold_left (fun a c => fold_left f (g c) a) l a.
Proof.
  induction l as [|c l IH]; intros a; [reflexivity|].
  cbn [flat_map fold_left]. rewrite fold_left_app. apply IH.
Qed.

Lemma fold_left_pointwise {A B} (f g : A -> B -> A) (l : list B) :
  (forall a b, f a b = g a b) -> forall a, fold_left f l a = fold_left g l a.
Proof.
  intros H. induction l as [|b l IH]; intros a; [reflexivity|]. cbn. rewrite H. apply IH.
Qed.

Section Plan.

Variable apply_leaf : nat -> World -> World.
Variable apply_bt : nat -> string -> World -> World.
Variable apply_deep : nat -> string -> World -> World.
Variable getRootRaw : nat -> World -> value * World.

Local Abbreviation onChange' := (onChange apply_leaf apply_bt apply_deep getRootRaw).

(** What the hook owes a record it gets to. A leaf binding is applied,
    unless it is bound to an element that has left the document; a
    template binding is applied; a repeat record has its rebuild
    requested, unless its anchor has no parent. *)
Definition reach (e : Engine) (t : touch) : Engine :=
  match t with
  | OnLeaf k b =>
      if isElement (domSt (world e)) (b_el b) && negb (isConnected (domSt (world e)) (b_el b))
      then log_visit e (LeafSkipped k b)
      else with_world (log_visit e (LeafApplied k b)) (apply_leaf (b_id b) (world e))
  | OnTemplate k b =>
      with_world (log_visit e (BtApplied k b)) (apply_bt (b_id b) k (world e))
  | OnRepeat k r =>
      if hasParent (domSt (world e)) (fr_anchor r)
      then with_world (log_visit e (ForRequested k r))
             (with_sched (world e) (_scheduleForRebuild r (sched (world e))))
      else log_visit e (ForSkipped k r)
  end.

(** What the hook owes a deep record: nothing when its element has left
    the document; else it is applied when its path is a prefix of the
    changed path, or when the model it is bound to holds the changed
    object. *)
Definition reachDeep (c : change) (e : Engine) (r : DeepRec) : Engine :=
  let p := c_pathString c in
  if isElement (domSt (world e)) (dr_el r) && negb (isConnected (domSt (world e)) (dr_el r))
  then log_visit e (DeepSkipped r)
  else if _isPathPrefix (dr_pathString r) p
  then with_world (log_visit e (DeepApplied r p)) (apply_deep (dr_id r) p (world e))
  else
    let '(rootRaw, w1) := getRootRaw (dr_id r) (world e) in
    let '(hit, x2) := _modelContainsTarget rootRaw (c_target c) (wr w1) in
    if hit
    then with_world (log_visit e (DeepApplied r p)) (apply_deep (dr_id r) p (with_wr w1 x2))
    else with_world e (with_wr w1 x2).

(** The records a change is owed to, in order: those of its path
    string; when the change puts an object there, those of the paths
    that continue it; then those of each proper ancestor of the parsed
    path, the nearest first. *)
Definition planT (R : Registries) (c : change) : list touch :=
  exactT R (c_pathString c)
  ++ (if isObjReplace c then descT R (c_pathString c) else [])
  ++ flat_map (exactT R) (map _pathToString (ancestors (_parsePath (c_pathString c)))).

(** The whole of it: every deep record in the order of registration,
    then the records of the plan. *)
Definition announce (c : change) (e : Engine) : Engine :=
  fold_left reach (planT (regs e) c) (fold_left (reachDeep c) (_deepBindings (regs e)) e).

Lemma reach_regs e t : regs (reach e t) = regs e.
Proof.
  destruct t; cbn [reach].
  - now destruct (_ && _).
  - reflexivity.
  - now destruct (hasParent _ _).
Qed.

Lemma reachAll_regs ts : forall e, regs (fold_left reach ts e) = regs e.
Proof.
  induction ts as [|t ts IH]; intros e; [reflexivity|]. cbn [fold_left].
  now rewrite IH, reach_regs.
Qed.

Lemma reachDeep_regs c e r : regs (reachDeep c e r) = regs e.
Proof.
  unfold reachDeep. destruct (_ && _); [reflexivity|].
  destruct (_isPathPrefix _ _); [reflexivity|].
  destruct (getRootRaw _ _) as [rootRaw w1].
  destruct (_modelContainsTarget _ _ _) as [hit x2]. now destruct hit.
Qed.

Lemma reachDeeps_regs c rs : forall e, regs (fold_left (reachDeep c) rs e) = regs e.
Proof.
  induction rs as [|r rs IH]; intros e; [reflexivity|]. cbn [fold_left].
  now rewrite IH, reachDeep_regs.
Qed.

Lemma notifyBindings_plan q e :
  _notifyBindings apply_leaf q e = fold_left reach (leafT (regs e) q) e.
Proof.
  unfold _notifyBindings, leafT. rewrite fold_left_fmap.
  apply fold_left_pointwise. intros e' b. unfold notifyLeaf, deadElement. cbn [reach].
  now destruct (_ && _).
Qed.

Lemma notifyBackTicks_plan q e :
  _notifyBackTicks apply_bt q e = fold_left reach (btT (regs e) q) e.
Proof.
  unfold _notifyBackTicks, btT. rewrite fold_left_fmap.
  now apply fold_left_pointwise.
Qed.

Lemma notifyFor_plan q e : _notifyFor q e = fold_left reach (forT (regs e) q) e.
Proof.
  unfold _notifyFor, forT. rewrite fold_left_flat_map.
  apply fold_left_pointwise. intros e' [k l]. unfold notifyForKey. cbn [fst snd].
  destruct (_isPathPrefix k q); [|reflexivity].
  rewrite fold_left_fmap. apply fold_left_pointwise. intros e'' r.
  unfold notifyForRec. cbn [reach]. now destruct (hasParent _ _).
Qed.

Lemma notifyExact_plan q e :
  notifyExact apply_leaf apply_bt q e = fold_left reach (exactT (regs e) q) e.
Proof.
  unfold notifyExact, exactT. rewrite !fold_left_app.
  rewrite notifyFor_plan, notifyBackTicks_plan, notifyBindings_plan.
  now rewrite !reachAll_regs.
Qed.

Lemma notifyParents_plan n : forall arr e,
  length arr <= n ->
  notifyParents apply_leaf apply_bt n arr e
  = fold_left reach (flat_map (exactT (regs e)) (map _pathToString (ancestors arr))) e.
Proof.
  induction n as [|n IH]; intros arr e Hlen.
  - destruct arr; [|cbn in Hlen; lia]. reflexivity.
  - cbn [notifyParents].
    induction arr as [|k0 arr0 _] using rev_ind; [reflexivity|].
    rewrite removelast_last. destruct arr0 as [|k1 arr1]; [reflexivity|].
    rewrite ancestors_snoc by discriminate.
    cbn [map flat_map]. rewrite length_app in Hlen. cbn [length] in Hlen.
    rewrite fold_left_app, IH by (cbn [length]; lia).
    now rewrite notifyExact_plan, reachAll_regs.
Qed.

Lemma notifyDescendants_plan p e :
  p <> EmptyString ->
  _notifyDescendants apply_leaf apply_bt p e = fold_left reach (descT (regs e) p) e.
Proof.
  intros Hp. unfold _notifyDescendants, descT. apply String.eqb_neq in Hp. rewrite Hp.
  cbv zeta. rewrite !fold_left_app, !fold_left_flat_map.
  assert (H1 : forall l e0,
    fold_left (fun e k => if isDescendantKey p k then _notifyBindings apply_leaf k e else e) l e0
    = fold_left (fun e k => fold_left reach
                              (if isDescendantKey p k then leafT (regs e0) k else []) e) l e0).
  { induction l as [|k l IH]; intros e0; [reflexivity|]. cbn [fold_left].
    rewrite IH. destruct (isDescendantKey p k).
    - rewrite notifyBindings_plan. apply fold_left_pointwise. intros a b.
      now rewrite reachAll_regs.
    - reflexivity. }
  assert (H2 : forall l e0,
    fold_left (fun e k => if isDescendantKey p k then _notifyBackTicks apply_bt k e else e) l e0
    = fold_left (fun e k => fold_left reach
                              (if isDescendantKey p k then btT (regs e0) k else []) e) l e0).
  { induction l as [|k l IH]; intros e0; [reflexivity|]. cbn [fold_left].
    rewrite IH. destruct (isDescendantKey p k).
    - rewrite notifyBackTicks_plan. apply fold_left_pointwise. intros a b.
      now rewrite reachAll_regs.
    - reflexivity. }
  rewrite H1.
  set (e1 := fold_left _ (map fst (_bindings (regs e))) e).
  assert (R1 : regs e1 = regs e).
  { subst e1. generalize (map fst (_bindings (regs e))) as l. generalize (regs e) at 1 as R.
    intros R l. revert e. induction l as [|k l IH]; intros e; [reflexivity|].
    cbn [fold_left]. now rewrite IH, reachAll_regs. }
  rewrite H2, R1.
  set (e2 := fold_left _ (map fst (_btBindings (regs e))) e1).
  assert (R2 : regs e2 = regs e).
  { subst e2. rewrite <- R1 at 2. generalize (map fst (_btBindings (regs e))) as l.
    generalize (regs e) at 1 as R. generalize e1 as e0.
    intros e0 R l. revert e0. induction l as [|k l IH]; intros e0; [reflexivity|].
    cbn [fold_left]. now rewrite IH, reachAll_regs. }
  now rewrite notifyFor_plan, R2.
Qed.

Lemma notifyDeepBindings_plan c e :
  c_pathString c <> EmptyString ->
  _notifyDeepBindings apply_deep getRootRaw c e
  = fold_left (reachDeep c) (_deepBindings (regs e)) e.
Proof.
  intros Hp. unfold _notifyDeepBindings. apply String.eqb_neq in Hp. rewrite Hp.
  apply fold_left_pointwise. intros e' r. unfold notifyDeep, reachDeep, deadElement, applyDeep.
  destruct (_ && _); [reflexivity|].
  destruct (_isPathPrefix _ _); [reflexivity|].
  destruct (getRootRaw _ _) as [rootRaw w1].
  destruct (_modelContainsTarget _ _ _) as [hit x2]. now destruct hit.
Qed.

(** The hook does what is owed, to the records of the plan and to no
    other, in the order of the plan. *)
Lemma onChange_plan c e :
  c_pathString c <> EmptyString -> onChange' c e = announce c e.
Proof.
  intros Hp. unfold onChange, announce, planT.
  pose proof Hp as Hp0. apply String.eqb_neq in Hp0. rewrite Hp0.
  rewrite !fold_left_app, notifyDeepBindings_plan by exact Hp.
  set (e1 := fold_left (reachDeep c) (_deepBindings (regs e)) e).
  assert (R1 : regs e1 = regs e) by apply reachDeeps_regs.
  rewrite notifyExact_plan, R1.
  set (e2 := fold_left reach (exactT (regs e) (c_pathString c)) e1).
  assert (R2 : regs e2 = regs e) by (subst e2; now rewrite reachAll_regs).
  rewrite notifyParents_plan by reflexivity.
  destruct (isObjReplace c).
  - rewrite notifyDescendants_plan by exact Hp. now rewrite !reachAll_regs, R2.
  - cbn [fold_left]. now rewrite R2.
Qed.

Lemma onChange_silent c e : c_pathString c = EmptyString -> onChange' c e = e.
Proof. intros Hp. unfold onChange. now rewrite Hp. Qed.

End Plan.

(** *** Keys along the walk are no longer than the changed path *)

Definition keyOf (t : touch) : string :=
  match t with
  | OnLeaf k _ | OnTemplate k _ | OnRepeat k _ => k
  end.

Lemma render_app (a b : path) : forall first,
  a <> [] -> render first (a ++ b) = (render first a ++ render false b)%string.
Proof.
  induction a as [|k a IH]; intros first Hne; [congruence|].
  cbn [app render]. destruct a as [|k' a'].
  - cbn [app render]. now rewrite app_nil_r_s.
  - rewrite IH by discriminate. now rewrite app_assoc_s.
Qed.

Lemma render_nonempty first (a : path) : a <> [] -> render first a <> EmptyString.
Proof.
  destruct a as [|k a]; [congruence|]. intros _ E. cbn [render] in E.
  apply app_empty_s in E. destruct E as [E _]. now apply segment_ne in E.
Qed.

Lemma stripPrefix_app p : forall s rest,
  stripPrefix p s = Some rest -> s = (p ++ rest)%string.
Proof.
  induction p as [|c p IH]; intros s rest H; cbn in H.
  - now injection H as ->.
  - destruct s as [|d s]; [discriminate|].
    destruct (ascii_eqb c d) eqn:E; [|discriminate].
    unfold ascii_eqb in E. apply Ascii.eqb_eq in E. subst d.
    cbn. f_equal. now apply IH.
Qed.

Lemma isPathPrefix_length k q :
  _isPathPrefix k q = true -> String.length k <= String.length q.
Proof.
  unfold _isPathPrefix. destruct (_ || _); [discriminate|].
  destruct (String.eqb_spec q k) as [->|_]; [lia|].
  destruct (stripPrefix k q) as [rest|] eqn:E; [|discriminate].
  intros _. apply stripPrefix_app in E. subst q. rewrite app_length_s. lia.
Qed.

Lemma isPathPrefix_refl q : q <> EmptyString -> _isPathPrefix q q = true.
Proof.
  intros H. unfold _isPathPrefix. apply String.eqb_neq in H. rewrite H. cbn [orb].
  now rewrite String.eqb_refl.
Qed.

Lemma chain_length (ks q : path) :
  q ∈ ks :: ancestors ks ->
  String.length (_pathToString q) <= String.length (_pathToString ks).
Proof.
  intros Hq. apply elem_of_cons in Hq. destruct Hq as [->|Hq]; [lia|].
  apply ancestors_spec in Hq. destruct Hq as (Hne & _ & [rest ->]).
  rewrite !pathToString_render, render_app, app_length_s by exact Hne. lia.
Qed.

Lemma descendant_longer (ks more : path) :
  ks <> [] -> more <> [] ->
  String.length (_pathToString ks) < String.length (_pathToString (ks ++ more)).
Proof.
  intros Hks Hmore. rewrite !pathToString_render, render_app, app_length_s by exact Hks.
  pose proof (render_nonempty false more Hmore) as H.
  destruct (render false more); [congruence|]. cbn [String.length]. lia.
Qed.

Lemma exactT_key R q t :
  t ∈ exactT R q -> String.length (keyOf t) <= String.length q.
Proof.
  unfold exactT, leafT, btT, forT. rewrite !elem_of_app, !list_elem_of_fmap.
  intros [(b & -> & _)|[(b & -> & _)|H]]; [cbn; lia..|].
  apply list_elem_of_In, in_flat_map in H. destruct H as ([k l] & _ & H). cbn [fst snd] in H.
  destruct (_isPathPrefix k q) eqn:E; [|now apply in_nil in H].
  apply in_map_iff in H. destruct H as (r & <- & _). cbn. now apply isPathPrefix_length.
Qed.

Lemma forallb_take {A} (f : A -> bool) n : forall l,
  forallb f l = true -> forallb f (take n l) = true.
Proof.
  induction n as [|n IH]; intros [|a l] H; try reflexivity.
  cbn in *. apply andb_prop in H. destruct H as [-> H]. now apply IH.
Qed.

Lemma ancestors_normKey ks :
  forallb stableKey ks = true ->
  map _pathToString (ancestors (map normKey ks)) = map _pathToString (ancestors ks).
Proof.
  intros H. unfold ancestors. rewrite length_map, !map_map.
  apply map_ext. intros n. rewrite <- fmap_take.
  apply pathToString_normKey. now apply forallb_take.
Qed.

Section FanOutClaim.

Variable apply_leaf : nat -> World -> World.
Variable apply_bt : nat -> string -> World -> World.
Variable apply_deep : nat -> string -> World -> World.
Variable getRootRaw : nat -> World -> value * World.

Local Abbreviation reach' := (reach apply_leaf apply_bt).
Local Abbreviation reachDeep' := (reachDeep apply_deep getRootRaw).

(** C1 (amended). For a change whose path string is the canonical string
    of the stable keys [ks] and whose new value is not an object, the
    hook does exactly this, in this order. Every deep record, in the
    order of registration, gets what it is owed: passed over when its
    element has left the document, applied when its path is a prefix of
    the changed path or when its model holds the changed object (the
    alias trigger). Then, for the changed path and for each of its
    proper ancestors from the nearest to the first segment, the leaf
    bindings and the template bindings registered under that very
    string and the repeat records whose key is a prefix of it get what
    they are owed: a leaf binding is applied unless its element has left
    the document, a template binding is applied, a repeat record has
    its rebuild requested unless its anchor is detached. The registries
    are left as they are, and no record found under the key of a
    descendant path is among them. *)
Theorem fanout_exact (c : change) (e : Engine) (ks : path) :
  ks <> [] ->
  forallb stableKey ks = true ->
  c_pathString c = _pathToString ks ->
  isObjReplace c = false ->
  let e' := onChange apply_leaf apply_bt apply_deep getRootRaw c e in
  let plan := flat_map (exactT (regs e)) (map _pathToString (ks :: ancestors ks)) in
  e' = fold_left reach' plan (fold_left (reachDeep' c) (_deepBindings (regs e)) e)
  /\ regs e' = regs e
  /\ (exists vs,
       visits e' = visits e ++ vs
       /\ touches vs = plan
       /\ sublist (deeps vs) (_deepBindings (regs e))
       /\ sublist (filter (fun r => _isPathPrefix (dr_pathString r) (c_pathString c) = true)
                          (_deepBindings (regs e)))
                  (deeps vs))
  /\ (forall more t, more <> [] -> t ∈ plan -> keyOf t <> _pathToString (ks ++ more)).
Proof.
  intros Hne Hst Hp Hprim e' plan.
  assert (Hp1 : c_pathString c <> EmptyString).
  { rewrite Hp, pathToString_render. now apply render_nonempty. }
  assert (Ha : map _pathToString (ancestors (_parsePath (c_pathString c)))
               = map _pathToString (ancestors ks)).
  { now rewrite Hp, (parse_canonical ks Hst), (ancestors_normKey ks Hst). }
  split.
  { subst e' plan. rewrite onChange_plan by exact Hp1. unfold announce, planT.
    rewrite Hprim, Ha. cbn [app map flat_map]. now rewrite Hp. }
  subst e'. unfold onChange. rewrite Hprim.
  pose proof Hp1 as Hp0. apply String.eqb_neq in Hp0. rewrite Hp0.
  destruct (notifyDeepBindings_moved apply_deep getRootRaw c e) as (ds & M1 & S1 & S2).
  set (e1 := _notifyDeepBindings apply_deep getRootRaw c e) in *.
  pose proof (notifyExact_moved apply_leaf apply_bt (c_pathString c) e1) as M2.
  set (e2 := notifyExact apply_leaf apply_bt (c_pathString c) e1) in *.
  pose proof (notifyParents_moved apply_leaf apply_bt (length (_parsePath (c_pathString c)))
                (_parsePath (c_pathString c)) e2 (le_n _)) as M3.
  rewrite (mv_regs _ _ _ _ M2), (mv_regs _ _ _ _ M1) in M3.
  rewrite (mv_regs _ _ _ _ M1) in M2.
  rewrite Ha in M3.
  pose proof (moved_trans _ _ _ _ _ _ _ M1 (moved_trans _ _ _ _ _ _ _ M2 M3)) as M.
  cbn [app] in M. rewrite !app_nil_r in M.
  destruct M as [HR (vs & HV & HT & HD)].
  split; [exact HR|].
  assert (HT' : touches vs = plan).
  { rewrite HT. subst plan. cbn [map flat_map]. now rewrite Hp. }
  split.
  { exists vs. split; [exact HV|]. split; [exact HT'|]. split; now rewrite HD. }
  intros more t Hmore Ht E.
  apply list_elem_of_In, in_flat_map in Ht. destruct Ht as (q & Hq & Ht).
  apply in_map_iff in Hq. destruct Hq as (qs & <- & Hqs).
  apply list_elem_of_In, exactT_key in Ht. apply list_elem_of_In, chain_length in Hqs.
  pose proof (descendant_longer ks more Hne Hmore) as Hlong.
  rewrite E in Ht. lia.
Qed.

End FanOutClaim.

(** *** Four bindings along one path *)

(** The data [{a: {b: {c: {d: 2}}}}], with [a] and [a.b] read once, and
    a live leaf binding on each of [a], [a.b], [a.b.c] and [a.b.c.d]. *)
Definition fourData : Wrapper :=
  {| heap := realm {[ 0 := Obj false false {[ "a" := VObj 1 ]};
                1 := Obj false false {[ "b" := VObj 2 ]};
                2 := Obj false false {[ "c" := VObj 3 ]};
                3 := Obj false false {[ "d" := VNum 2 ]} ]};
     rawPaths := {[ 0 := [(EmptyString, [])] ]};
     proxyCache := {[ 0 := {[ EmptyString := 0 ]} ]};
     proxies := [(0, [])];
     hook := Some FBindHook;
     sysData := VProxy 0 |}.

Definition fourElements : DomState :=
  {| d_kind := {[ 1 := Element; 2 := Element; 3 := Element; 4 := Element ]};
     d_parent := {[ 1 := 0; 2 := 0; 3 := 0; 4 := 0 ]};
     d_children := {[ 0 := [1; 2; 3; 4] ]};
     d_attrs := ∅;
     d_nextNode := 5;
     d_updating := ∅;
     d_rendered := ∅ |}.

Definition leafA : BindRec := {| b_id := 1; b_el := 1 |}.
Definition leafAB : BindRec := {| b_id := 2; b_el := 2 |}.
Definition leafABC : BindRec := {| b_id := 3; b_el := 3 |}.
Definition leafABCD : BindRec := {| b_id := 4; b_el := 4 |}.

Definition fourEngine : Engine :=
  {| world := {| wr := readAll [(0, "a"); (1, "b")] fourData;
                 domSt := fourElements; sched := idle |};
     regs := {| _bindings := [("a", [leafA]); ("a.b", [leafAB]); ("a.b.c", [leafABC]);
                              ("a.b.c.d", [leafABCD])];
                _deepBindings := []; _btBindings := []; _forBindings := [] |};
     events := [];
     visits := [] |}.

(** The closure of each leaf binding reads its own path again. *)
Definition readsPath (id : nat) (w : World) : World :=
  let pathArr := take id [KStr "a"; KStr "b"; KStr "c"; KStr "d"] in
  with_wr w (snd (_getAtPath (sysData (wr w)) pathArr (wr w))).

(** The change event of [a.b.c = 1]. *)
Definition changeABC : change :=
  {| c_type := CSet; c_path := [KStr "a"; KStr "b"; KStr "c"]; c_pathString := "a.b.c";
     c_target := 2; c_prop := "c"; c_value := VNum 1; c_oldValue := VObj 3 |}.

Lemma fanout_exact_witness :
  visits (onChange readsPath noTemplate noTemplate noRoot changeABC fourEngine)
  = [LeafApplied "a.b.c" leafABC; LeafApplied "a.b" leafAB; LeafApplied "a" leafA]
  /\ world (onChange readsPath noTemplate noTemplate noRoot changeABC fourEngine)
     = readsPath 1 (readsPath 2 (readsPath 3 (world fourEngine))).
Proof.
  pose proof (proj1 (fanout_exact readsPath noTemplate noTemplate noRoot changeABC fourEngine
                       [KStr "a"; KStr "b"; KStr "c"]
                       ltac:(discriminate) eq_refl eq_refl eq_refl)) as H.
  cbv zeta in H. rewrite H. split; vm_compute; reflexivity.
Defined.

(** The scenario of the claim, through the set trap of the proxy of
    [a.b]: the defineProperty trap and the set trap each emit a change
    for [a.b.c], and each change applies the bindings on [a.b.c],
    [a.b] and [a]; the binding on [a.b.c.d] is never applied. *)
Example four_bindings_three_applied :
  let r := proxySet readsPath noTemplate noTemplate noRoot 8 2 "c" (VNum 1) fourEngine in
  fst r = Ok
  /\ map (fun c => (c_type c, c_pathString c)) (events (snd r))
     = [(CDefine, "a.b.c"); (CSet, "a.b.c")]
  /\ visits (snd r)
     = [LeafApplied "a.b.c" leafABC; LeafApplied "a.b" leafAB; LeafApplied "a" leafA;
        LeafApplied "a.b.c" leafABC; LeafApplied "a.b" leafAB; LeafApplied "a" leafA].
Proof. vm_compute. repeat split; reflexivity. Qed.

(** *** A select model known under two keys *)

(** The data [{m1: M, m2: M}] with [M = {selectedValue: "a", options: []}],
    [m1] and [m2] both read once, and a live deep binding registered on
    [m2], whose [getRootRaw] reads [m2] and takes the raw object behind it. *)
Definition modelData : Wrapper :=
  {| heap := realm {[ 0 := Obj false false {[ "m1" := VObj 1; "m2" := VObj 1 ]};
                1 := Obj false false {[ "selectedValue" := VStr "a"; "options" := VObj 2 ]};
                2 := Obj true false {[ "length" := VNum 0 ]} ]};
     rawPaths := {[ 0 := [(EmptyString, [])] ]};
     proxyCache := {[ 0 := {[ EmptyString := 0 ]} ]};
     proxies := [(0, [])];
     hook := Some FBindHook;
     sysData := VProxy 0 |}.

Definition deepM2 : DeepRec := {| dr_id := 1; dr_el := 1; dr_pathString := "m2" |}.

Definition modelEngine : Engine :=
  {| world := {| wr := readAll [(0, "m1"); (0, "m2")] modelData;
                 domSt := twoElements; sched := idle |};
     regs := {| _bindings := []; _deepBindings := [deepM2]; _btBindings := [];
                _forBindings := [] |};
     events := [];
     visits := [] |}.

Definition readsM2 (_ : nat) (w : World) : value * World :=
  let '(v, x) := _getAtPath (sysData (wr w)) [KStr "m2"] (wr w) in
  (unwrapValue x v, with_wr w x).

(** The change event of [m1.selectedValue = "b"]. *)
Definition selChange : change :=
  {| c_type := CSet; c_path := [KStr "m1"; KStr "selectedValue"];
     c_pathString := "m1.selectedValue"; c_target := 1; c_prop := "selectedValue";
     c_value := VStr "b"; c_oldValue := VStr "a" |}.

(** C1, as stated, fails: the change at [m1.selectedValue], whose new
    value is a string, applies the deep binding registered on [m2],
    which is neither the changed path nor one of its ancestors. *)
Lemma fanout_counterexample :
  isObjReplace selChange = false
  /\ map _pathToString (c_path selChange :: ancestors (c_path selChange))
     = ["m1.selectedValue"; "m1"]
  /\ _isPathPrefix (dr_pathString deepM2) (c_pathString selChange) = false
  /\ visits (onChange readsLeaf noTemplate noTemplate readsM2 selChange modelEngine)
     = [DeepApplied deepM2 "m1.selectedValue"].
Proof. repeat split; vm_compute; reflexivity. Qed.

(** The same write through the set trap of the proxy of [m1]: the
    changes for [m1.selectedValue] apply the binding on [m2] as the
    change for [m2.selectedValue] does. *)
Example deep_binding_reached_by_alias :
  let r := proxySet readsLeaf noTemplate noTemplate readsM2 8 1 "selectedValue" (VStr "b")
             modelEngine in
  map (fun c => (c_type c, c_pathString c)) (events (snd r))
  = [(CDefine, "m1.selectedValue"); (CSet, "m1.selectedValue"); (CSet, "m2.selectedValue")]
  /\ visits (snd r)
     = [DeepApplied deepM2 "m1.selectedValue"; DeepApplied deepM2 "m1.selectedValue";
        DeepApplied deepM2 "m2.selectedValue"].
Proof. vm_compute. repeat split; reflexivity. Qed.

(** ** The set trap and the aliases of an object *)

(** The hook reads: the wrapper of [e'] extends that of [e]. *)
Definition reads (e e' : Engine) : Prop := extends (wr (world e)) (wr (world e')).

Lemma reads_refl e : reads e e.
Proof. apply extends_refl. Qed.

Lemma reads_trans e1 e2 e3 : reads e1 e2 -> reads e2 e3 -> reads e1 e3.
Proof. apply extends_trans. Qed.

Lemma reads_fold {A} (f : Engine -> A -> Engine) (l : list A) :
  (forall e a, reads e (f e a)) -> forall e, reads e (fold_left f l e).
Proof.
  intros Hf. induction l as [|a l IH]; intros e; [apply reads_refl|].
  cbn [fold_left]. eapply reads_trans; [apply Hf|apply IH].
Qed.

Lemma anyOptionIs_extends opts tgt idx : forall x, extends x (snd (anyOptionIs opts tgt idx x)).
Proof.
  induction idx as [|i rest IH]; intros x; cbn [anyOptionIs]; [apply extends_refl|].
  pose proof (jsGet_extends opts (numToString (N.of_nat i)) x) as H.
  destruct (jsGet opts _ x) as [oi x1]. cbn [snd] in H.
  destruct (strict_eq oi (VObj tgt)); [exact H|].
  eapply extends_trans; [exact H|apply IH].
Qed.

Lemma modelContainsTarget_extends m tgt x : extends x (snd (_modelContainsTarget m tgt x)).
Proof.
  unfold _modelContainsTarget.
  destruct (negb (truthy m)); [apply extends_refl|].
  destruct (strict_eq m (VObj tgt)); [apply extends_refl|].
  pose proof (jsGet_extends m "options" x) as H1.
  destruct (jsGet m "options" x) as [o1 x1]. cbn [snd] in H1.
  assert (H2 : extends x1 (snd (if truthy o1 then jsGet m "options" x1 else (o1, x1)))).
  { destruct (truthy o1); [apply jsGet_extends|apply extends_refl]. }
  destruct (if truthy o1 then jsGet m "options" x1 else (o1, x1)) as [o2 x2]. cbn [snd] in H2.
  pose proof (extends_trans _ _ _ H1 H2) as H12.
  destruct (truthy o1 && strict_eq o2 (VObj tgt)); [exact H12|].
  pose proof (jsGet_extends m "options" x2) as H3.
  destruct (jsGet m "options" x2) as [opts x3]. cbn [snd] in H3.
  pose proof (extends_trans _ _ _ H12 H3) as H123.
  destruct (isArrayValue x3 opts); [|exact H123].
  pose proof (jsGet_extends opts "length" x3) as H4.
  destruct (jsGet opts "length" x3) as [len x4]. cbn [snd] in H4.
  eapply extends_trans; [exact H123|]. eapply extends_trans; [exact H4|].
  apply anyOptionIs_extends.
Qed.

Section ReadingHook.

Variable apply_leaf : nat -> World -> World.
Variable apply_bt : nat -> string -> World -> World.
Variable apply_deep : nat -> string -> World -> World.
Variable getRootRaw : nat -> World -> value * World.

(** The closures of the binding records read the data and write the page. *)
Hypothesis leaf_reads : forall id w, extends (wr w) (wr (apply_leaf id w)).
Hypothesis bt_reads : forall id k w, extends (wr w) (wr (apply_bt id k w)).
Hypothesis deep_reads : forall id k w, extends (wr w) (wr (apply_deep id k w)).
Hypothesis root_reads : forall id w, extends (wr w) (wr (snd (getRootRaw id w))).

Lemma notifyBindings_reads q e : reads e (_notifyBindings apply_leaf q e).
Proof.
  unfold _notifyBindings. apply reads_fold. intros e' b. unfold notifyLeaf, reads.
  destruct (deadElement _ _); [apply extends_refl|]. apply leaf_reads.
Qed.

Lemma notifyBackTicks_reads q e : reads e (_notifyBackTicks apply_bt q e).
Proof.
  unfold _notifyBackTicks. apply reads_fold. intros e' b. unfold notifyBt, reads.
  apply bt_reads.
Qed.

Lemma notifyFor_reads q e : reads e (_notifyFor q e).
Proof.
  unfold _notifyFor. apply reads_fold. intros e' [k l]. unfold notifyForKey.
  destruct (_isPathPrefix _ _); [|apply reads_refl].
  apply reads_fold. intros e'' r. unfold notifyForRec, reads.
  destruct (negb _); apply extends_refl.
Qed.

Lemma notifyDeepBindings_reads c e :
  reads e (_notifyDeepBindings apply_deep getRootRaw c e).
Proof.
  unfold _notifyDeepBindings. destruct (String.eqb _ _); [apply reads_refl|].
  apply reads_fold. intros e' r. unfold notifyDeep, applyDeep, reads.
  destruct (deadElement _ _); [apply extends_refl|].
  destruct (_isPathPrefix _ _); [apply deep_reads|].
  pose proof (root_reads (dr_id r) (world e')) as H1.
  destruct (getRootRaw _ _) as [rootRaw w1]. cbn [snd] in H1.
  pose proof (modelContainsTarget_extends rootRaw (c_target c) (wr w1)) as H2.
  destruct (_modelContainsTarget _ _ _) as [hit x2]. cbn [snd] in H2.
  pose proof (extends_trans _ _ _ H1 H2) as H12.
  destruct hit; [|exact H12].
  eapply extends_trans; [exact H12|]. apply (deep_reads _ _ (with_wr w1 x2)).
Qed.

Lemma notifyExact_reads q e : reads e (notifyExact apply_leaf apply_bt q e).
Proof.
  unfold notifyExact.
  eapply reads_trans; [apply notifyBindings_reads|].
  eapply reads_trans; [apply notifyBackTicks_reads|apply notifyFor_reads].
Qed.

Lemma notifyDescendants_reads q e : reads e (_notifyDescendants apply_leaf apply_bt q e).
Proof.
  unfold _notifyDescendants. destruct (String.eqb _ _); [apply reads_refl|].
  cbv zeta. eapply reads_trans; [|apply notifyFor_reads].
  eapply reads_trans; [|apply reads_fold].
  - apply reads_fold. intros e' k. destruct (isDescendantKey _ _);
      [apply notifyBindings_reads|apply reads_refl].
  - intros e' k. destruct (isDescendantKey _ _);
      [apply notifyBackTicks_reads|apply reads_refl].
Qed.

Lemma notifyParents_reads n : forall arr e,
  reads e (notifyParents apply_leaf apply_bt n arr e).
Proof.
  induction n as [|n IH]; intros arr e; [apply reads_refl|]. cbn [notifyParents].
  destruct (removelast arr); [apply reads_refl|].
  eapply reads_trans; [apply notifyExact_reads|apply IH].
Qed.

Lemma onChange_reads c e :
  reads e (onChange apply_leaf apply_bt apply_deep getRootRaw c e).
Proof.
  unfold onChange. destruct (String.eqb _ _); [apply reads_refl|].
  eapply reads_trans; [apply notifyDeepBindings_reads|].
  eapply reads_trans; [apply notifyExact_reads|].
  eapply reads_trans; [|apply notifyParents_reads].
  destruct (isObjReplace c); [apply notifyDescendants_reads|apply reads_refl].
Qed.

Lemma emitChange_reads c e :
  reads e (_emitChange apply_leaf apply_bt apply_deep getRootRaw c e).
Proof.
  unfold _emitChange, reads. destruct (hook _) as [[]|]; try apply extends_refl.
  apply (onChange_reads c (log_event e c)).
Qed.

End ReadingHook.

Lemma books_moved e e' : sameBooks e e' -> exists ts ds, moved e e' ts ds.
Proof.
  intros (R & _ & vs & V). exists (touches vs), (deeps vs). split; [exact R|].
  now exists vs.
Qed.

Section AliasFanOut.

Variable apply_leaf : nat -> World -> World.
Variable apply_bt : nat -> string -> World -> World.
Variable apply_deep : nat -> string -> World -> World.
Variable getRootRaw : nat -> World -> value * World.

Hypothesis leaf_reads : forall id w, extends (wr w) (wr (apply_leaf id w)).
Hypothesis bt_reads : forall id k w, extends (wr w) (wr (apply_bt id k w)).
Hypothesis deep_reads : forall id k w, extends (wr w) (wr (apply_deep id k w)).
Hypothesis root_reads : forall id w, extends (wr w) (wr (snd (getRootRaw id w))).

Local Abbreviation onChange' := (onChange apply_leaf apply_bt apply_deep getRootRaw).
Local Abbreviation emitChange' := (_emitChange apply_leaf apply_bt apply_deep getRootRaw).
Local Abbreviation emitAliasesFrom' :=
  (emitAliasesFrom apply_leaf apply_bt apply_deep getRootRaw).
Local Abbreviation proxySet' := (proxySet apply_leaf apply_bt apply_deep getRootRaw).

(** Whatever else it does, the hook reaches the records of the changed path. *)
Lemma onChange_reaches c e :
  c_pathString c <> EmptyString ->
  exists ts ds, moved e (onChange' c e) (exactT (regs e) (c_pathString c) ++ ts) ds.
Proof.
  intros Hp. unfold onChange. apply String.eqb_neq in Hp. rewrite Hp.
  destruct (notifyDeepBindings_moved apply_deep getRootRaw c e) as (ds & M1 & _).
  set (e1 := _notifyDeepBindings apply_deep getRootRaw c e) in *.
  pose proof (notifyExact_moved apply_leaf apply_bt (c_pathString c) e1) as M2.
  rewrite (mv_regs _ _ _ _ M1) in M2.
  set (e2 := notifyExact apply_leaf apply_bt (c_pathString c) e1) in *.
  set (e3 := if isObjReplace c then _notifyDescendants apply_leaf apply_bt (c_pathString c) e2
             else e2).
  assert (B : sameBooks e2 (notifyParents apply_leaf apply_bt
                              (length (_parsePath (c_pathString c)))
                              (_parsePath (c_pathString c)) e3)).
  { eapply sameBooks_trans; [|apply notifyParents_books].
    subst e3. destruct (isObjReplace c); [apply notifyDescendants_books|apply sameBooks_refl]. }
  apply books_moved in B. destruct B as (ts & ds' & M3).
  exists ts, (ds ++ [] ++ ds').
  apply (moved_trans _ _ _ [] _ _ _ M1). apply (moved_trans _ _ _ _ _ _ _ M2 M3).
Qed.

Lemma emitChange_reaches c e :
  hook (wr (world e)) = Some FBindHook ->
  c_pathString c <> EmptyString ->
  exists ts ds, moved e (emitChange' c e) (exactT (regs e) (c_pathString c) ++ ts) ds.
Proof.
  intros Hh Hp. unfold _emitChange. cbn [log_event world]. rewrite Hh.
  destruct (onChange_reaches c (log_event e c) Hp) as (ts & ds & [R (vs & V & T & D)]).
  exists ts, ds. split; [exact R|]. now exists vs.
Qed.

Local Abbreviation announce' := (announce apply_leaf apply_bt apply_deep getRootRaw).

(** What emitting a change comes to while the hook of the bind module
    is installed: the change is logged, then announced. *)
Definition tell (c : change) (e : Engine) : Engine := announce' c (log_event e c).

Lemma emitChange_tell c e :
  hook (wr (world e)) = Some FBindHook ->
  c_pathString c <> EmptyString ->
  emitChange' c e = tell c e.
Proof.
  intros Hh Hp. unfold _emitChange, tell. cbn [log_event world]. rewrite Hh.
  now apply onChange_plan.
Qed.

(** The walk over the alias map: one change for each alias the map
    holds when the walk ends, as far as [gas] reaches, and each change
    is announced in its turn. *)
Lemma emitAliasesFrom_walk target (factory : path -> change) :
  (forall a, c_pathString (factory a) <> EmptyString) ->
  forall gas i e,
  hook (wr (world e)) = Some FBindHook ->
  let e' := emitAliasesFrom' gas i target factory e in
  let walked := take gas (drop i (aliases (wr (world e')) target)) in
  reads e e'
  /\ events e' = events e ++ map (fun a => factory (snd a)) walked
  /\ e' = fold_left (fun e a => tell (factory (snd a)) e) walked e
  /\ exists ts ds,
       moved e e' ts ds
       /\ forall a t, a ∈ walked ->
            t ∈ exactT (regs e) (c_pathString (factory (snd a))) -> t ∈ ts.
Proof.
  intros Hne. induction gas as [|gas IH]; intros i e Hh; cbn [emitAliasesFrom].
  { cbn [take map]. split; [apply reads_refl|]. split; [now rewrite app_nil_r|].
    split; [reflexivity|].
    exists [], []. split; [apply moved_refl|]. intros a t Ha. now apply elem_of_nil in Ha. }
  destruct (aliases (wr (world e)) target !! i) as [[ps pa]|] eqn:Hi.
  - pose proof (emitChange_reads _ _ _ _ leaf_reads bt_reads deep_reads root_reads
                  (factory pa) e) as R1.
    destruct (emitChange_reaches (factory pa) e Hh (Hne pa)) as (t1 & d1 & M1).
    pose proof (emitChange_tell (factory pa) e Hh (Hne pa)) as T1.
    set (e1 := emitChange' (factory pa) e) in *.
    assert (Hh1 : hook (wr (world e1)) = Some FBindHook).
    { rewrite <- Hh. apply (ext_hook _ _ R1). }
    destruct (IH (S i) e1 Hh1) as (R2 & E2 & F2 & t2 & d2 & M2 & In2).
    set (e' := emitAliasesFrom' gas (S i) target factory e1) in *.
    pose proof (reads_trans _ _ _ R1 R2) as R12.
    assert (Hfinal : aliases (wr (world e')) target !! i = Some (ps, pa)).
    { eapply prefix_lookup_Some; [exact Hi|]. apply (ext_aliases _ _ R12). }
    rewrite (drop_S _ _ _ Hfinal). cbn [take map fold_left snd].
    split; [exact R12|]. split; [|split].
    + rewrite E2. subst e1. rewrite emitChange_events, <- app_assoc. reflexivity.
    + rewrite <- T1. exact F2.
    + exists ((exactT (regs e) (c_pathString (factory pa)) ++ t1) ++ t2), (d1 ++ d2).
      split; [apply (moved_trans _ _ _ _ _ _ _ M1 M2)|].
      intros a t Ha Ht. apply elem_of_cons in Ha. destruct Ha as [->|Ha].
      * apply elem_of_app. left. apply elem_of_app. now left.
      * apply elem_of_app. right. apply (In2 a t Ha).
        now rewrite (mv_regs _ _ _ _ M1).
  - rewrite drop_ge by now apply lookup_ge_None. rewrite take_nil. cbn [map fold_left].
    split; [apply reads_refl|]. split; [now rewrite app_nil_r|]. split; [reflexivity|].
    exists [], []. split; [apply moved_refl|]. intros a t Ha. now apply elem_of_nil in Ha.
Qed.

(** C2. A write through the proxy [p] of an object that is known under
    the alias paths [final] (those recorded when the trap returns: the
    ones it had, in order, and any the hook came to record meanwhile),
    to a key of it that takes the assignment, emits, after the change
    of the defineProperty trap, one change per alias path, each for
    that alias path followed by the key written. Each of these changes
    is announced in its turn: the records registered under its path
    string are in its plan, so that, for every alias path, the leaf
    bindings registered under it are applied (unless their element has
    left the document), the template bindings are applied and the
    repeat records have their rebuild requested. [gas] bounds the walk;
    with [gas] at least the number of aliases, every alias is served. *)
Theorem alias_fanout (gas : nat) (p : pid) (prop : string) (v : value) (e : Engine)
    (target : loc) (pathArr : path) :
  proxies (wr (world e)) !! p = Some (target, pathArr) ->
  hook (wr (world e)) = Some FBindHook ->
  aliases (wr (world e)) target <> [] ->
  let h := heap (wr (world e)) in
  let newValue := unwrapValue (wr (world e)) v in
  let oldValue := rawGet h target prop in
  let had := hasOwn h target prop in
  _isInternalKey prop = false ->
  accepts h target prop = true ->
  had && strict_eq oldValue newValue = false ->
  let r := proxySet' gas p prop v e in
  let final := aliases (wr (world (snd r))) target in
  let change := setChange had target prop newValue oldValue in
  fst r = Ok
  /\ aliases (wr (world e)) target `prefix_of` final
  /\ events (snd r)
     = events e ++ defineChange h target pathArr prop newValue
         :: map (fun a => change (snd a)) (take gas final)
  /\ (length final <= gas -> take gas final = final)
  /\ snd r
     = fold_left (fun e a => tell (change (snd a)) e) (take gas final)
         (tell (defineChange h target pathArr prop newValue)
            (with_heap e (rawAssign target prop newValue h)))
  /\ (forall a t, a ∈ take gas final ->
        t ∈ exactT (regs e) (_pathToString (snd a ++ [KStr prop])) ->
        t ∈ planT (regs e) (change (snd a)))
  /\ exists vs,
       visits (snd r) = visits e ++ vs
       /\ forall a t, a ∈ take gas final ->
            t ∈ exactT (regs e) (_pathToString (snd a ++ [KStr prop])) -> t ∈ touches vs.
Proof.
  intros Hp Hh Hal h newValue oldValue had Hint Hacc Hsame r final change.
  subst r final. unfold proxySet. rewrite Hp.
  fold h. fold newValue. fold oldValue. fold had.
  rewrite (internal_not_hook _ Hint), Hint, Hsame.
  rewrite (accepted_define apply_leaf apply_bt apply_deep getRootRaw
             target pathArr prop newValue e Hint Hacc).
  fold h. cbn [fst snd].
  set (e0 := with_heap e (rawAssign target prop newValue h)).
  assert (Hh0 : hook (wr (world e0)) = Some FBindHook) by exact Hh.
  set (dc := defineChange h target pathArr prop newValue).
  assert (Hdc : c_pathString dc <> EmptyString).
  { cbn [dc defineChange c_pathString]. rewrite pathToString_render.
    apply render_nonempty. now destruct pathArr. }
  pose proof (emitChange_reads _ _ _ _ leaf_reads bt_reads deep_reads root_reads dc e0) as R1.
  pose proof (emitChange_events apply_leaf apply_bt apply_deep getRootRaw dc e0) as E1.
  pose proof (emitChange_tell dc e0 Hh0 Hdc) as T1.
  destruct (books_moved _ _ (onChange_books apply_leaf apply_bt apply_deep getRootRaw dc
                               (log_event e0 dc))) as (t1 & d1 & M1).
  assert (M1' : moved e (emitChange' dc e0) t1 d1).
  { unfold _emitChange. change (hook (wr (world (log_event e0 dc)))) with (hook (wr (world e0))).
    rewrite Hh0. destruct M1 as [R (vs & V & T & D)].
    split; [exact R|]. now exists vs. }
  set (e1 := emitChange' dc e0) in *.
  assert (Hh1 : hook (wr (world e1)) = Some FBindHook).
  { rewrite <- Hh0. apply (ext_hook _ _ R1). }
  assert (Hpre1 : aliases (wr (world e)) target `prefix_of` aliases (wr (world e1)) target).
  { apply (ext_aliases _ _ R1 target). }
  unfold _emitAllAliases.
  destruct (aliases (wr (world e1)) target) as [|a0 rest0] eqn:Ha1.
  { destruct Hpre1 as [k Hk]. destruct (aliases (wr (world e)) target); [congruence|].
    discriminate. }
  rewrite <- Ha1 in Hpre1. clear Ha1 a0 rest0.
  assert (Hne : forall a, c_pathString (change a) <> EmptyString).
  { intros a. cbn [change setChange c_pathString]. rewrite pathToString_render.
    apply render_nonempty. now destruct a. }
  destruct (emitAliasesFrom_walk target change Hne gas 0 e1 Hh1)
    as (R2 & E2 & F2 & t2 & d2 & M2 & In2).
  cbn [drop] in E2, F2, In2.
  set (e2 := emitAliasesFrom' gas 0 target _ e1) in *.
  split; [reflexivity|]. split.
  { etransitivity; [exact Hpre1|]. apply (ext_aliases _ _ R2 target). }
  split.
  { rewrite E2, E1. cbn [e0 with_heap with_world events]. now rewrite <- app_assoc. }
  split; [apply take_ge|].
  split; [now rewrite <- T1|].
  split.
  { intros a t _ Ht. unfold planT. apply elem_of_app. now left. }
  destruct (moved_trans _ _ _ _ _ _ _ M1' M2) as [_ (vs & V & T & _)].
  exists vs. split; [exact V|]. intros a t Ha Ht. rewrite T.
  apply elem_of_app. right. apply (In2 a t Ha).
  rewrite (mv_regs _ _ _ _ M1'). exact Ht.
Qed.

End AliasFanOut.

Lemma readsLeaf_reads id w : extends (wr w) (wr (readsLeaf id w)).
Proof. unfold readsLeaf. cbn [with_wr wr]. apply getAtPath_extends. Qed.

Lemma alias_fanout_witness :
  map (fun c => (c_type c, c_pathString c))
    (events (snd (proxySet readsLeaf noTemplate noTemplate noRoot 8 1 "k" (VNum 6)
                    aliasedEngine)))
  = [(CDefine, "x.k"); (CSet, "x.k"); (CSet, "y.k")]
  /\ visits (snd (proxySet readsLeaf noTemplate noTemplate noRoot 8 1 "k" (VNum 6)
                    aliasedEngine))
     = [LeafApplied "x.k" leafX; LeafApplied "x.k" leafX; LeafApplied "y.k" leafY].
Proof.
  destruct (alias_fanout readsLeaf noTemplate noTemplate noRoot
              readsLeaf_reads (fun _ _ w => extends_refl (wr w))
              (fun _ _ w => extends_refl (wr w)) (fun _ w => extends_refl (wr w))
              8 1 "k" (VNum 6) aliasedEngine 1 [KStr "x"]
              eq_refl eq_refl ltac:(discriminate) eq_refl eq_refl eq_refl)
    as (_ & _ & HE & _ & HS & _).
  split; [rewrite HE; vm_compute; reflexivity|].
  rewrite HS. vm_compute. reflexivity.
Defined.

(** The write of the witness, evaluated: the bindings on [x.k] and on
    [y.k] are both applied, although the write went through [x]. *)
Example aliased_write_applies_both :
  visits (snd (proxySet readsLeaf noTemplate noTemplate noRoot 8 1 "k" (VNum 6) aliasedEngine))
  = [LeafApplied "x.k" leafX; LeafApplied "x.k" leafX; LeafApplied "y.k" leafY]
  /\ visits (snd (proxySet readsLeaf noTemplate noTemplate noRoot 8 2 "k" (VNum 6)
                    aliasedEngine))
     = [LeafApplied "y.k" leafY; LeafApplied "x.k" leafX; LeafApplied "y.k" leafY].
Proof. split; vm_compute; reflexivity. Qed.

(** * Further properties of the module *)

(** ** Path strings, continued *)

(** The two parsers share their outer loop; what differs is one turn. *)
Section ParserLoop.

Variable step : string -> option key * string.

Fixpoint loopWith (fuel : nat) (s : string) : path :=
  match fuel with
  | O => []
  | S fuel' =>
      match s with
      | EmptyString => []
      | _ =>
          let '(k, rest) := step s in
          match k with
          | Some k => k :: loopWith fuel' rest
          | None => loopWith fuel' rest
          end
      end
  end.

Definition parseAll (s : string) : path := loopWith (String.length s) s.

Hypothesis step_shrinks :
  forall s, s <> EmptyString -> String.length (snd (step s)) < String.length s.
Hypothesis step_dot : forall x, step (String "." x) = (None, x).
Hypothesis step_index : forall d ds rest,
  isDigit d = true -> allDigits ds = true ->
  step ("[" ++ String d ds ++ "]" ++ rest)%string = (Some (KNum (parseInt (String d ds))), rest).
Hypothesis step_ident : forall t rest,
  isIdent t = true -> boundary rest = true -> step (t ++ rest)%string = (Some (KStr t), rest).
Hypothesis step_quoted : forall t rest,
  noControl t = true ->
  step ("[" ++ jsonStringify t ++ "]" ++ rest)%string = (Some (KStr t), rest).

Lemma loopWith_fuel : forall fuel s,
  String.length s <= fuel -> loopWith fuel s = parseAll s.
Proof.
  unfold parseAll. intros fuel s. remember (String.length s) as n eqn:Hn.
  revert fuel s Hn. induction n as [n IH] using lt_wf_ind. intros fuel s -> Hle.
  destruct s as [|ch r]; [destruct fuel; reflexivity|].
  destruct fuel as [|fuel]; [cbn in Hle; lia|].
  pose proof (step_shrinks (String ch r) ltac:(congruence)) as Hlt.
  cbn [String.length loopWith] in *.
  destruct (step (String ch r)) as [k rest]. cbn [snd] in Hlt.
  rewrite (IH (String.length rest) ltac:(lia) fuel rest eq_refl ltac:(lia)).
  rewrite (IH (String.length rest) ltac:(lia) (String.length r) rest eq_refl ltac:(lia)).
  reflexivity.
Qed.

Lemma parseAll_step s :
  s <> EmptyString ->
  parseAll s = match step s with
               | (Some k, rest) => k :: parseAll rest
               | (None, rest) => parseAll rest
               end.
Proof.
  intros Hne. pose proof (step_shrinks s Hne) as Hlt.
  unfold parseAll at 1. destruct s as [|ch r]; [congruence|].
  cbn [String.length loopWith]. destruct (step (String ch r)) as [[k|] rest];
    cbn [snd String.length] in Hlt; rewrite loopWith_fuel by lia; reflexivity.
Qed.

(** One canonical segment in front of a boundary is read back as its key. *)
Lemma parseAll_segment first k x :
  stableKey k = true -> boundary x = true ->
  parseAll (segment first k ++ x)%string = normKey k :: parseAll x.
Proof.
  intros Hk Hb.
  assert (Hne : (segment first k ++ x)%string <> EmptyString).
  { intros E. apply app_empty_s in E. destruct E as [E _]. now apply segment_ne in E. }
  rewrite parseAll_step by exact Hne.
  unfold segment in *. destruct k as [t|n]; cbn [keyString normKey] in *.
  - destruct (isDigits t) eqn:Hd.
    + destruct (isDigits_cons _ Hd) as (d & ds & -> & Hd1 & Hd2).
      rewrite !app_assoc_s. now rewrite step_index.
    + destruct (isIdent t) eqn:Hi.
      * destruct first.
        -- cbn [String.append]. now rewrite step_ident.
        -- rewrite app_assoc_s. cbn [String.append]. rewrite step_dot.
           rewrite parseAll_step
             by (intros E; apply app_empty_s in E; destruct E as [-> _]; discriminate).
           now rewrite step_ident.
      * cbn [stableKey] in Hk. apply andb_prop in Hk. destruct Hk as [Hc _].
        rewrite !app_assoc_s. now rewrite step_quoted.
  - pose proof (numToString_digits n) as Hd.
    destruct (isDigits_cons _ Hd) as (d & ds & E & Hd1 & Hd2).
    pose proof (parseInt_numToString n) as Hp. rewrite E in *.
    rewrite !app_assoc_s. rewrite step_index by assumption. now rewrite Hp.
Qed.

(** A canonical string in front of a boundary is read back as its keys. *)
Lemma parseAll_render ks : forall first x,
  forallb stableKey ks = true -> boundary x = true ->
  parseAll (render first ks ++ x)%string = map normKey ks ++ parseAll x.
Proof.
  induction ks as [|k r IH]; intros first x Hst Hb; [reflexivity|].
  cbn [forallb] in Hst. apply andb_prop in Hst. destruct Hst as [Hk Hr].
  cbn [render map app]. rewrite app_assoc_s, parseAll_segment.
  - now rewrite IH.
  - exact Hk.
  - destruct r as [|k' r']; [exact Hb|].
    apply boundary_app; [now apply render_nonempty|apply render_boundary].
Qed.

End ParserLoop.

Lemma parse_loop_loopWith fuel s : parse_loop fuel s = loopWith parse_step fuel s.
Proof.
  revert s. induction fuel as [|fuel IH]; intros s; [reflexivity|].
  cbn [parse_loop loopWith]. destruct s; [reflexivity|].
  destruct (parse_step _) as [[k|] rest]; now rewrite IH.
Qed.

Lemma parse_loop_loose_loopWith fuel s :
  parse_loop_loose fuel s = loopWith parse_step_loose fuel s.
Proof.
  revert s. induction fuel as [|fuel IH]; intros s; [reflexivity|].
  cbn [parse_loop_loose loopWith]. destruct s; [reflexivity|].
  destruct (parse_step_loose _) as [[k|] rest]; now rewrite IH.
Qed.

Lemma strict_render ks first x :
  forallb stableKey ks = true -> boundary x = true ->
  parseAll parse_step (render first ks ++ x)%string
  = map normKey ks ++ parseAll parse_step x.
Proof.
  apply parseAll_render.
  - apply parse_step_length.
  - apply parse_step_dot.
  - apply parse_step_index.
  - apply parse_step_ident.
  - apply parse_step_quoted.
Qed.

Lemma stripPrefix_self p r : stripPrefix p (p ++ r)%string = Some r.
Proof.
  induction p as [|c p IH]; [reflexivity|]. cbn.
  unfold ascii_eqb. now rewrite Ascii.eqb_refl.
Qed.

Lemma parseAll_canonical ks :
  forallb stableKey ks = true -> parseAll parse_step (render true ks) = map normKey ks.
Proof.
  intros H. pose proof (strict_render ks true EmptyString H eq_refl) as E.
  rewrite app_nil_r_s in E. rewrite E. cbn. now rewrite app_nil_r.
Qed.

(** On canonical path strings, [_isPathPrefix] decides whether one path
    is a prefix of the other, a digit-string key counting as the index
    it denotes. *)
Theorem isPathPrefix_canonical (a b : path) :
  a <> [] ->
  forallb stableKey a = true ->
  forallb stableKey b = true ->
  _isPathPrefix (_pathToString a) (_pathToString b) = true
  <-> map normKey a `prefix_of` map normKey b.
Proof.
  intros Hne Ha Hb. rewrite !pathToString_render.
  assert (Hra : render true a <> EmptyString) by now apply render_nonempty.
  split.
  - unfold _isPathPrefix. apply String.eqb_neq in Hra. rewrite Hra. cbn [orb].
    destruct (String.eqb (render true b) EmptyString); [discriminate|].
    destruct (String.eqb_spec (render true b) (render true a)) as [E|_].
    + intros _. apply (f_equal (parseAll parse_step)) in E.
      rewrite !parseAll_canonical in E by assumption. now rewrite E.
    + destruct (stripPrefix (render true a) (render true b)) as [rest|] eqn:E;
        [|discriminate].
      apply stripPrefix_app in E. destruct rest as [|ch rest]; [discriminate|].
      intros Hch.
      pose proof (strict_render a true (String ch rest) Ha Hch) as P.
      rewrite <- E, parseAll_canonical in P by assumption. rewrite P.
      now apply prefix_app_r.
  - intros [rest Hrest].
    rewrite <- (render_normKey b true Hb), Hrest, <- (render_normKey a true Ha).
    rewrite <- (render_normKey a true Ha) in Hra.
    assert (Hna : map normKey a <> []) by now destruct a.
    rewrite render_app by exact Hna.
    generalize dependent (render true (map normKey a)). intros p Hp.
    destruct rest as [|k rest].
    { cbn [render]. rewrite app_nil_r_s. now apply isPathPrefix_refl. }
    pose proof (render_boundary (k :: rest)) as B.
    pose proof (render_nonempty false (k :: rest) ltac:(discriminate)) as N.
    destruct (render false (k :: rest)) as [|ch tail]; [congruence|].
    unfold _isPathPrefix. apply String.eqb_neq in Hp. rewrite Hp. cbn [orb].
    destruct (String.eqb_spec (p ++ String ch tail)%string EmptyString) as [E0|_].
    { apply app_empty_s in E0. now destruct E0. }
    destruct (String.eqb _ p); [reflexivity|].
    rewrite stripPrefix_self. exact B.
Qed.

Lemma isPathPrefix_canonical_witness :
  _isPathPrefix (_pathToString [KStr "items"])
                (_pathToString [KStr "items"; KStr "3"; KStr "name"]) = true.
Proof.
  apply (proj2 (isPathPrefix_canonical [KStr "items"] [KStr "items"; KStr "3"; KStr "name"]
                  ltac:(discriminate) eq_refl eq_refl)).
  exists [KNum 3; KStr "name"]. reflexivity.
Defined.

(** Two paths with stable keys have the same canonical string exactly
    when they are the same path, a digit-string key counting as the
    index it denotes: registry keys do not confuse different paths. *)
Theorem pathToString_eq_iff (a b : path) :
  forallb stableKey a = true ->
  forallb stableKey b = true ->
  _pathToString a = _pathToString b <-> map normKey a = map normKey b.
Proof.
  intros Ha Hb. split.
  - intros E. apply (f_equal _parsePath) in E.
    now rewrite !parse_canonical in E by assumption.
  - intros E. rewrite <- (pathToString_normKey a Ha), <- (pathToString_normKey b Hb).
    now rewrite E.
Qed.

Lemma pathToString_eq_iff_witness :
  _pathToString [KStr "rows"; KStr "0"; KStr "first name"]
  = _pathToString [KStr "rows"; KNum 0; KStr "first name"].
Proof.
  apply (proj2 (pathToString_eq_iff [KStr "rows"; KStr "0"; KStr "first name"]
                  [KStr "rows"; KNum 0; KStr "first name"] eq_refl eq_refl)).
  reflexivity.
Defined.

(** ** The loose parser of handler paths *)

Lemma parse_step_loose_length s :
  s <> EmptyString -> String.length (snd (parse_step_loose s)) < String.length s.
Proof.
  destruct s as [|ch r]; [congruence|]. intros _. unfold parse_step_loose.
  destruct (ascii_eqb ch "."); [cbn; lia|].
  destruct (ascii_eqb ch "[").
  - pose proof (skip_ws_length r) as Hws.
    destruct (skip_ws r) as [|q r2] eqn:Hr1; [cbn; lia|].
    destruct (ascii_eqb q dquote || ascii_eqb q squote).
    + pose proof (read_quoted_length q r2) as Hq.
      destruct (read_quoted q r2) as [buf r3]. cbn [snd] in Hq |- *.
      pose proof (eat_length "]" (skip_ws (eat q r3))).
      pose proof (skip_ws_length (eat q r3)). pose proof (eat_length q r3).
      cbn [String.length] in *. lia.
    + pose proof (span_length isDigit (String q r2)) as Hsp.
      destruct (span isDigit (String q r2)) as [num rj]. cbn [snd] in Hsp.
      destruct (String.eqb num EmptyString && isIdentStart q).
      * pose proof (span_length isIdentChar (String q r2)) as Hid.
        destruct (span isIdentChar (String q r2)) as [name r3]. cbn [snd] in Hid |- *.
        pose proof (eat_length "]" (skip_ws r3)). pose proof (skip_ws_length r3).
        cbn [String.length] in *. lia.
      * cbn [snd]. pose proof (eat_length "]" (skip_ws rj)). pose proof (skip_ws_length rj).
        cbn [String.length] in *. lia.
  - destruct (isIdentStart ch) eqn:Hid; [|cbn; lia].
    pose proof (span_length isIdentChar (String ch r)) as Hsp.
    destruct (span isIdentChar (String ch r)) as [name r1] eqn:E. cbn [snd] in Hsp |- *.
    cbn [span] in E. unfold isIdentChar at 1 in E. rewrite Hid in E. cbn [orb] in E.
    pose proof (span_length isIdentChar r) as Hsp'.
    destruct (span isIdentChar r) as [a b]. injection E as _ <-.
    cbn [snd String.length] in *. lia.
Qed.

Lemma parse_step_loose_index d ds rest :
  isDigit d = true -> allDigits ds = true ->
  parse_step_loose ("[" ++ String d ds ++ "]" ++ rest)%string
  = (Some (KNum (parseInt (String d ds))), rest).
Proof.
  intros Hd Hds. cbn [String.append parse_step_loose].
  change (ascii_eqb "[" ".") with false. change (ascii_eqb "[" "[") with true. cbv iota.
  cbn [skip_ws]. rewrite (digit_not_space _ Hd). rewrite (digit_not_quote _ Hd).
  change (String d (ds ++ String "]" rest))%string with (String d ds ++ String "]" rest)%string.
  rewrite span_all_digits by (cbn; now rewrite Hd, Hds).
  reflexivity.
Qed.

Lemma parse_step_loose_ident t rest :
  isIdent t = true -> boundary rest = true ->
  parse_step_loose (t ++ rest)%string = (Some (KStr t), rest).
Proof.
  intros Ht Hb. rewrite <- (parse_step_ident t rest Ht Hb).
  destruct t as [|c r]; [discriminate|].
  cbn in Ht. apply andb_prop in Ht. destruct Ht as [Hc _].
  destruct (identStart_plain _ Hc) as [H1 H2].
  cbn [String.append parse_step_loose parse_step]. now rewrite H1, H2.
Qed.

Lemma parse_step_loose_quoted t rest :
  noControl t = true ->
  parse_step_loose ("[" ++ jsonStringify t ++ "]" ++ rest)%string = (Some (KStr t), rest).
Proof.
  intros Ht. rewrite <- (parse_step_quoted t rest Ht). reflexivity.
Qed.

Lemma loose_render ks first x :
  forallb stableKey ks = true -> boundary x = true ->
  parseAll parse_step_loose (render first ks ++ x)%string
  = map normKey ks ++ parseAll parse_step_loose x.
Proof.
  apply parseAll_render.
  - apply parse_step_loose_length.
  - reflexivity.
  - apply parse_step_loose_index.
  - apply parse_step_loose_ident.
  - apply parse_step_loose_quoted.
Qed.

(** The last character of a text satisfies [P]. *)
Fixpoint endsWith (P : ascii -> bool) (s : string) : bool :=
  match s with
  | EmptyString => false
  | String c r =>
      match r with
      | EmptyString => P c
      | _ => endsWith P r
      end
  end.

Lemma endsWith_app P a b : b <> EmptyString -> endsWith P (a ++ b)%string = endsWith P b.
Proof.
  intros Hb. induction a as [|c r IH]; [reflexivity|].
  cbn [String.append endsWith]. rewrite IH.
  destruct (r ++ b)%string eqn:E; [|reflexivity].
  apply app_empty_s in E. destruct E. congruence.
Qed.

Lemma endsWith_skip_ws P s :
  (forall c, isSpace c = true -> P c = false) ->
  endsWith P s = true -> endsWith P (skip_ws s) = true.
Proof.
  intros HP. induction s as [|c r IH]; [discriminate|].
  cbn [skip_ws]. destruct (isSpace c) eqn:Hc; [|auto].
  cbn [endsWith]. destruct r; [now rewrite HP|exact IH].
Qed.

Lemma endsWith_eat P q s :
  P q = false -> endsWith P s = true -> endsWith P (eat q s) = true.
Proof.
  intros HP. destruct s as [|d r]; [discriminate|]. cbn [eat].
  unfold ascii_eqb. destruct (Ascii.eqb_spec d q) as [->|_]; [|auto].
  cbn [endsWith]. destruct r; [now rewrite HP|auto].
Qed.

(** Neither a blank nor a semicolon. *)
Definition solid (c : ascii) : bool := negb (isSpace c) && negb (ascii_eqb c ";").

Lemma solid_not_tail r : endsWith solid r = true -> isCallTail r = false.
Proof.
  intros H. unfold isCallTail.
  assert (Hsp : forall c, isSpace c = true -> solid c = false).
  { intros c Hc. unfold solid. now rewrite Hc. }
  apply (endsWith_skip_ws _ _ Hsp), (endsWith_eat _ ";" _ eq_refl),
    (endsWith_skip_ws _ _ Hsp) in H.
  now destruct (skip_ws (eat ";" (skip_ws r))).
Qed.

(** A trailing [()] is cut, whatever stands before it. *)
Lemma stripCall_call s : stripCall (s ++ "()")%string = s.
Proof.
  induction s as [|c r IH]; [reflexivity|].
  cbn [String.append stripCall].
  destruct (r ++ "()")%string as [|d r''] eqn:E.
  { apply app_empty_s in E. now destruct E. }
  assert (Hno : ascii_eqb c "(" && ascii_eqb d ")" && isCallTail r'' = false).
  { destruct r as [|d0 r0].
    - cbn in E. injection E as <- <-. now rewrite andb_false_r.
    - cbn in E. injection E as <- <-.
      rewrite solid_not_tail; [now rewrite andb_false_r|].
      now rewrite endsWith_app by discriminate. }
  rewrite Hno. now rewrite IH.
Qed.

(** A text that ends in neither a blank, a semicolon nor a closing
    parenthesis holds no call to cut. *)
Definition plainEnd (c : ascii) : bool := solid c && negb (ascii_eqb c ")").

Lemma stripCall_plain s : endsWith plainEnd s = true -> stripCall s = s.
Proof.
  induction s as [|c r IH]; [reflexivity|]. intros H.
  cbn [stripCall]. destruct r as [|d r']; [reflexivity|].
  assert (Hr : endsWith plainEnd (String d r') = true) by exact H.
  assert (Hno : ascii_eqb c "(" && ascii_eqb d ")" && isCallTail r' = false).
  { destruct r' as [|e r''].
    - cbn in Hr. unfold plainEnd in Hr. apply andb_prop in Hr. destruct Hr as [_ Hr].
      apply negb_true_iff in Hr. now rewrite Hr, andb_false_r.
    - rewrite solid_not_tail; [now rewrite andb_false_r|].
      change (endsWith plainEnd (String e r'') = true) in Hr.
      revert Hr. generalize (String e r''). intros u. induction u as [|a u IHu]; [discriminate|].
      cbn [endsWith]. destruct u; [|exact IHu].
      unfold plainEnd. intros Hu. apply andb_prop in Hu. now destruct Hu. }
  rewrite Hno. now rewrite (IH Hr).
Qed.

Lemma identChar_plainEnd c : isIdentChar c = true -> plainEnd c = true.
Proof. all_ascii c. Qed.

Lemma ident_plainEnd u :
  u <> EmptyString -> allIdentChars u = true -> endsWith plainEnd u = true.
Proof.
  induction u as [|a u IHu]; [congruence|]. intros _ H.
  cbn [allIdentChars] in H. apply andb_prop in H. destruct H as [Ha Hu].
  cbn [endsWith]. destruct u; [now apply identChar_plainEnd|].
  apply IHu; [discriminate|exact Hu].
Qed.

Lemma segment_plainEnd first k : endsWith plainEnd (segment first k) = true.
Proof.
  assert (Hbr : forall x, endsWith plainEnd ("[" ++ x ++ "]")%string = true).
  { intros x. rewrite <- app_assoc_s. now rewrite endsWith_app by discriminate. }
  unfold segment. destruct k as [t|n]; cbn [keyString]; [|apply Hbr].
  destruct (isDigits t); [apply Hbr|].
  destruct (isIdent t) eqn:Hi; [|apply Hbr].
  destruct t as [|c r]; [discriminate|].
  rewrite endsWith_app by discriminate.
  cbn in Hi. apply andb_prop in Hi. destruct Hi as [Hc Hr].
  assert (Hall : allIdentChars (String c r) = true).
  { cbn. unfold isIdentChar at 1. now rewrite Hc, Hr. }
  apply ident_plainEnd; [discriminate|exact Hall].
Qed.

Lemma render_plainEnd ks : forall first, ks <> [] -> endsWith plainEnd (render first ks) = true.
Proof.
  induction ks as [|k r IH]; intros first Hne; [congruence|]. cbn [render].
  destruct r as [|k' r'].
  - cbn [render]. rewrite app_nil_r_s. apply segment_plainEnd.
  - rewrite endsWith_app by (apply render_nonempty; discriminate).
    apply IH. discriminate.
Qed.

Lemma trim_id s : skip_ws s = s -> lastNonSpace s = true -> trim s = s.
Proof. intros H1 H2. unfold trim. rewrite H1. now apply trim_end_id. Qed.

Lemma skip_ws_app a b : a <> EmptyString -> skip_ws a = a -> skip_ws (a ++ b)%string = (a ++ b)%string.
Proof.
  destruct a as [|c r]; [congruence|]. intros _. cbn [skip_ws String.append].
  destruct (isSpace c) eqn:Hc; [|reflexivity].
  intros E. pose proof (skip_ws_length r) as L. rewrite E in L. cbn in L. lia.
Qed.

Lemma loose_core ks t :
  forallb stableKey ks = true -> t = EmptyString \/ t = "()"%string ->
  let s := stripCall (render true ks ++ t)%string in
  parse_loop_loose (String.length s) s = map normKey ks.
Proof.
  intros Hst Ht s.
  assert (Hs : s = render true ks).
  { subst s. destruct Ht as [->| ->]; [|apply stripCall_call].
    rewrite app_nil_r_s. destruct ks as [|k r]; [reflexivity|].
    apply stripCall_plain, render_plainEnd. discriminate. }
  rewrite Hs, parse_loop_loose_loopWith.
  pose proof (loose_render ks true EmptyString Hst eq_refl) as E.
  rewrite app_nil_r_s in E. unfold parseAll in E at 1. rewrite E.
  cbn. now rewrite app_nil_r.
Qed.

Lemma canonical_text_trim ks t :
  t = EmptyString \/ t = "()"%string ->
  trim (render true ks ++ t)%string = (render true ks ++ t)%string.
Proof.
  intros Ht. destruct ks as [|k r].
  { cbn [render String.append]. now destruct Ht as [->| ->]. }
  apply trim_id.
  - apply skip_ws_app; [apply render_nonempty; discriminate|apply render_skip_ws].
  - destruct Ht as [->| ->].
    + rewrite app_nil_r_s. apply render_lastNonSpace.
    + now rewrite lastNonSpace_app by discriminate.
Qed.

(** A handler text that is a canonical path string, with or without
    the prefix [system.data.] and a closing [()], is read by the loose
    parser as the strict parser reads the path string. *)
Theorem parsePathLoose_canonical (ks : path) (t : string) :
  forallb stableKey ks = true ->
  t = EmptyString \/ t = "()"%string ->
  let p := _pathToString ks in
  _parsePathLoose ("system.data." ++ p ++ t) = _parsePath p
  /\ (startsWith (p ++ t) "system.data." = false -> _parsePathLoose (p ++ t) = _parsePath p).
Proof.
  intros Hst Ht p. subst p. rewrite (parse_canonical ks Hst), pathToString_render.
  pose proof (canonical_text_trim ks t Ht) as Htrim.
  pose proof (loose_core ks t Hst Ht) as Hcore. cbv zeta in Hcore.
  split.
  - unfold _parsePathLoose.
    assert (Hd : trim ("system.data." ++ render true ks ++ t)
                 = ("system.data." ++ render true ks ++ t)%string).
    { apply trim_id; [reflexivity|].
      destruct (render true ks ++ t)%string eqn:E; [reflexivity|].
      rewrite lastNonSpace_app by discriminate. rewrite <- E.
      unfold trim in Htrim.
      destruct ks as [|k r].
      - cbn in E. destruct Ht as [->| ->]; [discriminate|]. now injection E as <- <-.
      - destruct Ht as [->| ->].
        + rewrite app_nil_r_s. apply render_lastNonSpace.
        + now rewrite lastNonSpace_app by discriminate. }
    rewrite Hd. unfold stripSystemData. rewrite stripPrefix_self. exact Hcore.
  - intros Hno. unfold _parsePathLoose. rewrite Htrim.
    unfold stripSystemData. unfold startsWith in Hno.
    destruct (stripPrefix "system.data." (render true ks ++ t)); [discriminate|].
    exact Hcore.
Qed.

Lemma parsePathLoose_canonical_witness :
  _parsePathLoose "system.data.todo.items[2].toggle()"
  = [KStr "todo"; KStr "items"; KNum 2; KStr "toggle"]
  /\ _parsePathLoose "todo.items[2].toggle()"
     = [KStr "todo"; KStr "items"; KNum 2; KStr "toggle"].
Proof.
  pose proof (parsePathLoose_canonical
                [KStr "todo"; KStr "items"; KStr "2"; KStr "toggle"] "()"
                eq_refl (or_intror eq_refl)) as [H1 H2].
  split; [exact H1|exact (H2 eq_refl)].
Defined.

(** ** Event handlers *)

(** A handler text whose parent path (all keys but the last) holds
    [__proto__], [prototype] or [constructor] calls nothing, whatever the
    data; so does a blank text. *)
Theorem handler_guarded_parent (code : string) (x : Wrapper) :
  trim code = EmptyString
  \/ existsb forbiddenKey (removelast (_parsePathLoose (trim code))) = true ->
  fst (_executeCodeString code x) = NoCall.
Proof.
  intros H. unfold _executeCodeString.
  destruct (String.eqb_spec (trim code) EmptyString) as [E|E]; [reflexivity|].
  destruct H as [H|H]; [congruence|].
  destruct (last (_parsePathLoose (trim code))) as [fnKey|]; [|reflexivity].
  destruct (removelast (_parsePathLoose (trim code))) as [|k rest] eqn:Hp; [discriminate|].
  pose proof (getAtPathSafe_forbidden (k :: rest) (sysData x) x H) as G.
  destruct (_getAtPathSafe (sysData x) (k :: rest) x) as [parent x1].
  cbn [fst] in G. subst parent. reflexivity.
Qed.

Lemma handler_guarded_parent_witness :
  fst (_executeCodeString "system.data.constructor.assign()" emptyRoot) = NoCall.
Proof.
  apply (handler_guarded_parent "system.data.constructor.assign()" emptyRoot).
  right. reflexivity.
Defined.

(** ** The change hook, continued *)

Section Descendants.

Variable apply_leaf : nat -> World -> World.
Variable apply_bt : nat -> string -> World -> World.
Variable apply_deep : nat -> string -> World -> World.
Variable getRootRaw : nat -> World -> value * World.

Lemma notifyDescendants_moved p e :
  p <> EmptyString ->
  moved e (_notifyDescendants apply_leaf apply_bt p e) (descT (regs e) p) [].
Proof.
  intros Hp. unfold _notifyDescendants, descT. apply String.eqb_neq in Hp. rewrite Hp.
  cbv zeta.
  set (f1 := fun (e : Engine) k =>
               if isDescendantKey p k then _notifyBindings apply_leaf k e else e).
  set (f2 := fun (e : Engine) k =>
               if isDescendantKey p k then _notifyBackTicks apply_bt k e else e).
  assert (M1 : forall e0 l, moved e0 (fold_left f1 l e0)
             (flat_map (fun k => if isDescendantKey p k then leafT (regs e0) k else []) l) []).
  { intros e0 l.
    apply (moved_fold f1 (fun R k => if isDescendantKey p k then leafT R k else [])).
    intros e' k. unfold f1. destruct (isDescendantKey p k);
      [apply notifyBindings_moved|apply moved_refl]. }
  assert (M2 : forall e0 l, moved e0 (fold_left f2 l e0)
             (flat_map (fun k => if isDescendantKey p k then btT (regs e0) k else []) l) []).
  { intros e0 l.
    apply (moved_fold f2 (fun R k => if isDescendantKey p k then btT R k else [])).
    intros e' k. unfold f2. destruct (isDescendantKey p k);
      [apply notifyBackTicks_moved|apply moved_refl]. }
  pose proof (M1 e (map fst (_bindings (regs e)))) as H1.
  set (e1 := fold_left f1 (map fst (_bindings (regs e))) e) in *.
  pose proof (M2 e1 (map fst (_btBindings (regs e1)))) as H2.
  set (e2 := fold_left f2 (map fst (_btBindings (regs e1))) e1) in *.
  pose proof (notifyFor_moved p e2) as H3.
  rewrite (mv_regs _ _ _ _ H2), (mv_regs _ _ _ _ H1) in H3.
  rewrite (mv_regs _ _ _ _ H1) in H2.
  apply (moved_trans _ _ _ _ _ [] [] H1). apply (moved_trans _ _ _ _ _ [] [] H2 H3).
Qed.

Lemma regGet_key {A} (reg : list (string * list A)) k r :
  r ∈ regGet reg k -> k ∈ map fst reg.
Proof.
  induction reg as [|[k' l] rest IH]; cbn [regGet map fst].
  - intros H. now apply elem_of_nil in H.
  - destruct (String.eqb_spec k' k) as [->|_]; [left|right; auto].
Qed.

Lemma descendant_key (ks more : path) :
  ks <> [] -> more <> [] ->
  isDescendantKey (_pathToString ks) (_pathToString (ks ++ more)) = true.
Proof.
  intros Hks Hmore. pose proof (descendant_longer ks more Hks Hmore) as Hlen.
  rewrite !pathToString_render in *. rewrite render_app in * by exact Hks.
  pose proof (render_boundary more) as B.
  pose proof (render_nonempty false more Hmore) as N.
  destruct (render false more) as [|ch tail]; [congruence|].
  unfold isDescendantKey. apply andb_true_intro. split.
  - apply negb_true_iff, String.eqb_neq. intros E.
    rewrite E in Hlen. lia.
  - unfold startsWith. cbn in B. apply orb_prop in B.
    unfold ascii_eqb in B. destruct B as [B|B]; apply Ascii.eqb_eq in B; subst ch.
    + change (String "." tail) with ("." ++ tail)%string.
      rewrite <- app_assoc_s, stripPrefix_self. reflexivity.
    + change (String "[" tail) with ("[" ++ tail)%string.
      rewrite <- app_assoc_s, stripPrefix_self. apply orb_true_r.
Qed.


End Descendants.

(** The change event of [a.b = {c: ...}] on the data of [fourEngine]. *)
Definition changeAB : change :=
  {| c_type := CSet; c_path := [KStr "a"; KStr "b"]; c_pathString := "a.b";
     c_target := 1; c_prop := "b"; c_value := VObj 2; c_oldValue := VObj 2 |}.


Section Detached.

Variable apply_leaf : nat -> World -> World.
Variable apply_bt : nat -> string -> World -> World.
Variable apply_deep : nat -> string -> World -> World.
Variable getRootRaw : nat -> World -> value * World.

Lemma skip_dead_leaves q l : forall e,
  (forall b, b ∈ l -> deadElement (world e) (b_el b) = true) ->
  world (fold_left (notifyLeaf apply_leaf q) l e) = world e
  /\ visits (fold_left (notifyLeaf apply_leaf q) l e) = visits e ++ map (LeafSkipped q) l.
Proof.
  induction l as [|b l IH]; intros e H; cbn [fold_left map].
  - now rewrite app_nil_r.
  - assert (Hb : notifyLeaf apply_leaf q e b = log_visit e (LeafSkipped q b)).
    { unfold notifyLeaf. rewrite H; [reflexivity|left]. }
    rewrite Hb. destruct (IH (log_visit e (LeafSkipped q b))) as [W V].
    { intros b' Hb'. apply H. now right. }
    split; [exact W|]. rewrite V. cbn [log_visit visits]. now rewrite <- app_assoc.
Qed.

Lemma skip_dead_deeps c l : forall e,
  (forall r, r ∈ l -> deadElement (world e) (dr_el r) = true) ->
  world (fold_left (notifyDeep apply_deep getRootRaw c) l e) = world e
  /\ visits (fold_left (notifyDeep apply_deep getRootRaw c) l e)
     = visits e ++ map DeepSkipped l.
Proof.
  induction l as [|r l IH]; intros e H; cbn [fold_left map].
  - now rewrite app_nil_r.
  - assert (Hr : notifyDeep apply_deep getRootRaw c e r = log_visit e (DeepSkipped r)).
    { unfold notifyDeep. rewrite H; [reflexivity|left]. }
    rewrite Hr. destruct (IH (log_visit e (DeepSkipped r))) as [W V].
    { intros r' Hr'. apply H. now right. }
    split; [exact W|]. rewrite V. cbn [log_visit visits]. now rewrite <- app_assoc.
Qed.

Lemma skip_detached_repeats k l : forall e,
  (forall r, r ∈ l -> hasParent (domSt (world e)) (fr_anchor r) = false) ->
  world (fold_left (notifyForRec k) l e) = world e
  /\ visits (fold_left (notifyForRec k) l e) = visits e ++ map (ForSkipped k) l.
Proof.
  induction l as [|r l IH]; intros e H; cbn [fold_left map].
  - now rewrite app_nil_r.
  - assert (Hr : notifyForRec k e r = log_visit e (ForSkipped k r)).
    { unfold notifyForRec. rewrite H; [reflexivity|left]. }
    rewrite Hr. destruct (IH (log_visit e (ForSkipped k r))) as [W V].
    { intros r' Hr'. apply H. now right. }
    split; [exact W|]. rewrite V. cbn [log_visit visits]. now rewrite <- app_assoc.
Qed.

Lemma skip_detached_keys q l : forall e,
  (forall entry r, entry ∈ l -> r ∈ snd entry ->
     hasParent (domSt (world e)) (fr_anchor r) = false) ->
  world (fold_left (notifyForKey q) l e) = world e.
Proof.
  induction l as [|[k rs] l IH]; intros e H; cbn [fold_left]; [reflexivity|].
  assert (W : world (notifyForKey q e (k, rs)) = world e).
  { unfold notifyForKey. cbn [fst snd]. destruct (_isPathPrefix k q); [|reflexivity].
    apply skip_detached_repeats. intros r Hr. apply (H (k, rs)); [left|exact Hr]. }
  rewrite IH; [exact W|]. intros entry r He Hr. rewrite W. apply (H entry r); [now right|exact Hr].
Qed.

(** Records of nodes that have left the document are passed over: when
    the element of every leaf binding under a key is disconnected, a
    notification of that key leaves the page, the data and the scheduler
    as they are; likewise for the deep bindings, and for the repeat
    records when no anchor has a parent (no rebuild is asked for). *)
Theorem detached_records_passed_over (q : string) (c : change) (e : Engine) :
  ((forall b, b ∈ regGet (_bindings (regs e)) q -> deadElement (world e) (b_el b) = true) ->
   world (_notifyBindings apply_leaf q e) = world e
   /\ visits (_notifyBindings apply_leaf q e)
      = visits e ++ map (LeafSkipped q) (regGet (_bindings (regs e)) q))
  /\ ((forall r, r ∈ _deepBindings (regs e) -> deadElement (world e) (dr_el r) = true) ->
      world (_notifyDeepBindings apply_deep getRootRaw c e) = world e)
  /\ ((forall entry r, entry ∈ _forBindings (regs e) -> r ∈ snd entry ->
         hasParent (domSt (world e)) (fr_anchor r) = false) ->
      world (_notifyFor q e) = world e).
Proof.
  split; [|split].
  - intros H. unfold _notifyBindings. now apply skip_dead_leaves.
  - intros H. unfold _notifyDeepBindings. destruct (String.eqb _ _); [reflexivity|].
    now apply skip_dead_deeps.
  - intros H. unfold _notifyFor. now apply skip_detached_keys.
Qed.

End Detached.

(** The application of [fourEngine] after its four elements were taken
    out of the document. *)
Definition strandedEngine : Engine :=
  {| world := {| wr := wr (world fourEngine);
                 domSt := {| d_kind := {[ 1 := Element; 2 := Element; 3 := Element;
                                           4 := Element ]};
                             d_parent := ∅; d_children := ∅; d_attrs := ∅; d_nextNode := 5;
                             d_updating := ∅; d_rendered := ∅ |};
                 sched := idle |};
     regs := regs fourEngine;
     events := [];
     visits := [] |}.

Lemma detached_records_passed_over_witness :
  world (_notifyBindings readsPath "a.b" strandedEngine) = world strandedEngine
  /\ visits (_notifyBindings readsPath "a.b" strandedEngine) = [LeafSkipped "a.b" leafAB].
Proof.
  apply (proj1 (detached_records_passed_over readsPath noTemplate noRoot "a.b" changeAB
                  strandedEngine)).
  intros b Hb. apply list_elem_of_singleton in Hb. subst b. reflexivity.
Defined.

(** The hook only notifies. When the closures of the binding records
    only read the data, a run of the hook leaves the registries, the
    emitted changes, every raw object and the installed hook as they
    were; proxies and alias paths are only added. *)
Theorem hook_only_notifies
    (apply_leaf : nat -> World -> World) (apply_bt apply_deep : nat -> string -> World -> World)
    (getRootRaw : nat -> World -> value * World) (c : change) (e : Engine) :
  (forall id w, extends (wr w) (wr (apply_leaf id w))) ->
  (forall id k w, extends (wr w) (wr (apply_bt id k w))) ->
  (forall id k w, extends (wr w) (wr (apply_deep id k w))) ->
  (forall id w, extends (wr w) (wr (snd (getRootRaw id w)))) ->
  let e' := onChange apply_leaf apply_bt apply_deep getRootRaw c e in
  regs e' = regs e
  /\ events e' = events e
  /\ heap (wr (world e')) = heap (wr (world e))
  /\ hook (wr (world e')) = hook (wr (world e))
  /\ sysData (wr (world e')) = sysData (wr (world e))
  /\ proxies (wr (world e)) `prefix_of` proxies (wr (world e'))
  /\ (forall l, aliases (wr (world e)) l `prefix_of` aliases (wr (world e')) l).
Proof.
  intros H1 H2 H3 H4 e'.
  destruct (onChange_books apply_leaf apply_bt apply_deep getRootRaw c e) as (R & E & _).
  destruct (onChange_reads apply_leaf apply_bt apply_deep getRootRaw H1 H2 H3 H4 c e)
    as [Hh Hk Hs Hp _ Ha].
  repeat split; assumption.
Qed.

Lemma readsPath_reads id w : extends (wr w) (wr (readsPath id w)).
Proof. unfold readsPath. cbn [with_wr wr]. apply getAtPath_extends. Qed.

Lemma hook_only_notifies_witness :
  events (onChange readsPath noTemplate noTemplate noRoot changeABC fourEngine) = []
  /\ heap (wr (world (onChange readsPath noTemplate noTemplate noRoot changeABC fourEngine)))
     = heap (wr (world fourEngine)).
Proof.
  destruct (hook_only_notifies readsPath noTemplate noTemplate noRoot changeABC fourEngine
              readsPath_reads (fun _ _ w => extends_refl (wr w))
              (fun _ _ w => extends_refl (wr w)) (fun _ w => extends_refl (wr w)))
    as (_ & E & H & _).
  split; [exact E|exact H].
Defined.

(** ** The registries *)

(** [_addBinding], [_addBtBinding], [_addForBinding] and [_addDeepBinding]. *)
Definition _addBinding (pathString : string) (rec : BindRec) (R : Registries) : Registries :=
  {| _bindings := regAdd (_bindings R) pathString rec; _deepBindings := _deepBindings R;
     _btBindings := _btBindings R; _forBindings := _forBindings R |}.

Definition _addBtBinding (pathString : string) (rec : BindRec) (R : Registries) : Registries :=
  {| _bindings := _bindings R; _deepBindings := _deepBindings R;
     _btBindings := regAdd (_btBindings R) pathString rec; _forBindings := _forBindings R |}.

Definition _addForBinding (pathString : string) (rec : ForRec) (R : Registries) : Registries :=
  {| _bindings := _bindings R; _deepBindings := _deepBindings R;
     _btBindings := _btBindings R; _forBindings := regAdd (_forBindings R) pathString rec |}.

(** [rec.pathString = pathString; _deepBindings.push(rec)] *)
Definition _addDeepBinding (pathString : string) (rec : DeepRec) (R : Registries) : Registries :=
  {| _bindings := _bindings R;
     _deepBindings := _deepBindings R
                      ++ [{| dr_id := dr_id rec; dr_el := dr_el rec;
                             dr_pathString := pathString |}];
     _btBindings := _btBindings R; _forBindings := _forBindings R |}.

Lemma regGet_regAdd {A} (reg : list (string * list A)) k r k' :
  regGet (regAdd reg k r) k'
  = if String.eqb k k' then regGet reg k ++ [r] else regGet reg k'.
Proof.
  induction reg as [|[k0 l] rest IH]; cbn [regAdd regGet].
  - destruct (String.eqb k k'); reflexivity.
  - destruct (String.eqb_spec k0 k) as [E1|E1]; cbn [regGet].
    + subst k0. destruct (String.eqb k k'); reflexivity.
    + rewrite IH. destruct (String.eqb_spec k k') as [E2|E2]; [|reflexivity].
      subst k'. apply String.eqb_neq in E1. now rewrite E1.
Qed.

Lemma regAdd_keys {A} (reg : list (string * list A)) k r :
  map fst (regAdd reg k r)
  = if bool_decide (k ∈ map fst reg) then map fst reg else map fst reg ++ [k].
Proof.
  induction reg as [|[k0 l] rest IH]; cbn [regAdd map fst]; [reflexivity|].
  destruct (String.eqb_spec k0 k) as [->|Hne]; cbn [map fst].
  - rewrite bool_decide_eq_true_2 by left. reflexivity.
  - rewrite IH. destruct (bool_decide_reflect (k ∈ map fst rest)) as [Hin|Hin].
    + rewrite bool_decide_eq_true_2 by now right. reflexivity.
    + rewrite bool_decide_eq_false_2; [reflexivity|].
      intros H. apply elem_of_cons in H. destruct H as [->|H]; [congruence|auto].
Qed.

Lemma regAdd_entry {A} (reg : list (string * list A)) k r :
  In (k, regGet (regAdd reg k r) k) (regAdd reg k r).
Proof.
  induction reg as [|[k0 l] rest IH]; cbn [regAdd].
  - cbn [regGet]. rewrite String.eqb_refl. now left.
  - destruct (String.eqb_spec k0 k) as [->|Hne]; cbn [regGet].
    + rewrite String.eqb_refl. now left.
    + apply String.eqb_neq in Hne. rewrite Hne. right. exact IH.
Qed.

Definition with_regs (e : Engine) (R : Registries) : Engine :=
  {| world := world e; regs := R; events := events e; visits := visits e |}.


(** ** The reactive wrapper: what its books always say *)

(** The cache, the list of proxies and the alias maps agree: a cache
    entry names a proxy of that object whose path has that string; every
    proxy is the cache entry of its object and path string; the path of
    every proxy is a recorded alias of its object; an alias map has each
    key once, and a key is the string of the path stored under it. *)
Record wrapperOK (x : Wrapper) : Prop := {
  ok_cache : forall l k q, cacheGet x l k = Some q ->
             exists pa, proxies x !! q = Some (l, pa) /\ _pathToString pa = k;
  ok_proxy : forall q l pa, proxies x !! q = Some (l, pa) ->
             cacheGet x l (_pathToString pa) = Some q;
  ok_alias : forall q l pa, proxies x !! q = Some (l, pa) ->
             hasKey (_pathToString pa) (aliases x l) = true;
  ok_alias_keys : forall l, NoDup (map fst (aliases x l));
  ok_alias_entries : forall l ps pa, (ps, pa) ∈ aliases x l -> ps = _pathToString pa;
}.

Lemma hasKey_elem {A} ps (m : list (string * A)) :
  hasKey ps m = true <-> ps ∈ map fst m.
Proof.
  unfold hasKey. rewrite existsb_exists. split.
  - intros (e & He & E). apply String.eqb_eq in E. subst ps.
    apply list_elem_of_In, in_map, He.
  - intros H. apply list_elem_of_In, in_map_iff in H. destruct H as (e & <- & He).
    exists e. split; [exact He|apply String.eqb_refl].
Qed.

Lemma hasKey_app {A} ps (m m' : list (string * A)) :
  hasKey ps (m ++ m') = hasKey ps m || hasKey ps m'.
Proof. unfold hasKey. apply existsb_app. Qed.

Lemma registerRawPath_ok raw pathArr x : wrapperOK x -> wrapperOK (_registerRawPath raw pathArr x).
Proof.
  intros [Hc Hp Ha Hk He]. unfold _registerRawPath.
  split; cbn [proxies].
  - exact Hc.
  - exact Hp.
  - intros q l pa Hq. rewrite aliases_insert.
    destruct (decide (raw = l)) as [<-|]; [|eauto].
    destruct (hasKey (_pathToString pathArr) (aliases x raw)); [eauto|].
    rewrite hasKey_app. erewrite Ha by exact Hq. reflexivity.
  - intros l. rewrite aliases_insert.
    destruct (decide (raw = l)) as [<-|]; [|auto].
    destruct (hasKey (_pathToString pathArr) (aliases x raw)) eqn:E; [auto|].
    rewrite map_app. cbn [map fst]. apply NoDup_app. split; [auto|].
    split; [|apply NoDup_singleton].
    intros k Hin Hk'. apply list_elem_of_singleton in Hk'. subst k.
    apply hasKey_elem in Hin. congruence.
  - intros l ps pa. rewrite aliases_insert.
    destruct (decide (raw = l)) as [<-|]; [|eauto].
    destruct (hasKey (_pathToString pathArr) (aliases x raw)); [eauto|].
    intros H. apply elem_of_app in H. destruct H as [H|H]; [eauto|].
    apply list_elem_of_singleton in H. now injection H as -> ->.
Qed.

Lemma registerRawPath_hasKey raw pathArr x :
  hasKey (_pathToString pathArr) (aliases (_registerRawPath raw pathArr x) raw) = true.
Proof.
  unfold _registerRawPath. rewrite aliases_insert, decide_True by reflexivity.
  destruct (hasKey (_pathToString pathArr) (aliases x raw)) eqn:E; [exact E|].
  rewrite hasKey_app. cbn. rewrite String.eqb_refl. apply orb_true_r.
Qed.

Lemma wrap_ok v pathArr x : wrapperOK x -> wrapperOK (snd (_wrap v pathArr x)).
Proof.
  intros Hok. destruct v; try exact Hok. unfold _wrap.
  destruct (flaggedProxy x (VObj l)); [exact Hok|].
  pose proof (registerRawPath_ok l pathArr x Hok) as Hok1.
  pose proof (registerRawPath_hasKey l pathArr x) as Hkey.
  set (x1 := _registerRawPath l pathArr x) in *.
  destruct (default ∅ (proxyCache x1 !! l) !! _pathToString pathArr) as [cached|] eqn:Hmiss;
    cbn [snd]; [exact Hok1|].
  destruct Hok1 as [Hc Hp Ha Hk He].
  assert (Hnew : forall q e, proxies x1 !! q = Some e ->
                 (proxies x1 ++ [(l, pathArr)]) !! q = Some e).
  { intros q e Hq. now apply lookup_app_l_Some. }
  split; cbn [proxies].
  - intros l' k q. rewrite cacheGet_insert.
    destruct (decide (l = l')) as [<-|]; [|intros Hq; destruct (Hc _ _ _ Hq) as (pa & ? & ?); eauto].
    destruct (decide (_pathToString pathArr = k)) as [<-|];
      [|intros Hq; destruct (Hc _ _ _ Hq) as (pa & ? & ?); eauto].
    intros Hq. injection Hq as <-. exists pathArr. split; [|reflexivity].
    now apply list_lookup_middle.
  - intros q l' pa Hq. rewrite cacheGet_insert.
    apply lookup_app_Some in Hq. destruct Hq as [Hq|[Hlen Hq]].
    + pose proof (Hp _ _ _ Hq) as Hcq.
      destruct (decide (l = l')) as [<-|]; [|exact Hcq].
      destruct (decide (_pathToString pathArr = _pathToString pa)) as [E|]; [|exact Hcq].
      rewrite <- E in Hcq. unfold cacheGet in Hcq. congruence.
    + apply list_lookup_singleton_Some in Hq. destruct Hq as [Hq E]. injection E as <- <-.
      rewrite !decide_True by reflexivity. f_equal. lia.
  - intros q l' pa Hq. change (aliases _ l') with (aliases x1 l').
    apply lookup_app_Some in Hq. destruct Hq as [Hq|[Hlen Hq]]; [eauto|].
    apply list_lookup_singleton_Some in Hq. destruct Hq as [_ E]. injection E as <- <-.
    exact Hkey.
  - exact Hk.
  - exact He.
Qed.

Lemma proxyGet_ok p prop x : wrapperOK x -> wrapperOK (snd (proxyGet p prop x)).
Proof.
  intros Hok. unfold proxyGet. destruct (proxies x !! p) as [[target pathArr]|]; [|exact Hok].
  destruct (String.eqb prop K_isProxy); [exact Hok|].
  destruct (String.eqb prop K_raw); [exact Hok|].
  destruct (String.eqb prop K_onChange); [exact Hok|].
  destruct (isObjectValue _); [now apply wrap_ok|exact Hok].
Qed.

Lemma jsGet_ok cur k x : wrapperOK x -> wrapperOK (snd (jsGet cur k x)).
Proof.
  intros Hok. destruct cur; cbn [jsGet]; try exact Hok.
  - destruct (String.eqb k "length"); [exact Hok|].
    destruct (_ && _); [exact Hok|].
    destruct (String.eqb k "constructor"); exact Hok.
  - now apply proxyGet_ok.
Qed.

Lemma getAtPath_ok pathArr : forall cur x, wrapperOK x -> wrapperOK (snd (_getAtPath cur pathArr x)).
Proof.
  induction pathArr as [|k rest IH]; intros cur x Hok; cbn [_getAtPath]; [exact Hok|].
  destruct (nullish cur); [exact Hok|].
  pose proof (jsGet_ok cur (keyString k) x Hok) as H.
  destruct (jsGet cur (keyString k) x) as [next x1]. cbn [snd] in H. now apply IH.
Qed.

(** The wrapper before anything is wrapped. *)
Definition blank (h : gmap loc obj) (sd : value) : Wrapper :=
  {| heap := h; rawPaths := ∅; proxyCache := ∅; proxies := []; hook := None; sysData := sd |}.

Lemma blank_ok h sd : wrapperOK (blank h sd).
Proof.
  unfold blank. split; cbn [proxies].
  - intros l k q. unfold cacheGet. cbn [proxyCache]. rewrite lookup_empty. cbn.
    now rewrite lookup_empty.
  - intros q l pa H. now rewrite lookup_nil in H.
  - intros q l pa H. now rewrite lookup_nil in H.
  - intros l. unfold aliases. cbn [rawPaths]. rewrite lookup_empty. constructor.
  - intros l ps pa. unfold aliases. cbn [rawPaths]. rewrite lookup_empty. cbn.
    intros H. now apply elem_of_nil in H.
Qed.

(** Reading keeps the books in order, starting from books that hold
    nothing; and with the books in order there is one proxy for each raw
    object and path string, whose path is a recorded alias of the object. *)
Theorem wrapper_books_in_order :
  (forall h sd, wrapperOK (blank h sd))
  /\ (forall v pathArr x, wrapperOK x -> wrapperOK (snd (_wrap v pathArr x)))
  /\ (forall x p prop, wrapperOK x -> wrapperOK (snd (proxyGet p prop x)))
  /\ (forall x cur pathArr, wrapperOK x -> wrapperOK (snd (_getAtPath cur pathArr x)))
  /\ (forall x q q' l pa pa',
        wrapperOK x ->
        proxies x !! q = Some (l, pa) -> proxies x !! q' = Some (l, pa') ->
        _pathToString pa = _pathToString pa' -> q = q')
  /\ (forall x q l pa,
        wrapperOK x -> proxies x !! q = Some (l, pa) ->
        exists pa', (_pathToString pa, pa') ∈ aliases x l
                    /\ _pathToString pa' = _pathToString pa).
Proof.
  split; [|split; [|split; [|split; [|split]]]].
  - apply blank_ok.
  - intros v pathArr x. apply wrap_ok.
  - intros x p prop. apply proxyGet_ok.
  - intros x cur pathArr. apply getAtPath_ok.
  - intros x q q' l pa pa' Hok Hq Hq' E.
    pose proof (ok_proxy _ Hok _ _ _ Hq) as C. pose proof (ok_proxy _ Hok _ _ _ Hq') as C'.
    rewrite E in C. congruence.
  - intros x q l pa Hok Hq. pose proof (ok_alias _ Hok _ _ _ Hq) as H.
    apply hasKey_elem, list_elem_of_In, in_map_iff in H. destruct H as ([ps pa'] & E & Hin).
    cbn [fst] in E. subst ps. apply list_elem_of_In in Hin. exists pa'. split; [exact Hin|].
    symmetry. exact (ok_alias_entries _ Hok _ _ _ Hin).
Qed.

(** ** Reading and writing through the wrapper *)

(** [v] is the raw value [r], or a proxy of the raw object [r]. *)
Definition standsFor (x : Wrapper) (v r : value) : Prop :=
  v = r \/ exists q l pa, v = VProxy q /\ r = VObj l /\ proxies x !! q = Some (l, pa).

(** No raw object holds a proxy (the set trap stores what is behind one). *)
Definition isProxyValue (v : value) : bool :=
  match v with VProxy _ => true | _ => false end.

Definition heapRaw (h : gmap loc obj) : Prop :=
  map_Forall (fun _ o => isProxyValue (o_proto o) = false
                         /\ map_Forall (fun _ v => isProxyValue v = false) (o_props o)) h.

Lemma o_props_lookup o k v w en c :
  o_own o !! k = Some (PData v w en c) -> o_props o !! k = Some v.
Proof. intros H. unfold o_props. now rewrite lookup_omap, H. Qed.

Lemma lookupFrom_raw h k v w en c : heapRaw h -> forall n cur,
  lookupFrom n h cur k = Some (PData v w en c) -> isProxyValue v = false.
Proof.
  intros Hh. induction n as [|n IH]; intros cur H; [discriminate|]. cbn [lookupFrom] in H.
  destruct cur; try discriminate; [now apply IH in H|].
  destruct (h !! l) as [o|] eqn:Ho; [|discriminate].
  destruct (o_own o !! k) as [p|] eqn:Hk; [|now apply IH in H].
  injection H as ->. apply o_props_lookup in Hk.
  exact (map_Forall_lookup_1 _ _ _ _ (proj2 (map_Forall_lookup_1 _ _ _ _ Hh Ho)) Hk).
Qed.

Lemma protoOf_raw h v : heapRaw h -> isProxyValue (protoOf h v) = false.
Proof.
  intros Hh. destruct v; try reflexivity. cbn [protoOf].
  destruct (h !! l) as [o|] eqn:Ho; [|reflexivity].
  exact (proj1 (map_Forall_lookup_1 _ _ _ _ Hh Ho)).
Qed.

Lemma readProp_raw h receiver n cur k :
  heapRaw h -> isProxyValue (readProp h receiver (lookupFrom n h cur k)) = false.
Proof.
  intros Hh. destruct (lookupFrom n h cur k) as [[v w en c|en c]|] eqn:E; cbn [readProp].
  - eapply lookupFrom_raw; eassumption.
  - now apply protoOf_raw.
  - reflexivity.
Qed.

Lemma rawGet_raw h l k : heapRaw h -> isProxyValue (rawGet h l k) = false.
Proof. intros Hh. unfold rawGet, findProp. now apply readProp_raw. Qed.

Lemma standsFor_extends x x' v r : extends x x' -> standsFor x v r -> standsFor x' v r.
Proof.
  intros He [->|(q & l & pa & -> & -> & Hq)]; [now left|].
  right. exists q, l, pa. repeat split.
  eapply lookup_proxy_prefix; [apply (ext_proxies _ _ He)|exact Hq].
Qed.

Lemma wrap_standsFor v pathArr x :
  wrapperOK x -> standsFor (snd (_wrap v pathArr x)) (fst (_wrap v pathArr x)) v.
Proof.
  intros Hok. destruct v; try (now left). unfold _wrap.
  destruct (flaggedProxy x (VObj l)); [now left|].
  pose proof (registerRawPath_ok l pathArr x Hok) as Hok1.
  set (x1 := _registerRawPath l pathArr x) in *.
  destruct (default ∅ (proxyCache x1 !! l) !! _pathToString pathArr) as [cached|] eqn:Hc;
    cbn [fst snd]; right.
  - destruct (ok_cache _ Hok1 l (_pathToString pathArr) cached Hc) as (pa & Hq & _).
    now exists cached, l, pa.
  - exists (length (proxies x1)), l, pathArr. repeat split. cbn [proxies].
    now apply list_lookup_middle.
Qed.

Lemma proxyGet_standsFor p prop x target pathArr :
  wrapperOK x ->
  proxies x !! p = Some (target, pathArr) ->
  _isInternalKey prop = false ->
  standsFor (snd (proxyGet p prop x)) (fst (proxyGet p prop x)) (rawGet (heap x) target prop).
Proof.
  intros Hok Hp Hint. unfold proxyGet. rewrite Hp.
  unfold _isInternalKey in Hint.
  apply orb_false_elim in Hint. destruct Hint as [Hint E3].
  apply orb_false_elim in Hint. destruct Hint as [E1 E2].
  rewrite E1, E2, E3.
  destruct (isObjectValue _); [now apply wrap_standsFor|now left].
Qed.

Lemma jsGet_raw cur k x :
  heapRaw (heap x) -> isProxyValue cur = false ->
  snd (jsGet cur k x) = x /\ isProxyValue (fst (jsGet cur k x)) = false.
Proof.
  intros Hh Hc. destruct cur; try discriminate; cbn [jsGet fst snd];
    try (split; [reflexivity|]); try reflexivity;
    try (unfold findProp; now apply readProp_raw).
  - destruct (String.eqb k "length"); [now split|].
    destruct (_ && _); cbn [fst snd]; (split; [reflexivity|]).
    + destruct (String.get _ _); [reflexivity|]. unfold findProp. now apply readProp_raw.
    + unfold findProp. now apply readProp_raw.
Qed.

Lemma jsGet_heap cur k x x0 :
  heap x0 = heap x -> isProxyValue cur = false ->
  fst (jsGet cur k x0) = fst (jsGet cur k x).
Proof.
  intros Hh Hc. destruct cur; try discriminate; cbn [jsGet fst]; try reflexivity;
    try (now rewrite Hh).
  destruct (String.eqb k "length"); [reflexivity|].
  destruct (isDigits k && String.eqb (numToString (parseInt k)) k); cbn [fst]; now rewrite Hh.
Qed.

Definition plainKeys (ks : path) : bool :=
  forallb (fun k => negb (_isInternalKey (keyString k))) ks.

Lemma stands_path ks : forall cur r x x0,
  wrapperOK x -> heapRaw (heap x) -> heap x0 = heap x ->
  isProxyValue r = false -> standsFor x cur r -> plainKeys ks = true ->
  standsFor (snd (_getAtPath cur ks x)) (fst (_getAtPath cur ks x)) (fst (_getAtPath r ks x0))
  /\ snd (_getAtPath r ks x0) = x0.
Proof.
  induction ks as [|k rest IH]; intros cur r x x0 Hok Hraw Hh Hr Hst Hks;
    [split; [exact Hst|reflexivity]|].
  cbn [plainKeys forallb] in Hks. apply andb_prop in Hks. destruct Hks as [Hk Hrest].
  apply negb_true_iff in Hk. cbn [_getAtPath].
  assert (Hraw0 : heapRaw (heap x0)) by now rewrite Hh.
  destruct (jsGet_raw r (keyString k) x0 Hraw0 Hr) as [S0 P0].
  destruct Hst as [->|(q & l & pa & -> & -> & Hq)].
  - destruct (nullish r); [split; [now left|reflexivity]|].
    destruct (jsGet_raw r (keyString k) x Hraw Hr) as [S1 P1].
    pose proof (jsGet_heap r (keyString k) x x0 Hh Hr) as E.
    destruct (jsGet r (keyString k) x) as [next x1].
    destruct (jsGet r (keyString k) x0) as [next0 x0'].
    cbn [fst snd] in *. subst x1 x0' next0.
    apply IH; try assumption. now left.
  - cbn [nullish jsGet].
    pose proof (proxyGet_standsFor q (keyString k) x l pa Hok Hq Hk) as Hs.
    pose proof (proxyGet_ok q (keyString k) x Hok) as Hok1.
    pose proof (proxyGet_extends q (keyString k) x) as He.
    destruct (proxyGet q (keyString k) x) as [next x1]. cbn [fst snd] in *.
    apply (IH next (rawGet (heap x0) l (keyString k)) x1 x0).
    + exact Hok1.
    + now rewrite (ext_heap _ _ He).
    + now rewrite (ext_heap _ _ He).
    + now apply rawGet_raw.
    + rewrite Hh. exact Hs.
    + exact Hrest.
Qed.


(** The data of [fourData], freshly wrapped. *)
Definition freshFour : Wrapper := snd (_wrap (VObj 0) [] (blank (heap fourData) (VObj 0))).

Lemma freshFour_raw : heapRaw (heap freshFour).
Proof. apply (bool_decide_unpack _). vm_compute. exact I. Qed.


Lemma strict_eq_true a b : strict_eq a b = true -> a = b.
Proof.
  unfold strict_eq. destruct a, b; try discriminate; intros H;
    now apply bool_decide_eq_true in H.
Qed.

(** A change of the own properties of one object leaves alone what a
    walk along any prototype chain finds under a key whose own property
    there is as it was. *)
Lemma lookupFrom_insert_same h l o own' k :
  h !! l = Some o -> own' !! k = o_own o !! k ->
  forall n cur, lookupFrom n (<[l := with_own o own']> h) cur k = lookupFrom n h cur k.
Proof.
  intros Ho Hk. induction n as [|n IH]; intros cur; [reflexivity|]. cbn [lookupFrom].
  destruct cur as [| |b|z| |s|f|l0|q]; try reflexivity; [apply IH|].
  destruct (decide (l0 = l)) as [->|Hne].
  - rewrite lookup_insert_eq, Ho. cbn [with_own o_own o_proto]. rewrite Hk.
    destruct (o_own o !! k); [reflexivity|apply IH].
  - rewrite lookup_insert_ne by congruence.
    destruct (h !! l0) as [o0|]; [|reflexivity].
    destruct (o_own o0 !! k); [reflexivity|apply IH].
Qed.

Lemma size_insert_same (h : gmap loc obj) l o o' :
  h !! l = Some o -> size (<[l := o']> h) = size h.
Proof. intros Ho. now rewrite map_size_insert, Ho. Qed.

Lemma rawGet_insert_same h l o own' k :
  h !! l = Some o -> own' !! k = o_own o !! k ->
  forall l', rawGet (<[l := with_own o own']> h) l' k = rawGet h l' k.
Proof.
  intros Ho Hk l'. unfold rawGet, findProp, chainFuel.
  rewrite (size_insert_same _ _ _ _ Ho), (lookupFrom_insert_same _ _ _ _ _ Ho Hk).
  destruct (lookupFrom _ h (VObj l') k) as [[]|]; cbn [readProp protoOf]; try reflexivity.
  destruct (decide (l' = l)) as [->|Hne].
  - now rewrite lookup_insert_eq, Ho.
  - now rewrite lookup_insert_ne by congruence.
Qed.

(** The heap after an accepted assignment. *)
Lemma rawAssign_stored h l k v :
  accepts h l k = true ->
  exists o own' en c,
    h !! l = Some o
    /\ rawAssign l k v h = <[l := with_own o own']> h
    /\ own' !! k = Some (PData v true en c)
    /\ (forall k', k' <> k -> o_array o = false \/ k' <> "length"%string ->
          own' !! k' = o_own o !! k')
    /\ (forall k' p, own' !! k' = Some p ->
          p = PData v true en c \/ o_own o !! k' = Some p
          \/ exists n w, p = PData (VNum n) w false false).
Proof.
  intros Hacc. destruct (accepts_stored h l k v Hacc)
    as (o & own' & en & c & Ho & Hroute & Hdef & Hk & Hother & Hin).
  exists o, own', en, c. repeat split; try assumption.
  unfold rawAssign, rawSet. now rewrite Hroute, Hdef.
Qed.

Lemma rawGet_rawAssign h target k v :
  accepts h target k = true -> rawGet (rawAssign target k v h) target k = v.
Proof.
  intros Hacc. destruct (rawAssign_stored h target k v Hacc)
    as (o & own' & en & c & Ho & -> & Hk & _).
  apply (rawGet_own _ _ _ _ true en c). unfold ownProp. now rewrite lookup_insert_eq.
Qed.

Lemma rawAssign_other_loc h target k v l :
  accepts h target k = true -> l <> target -> rawAssign target k v h !! l = h !! l.
Proof.
  intros Hacc Hne. destruct (rawAssign_stored h target k v Hacc)
    as (o & own' & en & c & Ho & -> & _). now rewrite lookup_insert_ne by congruence.
Qed.

Lemma rawAssign_other_key h target k v k' :
  accepts h target k = true ->
  k' <> k ->
  k' <> "length"%string \/ isArrayLoc h target = false ->
  forall l, rawGet (rawAssign target k v h) l k' = rawGet h l k'.
Proof.
  intros Hacc Hne Hlen l. destruct (rawAssign_stored h target k v Hacc)
    as (o & own' & en & c & Ho & -> & _ & Hother & _).
  apply rawGet_insert_same; [exact Ho|]. apply Hother; [exact Hne|].
  unfold isArrayLoc in Hlen. rewrite Ho in Hlen. tauto.
Qed.

(** The object is not on its own prototype chain. *)
Definition offOwnChain (h : gmap loc obj) (l : loc) : bool :=
  match h !! l with
  | Some o => negb (onChain (S (size h)) h (o_proto o) l)
  | None => true
  end.

(** What the prototype chain of the object gives under [k]. *)
Definition inheritedValue (h : gmap loc obj) (l : loc) (k : string) : value :=
  match h !! l with
  | Some o => readProp h (VObj l) (inheritedProp h o k)
  | None => VUndef
  end.

(** A walk that does not pass the object does not see what changed in it. *)
Lemma lookupFrom_off_chain h l o' k : forall n cur,
  onChain n h cur l = false ->
  lookupFrom n (<[l := o']> h) cur k = lookupFrom n h cur k.
Proof.
  induction n as [|n IH]; intros cur Hoff; [reflexivity|].
  cbn [lookupFrom onChain] in *.
  destruct cur as [| |b|z| |s|f|l0|q]; try reflexivity; [now apply IH|].
  destruct (Nat.eqb l0 l) eqn:E; [discriminate|]. apply Nat.eqb_neq in E.
  rewrite lookup_insert_ne by congruence.
  destruct (h !! l0) as [o0|]; [|reflexivity].
  destruct (o_own o0 !! k); [reflexivity|now apply IH].
Qed.

Section WriteThenRead.

Variable apply_leaf : nat -> World -> World.
Variable apply_bt : nat -> string -> World -> World.
Variable apply_deep : nat -> string -> World -> World.
Variable getRootRaw : nat -> World -> value * World.

Hypothesis leaf_reads : forall id w, extends (wr w) (wr (apply_leaf id w)).
Hypothesis bt_reads : forall id k w, extends (wr w) (wr (apply_bt id k w)).
Hypothesis deep_reads : forall id k w, extends (wr w) (wr (apply_deep id k w)).
Hypothesis root_reads : forall id w, extends (wr w) (wr (snd (getRootRaw id w))).

Local Abbreviation emitChange' := (_emitChange apply_leaf apply_bt apply_deep getRootRaw).
Local Abbreviation proxySet' := (proxySet apply_leaf apply_bt apply_deep getRootRaw).
Local Abbreviation proxyDelete' := (proxyDelete apply_leaf apply_bt apply_deep getRootRaw).

Lemma emitChange_reads' c e : reads e (emitChange' c e).
Proof. now apply emitChange_reads. Qed.

Lemma emitAliasesFrom_reads gas : forall i target factory e,
  reads e (emitAliasesFrom apply_leaf apply_bt apply_deep getRootRaw gas i target factory e).
Proof.
  induction gas as [|gas IH]; intros i target factory e; cbn [emitAliasesFrom];
    [apply reads_refl|].
  destruct (aliases _ _ !! i) as [[ps pa]|]; [|apply reads_refl].
  eapply reads_trans; [apply emitChange_reads'|apply IH].
Qed.

Lemma emitAllAliases_reads gas target primary factory e :
  reads e (_emitAllAliases apply_leaf apply_bt apply_deep getRootRaw gas target primary
             factory e).
Proof.
  unfold _emitAllAliases. destruct (aliases _ _);
    [apply emitChange_reads'|apply emitAliasesFrom_reads].
Qed.

(** What a write leaves in the heap, and that the proxies stay. *)
Lemma proxySet_effect gas p prop v e target pathArr :
  proxies (wr (world e)) !! p = Some (target, pathArr) ->
  _isInternalKey prop = false ->
  accepts (heap (wr (world e))) target prop = true ->
  let h := heap (wr (world e)) in
  let nv := unwrapValue (wr (world e)) v in
  let same := hasOwn h target prop && strict_eq (rawGet h target prop) nv in
  let r := proxySet' gas p prop v e in
  fst r = Ok
  /\ heap (wr (world (snd r))) = (if same then h else rawAssign target prop nv h)
  /\ proxies (wr (world e)) `prefix_of` proxies (wr (world (snd r))).
Proof.
  intros Hp Hint Hacc h nv same r. subst r. unfold proxySet. rewrite Hp.
  fold h. fold nv. fold same.
  rewrite (internal_not_hook _ Hint), Hint. destruct same; [now repeat split|].
  rewrite (accepted_define apply_leaf apply_bt apply_deep getRootRaw
             target pathArr prop nv e Hint Hacc).
  fold h. cbn [fst snd].
  set (e0 := with_heap e (rawAssign target prop nv h)).
  match goal with
  | |- context [emitChange' ?c e0] => pose proof (emitChange_reads' c e0) as R1;
                                      set (e1 := emitChange' c e0) in *
  end.
  match goal with
  | |- context [_emitAllAliases _ _ _ _ gas target pathArr ?f e1] =>
      pose proof (emitAllAliases_reads gas target pathArr f e1) as R2
  end.
  pose proof (reads_trans _ _ _ R1 R2) as R. split; [reflexivity|]. split.
  - now rewrite (ext_heap _ _ R).
  - apply (ext_proxies _ _ R).
Qed.



End WriteThenRead.



(** ** The ezFor repeater, continued *)

(** When the path of a repeat record no longer holds an array (the key
    was deleted, or set to something else), a rebuild takes the old
    instances out of the page and makes none: every child list is what
    it was less the old instances, the record's list is empty, no node
    is created and the closures of the clones are not run. *)
Theorem repeat_cleared_when_not_array
    (prefixKeys : node -> string -> World -> World) (compile : node -> World -> World)
    (rec : ForRec) (w : World) (arr : value) (x1 : Wrapper) :
  _getAtPath (sysData (wr w)) (fr_pathArr rec) (wr w) = (arr, x1) ->
  isArrayValue x1 arr = false ->
  domOK (domSt w) ->
  fr_anchor rec ∉ default [] (d_rendered (domSt w) !! fr_id rec) ->
  let old := default [] (d_rendered (domSt w) !! fr_id rec) in
  let w' := _renderForRecord prefixKeys compile rec w in
  (forall parent, kids (domSt w') parent = filter (fun m => m ∉ old) (kids (domSt w) parent))
  /\ d_rendered (domSt w') !! fr_id rec = Some []
  /\ d_nextNode (domSt w') = d_nextNode (domSt w)
  /\ d_parent (domSt w') !! fr_anchor rec = d_parent (domSt w) !! fr_anchor rec
  /\ wr w' = x1
  /\ sched w' = sched w.
Proof.
  intros Harr Hna Hdom Hanchor old w'. subst w'. unfold _renderForRecord.
  rewrite Harr, Hna. cbn [negb]. fold old.
  cbn [with_dom with_wr domSt wr sched setRendered d_children d_rendered d_nextNode d_parent].
  split; [|split; [|split; [|split; [|split]]]]; try reflexivity.
  - intros parent.
    destruct (clear_rendered old (domSt w) parent (fr_anchor rec) Hdom Hanchor)
      as (_ & Hk & _). exact Hk.
  - now rewrite lookup_insert_eq.
  - now destruct (clear_rendered old (domSt w) 0 (fr_anchor rec) Hdom Hanchor)
      as (_ & _ & _ & _ & Hn & _).
  - now destruct (clear_rendered old (domSt w) 0 (fr_anchor rec) Hdom Hanchor)
      as (_ & _ & Hp & _).
Qed.

Lemma domOK_intro d :
  map_Forall (fun n p => n ∈ kids d p) (d_parent d) ->
  map_Forall (fun p l => Forall (fun n => d_parent d !! n = Some p) l) (d_children d) ->
  domOK d.
Proof.
  intros H1 H2 parent n. split.
  - unfold kids. destruct (d_children d !! parent) as [l|] eqn:Hl; cbn.
    + intros Hin. pose proof (map_Forall_lookup_1 _ _ _ _ H2 Hl) as F.
      rewrite Forall_forall in F. apply F. exact Hin.
    + intros Hin. now apply elem_of_nil in Hin.
  - intros Hp. exact (map_Forall_lookup_1 _ _ _ _ H1 Hp).
Qed.

(** The list of three, rendered, after [delete data.items]. *)
Definition listDropped : World :=
  let w := _renderForRecord plainPrefix plainCompile listRec listWorld in
  let x := wr w in
  with_wr w {| heap := rawDelete 0 "items" (heap x); rawPaths := rawPaths x;
               proxyCache := proxyCache x; proxies := proxies x;
               hook := hook x; sysData := sysData x |}.

Lemma listDropped_ok : domOK (domSt listDropped).
Proof. apply domOK_intro; apply (bool_decide_unpack _); vm_compute; exact I. Qed.

Lemma repeat_cleared_when_not_array_witness :
  kids (domSt listDropped) 0 = [1; 2; 7; 6; 5; 3]
  /\ kids (domSt (_renderForRecord plainPrefix plainCompile listRec listDropped)) 0 = [1; 2; 3]
  /\ d_rendered (domSt (_renderForRecord plainPrefix plainCompile listRec listDropped)) !! 0
     = Some [].
Proof.
  split; [vm_compute; reflexivity|].
  destruct (repeat_cleared_when_not_array plainPrefix plainCompile listRec listDropped
              VUndef (wr listDropped) ltac:(vm_compute; reflexivity) eq_refl listDropped_ok
              ltac:(apply (bool_decide_unpack _); vm_compute; exact I))
    as (Hk & Hr & _).
  split; [|exact Hr]. rewrite Hk. vm_compute. reflexivity.
Defined.

(** ** Backtick templates *)

Definition tick : ascii := ascii_of_nat 96.
Definition ticks : string := String tick (String tick EmptyString).
Definition notTick (c : ascii) : bool := negb (ascii_eqb c tick).

(** [_hasBackTicks(s)]: [indexOf] of two backticks is not -1. *)
Fixpoint _hasBackTicks (s : string) : bool :=
  match s with
  | EmptyString => false
  | String _ r => startsWith s ticks || _hasBackTicks r
  end.

(** One attempt of the template pattern (two backticks, one or more
    characters that are not a backtick, two backticks) at the start of
    [s]: the captured group and the text after the match. The class is
    greedy and its longest run ends at a backtick or at the end of the
    text, so a shorter run is never followed by a backtick. *)
Definition matchAt (s : string) : option (string * string) :=
  match stripPrefix ticks s with
  | None => None
  | Some r =>
      let '(k, r1) := span notTick r in
      if String.eqb k EmptyString then None
      else match stripPrefix ticks r1 with
           | Some r2 => Some (k, r2)
           | None => None
           end
  end.

(** The global scan of the pattern over a text: the matches, in order,
    and the characters between them. *)
Inductive piece :=
| Lit (c : ascii)
| Hole (keyRaw : string).

Fixpoint scan (fuel : nat) (s : string) : list piece :=
  match fuel with
  | 0 => []
  | S fuel' =>
      match s with
      | EmptyString => []
      | String c r =>
          match matchAt s with
          | Some (k, r') => Hole k :: scan fuel' r'
          | None => Lit c :: scan fuel' r
          end
      end
  end.

Definition pieces (template : string) : list piece :=
  scan (String.length template) template.

(** [_extractBackTickKeys(template)] *)
Definition _extractBackTickKeys (template : string) : list string :=
  flat_map (fun p =>
              match p with
              | Hole m1 =>
                  let k := trim m1 in
                  if String.eqb k EmptyString then [] else [k]
              | Lit _ => []
              end) (pieces template).

Section BackTicks.

(** [String(v)] for a value that is neither null nor undefined; on a
    wrapper it reads through the wrapper, so it is given the books. *)
Variable String_ : value -> Wrapper -> string * Wrapper.

(** The replacer callback of [_renderBackTickTemplate]. *)
Definition replacer (keyRaw : string) (x : Wrapper) : string * Wrapper :=
  let key := trim keyRaw in
  if String.eqb key EmptyString then (EmptyString, x)
  else
    let pathArr := _parsePath key in
    let '(v, x1) := _getAtPath (sysData x) pathArr x in
    if nullish v then (EmptyString, x1) else String_ v x1.

Fixpoint renderPieces (ps : list piece) (x : Wrapper) : string * Wrapper :=
  match ps with
  | [] => (EmptyString, x)
  | Lit c :: r =>
      let '(s, x1) := renderPieces r x in (String c s, x1)
  | Hole k :: r =>
      let '(a, x1) := replacer k x in
      let '(s, x2) := renderPieces r x1 in ((a ++ s)%string, x2)
  end.

(** [_renderBackTickTemplate(template)] *)
Definition _renderBackTickTemplate (template : string) (x : Wrapper) : string * Wrapper :=
  renderPieces (pieces template) x.

End BackTicks.

Fixpoint noTick (s : string) : bool :=
  match s with
  | EmptyString => true
  | String c r => notTick c && noTick r
  end.

Lemma stripPrefix_shape p : forall s r, stripPrefix p s = Some r -> s = (p ++ r)%string.
Proof.
  induction p as [|c p IH]; intros s r; simpl.
  - now intros [= ->].
  - destruct s as [|d s]; [discriminate|].
    unfold ascii_eqb. destruct (Ascii.eqb_spec c d) as [->|]; [|discriminate].
    intros H. now rewrite (IH _ _ H).
Qed.

Lemma span_shape p : forall s a r, span p s = (a, r) -> s = (a ++ r)%string.
Proof.
  induction s as [|c s IH]; intros a r; simpl.
  - now intros [= <- <-].
  - destruct (p c).
    + destruct (span p s) as [a' r'] eqn:E. intros [= <- <-]. simpl.
      now rewrite (IH _ _ eq_refl).
    + now intros [= <- <-].
Qed.

Lemma matchAt_shape s k r :
  matchAt s = Some (k, r) -> s = (ticks ++ k ++ ticks ++ r)%string /\ k <> EmptyString.
Proof.
  unfold matchAt. destruct (stripPrefix ticks s) as [r0|] eqn:E0; [|discriminate].
  destruct (span notTick r0) as [k0 r1] eqn:E1.
  destruct (String.eqb_spec k0 EmptyString) as [|Hk]; [discriminate|].
  destruct (stripPrefix ticks r1) as [r2|] eqn:E2; [|discriminate].
  intros [= <- <-]. split; [|exact Hk].
  rewrite (stripPrefix_shape _ _ _ E0), (span_shape _ _ _ _ E1), (stripPrefix_shape _ _ _ E2).
  reflexivity.
Qed.

Lemma matchAt_shrinks s k r : matchAt s = Some (k, r) -> String.length r < String.length s.
Proof.
  intros H. destruct (matchAt_shape _ _ _ H) as [-> _].
  rewrite !app_length_s. simpl. lia.
Qed.

Lemma scan_fuel : forall n m s,
  String.length s <= n -> String.length s <= m -> scan n s = scan m s.
Proof.
  induction n as [|n IH]; intros m s Hn Hm.
  - destruct s; simpl in Hn; [|lia]. now destruct m.
  - destruct m as [|m]; [destruct s; simpl in Hm; [reflexivity|lia]|].
    destruct s as [|c r]; [reflexivity|].
    cbn [scan]. destruct (matchAt (String c r)) as [[k r']|] eqn:E.
    + pose proof (matchAt_shrinks _ _ _ E) as Hl. simpl in Hl, Hn, Hm.
      f_equal. apply IH; lia.
    + simpl in Hn, Hm. f_equal. apply IH; lia.
Qed.

Lemma pieces_nil : pieces EmptyString = [].
Proof. reflexivity. Qed.

Lemma pieces_lit c r :
  matchAt (String c r) = None -> pieces (String c r) = Lit c :: pieces r.
Proof. intros H. unfold pieces. cbn [String.length scan]. now rewrite H. Qed.

Lemma pieces_hole s k r :
  matchAt s = Some (k, r) -> pieces s = Hole k :: pieces r.
Proof.
  intros H. pose proof (matchAt_shrinks _ _ _ H) as Hl.
  unfold pieces. destruct s as [|c s]; [discriminate|].
  cbn [String.length scan]. rewrite H. f_equal.
  simpl in Hl. apply scan_fuel; lia.
Qed.

Lemma matchAt_no_start s : startsWith s ticks = false -> matchAt s = None.
Proof.
  unfold startsWith, matchAt. now destruct (stripPrefix ticks s).
Qed.

Lemma notTick_no_start c r : notTick c = true -> startsWith (String c r) ticks = false.
Proof.
  unfold notTick, startsWith, ticks. cbn [stripPrefix].
  unfold ascii_eqb. rewrite (Ascii.eqb_sym tick c). now destruct (Ascii.eqb c tick).
Qed.

Lemma span_noTick k : forall rest,
  noTick k = true -> span notTick (k ++ String tick rest)%string = (k, String tick rest).
Proof.
  induction k as [|c k IH]; intros rest H; simpl in *.
  - reflexivity.
  - apply andb_prop in H. destruct H as [Hc Hk]. now rewrite Hc, (IH _ Hk).
Qed.

Lemma matchAt_hole k post :
  noTick k = true -> k <> EmptyString ->
  matchAt (ticks ++ k ++ ticks ++ post)%string = Some (k, post).
Proof.
  intros Hk Hne. unfold matchAt. rewrite stripPrefix_self.
  unfold ticks at 1. cbn [append]. rewrite (span_noTick k _ Hk).
  destruct (String.eqb_spec k EmptyString) as [|_]; [contradiction|].
  change (String tick (String tick post)) with (ticks ++ post)%string.
  now rewrite stripPrefix_self.
Qed.

Lemma renderPieces_app String_ ps qs x :
  renderPieces String_ (ps ++ qs) x =
  let '(a, x1) := renderPieces String_ ps x in
  let '(b, x2) := renderPieces String_ qs x1 in ((a ++ b)%string, x2).
Proof.
  revert x. induction ps as [|[c|k] ps IH]; intros x; cbn [renderPieces app].
  - now destruct (renderPieces String_ qs x).
  - rewrite IH. destruct (renderPieces String_ ps x) as [a x1].
    now destruct (renderPieces String_ qs x1).
  - destruct (replacer String_ k x) as [a0 x0]. rewrite IH.
    destruct (renderPieces String_ ps x0) as [a x1].
    destruct (renderPieces String_ qs x1) as [b x2]. now rewrite app_assoc_s.
Qed.

Lemma pieces_noTick_app pre : forall rest,
  noTick pre = true ->
  pieces (pre ++ rest)%string = map Lit (list_ascii_of_string pre) ++ pieces rest.
Proof.
  induction pre as [|c pre IH]; intros rest H; cbn [append list_ascii_of_string map app].
  - reflexivity.
  - simpl in H. apply andb_prop in H. destruct H as [Hc Hp].
    rewrite pieces_lit by (apply matchAt_no_start, notTick_no_start, Hc).
    now rewrite (IH _ Hp).
Qed.

Lemma renderPieces_lits String_ s x :
  renderPieces String_ (map Lit (list_ascii_of_string s)) x = (s, x).
Proof.
  induction s as [|c s IH]; cbn [list_ascii_of_string map renderPieces]; [reflexivity|].
  now rewrite IH.
Qed.

Lemma pieces_plain s :
  _hasBackTicks s = false -> pieces s = map Lit (list_ascii_of_string s).
Proof.
  induction s as [|c s IH]; intros H; [reflexivity|].
  cbn [_hasBackTicks] in H. apply orb_false_elim in H. destruct H as [H1 H2].
  rewrite pieces_lit by (apply matchAt_no_start, H1).
  cbn [list_ascii_of_string map]. now rewrite (IH H2).
Qed.

Lemma keys_of_lits l :
  flat_map (fun p => match p with
                     | Hole m1 => if String.eqb (trim m1) EmptyString then [] else [trim m1]
                     | Lit _ => []
                     end) (map Lit l) = [].
Proof. induction l as [|c l IH]; [reflexivity|exact IH]. Qed.

(** A text that holds no two backticks in a row has no keys and is
    rendered as itself, without a read of the data. *)
Theorem template_without_ticks
    (String_ : value -> Wrapper -> string * Wrapper) (t : string) (x : Wrapper) :
  _hasBackTicks t = false ->
  _extractBackTickKeys t = [] /\ _renderBackTickTemplate String_ t x = (t, x).
Proof.
  intros H. unfold _extractBackTickKeys, _renderBackTickTemplate.
  rewrite (pieces_plain _ H). split.
  - apply keys_of_lits.
  - apply renderPieces_lits.
Qed.

(** A hole after a text without backticks: the text is kept, the hole
    gives its trimmed key (none when it is blank) and is replaced by what
    the replacer returns for it, and the rest of the template is treated
    as a template of its own, on the books the replacer left. *)
Theorem template_hole
    (String_ : value -> Wrapper -> string * Wrapper) (pre k post : string) (x : Wrapper) :
  noTick pre = true -> noTick k = true -> k <> EmptyString ->
  let t := (pre ++ ticks ++ k ++ ticks ++ post)%string in
  _hasBackTicks t = true
  /\ _extractBackTickKeys t
     = (if String.eqb (trim k) EmptyString then [] else [trim k]) ++ _extractBackTickKeys post
  /\ _renderBackTickTemplate String_ t x
     = (let '(a, x1) := replacer String_ k x in
        let '(s, x2) := _renderBackTickTemplate String_ post x1 in
        ((pre ++ a ++ s)%string, x2)).
Proof.
  intros Hpre Hk Hne t.
  assert (Hp : pieces t = map Lit (list_ascii_of_string pre) ++ Hole k :: pieces post).
  { unfold t. rewrite (pieces_noTick_app _ _ Hpre). f_equal.
    apply pieces_hole, matchAt_hole; assumption. }
  split; [|split].
  - destruct (_hasBackTicks t) eqn:E; [reflexivity|].
    pose proof (pieces_plain _ E) as Hq. rewrite Hp in Hq.
    exfalso. clear -Hq. revert Hq. generalize (list_ascii_of_string t).
    induction (list_ascii_of_string pre) as [|c l IH]; intros [|d m]; cbn; try discriminate.
    intros [= _ H]. exact (IH _ H).
  - unfold _extractBackTickKeys. rewrite Hp, flat_map_app, keys_of_lits.
    reflexivity.
  - unfold _renderBackTickTemplate. rewrite Hp, renderPieces_app, renderPieces_lits.
    cbn [renderPieces]. destruct (replacer String_ k x) as [a x1].
    now destruct (renderPieces String_ (pieces post) x1).
Qed.

(** [String(v)] of a string is the string; the templates of the examples
    read strings only. *)
Definition ofText (v : value) (x : Wrapper) : string * Wrapper :=
  (match v with VStr s => s | _ => EmptyString end, x).

Lemma template_without_ticks_witness :
  _extractBackTickKeys "a `quoted` word" = []
  /\ _renderBackTickTemplate ofText "a `quoted` word" listData = ("a `quoted` word"%string, listData).
Proof. exact (template_without_ticks ofText "a `quoted` word" listData eq_refl). Defined.

Lemma template_hole_witness :
  _extractBackTickKeys "First: `` items[0] ``, then ``items[1]``." = ["items[0]"%string; "items[1]"%string]
  /\ fst (_renderBackTickTemplate ofText "First: `` items[0] ``, then ``items[1]``." listData)
     = "First: x, then y."%string.
Proof.
  destruct (template_hole ofText "First: " " items[0] " ", then ``items[1]``." listData
              eq_refl eq_refl ltac:(discriminate)) as (_ & Hk & Hr).
  split.
  - etransitivity; [exact Hk|]. vm_compute. reflexivity.
  - etransitivity; [exact (f_equal fst Hr)|]. vm_compute. reflexivity.
Defined.

(** ** Event listeners *)

(** [String.prototype.split] on one separator character. *)
Fixpoint split (sep : ascii) (s : string) : list string :=
  match s with
  | EmptyString => [EmptyString]
  | String c r =>
      if ascii_eqb c sep then EmptyString :: split sep r
      else match split sep r with
           | h :: t => String c h :: t
           | [] => [String c EmptyString]
           end
  end.

(** The [forEach] of [eachStatement], from the part of index [idx] on. *)
Fixpoint eachPart {S : Type} (fn : string -> nat -> S -> S) (idx : nat) (parts : list string)
    (st : S) : S :=
  match parts with
  | [] => st
  | part :: rest =>
      let trimmed := trim part in
      eachPart fn (Datatypes.S idx) rest
        (if String.eqb trimmed EmptyString then st else fn trimmed idx st)
  end.

(** [eachStatement(codeStr, fn)] *)
Definition eachStatement {S : Type} (codeStr : string) (fn : string -> nat -> S -> S)
    (st : S) : S :=
  eachPart fn 0 (split ";" codeStr) st.

Section Listener.

(** [fn.call(parent, system, context, meta)] inside its [try], for the
    element and the event of the listener; [meta] names the statement by
    its index. *)
Variable call : fn -> value -> nat -> Engine -> Engine.

(** The callback the listener hands to [eachStatement]. *)
Definition runStatement (stmt : string) (idx : nat) (e : Engine) : Engine :=
  let '(o, x1) := _executeCodeString stmt (wr (world e)) in
  let e1 := with_world e (with_wr (world e) x1) in
  match o with
  | NoCall => e1
  | Called f this => call f this idx e1
  end.

(** The listener [bindEvent] adds; [codes] is what [getAttribute] gives
    when the event arrives, [None] for an attribute that is gone. *)
Definition listener (codes : option string) (e : Engine) : Engine :=
  match codes with
  | None => e
  | Some codes =>
      if String.eqb codes EmptyString then e
      else eachStatement codes runStatement e
  end.

End Listener.

Lemma split_cons sep s : exists h t, split sep s = h :: t.
Proof.
  induction s as [|c r (h & t & IH)]; simpl; [now eexists _, _|].
  destruct (ascii_eqb c sep); [now eexists _, _|]. rewrite IH. now eexists _, _.
Qed.

Lemma split_app sep a b :
  split sep (a ++ String sep b)%string = split sep a ++ split sep b.
Proof.
  induction a as [|c r IH]; cbn [append split].
  - unfold ascii_eqb. now rewrite Ascii.eqb_refl.
  - destruct (ascii_eqb c sep); [now rewrite IH|].
    rewrite IH. destruct (split_cons sep r) as (h & t & ->). reflexivity.
Qed.

Lemma eachPart_app {S : Type} (fn : string -> nat -> S -> S) ps : forall idx qs st,
  eachPart fn idx (ps ++ qs) st = eachPart fn (idx + length ps) qs (eachPart fn idx ps st).
Proof.
  induction ps as [|p ps IH]; intros idx qs st; cbn [app eachPart length].
  - now rewrite Nat.add_0_r.
  - rewrite IH. f_equal. lia.
Qed.

Lemma eachPart_shift {S : Type} (fn : string -> nat -> S -> S) n ps : forall idx st,
  eachPart fn (idx + n) ps st = eachPart (fun s i => fn s (i + n)) idx ps st.
Proof.
  induction ps as [|p ps IH]; intros idx st; cbn [eachPart]; [reflexivity|].
  now rewrite <- IH.
Qed.

Fixpoint blankCode (s : string) : bool :=
  match s with
  | EmptyString => true
  | String c r => (isSpace c || ascii_eqb c ";") && blankCode r
  end.

Lemma trim_end_blank s : skip_ws s = EmptyString -> trim_end s = EmptyString.
Proof.
  induction s as [|c r IH]; simpl; [reflexivity|].
  destruct (isSpace c); [|discriminate]. intros H. now rewrite (IH H).
Qed.

Lemma blank_parts s :
  blankCode s = true ->
  Forall (fun p => trim p = EmptyString) (split ";" s).
Proof.
  induction s as [|c r IH]; cbn [blankCode split]; intros H.
  - repeat constructor.
  - apply andb_prop in H. destruct H as [Hc Hr]. specialize (IH Hr).
    destruct (ascii_eqb c ";") eqn:E.
    + constructor; [reflexivity|exact IH].
    + rewrite orb_false_r in Hc.
      destruct (split_cons ";" r) as (h & t & Hs). rewrite Hs in IH |- *.
      inversion IH as [|? ? Hh Ht]; subst. constructor; [|exact Ht].
      unfold trim in *. cbn [skip_ws]. rewrite Hc. exact Hh.
Qed.

Lemma eachPart_blank {S : Type} (fn : string -> nat -> S -> S) ps : forall idx st,
  Forall (fun p => trim p = EmptyString) ps -> eachPart fn idx ps st = st.
Proof.
  induction ps as [|p ps IH]; intros idx st H; cbn [eachPart]; [reflexivity|].
  inversion H as [|? ? Hp Hps]; subst. rewrite Hp. cbn. now apply IH.
Qed.

(** The statements of an attribute run one after the other: the text
    [a;b] runs [a], then [b] on the state [a] left, the statements of
    [b] counted on from the parts of [a]. A text of blanks and
    semicolons runs nothing. *)
Theorem statements_in_sequence
    (call : fn -> value -> nat -> Engine -> Engine) (a b : string) (e : Engine) :
  listener call (Some (a ++ ";" ++ b)%string) e
  = eachStatement b (fun s i => runStatement call s (i + length (split ";" a)))
      (eachStatement a (runStatement call) e)
  /\ (forall c, blankCode c = true -> listener call (Some c) e = e).
Proof.
  split.
  - unfold listener. destruct (String.eqb_spec (a ++ ";" ++ b)%string EmptyString) as [E|_].
    + apply app_empty_s in E. destruct E as [_ E]. discriminate.
    + unfold eachStatement. change (a ++ ";" ++ b)%string with (a ++ String ";" b)%string.
      rewrite split_app, eachPart_app, <- eachPart_shift. reflexivity.
  - intros c Hc. unfold listener. destruct (String.eqb c EmptyString); [reflexivity|].
    unfold eachStatement. apply eachPart_blank. now apply blank_parts.
Qed.

(** ** Keys inside a repeated item *)

(** The replacer of [_prefixTemplateKeysInTree] on one match, whose
    group is [key]. *)
Definition prefixHole (prefix key : string) : string :=
  let k := trim key in
  if String.eqb k EmptyString then (ticks ++ key ++ ticks)%string
  else if startsWith k prefix then (ticks ++ k ++ ticks)%string
  else (ticks ++ prefix ++ "." ++ k ++ ticks)%string.

(** [value.replace(pattern, replacer)]: each match gives way to what the
    replacer returns for its group, the text between is copied. *)
Fixpoint replaceHoles (f : string -> string) (ps : list piece) : string :=
  match ps with
  | [] => EmptyString
  | Lit c :: r => String c (replaceHoles f r)
  | Hole k :: r => (f k ++ replaceHoles f r)%string
  end.

Definition prefixTicks (prefix value : string) : string :=
  replaceHoles (prefixHole prefix) (pieces value).

(** The body of the loop of [_prefixTemplateKeysInTree] for one element,
    on the attributes of the element. *)
Definition prefixElement (prefix : string) (attrs : gmap string string) : gmap string string :=
  let attrs1 :=
    match attrs !! "ezBind" with
    | Some v =>
        let subKey := trim v in
        if negb (String.eqb subKey EmptyString) && negb (startsWith subKey prefix)
        then <["ezBind" := (prefix ++ "." ++ subKey)%string]> attrs
        else attrs
    | None => attrs
    end in
  (fun v => if _hasBackTicks v then prefixTicks prefix v else v) <$> attrs1.

Definition setAttrs (d : DomState) (a : gmap node (gmap string string)) : DomState :=
  {| d_kind := d_kind d; d_parent := d_parent d; d_children := d_children d;
     d_attrs := a; d_nextNode := d_nextNode d;
     d_updating := d_updating d; d_rendered := d_rendered d |}.

(** [_prefixTemplateKeysInTree(rootEl, prefix)]; [kids] is what
    [rootEl.querySelectorAll("*")] returns. *)
Definition _prefixTemplateKeysInTree (rootEl : node) (kids : list node) (prefix : string)
    (d : DomState) : DomState :=
  fold_left (fun d el =>
               if isElement d el
               then setAttrs d (alter (prefixElement prefix) el (d_attrs d))
               else d)
            (rootEl :: kids) d.

(** *** The scan of a text, by cases *)

Lemma pieces_rect (P : string -> list piece -> Prop) :
  P EmptyString [] ->
  (forall c r, matchAt (String c r) = None -> P r (pieces r) ->
               P (String c r) (Lit c :: pieces r)) ->
  (forall s k r, matchAt s = Some (k, r) -> P r (pieces r) -> P s (Hole k :: pieces r)) ->
  forall s, P s (pieces s).
Proof.
  intros H0 Hl Hh s.
  assert (G : forall n s, String.length s <= n -> P s (pieces s)).
  { clear s. induction n as [|n IH]; intros s Hn.
    - destruct s; [exact H0|simpl in Hn; lia].
    - destruct s as [|c r]; [exact H0|].
      destruct (matchAt (String c r)) as [[k r']|] eqn:E.
      + rewrite (pieces_hole _ _ _ E). apply Hh; [exact E|].
        apply IH. pose proof (matchAt_shrinks _ _ _ E). lia.
      + rewrite (pieces_lit _ _ E). apply Hl; [exact E|].
        apply IH. simpl in Hn. lia. }
  exact (G _ s (le_n _)).
Qed.

Lemma span_all p : forall s a r, span p s = (a, r) -> forallb p (list_ascii_of_string a) = true.
Proof.
  induction s as [|c s IH]; intros a r; simpl.
  - now intros [= <- <-].
  - destruct (p c) eqn:Hc.
    + destruct (span p s) as [a' r'] eqn:E. intros [= <- <-]. simpl.
      now rewrite Hc, (IH _ _ eq_refl).
    + now intros [= <- <-].
Qed.

Lemma noTick_forallb k : noTick k = forallb notTick (list_ascii_of_string k).
Proof. induction k as [|c k IH]; simpl; [reflexivity|now rewrite IH]. Qed.

Lemma matchAt_noTick s k r : matchAt s = Some (k, r) -> noTick k = true.
Proof.
  unfold matchAt. destruct (stripPrefix ticks s) as [r0|]; [|discriminate].
  destruct (span notTick r0) as [k0 r1] eqn:E1.
  destruct (String.eqb k0 EmptyString); [discriminate|].
  destruct (stripPrefix ticks r1); [|discriminate].
  intros [= <- <-]. rewrite noTick_forallb. exact (span_all _ _ _ _ E1).
Qed.

(** *** The pattern of a text: backticks, and runs of other characters *)

Inductive tok := T | N.

Definition consTok (c : ascii) (l : list tok) : list tok :=
  if notTick c then match l with N :: _ => l | _ => N :: l end else T :: l.

Fixpoint nf (s : string) : list tok :=
  match s with
  | EmptyString => []
  | String c r => consTok c (nf r)
  end.

Definition pat (l : list tok) : bool :=
  match l with
  | T :: T :: N :: T :: T :: _ => true
  | _ => false
  end.

Lemma nf_app_congr a : forall b b', nf b = nf b' -> nf (a ++ b)%string = nf (a ++ b')%string.
Proof. induction a as [|c a IH]; intros b b' H; simpl; [exact H|]. now rewrite (IH _ _ H). Qed.

Lemma nf_tick r : nf (String tick r) = T :: nf r.
Proof. reflexivity. Qed.

Lemma nf_run k : forall r,
  noTick k = true -> k <> EmptyString -> nf (k ++ String tick r)%string = N :: T :: nf r.
Proof.
  induction k as [|c k IH]; intros r Hk Hne; [congruence|].
  simpl in Hk. apply andb_prop in Hk. destruct Hk as [Hc Hk].
  cbn [append nf]. destruct k as [|d k'].
  - cbn [append nf]. unfold consTok at 1. rewrite Hc. reflexivity.
  - rewrite (IH r Hk ltac:(discriminate)). unfold consTok. now rewrite Hc.
Qed.

Lemma nf_hole k r :
  noTick k = true -> k <> EmptyString ->
  nf (ticks ++ k ++ ticks ++ r)%string = T :: T :: N :: T :: T :: nf r.
Proof.
  intros Hk Hne. unfold ticks. cbn [append]. rewrite !nf_tick.
  now rewrite (nf_run k _ Hk Hne), nf_tick.
Qed.

Lemma span_stop p : forall s a r,
  span p s = (a, r) -> match r with String c _ => p c = false | EmptyString => True end.
Proof.
  induction s as [|c s IH]; intros a r; simpl.
  - now intros [= <- <-].
  - destruct (p c) eqn:Hc.
    + destruct (span p s) as [a' r'] eqn:E. intros [= <- <-]. exact (IH _ _ eq_refl).
    + now intros [= <- <-].
Qed.

Lemma notTick_tick c : notTick c = false -> c = tick.
Proof. unfold notTick, ascii_eqb. now destruct (Ascii.eqb_spec c tick). Qed.

Lemma nf_head_N c r : notTick c = true -> exists l, nf (String c r) = N :: l.
Proof.
  intros Hc. cbn [nf]. unfold consTok. rewrite Hc.
  destruct (nf r) as [|[|] l]; now eexists.
Qed.

Lemma nf_run_end k :
  noTick k = true -> k <> EmptyString -> nf k = [N].
Proof.
  induction k as [|c k IH]; intros Hk Hne; [congruence|].
  simpl in Hk. apply andb_prop in Hk. destruct Hk as [Hc Hk].
  cbn [nf]. destruct k as [|d k'].
  - cbn [nf]. unfold consTok. now rewrite Hc.
  - rewrite (IH Hk ltac:(discriminate)). unfold consTok. now rewrite Hc.
Qed.

(** Whether the pattern matches at the start of a text is a matter of
    the pattern of the text alone. *)
Lemma matchAt_pat s : match matchAt s with Some _ => true | None => false end = pat (nf s).
Proof.
  destruct s as [|c r]; [reflexivity|].
  destruct (notTick c) eqn:Hc.
  { rewrite (matchAt_no_start _ (notTick_no_start c r Hc)).
    destruct (nf_head_N c r Hc) as [l ->]. reflexivity. }
  apply notTick_tick in Hc. subst c. rewrite nf_tick.
  destruct r as [|d r2]; [reflexivity|].
  destruct (notTick d) eqn:Hd.
  { assert (E : matchAt (String tick (String d r2)) = None).
    { apply matchAt_no_start. unfold startsWith, ticks. cbn [stripPrefix].
      unfold ascii_eqb. rewrite Ascii.eqb_refl.
      unfold notTick, ascii_eqb in Hd. rewrite Ascii.eqb_sym.
      now destruct (Ascii.eqb d tick). }
    rewrite E. destruct (nf_head_N d r2 Hd) as [l ->]. reflexivity. }
  apply notTick_tick in Hd. subst d. rewrite nf_tick.
  unfold matchAt. change (stripPrefix ticks (String tick (String tick r2))) with (Some r2).
  cbv beta iota.
  destruct (span notTick r2) as [k r3] eqn:E.
  pose proof (span_shape _ _ _ _ E) as Hs.
  pose proof (span_stop _ _ _ _ E) as Hstop.
  pose proof (span_all _ _ _ _ E) as Hk. rewrite <- noTick_forallb in Hk.
  destruct (String.eqb_spec k EmptyString) as [->|Hne].
  - simpl in Hs. subst r3. destruct r2 as [|e r']; [reflexivity|].
    apply notTick_tick in Hstop. subst e. reflexivity.
  - subst r2. destruct r3 as [|e r4].
    + rewrite app_nil_r_s, (nf_run_end k Hk Hne). reflexivity.
    + apply notTick_tick in Hstop. subst e. rewrite (nf_run k r4 Hk Hne).
      destruct r4 as [|e r5]; [reflexivity|].
      destruct (notTick e) eqn:He.
      * destruct (nf_head_N e r5 He) as [l ->].
        cbn [stripPrefix ticks]. unfold ascii_eqb. rewrite Ascii.eqb_refl.
        unfold notTick, ascii_eqb in He. rewrite Ascii.eqb_sym.
        now destruct (Ascii.eqb e tick).
      * apply notTick_tick in He. subst e. reflexivity.
Qed.

Lemma matchAt_congr s s' : nf s = nf s' -> matchAt s = None -> matchAt s' = None.
Proof.
  intros Hn H. pose proof (matchAt_pat s) as P. pose proof (matchAt_pat s') as P'.
  rewrite H, Hn in P. rewrite <- P in P'. now destruct (matchAt s').
Qed.

(** *** Rewriting the groups of the matches *)

Definition mapHoles (g : string -> string) (ps : list piece) : list piece :=
  map (fun p => match p with Hole k => Hole (g k) | Lit c => Lit c end) ps.

Fixpoint unparse (ps : list piece) : string :=
  match ps with
  | [] => EmptyString
  | Lit c :: r => String c (unparse r)
  | Hole k :: r => (ticks ++ k ++ ticks ++ unparse r)%string
  end.

Definition good (k : string) : Prop := noTick k = true /\ k <> EmptyString.

Lemma unparse_pieces s : unparse (pieces s) = s.
Proof.
  apply (pieces_rect (fun s ps => unparse ps = s)).
  - reflexivity.
  - intros c r _ IH. cbn [unparse]. now rewrite IH.
  - intros s0 k r E IH. cbn [unparse]. rewrite IH.
    now destruct (matchAt_shape _ _ _ E) as [-> _].
Qed.

Lemma pieces_mapHoles (g : string -> string) :
  (forall k, good k -> good (g k)) ->
  forall s, pieces (unparse (mapHoles g (pieces s))) = mapHoles g (pieces s).
Proof.
  intros Hg s.
  enough (G : pieces (unparse (mapHoles g (pieces s))) = mapHoles g (pieces s)
              /\ nf (unparse (mapHoles g (pieces s))) = nf s) by exact (proj1 G).
  apply (pieces_rect (fun s ps =>
           pieces (unparse (mapHoles g ps)) = mapHoles g ps
           /\ nf (unparse (mapHoles g ps)) = nf s)).
  - split; reflexivity.
  - intros c r E [IH1 IH2]. cbn [mapHoles map unparse]. fold (mapHoles g (pieces r)).
    assert (Hn : nf (String c (unparse (mapHoles g (pieces r)))) = nf (String c r)).
    { cbn [nf]. now rewrite IH2. }
    split; [|exact Hn].
    rewrite pieces_lit by (apply (matchAt_congr (String c r)); [now symmetry|exact E]).
    now rewrite IH1.
  - intros s0 k r E [IH1 IH2]. cbn [mapHoles map unparse]. fold (mapHoles g (pieces r)).
    destruct (matchAt_shape _ _ _ E) as [Hs Hne].
    pose proof (matchAt_noTick _ _ _ E) as Hk.
    destruct (Hg k (conj Hk Hne)) as [Hgk Hgne].
    split.
    + rewrite (pieces_hole _ (g k) (unparse (mapHoles g (pieces r))))
        by (apply matchAt_hole; assumption).
      now rewrite IH1.
    + rewrite Hs, !nf_hole by assumption. now rewrite IH2.
Qed.

Lemma pieces_good s : Forall (fun p => match p with Hole k => good k | Lit _ => True end) (pieces s).
Proof.
  apply (pieces_rect (fun _ ps =>
           Forall (fun p => match p with Hole k => good k | Lit _ => True end) ps)).
  - constructor.
  - intros c r _ IH. now constructor.
  - intros s0 k r E IH. constructor; [|exact IH]. split.
    + exact (matchAt_noTick _ _ _ E).
    + exact (proj2 (matchAt_shape _ _ _ E)).
Qed.

(** *** Blanks, trimming and backticks *)

Fixpoint allSpace (s : string) : bool :=
  match s with
  | EmptyString => true
  | String c r => isSpace c && allSpace r
  end.

Lemma space_notTick c : isSpace c = true -> notTick c = true.
Proof. all_ascii c. Qed.

Lemma noTick_app a b : noTick (a ++ b)%string = noTick a && noTick b.
Proof. induction a as [|c a IH]; simpl; [reflexivity|]. now rewrite IH, andb_assoc. Qed.

Lemma allSpace_noTick s : allSpace s = true -> noTick s = true.
Proof.
  induction s as [|c r IH]; simpl; [reflexivity|]. intros H.
  apply andb_prop in H. destruct H as [Hc Hr]. now rewrite (space_notTick _ Hc), (IH Hr).
Qed.

Lemma skip_ws_split s : exists ws, s = (ws ++ skip_ws s)%string /\ allSpace ws = true.
Proof.
  induction s as [|c r (ws & E & H)]; [now exists EmptyString|]. cbn [skip_ws].
  destruct (isSpace c) eqn:Hc.
  - exists (String c ws). cbn [append allSpace]. rewrite Hc, H. now rewrite <- E.
  - now exists EmptyString.
Qed.

Lemma skip_ws_idem s : skip_ws (skip_ws s) = skip_ws s.
Proof.
  induction s as [|c r IH]; [reflexivity|]. cbn [skip_ws].
  destruct (isSpace c) eqn:Hc; [exact IH|]. cbn [skip_ws]. now rewrite Hc.
Qed.

Lemma skip_ws_allSpace_app ws u : allSpace ws = true -> skip_ws (ws ++ u)%string = skip_ws u.
Proof.
  induction ws as [|c r IH]; simpl; [reflexivity|]. intros H.
  apply andb_prop in H. destruct H as [Hc Hr]. rewrite Hc. exact (IH Hr).
Qed.

Lemma trim_end_split u : exists z, u = (trim_end u ++ z)%string.
Proof.
  induction u as [|c r (z & E)]; [now exists EmptyString|]. cbn [trim_end].
  destruct (isSpace c && String.eqb (trim_end r) EmptyString).
  - now exists (String c r).
  - exists z. cbn [append]. now rewrite <- E.
Qed.

Lemma trim_end_blank_all u : trim_end u = EmptyString -> allSpace u = true.
Proof.
  induction u as [|c r IH]; [reflexivity|]. cbn [trim_end allSpace].
  destruct (isSpace c); [|discriminate]. cbn.
  destruct (String.eqb_spec (trim_end r) EmptyString) as [E|]; [|discriminate].
  intros _. exact (IH E).
Qed.

Lemma trim_end_keeps p : forall r,
  p <> EmptyString -> lastNonSpace p = true -> exists r', trim_end (p ++ r)%string = (p ++ r')%string.
Proof.
  induction p as [|c p IH]; intros r Hne Hl; [congruence|].
  cbn [append trim_end]. destruct p as [|d p'].
  - cbn [lastNonSpace] in Hl. apply negb_true_iff in Hl. rewrite Hl. cbn.
    now exists (trim_end r).
  - destruct (IH r ltac:(discriminate) Hl) as (r' & E). rewrite E.
    cbn [append]. rewrite andb_false_r. now exists r'.
Qed.

Lemma trim_end_skip u : skip_ws u = u -> skip_ws (trim_end u) = trim_end u.
Proof.
  destruct u as [|c r]; [reflexivity|]. cbn [skip_ws trim_end].
  destruct (isSpace c) eqn:Hc.
  - intros E. pose proof (skip_ws_length r) as L. rewrite E in L. cbn in L. lia.
  - intros _. cbn. now rewrite Hc.
Qed.

Lemma trim_end_last u : lastNonSpace (trim_end u) = true.
Proof.
  induction u as [|c r IH]; [reflexivity|]. cbn [trim_end].
  destruct (isSpace c) eqn:Hc; cbn.
  - destruct (String.eqb_spec (trim_end r) EmptyString) as [E|Hne]; [reflexivity|].
    cbn [lastNonSpace]. destruct (trim_end r); [congruence|exact IH].
  - cbn [lastNonSpace]. destruct (trim_end r); [now rewrite Hc|exact IH].
Qed.

Lemma trim_skip s : skip_ws (trim s) = trim s.
Proof. unfold trim. apply trim_end_skip, skip_ws_idem. Qed.

Lemma trim_last s : lastNonSpace (trim s) = true.
Proof. unfold trim. apply trim_end_last. Qed.

Lemma trim_idem s : trim (trim s) = trim s.
Proof. apply trim_id; [apply trim_skip|apply trim_last]. Qed.

Lemma noTick_skip_ws s : noTick s = true -> noTick (skip_ws s) = true.
Proof.
  intros H. destruct (skip_ws_split s) as (ws & E & _). rewrite E, noTick_app in H.
  now apply andb_prop in H.
Qed.

Lemma noTick_trim_end s : noTick s = true -> noTick (trim_end s) = true.
Proof.
  intros H. destruct (trim_end_split s) as (z & E). rewrite E, noTick_app in H.
  now apply andb_prop in H.
Qed.

Lemma noTick_trim s : noTick s = true -> noTick (trim s) = true.
Proof. intros H. unfold trim. now apply noTick_trim_end, noTick_skip_ws. Qed.

Lemma blank_noTick s : trim s = EmptyString -> noTick s = true.
Proof.
  intros H. destruct (skip_ws_split s) as (ws & E & Hws). rewrite E, noTick_app.
  rewrite (allSpace_noTick _ Hws). cbn. apply allSpace_noTick, trim_end_blank_all, H.
Qed.

Lemma noTick_plain s : noTick s = true -> _hasBackTicks s = false.
Proof.
  induction s as [|c r IH]; [reflexivity|]. cbn [noTick _hasBackTicks]. intros H.
  apply andb_prop in H. destruct H as [Hc Hr].
  now rewrite (notTick_no_start c r Hc), (IH Hr).
Qed.

Section Prefixing.

Variable prefix : string.
Hypothesis prefix_noTick : noTick prefix = true.
Hypothesis prefix_start : skip_ws prefix = prefix.
Hypothesis prefix_some : prefix <> EmptyString.

(** The group the replacer leaves between the backticks. *)
Definition prefixKey (key : string) : string :=
  let k := trim key in
  if String.eqb k EmptyString then key
  else if startsWith k prefix then k
  else (prefix ++ "." ++ k)%string.

Lemma replaceHoles_unparse ps :
  replaceHoles (prefixHole prefix) ps = unparse (mapHoles prefixKey ps).
Proof.
  induction ps as [|[c|k] ps IH]; [reflexivity| |];
    cbn [replaceHoles mapHoles map unparse]; fold (mapHoles prefixKey ps);
    rewrite IH; [reflexivity|].
  unfold prefixHole, prefixKey.
  destruct (String.eqb (trim k) EmptyString); [now rewrite !app_assoc_s|].
  destruct (startsWith (trim k) prefix); now rewrite !app_assoc_s.
Qed.

Lemma trim_prefixed k :
  k <> EmptyString -> lastNonSpace k = true ->
  trim (prefix ++ "." ++ k)%string = (prefix ++ "." ++ k)%string.
Proof.
  intros Hne Hl. apply trim_id.
  - now apply skip_ws_app.
  - rewrite lastNonSpace_app by discriminate.
    change ("." ++ k)%string with ("." ++ k)%string.
    now rewrite (lastNonSpace_app "." k Hne).
Qed.

Lemma startsWith_self r : startsWith (prefix ++ r)%string prefix = true.
Proof. unfold startsWith. now rewrite stripPrefix_self. Qed.

Lemma prefixKey_good k : good k -> good (prefixKey k).
Proof.
  intros [Hk Hne]. unfold prefixKey.
  destruct (String.eqb_spec (trim k) EmptyString) as [|Ht]; [now split|].
  destruct (startsWith (trim k) prefix).
  - split; [now apply noTick_trim|exact Ht].
  - split.
    + rewrite !noTick_app, prefix_noTick, (noTick_trim _ Hk). reflexivity.
    + intros E. apply app_empty_s in E. destruct E as [_ E]. discriminate.
Qed.

Lemma prefixKey_key k :
  (if String.eqb (trim (prefixKey k)) EmptyString then [] else [trim (prefixKey k)])
  = map (fun k => if startsWith k prefix then k else (prefix ++ "." ++ k)%string)
        (if String.eqb (trim k) EmptyString then [] else [trim k]).
Proof.
  unfold prefixKey.
  destruct (String.eqb_spec (trim k) EmptyString) as [E|Ht].
  - rewrite E. reflexivity.
  - destruct (startsWith (trim k) prefix) eqn:Hs.
    + rewrite trim_idem. destruct (String.eqb_spec (trim k) EmptyString); [contradiction|].
      cbn [map]. now rewrite Hs.
    + rewrite (trim_prefixed _ Ht (trim_last k)).
      destruct (String.eqb_spec (prefix ++ "." ++ trim k)%string EmptyString) as [E|_].
      * apply app_empty_s in E. destruct E as [_ E]. discriminate.
      * cbn [map]. now rewrite Hs.
Qed.

Lemma prefixKey_idem k : prefixKey (prefixKey k) = prefixKey k.
Proof.
  unfold prefixKey.
  destruct (String.eqb_spec (trim k) EmptyString) as [E|Ht].
  - now rewrite E.
  - destruct (startsWith (trim k) prefix) eqn:Hs.
    + rewrite trim_idem.
      destruct (String.eqb_spec (trim k) EmptyString); [contradiction|]. now rewrite Hs.
    + rewrite (trim_prefixed _ Ht (trim_last k)).
      destruct (String.eqb_spec (prefix ++ "." ++ trim k)%string EmptyString) as [E|_].
      * apply app_empty_s in E. destruct E as [_ E]. discriminate.
      * now rewrite startsWith_self.
Qed.

Lemma prefixTicks_pieces v :
  pieces (prefixTicks prefix v) = mapHoles prefixKey (pieces v).
Proof.
  unfold prefixTicks. rewrite replaceHoles_unparse.
  apply pieces_mapHoles, prefixKey_good.
Qed.

Lemma prefixTicks_idem v : prefixTicks prefix (prefixTicks prefix v) = prefixTicks prefix v.
Proof.
  unfold prefixTicks at 1. rewrite prefixTicks_pieces. unfold prefixTicks.
  rewrite !replaceHoles_unparse. f_equal. unfold mapHoles. rewrite map_map.
  apply map_ext. intros [c|k]; [reflexivity|]. now rewrite prefixKey_idem.
Qed.

Lemma prefixTicks_plain v : _hasBackTicks v = false -> prefixTicks prefix v = v.
Proof.
  intros H. unfold prefixTicks. rewrite (pieces_plain _ H).
  clear H. induction v as [|c v IH]; cbn; [reflexivity|]. now rewrite IH.
Qed.

Lemma prefixTicks_app pre rest :
  noTick pre = true -> prefixTicks prefix (pre ++ rest)%string = (pre ++ prefixTicks prefix rest)%string.
Proof.
  intros H. unfold prefixTicks. rewrite (pieces_noTick_app _ _ H).
  clear H. induction pre as [|c p IH]; cbn; [reflexivity|]. now rewrite IH.
Qed.

(** What the attribute loop does to one value. *)
Definition rewriteValue (v : string) : string :=
  if _hasBackTicks v then prefixTicks prefix v else v.

Lemma rewriteValue_ticks v : rewriteValue v = prefixTicks prefix v.
Proof.
  unfold rewriteValue. destruct (_hasBackTicks v) eqn:E; [reflexivity|].
  now rewrite prefixTicks_plain.
Qed.

Lemma rewriteValue_idem v : rewriteValue (rewriteValue v) = rewriteValue v.
Proof. rewrite !rewriteValue_ticks. apply prefixTicks_idem. Qed.

Hypothesis prefix_end : lastNonSpace prefix = true.

Lemma trim_starts r : startsWith (trim (prefix ++ r)%string) prefix = true.
Proof.
  unfold trim. rewrite (skip_ws_app _ _ prefix_some prefix_start).
  destruct (trim_end_keeps prefix r prefix_some prefix_end) as (r' & ->).
  apply startsWith_self.
Qed.

(** A value of [ezBind] that the loop has been over is left alone by the
    test on [ezBind]. *)
Lemma bind_settled v :
  let subKey := trim v in
  let bv := if negb (String.eqb subKey EmptyString) && negb (startsWith subKey prefix)
            then (prefix ++ "." ++ subKey)%string else v in
  negb (String.eqb (trim (rewriteValue bv)) EmptyString)
  && negb (startsWith (trim (rewriteValue bv)) prefix) = false.
Proof.
  intros subKey bv. subst bv subKey. rewrite rewriteValue_ticks.
  destruct (String.eqb_spec (trim v) EmptyString) as [E|Ht]; cbn [negb andb].
  - rewrite (prefixTicks_plain v) by (apply noTick_plain, blank_noTick, E).
    rewrite E. reflexivity.
  - destruct (startsWith (trim v) prefix) eqn:Hs; cbn [negb].
    + destruct (skip_ws_split v) as (ws & Ev & Hws).
      destruct (trim_end_split (skip_ws v)) as (z & Ez).
      unfold startsWith in Hs. fold (trim v) in Ez.
      destruct (stripPrefix prefix (trim v)) as [y|] eqn:Ey; [|discriminate].
      apply stripPrefix_shape in Ey. rewrite Ey in Ez.
      rewrite Ev, Ez. rewrite !app_assoc_s.
      rewrite prefixTicks_app by (apply allSpace_noTick, Hws).
      rewrite (prefixTicks_app prefix) by exact prefix_noTick.
      unfold trim at 1 2. rewrite (skip_ws_allSpace_app _ _ Hws).
      fold (trim (prefix ++ prefixTicks prefix (y ++ z))%string).
      rewrite trim_starts. now rewrite andb_false_r.
    + rewrite (prefixTicks_app prefix) by exact prefix_noTick.
      rewrite trim_starts. now rewrite andb_false_r.
Qed.

Lemma prefixElement_idem attrs :
  prefixElement prefix (prefixElement prefix attrs) = prefixElement prefix attrs.
Proof.
  unfold prefixElement. fold rewriteValue.
  set (attrs1 := match attrs !! "ezBind" with
                 | Some v =>
                     if negb (String.eqb (trim v) EmptyString)
                        && negb (startsWith (trim v) prefix)
                     then <["ezBind" := (prefix ++ "." ++ trim v)%string]> attrs
                     else attrs
                 | None => attrs
                 end).
  assert (Hsame : match (rewriteValue <$> attrs1) !! "ezBind" with
                  | Some v =>
                      if negb (String.eqb (trim v) EmptyString)
                         && negb (startsWith (trim v) prefix)
                      then <["ezBind" := (prefix ++ "." ++ trim v)%string]> (rewriteValue <$> attrs1)
                      else rewriteValue <$> attrs1
                  | None => rewriteValue <$> attrs1
                  end = rewriteValue <$> attrs1).
  { rewrite lookup_fmap. subst attrs1.
    destruct (attrs !! "ezBind") as [v|] eqn:Ev.
    - pose proof (bind_settled v) as Hb. cbv zeta in Hb.
      destruct (negb (String.eqb (trim v) EmptyString) && negb (startsWith (trim v) prefix)).
      + rewrite lookup_insert_eq. cbn [fmap option_fmap option_map]. now rewrite Hb.
      + rewrite Ev. cbn [fmap option_fmap option_map]. now rewrite Hb.
    - rewrite Ev. reflexivity. }
  rewrite Hsame. rewrite <- map_fmap_compose. apply map_fmap_ext.
  intros k v _. cbn. apply rewriteValue_idem.
Qed.

End Prefixing.

Lemma keys_mapHoles prefix ps :
  noTick prefix = true -> skip_ws prefix = prefix -> prefix <> EmptyString ->
  flat_map (fun p => match p with
                     | Hole m1 => if String.eqb (trim m1) EmptyString then [] else [trim m1]
                     | Lit _ => []
                     end) (mapHoles (prefixKey prefix) ps)
  = map (fun k => if startsWith k prefix then k else (prefix ++ "." ++ k)%string)
        (flat_map (fun p => match p with
                            | Hole m1 => if String.eqb (trim m1) EmptyString then [] else [trim m1]
                            | Lit _ => []
                            end) ps).
Proof.
  intros Hn Hs Hne. induction ps as [|[c|k] ps IH]; [reflexivity|exact IH|].
  cbn [mapHoles map flat_map]. fold (mapHoles (prefixKey prefix) ps).
  rewrite map_app, <- IH. f_equal. now apply prefixKey_key.
Qed.

(** The keys of a rewritten attribute value are the keys of the value,
    each under the prefix: a key that starts with the text of the prefix
    is kept, the others get the prefix and a dot in front. *)
Theorem prefixed_keys (prefix v : string) :
  noTick prefix = true -> skip_ws prefix = prefix -> prefix <> EmptyString ->
  _extractBackTickKeys (prefixTicks prefix v)
  = map (fun k => if startsWith k prefix then k else (prefix ++ "." ++ k)%string)
        (_extractBackTickKeys v).
Proof.
  intros Hn Hs Hne. unfold _extractBackTickKeys.
  rewrite (prefixTicks_pieces prefix Hn). now apply keys_mapHoles.
Qed.

Lemma prefixed_keys_witness :
  prefixTicks "items[0]" "``name`` (`` items[0].id ``) `` ``"
  = "``items[0].name`` (``items[0].id``) `` ``"%string
  /\ _extractBackTickKeys (prefixTicks "items[0]" "``name`` (`` items[0].id ``) `` ``")
     = ["items[0].name"%string; "items[0].id"%string].
Proof.
  split; [vm_compute; reflexivity|].
  etransitivity;
    [exact (prefixed_keys "items[0]" "``name`` (`` items[0].id ``) `` ``"
              eq_refl eq_refl ltac:(discriminate))|].
  vm_compute. reflexivity.
Defined.

(** *** The loop over the elements *)

Definition stepAttrs (prefix : string) (d : DomState) (a : gmap node (gmap string string))
    (el : node) : gmap node (gmap string string) :=
  if isElement d el then alter (prefixElement prefix) el a else a.

Lemma prefixTree_fold prefix d l : forall a,
  fold_left (fun d el =>
               if isElement d el
               then setAttrs d (alter (prefixElement prefix) el (d_attrs d))
               else d) l (setAttrs d a)
  = setAttrs d (fold_left (stepAttrs prefix d) l a).
Proof.
  induction l as [|el l IH]; intros a; [reflexivity|]. cbn [fold_left].
  unfold stepAttrs at 2.
  change (isElement (setAttrs d a) el) with (isElement d el).
  destruct (isElement d el); [|apply IH]. exact (IH _).
Qed.

Lemma setAttrs_same d : setAttrs d (d_attrs d) = d.
Proof. now destruct d. Qed.

Lemma stepAttrs_lookup prefix d l :
  (forall m, prefixElement prefix (prefixElement prefix m) = prefixElement prefix m) ->
  forall a n,
  fold_left (stepAttrs prefix d) l a !! n
  = if bool_decide (n ∈ l) && isElement d n then prefixElement prefix <$> a !! n else a !! n.
Proof.
  intros Hid. induction l as [|el l IH]; intros a n.
  - cbn [fold_left]. rewrite bool_decide_eq_false_2 by apply not_elem_of_nil. reflexivity.
  - cbn [fold_left]. rewrite IH. unfold stepAttrs.
    destruct (decide (n = el)) as [->|Hne].
    + rewrite (bool_decide_eq_true_2 (el ∈ el :: l)) by (apply elem_of_cons; now left).
      destruct (isElement d el); [|now rewrite !andb_false_r].
      rewrite !andb_true_r. rewrite lookup_alter_eq.
      destruct (bool_decide (el ∈ l)); [|reflexivity].
      destruct (a !! el); cbn; [now rewrite Hid|reflexivity].
    + assert (Hl : bool_decide (n ∈ el :: l) = bool_decide (n ∈ l)).
      { apply bool_decide_ext. rewrite elem_of_cons. tauto. }
      rewrite Hl. destruct (isElement d el); [|reflexivity].
      now rewrite lookup_alter_ne by congruence.
Qed.

(** Running the loop over a tree that it has been over changes nothing;
    the first run rewrites the attributes of the elements it visits and
    leaves the shape of the tree alone. *)
Theorem prefix_twice_is_once (rootEl : node) (kids : list node) (prefix : string)
    (d : DomState) :
  noTick prefix = true -> skip_ws prefix = prefix -> lastNonSpace prefix = true ->
  prefix <> EmptyString ->
  let once := _prefixTemplateKeysInTree rootEl kids prefix d in
  _prefixTemplateKeysInTree rootEl kids prefix once = once
  /\ (forall el,
        d_attrs once !! el
        = if bool_decide (el ∈ rootEl :: kids) && isElement d el
          then prefixElement prefix <$> d_attrs d !! el
          else d_attrs d !! el)
  /\ d_kind once = d_kind d /\ d_parent once = d_parent d
  /\ d_children once = d_children d.
Proof.
  intros Hn Hs Hl Hne once.
  pose proof (prefixElement_idem prefix Hn Hs Hne Hl) as Hid.
  assert (Honce : once = setAttrs d (fold_left (stepAttrs prefix d) (rootEl :: kids) (d_attrs d))).
  { subst once. unfold _prefixTemplateKeysInTree.
    rewrite <- (setAttrs_same d) at 1. apply prefixTree_fold. }
  split; [|rewrite Honce; repeat split].
  - unfold _prefixTemplateKeysInTree. fold once. rewrite Honce at 1.
    rewrite prefixTree_fold. rewrite Honce. cbn [d_attrs setAttrs]. f_equal.
    apply map_eq. intros n. rewrite (stepAttrs_lookup prefix d _ Hid).
    rewrite (stepAttrs_lookup prefix d _ Hid).
    destruct (bool_decide (n ∈ rootEl :: kids) && isElement d n); [|reflexivity].
    destruct (d_attrs d !! n); cbn; [now rewrite Hid|reflexivity].
  - intros el. cbn [d_attrs setAttrs]. apply (stepAttrs_lookup prefix d _ Hid).
Qed.

(** A row with a cell: the row binds [name] and shows it in its title,
    the cell has a class that is no template. *)
Definition rowPage : DomState :=
  {| d_kind := {[ 1 := Element; 2 := Element; 3 := TextNode ]};
     d_parent := {[ 2 := 1; 3 := 2 ]};
     d_children := {[ 1 := [2]; 2 := [3] ]};
     d_attrs := {[ 1 := {[ "ezBind" := "name"; "title" := "``name``" ]};
                   2 := {[ "class" := "cell" ]} ]};
     d_nextNode := 4;
     d_updating := ∅;
     d_rendered := ∅ |}.

Lemma prefix_twice_is_once_witness :
  d_attrs (_prefixTemplateKeysInTree 1 [2] "items[0]" rowPage) !! 1
  = Some {[ "ezBind" := "items[0].name"%string; "title" := "``items[0].name``"%string ]}
  /\ _prefixTemplateKeysInTree 1 [2] "items[0]" (_prefixTemplateKeysInTree 1 [2] "items[0]" rowPage)
     = _prefixTemplateKeysInTree 1 [2] "items[0]" rowPage.
Proof.
  split; [vm_compute; reflexivity|].
  exact (proj1 (prefix_twice_is_once 1 [2] "items[0]" rowPage
                  eq_refl eq_refl eq_refl ltac:(discriminate))).
Defined.

(** ** Writing at a path *)

(** A step that reads: it extends the books of the wrapper, and leaves
    them in order when it finds them so. *)
Definition keeps (x x' : Wrapper) : Prop := extends x x' /\ (wrapperOK x -> wrapperOK x').

Definition keepsE (e e' : Engine) : Prop := keeps (wr (world e)) (wr (world e')).

Lemma keeps_refl x : keeps x x.
Proof. split; [apply extends_refl|auto]. Qed.

Lemma keeps_trans x y z : keeps x y -> keeps y z -> keeps x z.
Proof. intros [E1 K1] [E2 K2]. split; [eapply extends_trans; eassumption|auto]. Qed.

Lemma keepsE_refl e : keepsE e e.
Proof. apply keeps_refl. Qed.

Lemma keepsE_trans e1 e2 e3 : keepsE e1 e2 -> keepsE e2 e3 -> keepsE e1 e3.
Proof. apply keeps_trans. Qed.

Lemma jsGet_keeps cur k x : keeps x (snd (jsGet cur k x)).
Proof. split; [apply jsGet_extends|apply jsGet_ok]. Qed.

Lemma keepsE_fold {A} (f : Engine -> A -> Engine) (l : list A) :
  (forall e a, keepsE e (f e a)) -> forall e, keepsE e (fold_left f l e).
Proof.
  intros Hf. induction l as [|a l IH]; intros e; [apply keepsE_refl|].
  cbn [fold_left]. eapply keepsE_trans; [apply Hf|apply IH].
Qed.

Lemma anyOptionIs_keeps opts tgt idx : forall x, keeps x (snd (anyOptionIs opts tgt idx x)).
Proof.
  induction idx as [|i rest IH]; intros x; cbn [anyOptionIs]; [apply keeps_refl|].
  pose proof (jsGet_keeps opts (numToString (N.of_nat i)) x) as H.
  destruct (jsGet opts _ x) as [oi x1]. cbn [snd] in H.
  destruct (strict_eq oi (VObj tgt)); [exact H|].
  eapply keeps_trans; [exact H|apply IH].
Qed.

Lemma modelContainsTarget_keeps m tgt x : keeps x (snd (_modelContainsTarget m tgt x)).
Proof.
  unfold _modelContainsTarget.
  destruct (negb (truthy m)); [apply keeps_refl|].
  destruct (strict_eq m (VObj tgt)); [apply keeps_refl|].
  pose proof (jsGet_keeps m "options" x) as H1.
  destruct (jsGet m "options" x) as [o1 x1]. cbn [snd] in H1.
  assert (H2 : keeps x1 (snd (if truthy o1 then jsGet m "options" x1 else (o1, x1)))).
  { destruct (truthy o1); [apply jsGet_keeps|apply keeps_refl]. }
  destruct (if truthy o1 then jsGet m "options" x1 else (o1, x1)) as [o2 x2]. cbn [snd] in H2.
  pose proof (keeps_trans _ _ _ H1 H2) as H12.
  destruct (truthy o1 && strict_eq o2 (VObj tgt)); [exact H12|].
  pose proof (jsGet_keeps m "options" x2) as H3.
  destruct (jsGet m "options" x2) as [opts x3]. cbn [snd] in H3.
  pose proof (keeps_trans _ _ _ H12 H3) as H123.
  destruct (isArrayValue x3 opts); [|exact H123].
  pose proof (jsGet_keeps opts "length" x3) as H4.
  destruct (jsGet opts "length" x3) as [len x4]. cbn [snd] in H4.
  eapply keeps_trans; [exact H123|]. eapply keeps_trans; [exact H4|].
  apply anyOptionIs_keeps.
Qed.

Section KeepingHook.

Variable apply_leaf : nat -> World -> World.
Variable apply_bt : nat -> string -> World -> World.
Variable apply_deep : nat -> string -> World -> World.
Variable getRootRaw : nat -> World -> value * World.

(** The closures of the binding records read the data, and leave the books
    of the wrapper in order when they find them so. *)
Hypothesis leaf_keeps : forall id w, keeps (wr w) (wr (apply_leaf id w)).
Hypothesis bt_keeps : forall id k w, keeps (wr w) (wr (apply_bt id k w)).
Hypothesis deep_keeps : forall id k w, keeps (wr w) (wr (apply_deep id k w)).
Hypothesis root_keeps : forall id w, keeps (wr w) (wr (snd (getRootRaw id w))).

Lemma notifyBindings_keeps q e : keepsE e (_notifyBindings apply_leaf q e).
Proof.
  unfold _notifyBindings. apply keepsE_fold. intros e' b. unfold notifyLeaf, keepsE.
  destruct (deadElement _ _); [apply keeps_refl|]. apply leaf_keeps.
Qed.

Lemma notifyBackTicks_keeps q e : keepsE e (_notifyBackTicks apply_bt q e).
Proof.
  unfold _notifyBackTicks. apply keepsE_fold. intros e' b. unfold notifyBt, keepsE.
  apply bt_keeps.
Qed.

Lemma notifyFor_keeps q e : keepsE e (_notifyFor q e).
Proof.
  unfold _notifyFor. apply keepsE_fold. intros e' [k l]. unfold notifyForKey.
  destruct (_isPathPrefix _ _); [|apply keepsE_refl].
  apply keepsE_fold. intros e'' r. unfold notifyForRec, keepsE.
  destruct (negb _); apply keeps_refl.
Qed.

Lemma notifyDeepBindings_keeps c e :
  keepsE e (_notifyDeepBindings apply_deep getRootRaw c e).
Proof.
  unfold _notifyDeepBindings. destruct (String.eqb _ _); [apply keepsE_refl|].
  apply keepsE_fold. intros e' r. unfold notifyDeep, applyDeep, keepsE.
  destruct (deadElement _ _); [apply keeps_refl|].
  destruct (_isPathPrefix _ _); [apply deep_keeps|].
  pose proof (root_keeps (dr_id r) (world e')) as H1.
  destruct (getRootRaw _ _) as [rootRaw w1]. cbn [snd] in H1.
  pose proof (modelContainsTarget_keeps rootRaw (c_target c) (wr w1)) as H2.
  destruct (_modelContainsTarget _ _ _) as [hit x2]. cbn [snd] in H2.
  pose proof (keeps_trans _ _ _ H1 H2) as H12.
  destruct hit; [|exact H12].
  eapply keeps_trans; [exact H12|]. apply (deep_keeps _ _ (with_wr w1 x2)).
Qed.

Lemma notifyExact_keeps q e : keepsE e (notifyExact apply_leaf apply_bt q e).
Proof.
  unfold notifyExact.
  eapply keepsE_trans; [apply notifyBindings_keeps|].
  eapply keepsE_trans; [apply notifyBackTicks_keeps|apply notifyFor_keeps].
Qed.

Lemma notifyDescendants_keeps q e : keepsE e (_notifyDescendants apply_leaf apply_bt q e).
Proof.
  unfold _notifyDescendants. destruct (String.eqb _ _); [apply keepsE_refl|].
  cbv zeta. eapply keepsE_trans; [|apply notifyFor_keeps].
  eapply keepsE_trans; [|apply keepsE_fold].
  - apply keepsE_fold. intros e' k. destruct (isDescendantKey _ _);
      [apply notifyBindings_keeps|apply keepsE_refl].
  - intros e' k. destruct (isDescendantKey _ _);
      [apply notifyBackTicks_keeps|apply keepsE_refl].
Qed.

Lemma notifyParents_keeps n : forall arr e,
  keepsE e (notifyParents apply_leaf apply_bt n arr e).
Proof.
  induction n as [|n IH]; intros arr e; [apply keepsE_refl|]. cbn [notifyParents].
  destruct (removelast arr); [apply keepsE_refl|].
  eapply keepsE_trans; [apply notifyExact_keeps|apply IH].
Qed.

Lemma onChange_keeps c e :
  keepsE e (onChange apply_leaf apply_bt apply_deep getRootRaw c e).
Proof.
  unfold onChange. destruct (String.eqb _ _); [apply keepsE_refl|].
  eapply keepsE_trans; [apply notifyDeepBindings_keeps|].
  eapply keepsE_trans; [apply notifyExact_keeps|].
  eapply keepsE_trans; [|apply notifyParents_keeps].
  destruct (isObjReplace c); [apply notifyDescendants_keeps|apply keepsE_refl].
Qed.

Lemma emitChange_keeps c e :
  keepsE e (_emitChange apply_leaf apply_bt apply_deep getRootRaw c e).
Proof.
  unfold _emitChange, keepsE. destruct (hook _) as [[]|]; try apply keeps_refl.
  apply (onChange_keeps c (log_event e c)).
Qed.

End KeepingHook.

(** [typeof nk === "number"], or [nk] is a run of digits. *)
Definition wantsArray (nk : key) : bool :=
  match nk with
  | KNum _ => true
  | KStr s => isDigits s
  end.

Definition emptyObject : obj := Obj false false ∅.
Definition emptyArray : obj := Obj true false {[ "length" := VNum 0 ]}.

Definition with_books (e : Engine) (x : Wrapper) : Engine :=
  with_world e (with_wr (world e) x).

(** A new object: a location the heap does not use. *)
Definition alloc (o : obj) (e : Engine) : loc * Engine :=
  let h := heap (wr (world e)) in
  let l := fresh (dom h) in
  (l, with_heap e (<[l := o]> h)).

(** How a call ends: it returns, it throws, or it gets to where this
    model does not follow (the properties of a function are not kept,
    and see [Beyond]). *)
Inductive ended :=
| Returned (e : Engine)
| Threw (e : Engine)
| Outside (e : Engine).

(** What a Proxy checks when a trap has answered: an own data property
    of the target that can be neither written nor redefined is read,
    and written, as the value it holds; if not, the operation throws. *)
Definition reportable (h : gmap loc obj) (target : loc) (k : string) (out : value) : bool :=
  match ownProp h target k with
  | Some (PData v w _ c) => w || c || sameValue out v
  | _ => true
  end.

(** [Reflect.get(cur, k)] on an object or a wrapper: the value and the
    books of the wrapper afterwards, or a TypeError. *)
Inductive got :=
| Got (v : value) (x : Wrapper)
| GetThrows (x : Wrapper).

Definition reflectGet (cur : value) (k : string) (x : Wrapper) : got :=
  match cur with
  | VProxy p =>
      let '(out, x1) := proxyGet p k x in
      match proxies x !! p with
      | Some (target, _) =>
          if reportable (heap x) target k out then Got out x1 else GetThrows x1
      | None => Got out x1
      end
  | VObj l => Got (rawGet (heap x) l k) x
  | _ => GetThrows x
  end.

Section SetAtPath.

Variable apply_leaf : nat -> World -> World.
Variable apply_bt : nat -> string -> World -> World.
Variable apply_deep : nat -> string -> World -> World.
Variable getRootRaw : nat -> World -> value * World.

(** [Reflect.set(cur, k, v)], whose result [_setAtPath] does not look at. *)
Definition Reflect_set (gas : nat) (cur : value) (k : string) (v : value) (e : Engine)
  : ended :=
  match cur with
  | VProxy p =>
      match proxySet apply_leaf apply_bt apply_deep getRootRaw gas p k v e with
      | (Ok, e') =>
          match proxies (wr (world e)) !! p with
          | Some (target, _) =>
              if reportable (heap (wr (world e'))) target k v then Returned e' else Threw e'
          | None => Returned e'
          end
      | (No, e') => Returned e'
      | (Throws, e') => Threw e'
      | (Unknown, e') => Outside e'
      end
  | VObj l =>
      match rawSet l k v (heap (wr (world e))) with
      | Stored h' => Returned (with_heap e h')
      | Refused => Returned e
      | Thrown => Threw e
      | Beyond => Outside e
      end
  | VFun _ => Outside e
  | _ => Threw e
  end.

(** The loop of [_setAtPath] and the write after it, from [cur] on. *)
Fixpoint setLoop (gas : nat) (cur : value) (pathArr : path) (value : value) (e : Engine)
  : ended :=
  match pathArr with
  | [] => Returned e
  | k :: rest =>
      match rest with
      | [] => Reflect_set gas cur (keyString k) value e
      | nk :: _ =>
          match cur with
          | VFun _ => Outside e
          | _ =>
              match reflectGet cur (keyString k) (wr (world e)) with
              | GetThrows x1 => Threw (with_books e x1)
              | Got next x1 =>
                  let e1 := with_books e x1 in
                  if nullish next then
                    let '(made, e2) :=
                      alloc (if wantsArray nk then emptyArray else emptyObject) e1 in
                    match Reflect_set gas cur (keyString k) (VObj made) e2 with
                    | Returned e3 =>
                        match reflectGet cur (keyString k) (wr (world e3)) with
                        | GetThrows x4 => Threw (with_books e3 x4)
                        | Got next' x4 => setLoop gas next' rest value (with_books e3 x4)
                        end
                    | other => other
                    end
                  else setLoop gas next rest value e1
              end
          end
      end
  end.

(** [_setAtPath(root, pathArr, value)] *)
Definition _setAtPath (gas : nat) (root : value) (pathArr : path) (value : value) (e : Engine)
  : ended :=
  if negb (truthy root) then Returned e
  else
    match pathArr with
    | [] => Returned e
    | _ => setLoop gas root pathArr value e
    end.

End SetAtPath.

(** Every container on the way along [ks] from [cur] is there, and
    can be read. *)
Fixpoint present (cur : value) (ks : path) (x : Wrapper) : bool :=
  match ks with
  | [] => true
  | k :: rest =>
      isObjectValue cur
      && match reflectGet cur (keyString k) x with
         | Got next x1 => negb (nullish next) && present next rest x1
         | GetThrows _ => false
         end
  end.

Lemma with_books_same e : with_books e (wr (world e)) = e.
Proof. destruct e as [[x d s] r ev vs]. reflexivity. Qed.

Lemma reflectGet_jsGet cur k x next x1 :
  reflectGet cur k x = Got next x1 -> jsGet cur k x = (next, x1).
Proof.
  destruct cur; try discriminate; cbn [reflectGet jsGet].
  - now intros [= <- <-].
  - destruct (proxyGet p k x) as [out x2].
    destruct (proxies x !! p) as [[target pa]|]; [destruct (reportable _ _ _ _)|];
      try discriminate; now intros [= <- <-].
Qed.

Section SetAtPathFacts.

Variable apply_leaf : nat -> World -> World.
Variable apply_bt : nat -> string -> World -> World.
Variable apply_deep : nat -> string -> World -> World.
Variable getRootRaw : nat -> World -> value * World.

Local Abbreviation setLoop' := (setLoop apply_leaf apply_bt apply_deep getRootRaw).
Local Abbreviation setAtPath' := (_setAtPath apply_leaf apply_bt apply_deep getRootRaw).
Local Abbreviation Reflect_set' := (Reflect_set apply_leaf apply_bt apply_deep getRootRaw).
Local Abbreviation proxySet' := (proxySet apply_leaf apply_bt apply_deep getRootRaw).

(** With every container there, the loop is the walk of [_getAtPath]. *)
Lemma setLoop_walk gas v k : forall ks root e,
  present root ks (wr (world e)) = true ->
  setLoop' gas root (ks ++ [k]) v e
  = Reflect_set' gas (fst (_getAtPath root ks (wr (world e)))) (keyString k) v
      (with_books e (snd (_getAtPath root ks (wr (world e))))).
Proof.
  induction ks as [|k0 r IH]; intros root e Hp.
  - cbn [app setLoop _getAtPath fst snd]. now rewrite with_books_same.
  - cbn [present] in Hp. apply andb_prop in Hp. destruct Hp as [Ho Hp].
    cbn [app setLoop _getAtPath].
    destruct (reflectGet root (keyString k0) (wr (world e))) as [next x1|] eqn:Eg;
      [|discriminate].
    rewrite (reflectGet_jsGet _ _ _ _ _ Eg).
    apply andb_prop in Hp. destruct Hp as [Hn Hp]. apply negb_true_iff in Hn.
    specialize (IH next (with_books e x1) Hp).
    assert (Hnn : nullish root = false) by now destruct root.
    rewrite Hnn, Hn.
    destruct (r ++ [k]) as [|nk t] eqn:E; [now destruct r|].
    destruct root; try discriminate; exact IH.
Qed.

End SetAtPathFacts.

Lemma unwrap_plain x v : isObjectValue v = false -> unwrapValue x v = v.
Proof. now destruct v. Qed.

Lemma wrapperOK_heap x h :
  wrapperOK x ->
  wrapperOK {| heap := h; rawPaths := rawPaths x; proxyCache := proxyCache x;
               proxies := proxies x; hook := hook x; sysData := sysData x |}.
Proof. intros [a b c d f]. split; assumption. Qed.

Lemma wrapperOK_hook x f :
  wrapperOK x ->
  wrapperOK {| heap := heap x; rawPaths := rawPaths x; proxyCache := proxyCache x;
               proxies := proxies x; hook := f; sysData := sysData x |}.
Proof. intros [a b c d g]. split; assumption. Qed.

(** A property that takes the assignment is reported as it is written. *)
Lemma accepts_reportable h l k v : accepts h l k = true -> reportable h l k v = true.
Proof.
  unfold accepts, reportable, ownProp. destruct (h !! l) as [o|]; [|discriminate].
  destruct (o_own o !! k) as [[v0 w en c|]|]; try reflexivity.
  intros H. apply andb_prop in H. destruct H as [-> _]. reflexivity.
Qed.

Section SetAtPathEffects.

Variable apply_leaf : nat -> World -> World.
Variable apply_bt : nat -> string -> World -> World.
Variable apply_deep : nat -> string -> World -> World.
Variable getRootRaw : nat -> World -> value * World.

Hypothesis leaf_keeps : forall id w, keeps (wr w) (wr (apply_leaf id w)).
Hypothesis bt_keeps : forall id k w, keeps (wr w) (wr (apply_bt id k w)).
Hypothesis deep_keeps : forall id k w, keeps (wr w) (wr (apply_deep id k w)).
Hypothesis root_keeps : forall id w, keeps (wr w) (wr (snd (getRootRaw id w))).

Local Abbreviation setLoop' := (setLoop apply_leaf apply_bt apply_deep getRootRaw).
Local Abbreviation setAtPath' := (_setAtPath apply_leaf apply_bt apply_deep getRootRaw).
Local Abbreviation proxySet' := (proxySet apply_leaf apply_bt apply_deep getRootRaw).
Local Abbreviation Reflect_set' := (Reflect_set apply_leaf apply_bt apply_deep getRootRaw).
Local Abbreviation emitChange' := (_emitChange apply_leaf apply_bt apply_deep getRootRaw).

Lemma emit_keeps c e : keepsE e (emitChange' c e).
Proof. now apply emitChange_keeps. Qed.

Lemma emitAliasesFrom_keeps gas : forall i target factory e,
  keepsE e (emitAliasesFrom apply_leaf apply_bt apply_deep getRootRaw gas i target factory e).
Proof.
  induction gas as [|gas IH]; intros i target factory e; cbn [emitAliasesFrom];
    [apply keepsE_refl|].
  destruct (aliases _ _ !! i) as [[ps pa]|]; [|apply keepsE_refl].
  eapply keepsE_trans; [apply emit_keeps|apply IH].
Qed.

Lemma emitAllAliases_keeps gas target primary factory e :
  keepsE e (_emitAllAliases apply_leaf apply_bt apply_deep getRootRaw gas target primary
              factory e).
Proof.
  unfold _emitAllAliases. destruct (aliases _ _);
    [apply emit_keeps|apply emitAliasesFrom_keeps].
Qed.

Lemma set_effect gas p prop v e target pathArr :
  proxies (wr (world e)) !! p = Some (target, pathArr) ->
  _isInternalKey prop = false ->
  accepts (heap (wr (world e))) target prop = true ->
  let h := heap (wr (world e)) in
  let nv := unwrapValue (wr (world e)) v in
  let same := hasOwn h target prop && strict_eq (rawGet h target prop) nv in
  let r := proxySet' gas p prop v e in
  fst r = Ok
  /\ heap (wr (world (snd r))) = (if same then h else rawAssign target prop nv h)
  /\ proxies (wr (world e)) `prefix_of` proxies (wr (world (snd r))).
Proof.
  intros Hp Hint Hacc.
  exact (proxySet_effect apply_leaf apply_bt apply_deep getRootRaw
           (fun id w => proj1 (leaf_keeps id w))
           (fun id k w => proj1 (bt_keeps id k w))
           (fun id k w => proj1 (deep_keeps id k w))
           (fun id w => proj1 (root_keeps id w))
           gas p prop v e target pathArr Hp Hint Hacc).
Qed.

(** An accepted write through a wrapper returns. *)
Lemma Reflect_set_accepted gas p prop v e target pathArr :
  proxies (wr (world e)) !! p = Some (target, pathArr) ->
  _isInternalKey prop = false ->
  accepts (heap (wr (world e))) target prop = true ->
  Reflect_set' gas (VProxy p) prop v e = Returned (snd (proxySet' gas p prop v e)).
Proof.
  intros Hp Hint Hacc.
  destruct (set_effect gas p prop v e target pathArr Hp Hint Hacc) as (Hok & Hh & _).
  cbn [Reflect_set]. destruct (proxySet' gas p prop v e) as [r e'] eqn:Er.
  cbn [fst snd] in Hok, Hh. subst r. rewrite Hp.
  assert (Hrep : reportable (heap (wr (world e'))) target prop v = true).
  { rewrite Hh. destruct (hasOwn _ _ _ && strict_eq _ _); [now apply accepts_reportable|].
    destruct (rawAssign_stored (heap (wr (world e))) target prop
                (unwrapValue (wr (world e)) v) Hacc)
      as (o & own' & en & c & Ho & -> & Hk & _).
    unfold reportable, ownProp. rewrite lookup_insert_eq. cbn [with_own o_own].
    now rewrite Hk. }
  now rewrite Hrep.
Qed.

End SetAtPathEffects.

Section SetAtPathClaims.

Variable apply_leaf : nat -> World -> World.
Variable apply_bt : nat -> string -> World -> World.
Variable apply_deep : nat -> string -> World -> World.
Variable getRootRaw : nat -> World -> value * World.

Hypothesis leaf_keeps : forall id w, keeps (wr w) (wr (apply_leaf id w)).
Hypothesis bt_keeps : forall id k w, keeps (wr w) (wr (apply_bt id k w)).
Hypothesis deep_keeps : forall id k w, keeps (wr w) (wr (apply_deep id k w)).
Hypothesis root_keeps : forall id w, keeps (wr w) (wr (snd (getRootRaw id w))).

Local Abbreviation setLoop' := (setLoop apply_leaf apply_bt apply_deep getRootRaw).
Local Abbreviation setAtPath' := (_setAtPath apply_leaf apply_bt apply_deep getRootRaw).
Local Abbreviation proxySet' := (proxySet apply_leaf apply_bt apply_deep getRootRaw).


End SetAtPathClaims.

Lemma wrapperOK_fields x x' :
  rawPaths x' = rawPaths x -> proxyCache x' = proxyCache x -> proxies x' = proxies x ->
  wrapperOK x -> wrapperOK x'.
Proof.
  destruct x, x'. cbn. intros -> -> -> [a b c d f]. split; assumption.
Qed.

Lemma fourData_ok : wrapperOK fourData.
Proof.
  apply (wrapperOK_fields freshFour); [reflexivity..|].
  apply wrap_ok, blank_ok.
Qed.

Lemma readsLeaf_keeps id w : keeps (wr w) (wr (readsLeaf id w)).
Proof. split; [apply readsLeaf_reads|]. unfold readsLeaf. cbn [with_wr wr]. apply getAtPath_ok. Qed.

Lemma readsPath_keeps id w : keeps (wr w) (wr (readsPath id w)).
Proof. split; [apply readsPath_reads|]. unfold readsPath. cbn [with_wr wr]. apply getAtPath_ok. Qed.

